(** * The SPIR-V decompiler of renderdoc: parser, inliner, label sweep,
      shuffle rendering, signatures and reflection tables

    A shallow embedding of
    [renderdoc/driver/shaders/spirv/spirv_disassemble.cpp].

    The module arena.  In the C++ code [SPVModule::operations] owns every
    [SPVInstruction] through a pointer, and every other edge of the
    instruction graph is a non-owning [SPVInstruction *] into that pool.
    Here the pool is a list, a pointer is an index into it, and pointer
    equality is equality of indices.  A payload pointer such as
    [SPVTypeData *] always points into the instruction that owns the
    payload, so it is the index of that instruction (or [None] for NULL).

    Fields of the C++ structs that none of the embedded functions reads
    (names, source positions, decorations, image attributes, execution
    modes) are left out of the records.  Every allocation, every call of
    [GetByID], and every write to [ids], [operations], [globals], [funcs],
    to blocks, functions and operation annotations is kept, in source
    order.

    Undefined behaviour of the C++ code (an index past the end of a vector,
    a read through a null payload pointer, a shift by the width of the type
    or more) is a [Fault]; so is a loop that has used up its fuel. *)

From Stdlib Require Import ZArith String Sorting.Sorted Sorting.Permutation.
From Stdlib Require Import DecimalString.
From stdpp Require Import base list.

Local Open Scope Z_scope.

(** ** Results and the state monad *)

Inductive fault := OutOfRange | NullDeref | OutOfFuel.

Inductive result (A : Type) :=
| Ok (a : A)
| Fault (e : fault).
Arguments Ok {A} a.
Arguments Fault {A} e.

Definition M (S A : Type) : Type := S -> result (A * S).

Definition ret {S A} (a : A) : M S A := fun s => Ok (a, s).

Definition bindM {S A B} (c : M S A) (k : A -> M S B) : M S B :=
  fun s => match c s with
           | Ok (a, s') => k a s'
           | Fault e => Fault e
           end.

Definition fail {S A} (e : fault) : M S A := fun _ => Fault e.
Definition get {S} : M S S := fun s => Ok (s, s).
Definition put {S} (s : S) : M S unit := fun _ => Ok (tt, s).
Definition modify {S} (f : S -> S) : M S unit := fun s => Ok (tt, f s).

Definition lift_opt {S A} (e : fault) (o : option A) : M S A :=
  match o with
  | Some a => ret a
  | None => fail e
  end.

Declare Scope monad_scope.
Delimit Scope monad_scope with monad.
Notation "x <- c ;; k" := (bindM c (fun x => k))
  (at level 100, c at next level, right associativity) : monad_scope.
Notation "c ;; k" := (bindM c (fun _ => k))
  (at level 100, right associativity) : monad_scope.
Local Open Scope monad_scope.

(** [for (x : l) body], no early exit. *)
Fixpoint forM_ {S A} (l : list A) (body : A -> M S unit) : M S unit :=
  match l with
  | [] => ret tt
  | x :: l' => body x ;; forM_ l' body
  end.

(** A loop that threads an accumulator through the iterations. *)
Fixpoint foldM {S A B} (l : list A) (b : B) (body : B -> A -> M S B) : M S B :=
  match l with
  | [] => ret b
  | x :: l' => b' <- body b x ;; foldM l' b' body
  end.

(** ** Opcodes

    The enumerators of [spv::Op] that the code names, [OpUnknown] (which the
    file itself defines as [(Op)~0U]) and any other numeric opcode. *)

Inductive Op :=
| OpNop | OpSource | OpSourceContinued | OpSourceExtension | OpCapability
| OpMemoryModel | OpEntryPoint | OpExecutionMode | OpExtInstImport | OpString
| OpTypeVoid | OpTypeBool | OpTypeInt | OpTypeFloat | OpTypeVector
| OpTypeMatrix | OpTypeArray | OpTypeStruct | OpTypePointer | OpTypeImage
| OpTypeSampler | OpTypeSampledImage | OpTypeFunction
| OpConstantTrue | OpConstantFalse | OpConstant | OpConstantComposite
| OpConstantSampler
| OpFunction | OpFunctionEnd | OpVariable | OpFunctionParameter
| OpLabel | OpKill | OpUnreachable | OpReturn | OpReturnValue | OpBranch
| OpBranchConditional | OpSelectionMerge | OpLoopMerge
| OpLoad | OpStore | OpCopyMemory
| OpImageSampleImplicitLod | OpImageSampleExplicitLod
| OpConvertFToS | OpConvertFToU | OpConvertUToF | OpConvertSToF | OpBitcast
| OpFunctionCall | OpVectorShuffle | OpExtInst
| OpIAdd | OpFAdd | OpISub | OpFSub | OpIMul | OpFMul | OpFDiv | OpFMod
| OpVectorTimesScalar | OpMatrixTimesVector | OpMatrixTimesMatrix
| OpSLessThan | OpSLessThanEqual | OpFOrdLessThan | OpFOrdGreaterThan
| OpFOrdGreaterThanEqual | OpLogicalAnd | OpLogicalOr | OpLogicalNotEqual
| OpShiftLeftLogical | OpFNegate | OpNot | OpLogicalNot
| OpCompositeConstruct | OpAccessChain | OpDot | OpSelect
| OpCompositeExtract | OpCompositeInsert
| OpName | OpMemberName | OpLine | OpDecorate | OpMemberDecorate
| OpGroupDecorate | OpGroupMemberDecorate | OpDecorationGroup
| OpUnknown
| OpOther (code : Z).

(** Equality of opcodes goes through a numbering of the enumerators, which
    keeps the decision procedure linear in their number. *)
Definition Op_tag (o : Op) : Z * Z :=
  match o with
  | OpNop => (0, 0) | OpSource => (1, 0) | OpSourceContinued => (2, 0)
  | OpSourceExtension => (3, 0) | OpCapability => (4, 0)
  | OpMemoryModel => (5, 0) | OpEntryPoint => (6, 0)
  | OpExecutionMode => (7, 0) | OpExtInstImport => (8, 0) | OpString => (9, 0)
  | OpTypeVoid => (10, 0) | OpTypeBool => (11, 0) | OpTypeInt => (12, 0)
  | OpTypeFloat => (13, 0) | OpTypeVector => (14, 0) | OpTypeMatrix => (15, 0)
  | OpTypeArray => (16, 0) | OpTypeStruct => (17, 0) | OpTypePointer => (18, 0)
  | OpTypeImage => (19, 0) | OpTypeSampler => (20, 0)
  | OpTypeSampledImage => (21, 0) | OpTypeFunction => (22, 0)
  | OpConstantTrue => (23, 0) | OpConstantFalse => (24, 0)
  | OpConstant => (25, 0) | OpConstantComposite => (26, 0)
  | OpConstantSampler => (27, 0) | OpFunction => (28, 0)
  | OpFunctionEnd => (29, 0) | OpVariable => (30, 0)
  | OpFunctionParameter => (31, 0) | OpLabel => (32, 0) | OpKill => (33, 0)
  | OpUnreachable => (34, 0) | OpReturn => (35, 0) | OpReturnValue => (36, 0)
  | OpBranch => (37, 0) | OpBranchConditional => (38, 0)
  | OpSelectionMerge => (39, 0) | OpLoopMerge => (40, 0) | OpLoad => (41, 0)
  | OpStore => (42, 0) | OpCopyMemory => (43, 0)
  | OpImageSampleImplicitLod => (44, 0) | OpImageSampleExplicitLod => (45, 0)
  | OpConvertFToS => (46, 0) | OpConvertFToU => (47, 0)
  | OpConvertUToF => (48, 0) | OpConvertSToF => (49, 0) | OpBitcast => (50, 0)
  | OpFunctionCall => (51, 0) | OpVectorShuffle => (52, 0)
  | OpExtInst => (53, 0) | OpIAdd => (54, 0) | OpFAdd => (55, 0)
  | OpISub => (56, 0) | OpFSub => (57, 0) | OpIMul => (58, 0)
  | OpFMul => (59, 0) | OpFDiv => (60, 0) | OpFMod => (61, 0)
  | OpVectorTimesScalar => (62, 0) | OpMatrixTimesVector => (63, 0)
  | OpMatrixTimesMatrix => (64, 0) | OpSLessThan => (65, 0)
  | OpSLessThanEqual => (66, 0) | OpFOrdLessThan => (67, 0)
  | OpFOrdGreaterThan => (68, 0) | OpFOrdGreaterThanEqual => (69, 0)
  | OpLogicalAnd => (70, 0) | OpLogicalOr => (71, 0)
  | OpLogicalNotEqual => (72, 0) | OpShiftLeftLogical => (73, 0)
  | OpFNegate => (74, 0) | OpNot => (75, 0) | OpLogicalNot => (76, 0)
  | OpCompositeConstruct => (77, 0) | OpAccessChain => (78, 0)
  | OpDot => (79, 0) | OpSelect => (80, 0) | OpCompositeExtract => (81, 0)
  | OpCompositeInsert => (82, 0) | OpName => (83, 0) | OpMemberName => (84, 0)
  | OpLine => (85, 0) | OpDecorate => (86, 0) | OpMemberDecorate => (87, 0)
  | OpGroupDecorate => (88, 0) | OpGroupMemberDecorate => (89, 0)
  | OpDecorationGroup => (90, 0) | OpUnknown => (91, 0)
  | OpOther c => (92, c)
  end.

Definition Op_eqb (a b : Op) : bool :=
  (fst (Op_tag a) =? fst (Op_tag b)) && (snd (Op_tag a) =? snd (Op_tag b)).

(** ** The instruction graph *)

Abbreviation ptr := nat (only parsing).

Inductive TypeKind :=
| eVoid | eBool | eFloat | eSInt | eUInt
| eVector | eMatrix | eArray | ePointer
| eFunction | eStruct | eImage | eSampler | eSampledImage.

Record SPVTypeData := {
  ty_kind : TypeKind;
  baseType : option ptr;
  ty_children : list (option ptr);
  ty_storage : Z;
  bitCount : Z;
  vectorSize : Z;
  matrixSize : Z;
  arraySize : Z
}.

(** [SPVTypeData()] *)
Definition new_SPVTypeData (k : TypeKind) : SPVTypeData :=
  {| ty_kind := k; baseType := None; ty_children := []; ty_storage := 0;
     bitCount := 32; vectorSize := 1; matrixSize := 1; arraySize := 1 |}.

Record SPVOperation := {
  op_type : option ptr;
  access : Z;
  literals : list Z;
  funcCall : Z;
  complexity : Z;
  mathop : bool;
  inlineArgs : Z;
  arguments : list ptr
}.

(** [SPVOperation()] *)
Definition new_SPVOperation : SPVOperation :=
  {| op_type := None; access := 0; literals := []; funcCall := 0;
     complexity := 0; mathop := false; inlineArgs := 0; arguments := [] |}.

Record SPVConstant := {
  c_type : option ptr;
  u64 : Z;
  c_children : list (option ptr)
}.

Record SPVVariable := {
  v_type : option ptr;
  storage : Z;
  initialiser : option ptr
}.

Record SPVFlowControl := {
  selControl : Z;
  condition : option ptr;
  f_literals : list Z;
  targets : list Z
}.

(** [SPVFlowControl()] *)
Definition new_SPVFlowControl : SPVFlowControl :=
  {| selControl := 0; condition := None; f_literals := []; targets := [] |}.

Record SPVBlock := {
  instructions : list ptr;
  mergeFlow : option ptr;
  exitFlow : option ptr
}.

Record SPVFunction := {
  retType : option ptr;
  funcType : option ptr;
  f_arguments : list ptr;
  control : Z;
  blocks : list ptr;
  variables : list ptr
}.

Record SPVEntryPoint := {
  e_func : Z;
  e_model : Z
}.

Record SPVInstruction := {
  opcode : Op;
  id : Z;
  ext : bool;
  entry : option SPVEntryPoint;
  op : option SPVOperation;
  flow : option SPVFlowControl;
  type : option SPVTypeData;
  func : option SPVFunction;
  block : option SPVBlock;
  constant : option SPVConstant;
  var : option SPVVariable
}.

(** [SPVInstruction()] *)
Definition new_SPVInstruction : SPVInstruction :=
  {| opcode := OpNop; id := 0; ext := false; entry := None; op := None;
     flow := None; type := None; func := None; block := None;
     constant := None; var := None |}.

Definition set_opcode (o : Op) (i : SPVInstruction) : SPVInstruction :=
  {| opcode := o; id := id i; ext := ext i; entry := entry i; op := op i;
     flow := flow i; type := type i; func := func i; block := block i;
     constant := constant i; var := var i |}.
Definition set_id (n : Z) (i : SPVInstruction) : SPVInstruction :=
  {| opcode := opcode i; id := n; ext := ext i; entry := entry i; op := op i;
     flow := flow i; type := type i; func := func i; block := block i;
     constant := constant i; var := var i |}.
Definition set_ext (b : bool) (i : SPVInstruction) : SPVInstruction :=
  {| opcode := opcode i; id := id i; ext := b; entry := entry i; op := op i;
     flow := flow i; type := type i; func := func i; block := block i;
     constant := constant i; var := var i |}.
Definition set_entry (e : option SPVEntryPoint) (i : SPVInstruction) : SPVInstruction :=
  {| opcode := opcode i; id := id i; ext := ext i; entry := e; op := op i;
     flow := flow i; type := type i; func := func i; block := block i;
     constant := constant i; var := var i |}.
Definition set_op (o : option SPVOperation) (i : SPVInstruction) : SPVInstruction :=
  {| opcode := opcode i; id := id i; ext := ext i; entry := entry i; op := o;
     flow := flow i; type := type i; func := func i; block := block i;
     constant := constant i; var := var i |}.
Definition set_flow (f : option SPVFlowControl) (i : SPVInstruction) : SPVInstruction :=
  {| opcode := opcode i; id := id i; ext := ext i; entry := entry i; op := op i;
     flow := f; type := type i; func := func i; block := block i;
     constant := constant i; var := var i |}.
Definition set_type (t : option SPVTypeData) (i : SPVInstruction) : SPVInstruction :=
  {| opcode := opcode i; id := id i; ext := ext i; entry := entry i; op := op i;
     flow := flow i; type := t; func := func i; block := block i;
     constant := constant i; var := var i |}.
Definition set_func (f : option SPVFunction) (i : SPVInstruction) : SPVInstruction :=
  {| opcode := opcode i; id := id i; ext := ext i; entry := entry i; op := op i;
     flow := flow i; type := type i; func := f; block := block i;
     constant := constant i; var := var i |}.
Definition set_block (b : option SPVBlock) (i : SPVInstruction) : SPVInstruction :=
  {| opcode := opcode i; id := id i; ext := ext i; entry := entry i; op := op i;
     flow := flow i; type := type i; func := func i; block := b;
     constant := constant i; var := var i |}.
Definition set_constant (c : option SPVConstant) (i : SPVInstruction) : SPVInstruction :=
  {| opcode := opcode i; id := id i; ext := ext i; entry := entry i; op := op i;
     flow := flow i; type := type i; func := func i; block := block i;
     constant := c; var := var i |}.
Definition set_var (v : option SPVVariable) (i : SPVInstruction) : SPVInstruction :=
  {| opcode := opcode i; id := id i; ext := ext i; entry := entry i; op := op i;
     flow := flow i; type := type i; func := func i; block := block i;
     constant := constant i; var := v |}.

Definition set_complexity (c : Z) (o : SPVOperation) : SPVOperation :=
  {| op_type := op_type o; access := access o; literals := literals o;
     funcCall := funcCall o; complexity := c; mathop := mathop o;
     inlineArgs := inlineArgs o; arguments := arguments o |}.
Definition set_inlineArgs (b : Z) (o : SPVOperation) : SPVOperation :=
  {| op_type := op_type o; access := access o; literals := literals o;
     funcCall := funcCall o; complexity := complexity o; mathop := mathop o;
     inlineArgs := b; arguments := arguments o |}.
Definition set_arguments (l : list ptr) (o : SPVOperation) : SPVOperation :=
  {| op_type := op_type o; access := access o; literals := literals o;
     funcCall := funcCall o; complexity := complexity o; mathop := mathop o;
     inlineArgs := inlineArgs o; arguments := l |}.

Record SPVModule := {
  spirv : list Z;
  moduleVersion : Z;
  generator : Z;
  sourceLang : Z;
  sourceVer : Z;
  capabilities : list Z;
  operations : list SPVInstruction;
  ids : list (option ptr);
  entries : list ptr;
  structs : list ptr;
  globals : list ptr;
  funcs : list ptr;
  sourceexts : list ptr
}.

(** [SPVModule::SPVModule()]; [sourceLang] is left uninitialised by the
    constructor and is 0 here. *)
Definition new_SPVModule : SPVModule :=
  {| spirv := []; moduleVersion := 0; generator := 0; sourceLang := 0;
     sourceVer := 0; capabilities := []; operations := []; ids := [];
     entries := []; structs := []; globals := []; funcs := [];
     sourceexts := [] |}.

Definition with_operations (f : list SPVInstruction -> list SPVInstruction)
    (m : SPVModule) : SPVModule :=
  {| spirv := spirv m; moduleVersion := moduleVersion m;
     generator := generator m; sourceLang := sourceLang m;
     sourceVer := sourceVer m; capabilities := capabilities m;
     operations := f (operations m); ids := ids m; entries := entries m;
     structs := structs m; globals := globals m; funcs := funcs m;
     sourceexts := sourceexts m |}.
Definition with_ids (f : list (option ptr) -> list (option ptr))
    (m : SPVModule) : SPVModule :=
  {| spirv := spirv m; moduleVersion := moduleVersion m;
     generator := generator m; sourceLang := sourceLang m;
     sourceVer := sourceVer m; capabilities := capabilities m;
     operations := operations m; ids := f (ids m); entries := entries m;
     structs := structs m; globals := globals m; funcs := funcs m;
     sourceexts := sourceexts m |}.

Definition with_globals (f : list ptr -> list ptr) (m : SPVModule) : SPVModule :=
  {| spirv := spirv m; moduleVersion := moduleVersion m;
     generator := generator m; sourceLang := sourceLang m;
     sourceVer := sourceVer m; capabilities := capabilities m;
     operations := operations m; ids := ids m; entries := entries m;
     structs := structs m; globals := f (globals m); funcs := funcs m;
     sourceexts := sourceexts m |}.
Definition with_funcs (f : list ptr -> list ptr) (m : SPVModule) : SPVModule :=
  {| spirv := spirv m; moduleVersion := moduleVersion m;
     generator := generator m; sourceLang := sourceLang m;
     sourceVer := sourceVer m; capabilities := capabilities m;
     operations := operations m; ids := ids m; entries := entries m;
     structs := structs m; globals := globals m; funcs := f (funcs m);
     sourceexts := sourceexts m |}.
Definition with_structs (f : list ptr -> list ptr) (m : SPVModule) : SPVModule :=
  {| spirv := spirv m; moduleVersion := moduleVersion m;
     generator := generator m; sourceLang := sourceLang m;
     sourceVer := sourceVer m; capabilities := capabilities m;
     operations := operations m; ids := ids m; entries := entries m;
     structs := f (structs m); globals := globals m; funcs := funcs m;
     sourceexts := sourceexts m |}.
Definition with_entries (f : list ptr -> list ptr) (m : SPVModule) : SPVModule :=
  {| spirv := spirv m; moduleVersion := moduleVersion m;
     generator := generator m; sourceLang := sourceLang m;
     sourceVer := sourceVer m; capabilities := capabilities m;
     operations := operations m; ids := ids m; entries := f (entries m);
     structs := structs m; globals := globals m; funcs := funcs m;
     sourceexts := sourceexts m |}.
Definition with_sourceexts (f : list ptr -> list ptr) (m : SPVModule) : SPVModule :=
  {| spirv := spirv m; moduleVersion := moduleVersion m;
     generator := generator m; sourceLang := sourceLang m;
     sourceVer := sourceVer m; capabilities := capabilities m;
     operations := operations m; ids := ids m; entries := entries m;
     structs := structs m; globals := globals m; funcs := funcs m;
     sourceexts := f (sourceexts m) |}.
Definition with_capabilities (f : list Z -> list Z) (m : SPVModule) : SPVModule :=
  {| spirv := spirv m; moduleVersion := moduleVersion m;
     generator := generator m; sourceLang := sourceLang m;
     sourceVer := sourceVer m; capabilities := f (capabilities m);
     operations := operations m; ids := ids m; entries := entries m;
     structs := structs m; globals := globals m; funcs := funcs m;
     sourceexts := sourceexts m |}.
(** The scalar header fields: [spirv], [moduleVersion], [generator],
    [sourceLang], [sourceVer]. *)
Definition with_header (w : list Z) (ver gen lang sver : Z) (m : SPVModule) : SPVModule :=
  {| spirv := w; moduleVersion := ver; generator := gen; sourceLang := lang;
     sourceVer := sver; capabilities := capabilities m;
     operations := operations m; ids := ids m; entries := entries m;
     structs := structs m; globals := globals m; funcs := funcs m;
     sourceexts := sourceexts m |}.

(** A word used as an index: [v[w]] for an unsigned [w]. *)
Definition at_word {A} (l : list A) (w : Z) : option A :=
  if 0 <=? w then l !! Z.to_nat w else None.

(** ** The parser

    The log is what [RDCERR], [RDCWARN] and [RDCDEBUG] emit. *)

Inductive LogMsg :=
| ErrMagic (w : Z)
| ErrVersion (w : Z)
| WarnMissingID (k : Z)
| WarnUnhandledOpcode (o : Op)
| DebugMsg (s : string).

Record PState := {
  pmod : SPVModule;
  plog : list LogMsg
}.

Definition on_mod (f : SPVModule -> SPVModule) : M PState unit :=
  modify (fun s => {| pmod := f (pmod s); plog := plog s |}).

Definition logmsg (l : LogMsg) : M PState unit :=
  modify (fun s => {| pmod := pmod s; plog := plog s ++ [l] |}).

(** [operations.push_back(new SPVInstruction())]; the result is [operations.back()]. *)
Definition alloc : M PState ptr :=
  s <- get ;;
  on_mod (with_operations (fun ops => ops ++ [new_SPVInstruction])) ;;
  ret (length (operations (pmod s))).

Definition p_deref (p : ptr) : M PState SPVInstruction :=
  s <- get ;; lift_opt NullDeref (operations (pmod s) !! p).

Definition p_update (p : ptr) (f : SPVInstruction -> SPVInstruction) : M PState unit :=
  i <- p_deref p ;;
  on_mod (with_operations (fun ops => <[p := f i]> ops)).

(** [module.ids[w] = &op] *)
Definition ids_store (w : Z) (p : ptr) : M PState unit :=
  s <- get ;;
  _ <- lift_opt OutOfRange (at_word (ids (pmod s)) w) ;;
  on_mod (with_ids (fun l => <[Z.to_nat w := Some p]> l)).

(** [SPVModule::GetByID] *)
Definition GetByID (k : Z) : M PState ptr :=
  s <- get ;;
  slot <- lift_opt OutOfRange (at_word (ids (pmod s)) k) ;;
  match slot with
  | Some p => ret p
  | None =>
      logmsg (WarnMissingID k) ;;
      p <- alloc ;;
      p_update p (set_opcode OpUnknown) ;;
      p_update p (set_id k) ;;
      ids_store k p ;;
      ret p
  end.

(** [p->type]: the type payload of [*p] as a [SPVTypeData *]. *)
Definition type_ptr (p : ptr) : M PState (option ptr) :=
  i <- p_deref p ;;
  ret (match type i with Some _ => Some p | None => None end).

(** [p->constant] as a [SPVConstant *]. *)
Definition constant_ptr (p : ptr) : M PState (option ptr) :=
  i <- p_deref p ;;
  ret (match constant i with Some _ => Some p | None => None end).

(** [op.id = w; module.ids[w] = &op;] *)
Definition define_id (o : ptr) (w : Z) : M PState unit :=
  p_update o (set_id w) ;;
  ids_store w o.

(** Updates through [curFunc] and [curBlock]; both may be NULL. *)
Definition on_func (cf : option ptr) (f : SPVFunction -> SPVFunction) : M PState unit :=
  p <- lift_opt NullDeref cf ;;
  i <- p_deref p ;;
  fn <- lift_opt NullDeref (func i) ;;
  p_update p (set_func (Some (f fn))).

Definition on_block (cb : option ptr) (f : SPVBlock -> SPVBlock) : M PState unit :=
  p <- lift_opt NullDeref cb ;;
  i <- p_deref p ;;
  b <- lift_opt NullDeref (block i) ;;
  p_update p (set_block (Some (f b))).

Definition on_type (o : ptr) (f : SPVTypeData -> SPVTypeData) : M PState unit :=
  i <- p_deref o ;;
  t <- lift_opt NullDeref (type i) ;;
  p_update o (set_type (Some (f t))).

Definition on_op (o : ptr) (f : SPVOperation -> SPVOperation) : M PState unit :=
  i <- p_deref o ;;
  x <- lift_opt NullDeref (op i) ;;
  p_update o (set_op (Some (f x))).

Definition on_flow (o : ptr) (f : SPVFlowControl -> SPVFlowControl) : M PState unit :=
  i <- p_deref o ;;
  x <- lift_opt NullDeref (flow i) ;;
  p_update o (set_flow (Some (f x))).

Definition on_constant (o : ptr) (f : SPVConstant -> SPVConstant) : M PState unit :=
  i <- p_deref o ;;
  x <- lift_opt NullDeref (constant i) ;;
  p_update o (set_constant (Some (f x))).

Definition on_var (o : ptr) (f : SPVVariable -> SPVVariable) : M PState unit :=
  i <- p_deref o ;;
  x <- lift_opt NullDeref (var i) ;;
  p_update o (set_var (Some (f x))).

Definition push_instruction (o : ptr) (b : SPVBlock) : SPVBlock :=
  {| instructions := instructions b ++ [o]; mergeFlow := mergeFlow b;
     exitFlow := exitFlow b |}.
Definition put_mergeFlow (o : ptr) (b : SPVBlock) : SPVBlock :=
  {| instructions := instructions b; mergeFlow := Some o;
     exitFlow := exitFlow b |}.
Definition put_exitFlow (o : ptr) (b : SPVBlock) : SPVBlock :=
  {| instructions := instructions b; mergeFlow := mergeFlow b;
     exitFlow := Some o |}.

Definition push_block (o : ptr) (f : SPVFunction) : SPVFunction :=
  {| retType := retType f; funcType := funcType f;
     f_arguments := f_arguments f; control := control f;
     blocks := blocks f ++ [o]; variables := variables f |}.
Definition push_variable (o : ptr) (f : SPVFunction) : SPVFunction :=
  {| retType := retType f; funcType := funcType f;
     f_arguments := f_arguments f; control := control f;
     blocks := blocks f; variables := variables f ++ [o] |}.
Definition push_parameter (o : ptr) (f : SPVFunction) : SPVFunction :=
  {| retType := retType f; funcType := funcType f;
     f_arguments := f_arguments f ++ [o]; control := control f;
     blocks := blocks f; variables := variables f |}.

Definition push_argument (a : ptr) (o : SPVOperation) : SPVOperation :=
  set_arguments (arguments o ++ [a]) o.
Definition push_literal (w : Z) (o : SPVOperation) : SPVOperation :=
  {| op_type := op_type o; access := access o; literals := literals o ++ [w];
     funcCall := funcCall o; complexity := complexity o; mathop := mathop o;
     inlineArgs := inlineArgs o; arguments := arguments o |}.
Definition put_access (w : Z) (o : SPVOperation) : SPVOperation :=
  {| op_type := op_type o; access := w; literals := literals o;
     funcCall := funcCall o; complexity := complexity o; mathop := mathop o;
     inlineArgs := inlineArgs o; arguments := arguments o |}.
Definition put_funcCall (w : Z) (o : SPVOperation) : SPVOperation :=
  {| op_type := op_type o; access := access o; literals := literals o;
     funcCall := w; complexity := complexity o; mathop := mathop o;
     inlineArgs := inlineArgs o; arguments := arguments o |}.
Definition put_op_type (t : option ptr) (m : bool) (o : SPVOperation) : SPVOperation :=
  {| op_type := t; access := access o; literals := literals o;
     funcCall := funcCall o; complexity := complexity o; mathop := m;
     inlineArgs := inlineArgs o; arguments := arguments o |}.

Definition push_target (w : Z) (f : SPVFlowControl) : SPVFlowControl :=
  {| selControl := selControl f; condition := condition f;
     f_literals := f_literals f; targets := targets f ++ [w] |}.
Definition push_flow_literal (w : Z) (f : SPVFlowControl) : SPVFlowControl :=
  {| selControl := selControl f; condition := condition f;
     f_literals := f_literals f ++ [w]; targets := targets f |}.
Definition put_condition (c : ptr) (f : SPVFlowControl) : SPVFlowControl :=
  {| selControl := selControl f; condition := Some c;
     f_literals := f_literals f; targets := targets f |}.
Definition put_selControl (w : Z) (f : SPVFlowControl) : SPVFlowControl :=
  {| selControl := w; condition := condition f;
     f_literals := f_literals f; targets := targets f |}.

Definition put_type_fields (base : option ptr) (bits vec mat arr sto : Z)
    (t : SPVTypeData) : SPVTypeData :=
  {| ty_kind := ty_kind t; baseType := base; ty_children := ty_children t;
     ty_storage := sto; bitCount := bits; vectorSize := vec;
     matrixSize := mat; arraySize := arr |}.
Definition push_type_child (c : option ptr) (t : SPVTypeData) : SPVTypeData :=
  {| ty_kind := ty_kind t; baseType := baseType t;
     ty_children := ty_children t ++ [c]; ty_storage := ty_storage t;
     bitCount := bitCount t; vectorSize := vectorSize t;
     matrixSize := matrixSize t; arraySize := arraySize t |}.
Definition put_baseType (b : option ptr) (t : SPVTypeData) : SPVTypeData :=
  put_type_fields b (bitCount t) (vectorSize t) (matrixSize t) (arraySize t)
    (ty_storage t) t.

Definition push_constant_child (c : option ptr) (k : SPVConstant) : SPVConstant :=
  {| c_type := c_type k; u64 := u64 k; c_children := c_children k ++ [c] |}.
Definition put_u64 (w : Z) (k : SPVConstant) : SPVConstant :=
  {| c_type := c_type k; u64 := w; c_children := c_children k |}.
(** A write to the [u32] member of the union replaces the low 32 bits. *)
Definition put_u32 (w : Z) (k : SPVConstant) : SPVConstant :=
  put_u64 (Z.lor (Z.shiftl (Z.shiftr (u64 k) 32) 32) (Z.land w 4294967295)) k.
Definition u32 (k : SPVConstant) : Z := Z.land (u64 k) 4294967295.

(** Modelled from the spec: [spv::MagicNumber], [spv::WordCountShift] and
    [spv::OpCodeMask] of [3rdparty/glslang/SPIRV/spirv.hpp], which is not
    among the sources ("magic 0x07230203"; "high 16 bits are the word count
    and low 16 bits are the opcode"). *)
Definition MagicNumber : Z := 0x07230203.
Definition WordCountShift : Z := 16.
Definition OpCodeMask : Z := 0xffff.

(** [RDCMIN], [RDCMAX] *)
Definition RDCMIN (a b : Z) : Z := if a <? b then a else b.
Definition RDCMAX (a b : Z) : Z := if a >? b then a else b.

Definition NO_INLINE_COMPLEXITY : Z := 3.

(** [ParseSPIRV].  The values of the enumerators of [spirv.hpp] are not in
    the sources: the supported version, the decoding of an opcode word and
    [spv::StorageClassFunction] are parameters. *)
Section Parser.
Variable Version : Z.
Variable opOfWord : Z -> Op.
Variable StorageClassFunction : Z.
(** The buffer [spirv], of length [spirvLength]. *)
Variable words : list Z.

Definition spirvLength : nat := length words.

(** [spirv[i]] *)
Definition rd (i : nat) : M PState Z := lift_opt OutOfRange (words !! i).

(** [for(int i = from; i < WordCount; i++)] *)
Definition word_range (from : nat) (WordCount : Z) : list nat :=
  seq from (Z.to_nat WordCount - from).

(** An operation with a result type in word 1. *)
Definition new_operation (o : ptr) (typeWord : Z) (m : bool) : M PState unit :=
  typeInst <- GetByID typeWord ;;
  t <- type_ptr typeInst ;;
  p_update o (set_op (Some (put_op_type t m new_SPVOperation))).

Definition push_arg_word (o : ptr) (w : Z) : M PState unit :=
  argInst <- GetByID w ;;
  on_op o (push_argument argInst).

Definition new_type (o : ptr) (k : TypeKind) : M PState unit :=
  p_update o (set_type (Some (new_SPVTypeData k))).

Definition new_constant (o : ptr) (typeWord : Z) : M PState unit :=
  typeInst <- GetByID typeWord ;;
  t <- type_ptr typeInst ;;
  p_update o (set_constant (Some {| c_type := t; u64 := 0; c_children := [] |})).

Definition new_flow (o : ptr) : M PState unit :=
  p_update o (set_flow (Some new_SPVFlowControl)).

(** The [switch(op.opcode)] of the first pass, for the instruction at
    [it], already allocated as [o].  The result is the new
    [(curFunc, curBlock)]. *)
Definition structural_case (it : nat) (WordCount : Z) (o : ptr) (opc : Op)
    (curFunc curBlock : option ptr) : M PState (option ptr * option ptr) :=
  let w := fun k : nat => rd (it + k)%nat in
  let keep : M PState (option ptr * option ptr) := ret (curFunc, curBlock) in
  let mathop_case := fun m : bool =>
    w1 <- w 1%nat ;;
    new_operation o w1 m ;;
    forM_ (word_range 3 WordCount) (fun i => wi <- w i ;; push_arg_word o wi) ;;
    w2 <- w 2%nat ;;
    define_id o w2 ;;
    on_block curBlock (push_instruction o) ;;
    keep in
  match opc with
  | OpSource =>
      w1 <- w 1%nat ;; w2 <- w 2%nat ;;
      on_mod (fun m => with_header (spirv m) (moduleVersion m) (generator m) w1 w2 m) ;;
      (if WordCount >? 3 then logmsg (DebugMsg "Filename provided") else ret tt) ;;
      (if WordCount >? 4 then logmsg (DebugMsg "File source provided") else ret tt) ;;
      keep
  | OpSourceContinued =>
      logmsg (DebugMsg "File source continued") ;; keep
  | OpSourceExtension =>
      on_mod (with_sourceexts (fun l => l ++ [o])) ;; keep
  | OpCapability =>
      w1 <- w 1%nat ;;
      on_mod (with_capabilities (fun l => l ++ [w1])) ;; keep
  | OpMemoryModel =>
      _ <- w 1%nat ;; _ <- w 2%nat ;; keep
  | OpEntryPoint =>
      w2 <- w 2%nat ;; w1 <- w 1%nat ;;
      p_update o (set_entry (Some {| e_func := w2; e_model := w1 |})) ;;
      on_mod (with_entries (fun l => l ++ [o])) ;; keep
  | OpExecutionMode =>
      w1 <- w 1%nat ;;
      s <- get ;;
      found <- foldM (entries (pmod s)) false (fun done e =>
        if (done : bool) then ret true else
        i <- p_deref e ;;
        en <- lift_opt NullDeref (entry i) ;;
        if e_func en =? w1 then
          _ <- w 2%nat ;;
          (if WordCount >? 3 then _ <- w 3%nat ;; ret tt else ret tt) ;;
          (if WordCount >? 4 then _ <- w 4%nat ;; ret tt else ret tt) ;;
          (if WordCount >? 5 then _ <- w 5%nat ;; ret tt else ret tt) ;;
          ret true
        else ret false) ;;
      keep
  | OpExtInstImport =>
      p_update o (set_ext true) ;;
      w1 <- w 1%nat ;; define_id o w1 ;; keep
  | OpString =>
      w1 <- w 1%nat ;; define_id o w1 ;; keep
  (* types *)
  | OpTypeVoid => new_type o eVoid ;; w1 <- w 1%nat ;; define_id o w1 ;; keep
  | OpTypeBool => new_type o eBool ;; w1 <- w 1%nat ;; define_id o w1 ;; keep
  | OpTypeInt =>
      w3 <- w 3%nat ;;
      new_type o (if w3 =? 0 then eUInt else eSInt) ;;
      w2 <- w 2%nat ;;
      on_type o (fun t => put_type_fields (baseType t) w2 (vectorSize t)
                            (matrixSize t) (arraySize t) (ty_storage t) t) ;;
      w1 <- w 1%nat ;; define_id o w1 ;; keep
  | OpTypeFloat =>
      new_type o eFloat ;;
      w2 <- w 2%nat ;;
      on_type o (fun t => put_type_fields (baseType t) w2 (vectorSize t)
                            (matrixSize t) (arraySize t) (ty_storage t) t) ;;
      w1 <- w 1%nat ;; define_id o w1 ;; keep
  | OpTypeVector =>
      new_type o eVector ;;
      w2 <- w 2%nat ;;
      baseTypeInst <- GetByID w2 ;;
      b <- type_ptr baseTypeInst ;;
      on_type o (put_baseType b) ;;
      w3 <- w 3%nat ;;
      on_type o (fun t => put_type_fields (baseType t) (bitCount t) w3
                            (matrixSize t) (arraySize t) (ty_storage t) t) ;;
      w1 <- w 1%nat ;; define_id o w1 ;; keep
  | OpTypeMatrix =>
      new_type o eMatrix ;;
      w2 <- w 2%nat ;;
      baseTypeInst <- GetByID w2 ;;
      bi <- p_deref baseTypeInst ;;
      bt <- lift_opt NullDeref (type bi) ;;
      w3 <- w 3%nat ;;
      on_type o (fun t => put_type_fields (baseType bt) (bitCount t)
                            (vectorSize bt) w3 (arraySize t) (ty_storage t) t) ;;
      w1 <- w 1%nat ;; define_id o w1 ;; keep
  | OpTypeArray =>
      new_type o eArray ;;
      w2 <- w 2%nat ;;
      baseTypeInst <- GetByID w2 ;;
      b <- type_ptr baseTypeInst ;;
      on_type o (put_baseType b) ;;
      w3 <- w 3%nat ;;
      sizeInst <- GetByID w3 ;;
      si <- p_deref sizeInst ;;
      sc <- lift_opt NullDeref (constant si) ;;
      on_type o (fun t => put_type_fields (baseType t) (bitCount t)
                            (vectorSize t) (matrixSize t) (u32 sc) (ty_storage t) t) ;;
      w1 <- w 1%nat ;; define_id o w1 ;; keep
  | OpTypeStruct =>
      new_type o eStruct ;;
      forM_ (word_range 2 WordCount) (fun i =>
        wi <- w i ;;
        memberInst <- GetByID wi ;;
        c <- type_ptr memberInst ;;
        on_type o (push_type_child c)) ;;
      on_mod (with_structs (fun l => l ++ [o])) ;;
      w1 <- w 1%nat ;; define_id o w1 ;; keep
  | OpTypePointer =>
      new_type o ePointer ;;
      w3 <- w 3%nat ;;
      baseTypeInst <- GetByID w3 ;;
      b <- type_ptr baseTypeInst ;;
      on_type o (put_baseType b) ;;
      w2 <- w 2%nat ;;
      on_type o (fun t => put_type_fields (baseType t) (bitCount t)
                            (vectorSize t) (matrixSize t) (arraySize t) w2 t) ;;
      w1 <- w 1%nat ;; define_id o w1 ;; keep
  | OpTypeImage =>
      new_type o eImage ;;
      w2 <- w 2%nat ;;
      baseTypeInst <- GetByID w2 ;;
      b <- type_ptr baseTypeInst ;;
      on_type o (put_baseType b) ;;
      forM_ (seq 3 6) (fun i => _ <- w i ;; ret tt) ;;
      w1 <- w 1%nat ;; define_id o w1 ;; keep
  | OpTypeSampler => new_type o eSampler ;; w1 <- w 1%nat ;; define_id o w1 ;; keep
  | OpTypeSampledImage =>
      new_type o eSampledImage ;;
      w2 <- w 2%nat ;;
      baseTypeInst <- GetByID w2 ;;
      b <- type_ptr baseTypeInst ;;
      on_type o (put_baseType b) ;;
      w1 <- w 1%nat ;; define_id o w1 ;; keep
  | OpTypeFunction =>
      new_type o eFunction ;;
      forM_ (word_range 3 WordCount) (fun i =>
        wi <- w i ;;
        argInst <- GetByID wi ;;
        c <- type_ptr argInst ;;
        on_type o (push_type_child c)) ;;
      w2 <- w 2%nat ;;
      baseTypeInst <- GetByID w2 ;;
      b <- type_ptr baseTypeInst ;;
      on_type o (put_baseType b) ;;
      w1 <- w 1%nat ;; define_id o w1 ;; keep
  (* constants *)
  | OpConstantTrue | OpConstantFalse =>
      w1 <- w 1%nat ;;
      new_constant o w1 ;;
      on_constant o (put_u32 (if Op_eqb opc OpConstantTrue then 1 else 0)) ;;
      w2 <- w 2%nat ;; define_id o w2 ;; keep
  | OpConstant =>
      w1 <- w 1%nat ;;
      new_constant o w1 ;;
      w3 <- w 3%nat ;;
      on_constant o (put_u32 w3) ;;
      (if WordCount >? 3 then
         lo <- w 3%nat ;; hi <- w 4%nat ;;
         on_constant o (put_u64 (Z.lor lo (Z.shiftl hi 32)))
       else ret tt) ;;
      w2 <- w 2%nat ;; define_id o w2 ;; keep
  | OpConstantComposite =>
      w1 <- w 1%nat ;;
      new_constant o w1 ;;
      forM_ (word_range 3 WordCount) (fun i =>
        wi <- w i ;;
        constInst <- GetByID wi ;;
        c <- constant_ptr constInst ;;
        on_constant o (push_constant_child c)) ;;
      w2 <- w 2%nat ;; define_id o w2 ;; keep
  | OpConstantSampler =>
      w1 <- w 1%nat ;;
      new_constant o w1 ;;
      _ <- w 3%nat ;; _ <- w 4%nat ;; _ <- w 5%nat ;;
      w2 <- w 2%nat ;; define_id o w2 ;; keep
  (* functions *)
  | OpFunction =>
      w1 <- w 1%nat ;;
      retTypeInst <- GetByID w1 ;;
      w4 <- w 4%nat ;;
      typeInst <- GetByID w4 ;;
      rt <- type_ptr retTypeInst ;;
      ft <- type_ptr typeInst ;;
      w3 <- w 3%nat ;;
      p_update o (set_func (Some {| retType := rt; funcType := ft;
                                    f_arguments := []; control := w3;
                                    blocks := []; variables := [] |})) ;;
      on_mod (with_funcs (fun l => l ++ [o])) ;;
      w2 <- w 2%nat ;; define_id o w2 ;;
      ret (Some o, curBlock)
  | OpFunctionEnd => ret (None, curBlock)
  (* variables *)
  | OpVariable =>
      w1 <- w 1%nat ;;
      typeInst <- GetByID w1 ;;
      t <- type_ptr typeInst ;;
      w3 <- w 3%nat ;;
      p_update o (set_var (Some {| v_type := t; storage := w3; initialiser := None |})) ;;
      (if WordCount >? 4 then
         w4 <- w 4%nat ;;
         initInst <- GetByID w4 ;;
         c <- constant_ptr initInst ;;
         on_var o (fun v => {| v_type := v_type v; storage := storage v; initialiser := c |})
       else ret tt) ;;
      match curFunc with
      | Some _ => on_func curFunc (push_variable o)
      | None => on_mod (with_globals (fun l => l ++ [o]))
      end ;;
      w2 <- w 2%nat ;; define_id o w2 ;; keep
  | OpFunctionParameter =>
      w1 <- w 1%nat ;;
      typeInst <- GetByID w1 ;;
      t <- type_ptr typeInst ;;
      p_update o (set_var (Some {| v_type := t; storage := StorageClassFunction;
                                   initialiser := None |})) ;;
      on_func curFunc (push_parameter o) ;;
      w2 <- w 2%nat ;; define_id o w2 ;; keep
  (* branching and flow control *)
  | OpLabel =>
      p_update o (set_block (Some {| instructions := []; mergeFlow := None;
                                     exitFlow := None |})) ;;
      on_func curFunc (push_block o) ;;
      w1 <- w 1%nat ;; define_id o w1 ;;
      ret (curFunc, Some o)
  | OpKill | OpUnreachable | OpReturn =>
      new_flow o ;;
      on_block curBlock (put_exitFlow o) ;;
      ret (curFunc, None)
  | OpReturnValue | OpBranch =>
      new_flow o ;;
      w1 <- w 1%nat ;;
      on_flow o (push_target w1) ;;
      on_block curBlock (put_exitFlow o) ;;
      ret (curFunc, None)
  | OpBranchConditional =>
      new_flow o ;;
      w1 <- w 1%nat ;;
      condInst <- GetByID w1 ;;
      on_flow o (put_condition condInst) ;;
      w2 <- w 2%nat ;; on_flow o (push_target w2) ;;
      w3 <- w 3%nat ;; on_flow o (push_target w3) ;;
      (if WordCount =? 6 then
         w4 <- w 4%nat ;; on_flow o (push_flow_literal w4) ;;
         w5 <- w 5%nat ;; on_flow o (push_flow_literal w5)
       else ret tt) ;;
      on_block curBlock (put_exitFlow o) ;;
      ret (curFunc, None)
  | OpSelectionMerge | OpLoopMerge =>
      new_flow o ;;
      w1 <- w 1%nat ;; on_flow o (push_target w1) ;;
      w2 <- w 2%nat ;; on_flow o (put_selControl w2) ;;
      on_block curBlock (put_mergeFlow o) ;;
      keep
  (* operations with special parameters *)
  | OpLoad =>
      w1 <- w 1%nat ;;
      new_operation o w1 false ;;
      w3 <- w 3%nat ;;
      push_arg_word o w3 ;;
      on_op o (put_access 0) ;;
      (if WordCount >? 4 then w4 <- w 4%nat ;; on_op o (put_access w4) else ret tt) ;;
      w2 <- w 2%nat ;; define_id o w2 ;;
      on_block curBlock (push_instruction o) ;;
      keep
  | OpStore | OpCopyMemory =>
      p_update o (set_op (Some new_SPVOperation)) ;;
      w1 <- w 1%nat ;;
      ptrInst <- GetByID w1 ;;
      w2 <- w 2%nat ;;
      valInst <- GetByID w2 ;;
      on_op o (push_argument ptrInst) ;;
      on_op o (push_argument valInst) ;;
      on_op o (put_access 0) ;;
      (if WordCount >? 3 then w4 <- w 4%nat ;; on_op o (put_access w4) else ret tt) ;;
      on_block curBlock (push_instruction o) ;;
      keep
  | OpImageSampleImplicitLod | OpImageSampleExplicitLod =>
      w1 <- w 1%nat ;;
      new_operation o w1 false ;;
      w2 <- w 2%nat ;; define_id o w2 ;;
      w3 <- w 3%nat ;; push_arg_word o w3 ;;
      w4 <- w 4%nat ;; push_arg_word o w4 ;;
      on_block curBlock (push_instruction o) ;;
      keep
  | OpConvertFToS | OpConvertFToU | OpConvertUToF | OpConvertSToF
  | OpBitcast | OpFunctionCall =>
      w1 <- w 1%nat ;;
      new_operation o w1 false ;;
      w2 <- w 2%nat ;; define_id o w2 ;;
      word <- (if Op_eqb opc OpFunctionCall then
                 w3 <- w 3%nat ;; on_op o (put_funcCall w3) ;; ret 4%nat
               else ret 3%nat) ;;
      forM_ (word_range word WordCount) (fun i => wi <- w i ;; push_arg_word o wi) ;;
      on_block curBlock (push_instruction o) ;;
      keep
  | OpVectorShuffle =>
      w1 <- w 1%nat ;;
      new_operation o w1 false ;;
      w3 <- w 3%nat ;; push_arg_word o w3 ;;
      w4 <- w 4%nat ;; push_arg_word o w4 ;;
      forM_ (word_range 5 WordCount) (fun i => wi <- w i ;; on_op o (push_literal wi)) ;;
      w2 <- w 2%nat ;; define_id o w2 ;;
      on_block curBlock (push_instruction o) ;;
      keep
  | OpExtInst =>
      w1 <- w 1%nat ;;
      new_operation o w1 false ;;
      w3 <- w 3%nat ;; push_arg_word o w3 ;;
      w4 <- w 4%nat ;; on_op o (push_literal w4) ;;
      forM_ (word_range 5 WordCount) (fun i => wi <- w i ;; push_arg_word o wi) ;;
      w2 <- w 2%nat ;; define_id o w2 ;;
      on_block curBlock (push_instruction o) ;;
      keep
  (* opcodes with just some number of id parameters *)
  | OpIAdd | OpFAdd | OpISub | OpFSub | OpIMul | OpFMul | OpFDiv | OpFMod
  | OpVectorTimesScalar | OpMatrixTimesVector | OpMatrixTimesMatrix
  | OpSLessThan | OpSLessThanEqual | OpFOrdLessThan | OpFOrdGreaterThan
  | OpFOrdGreaterThanEqual | OpLogicalAnd | OpLogicalOr | OpLogicalNotEqual
  | OpShiftLeftLogical | OpFNegate | OpNot | OpLogicalNot =>
      mathop_case true
  | OpCompositeConstruct | OpAccessChain | OpDot | OpSelect =>
      mathop_case false
  | OpCompositeExtract | OpCompositeInsert =>
      w1 <- w 1%nat ;;
      new_operation o w1 false ;;
      w2 <- w 2%nat ;; define_id o w2 ;;
      objInst <- (if Op_eqb opc OpCompositeInsert then
                    on_op o (set_complexity 100) ;;
                    w3 <- w 3%nat ;;
                    x <- GetByID w3 ;;
                    ret (Some x)
                  else ret None) ;;
      let word := match objInst with Some _ => 4%nat | None => 3%nat end in
      wc <- w word ;;
      compInst <- GetByID wc ;;
      on_op o (push_argument compInst) ;;
      match objInst with
      | Some x => on_op o (push_argument x)
      | None => ret tt
      end ;;
      forM_ (word_range (S word) WordCount) (fun i => wi <- w i ;; on_op o (push_literal wi)) ;;
      on_block curBlock (push_instruction o) ;;
      keep
  | OpName | OpMemberName | OpLine | OpDecorate | OpMemberDecorate
  | OpGroupDecorate | OpGroupMemberDecorate | OpDecorationGroup =>
      keep
  | _ =>
      logmsg (WarnUnhandledOpcode opc) ;;
      match curBlock with
      | Some _ => on_block curBlock (push_instruction o)
      | None => ret tt
      end ;;
      keep
  end.

(** [uint16_t WordCount = spirv[it]>>spv::WordCountShift] *)
Definition word_count (w : Z) : Z := Z.land (Z.shiftr w WordCountShift) 0xffff.
(** [spv::Op(spirv[it]&spv::OpCodeMask)] *)
Definition word_opcode (w : Z) : Op := opOfWord (Z.land w OpCodeMask).

(** The first [while(it < spirvLength)] loop.  An iteration whose word
    count is not zero advances [it], so [spirvLength] iterations are
    enough; on a word count of zero the C++ loop never ends, and the
    fuel runs out. *)
Fixpoint structural_pass (fuel : nat) (it : nat) (curFunc curBlock : option ptr)
    : M PState unit :=
  match fuel with
  | O => fail OutOfFuel
  | S fuel' =>
      if (it <? spirvLength)%nat then
        w <- rd it ;;
        let WordCount := word_count w in
        o <- alloc ;;
        p_update o (set_opcode (word_opcode w)) ;;
        r <- structural_case it WordCount o (word_opcode w) curFunc curBlock ;;
        structural_pass fuel' (it + Z.to_nat WordCount)%nat (fst r) (snd r)
      else ret tt
  end.

(** The [switch(op)] of the second pass.  Names and decorations are not
    part of the records; what remains of a case is its calls of
    [GetByID] and the reads that can go wrong. *)
Definition annotation_case (it : nat) (WordCount : Z) (opc : Op) : M PState unit :=
  let w := fun k : nat => rd (it + k)%nat in
  let member := fun (inst : ptr) (idx : Z) =>
    i <- p_deref inst ;;
    t <- lift_opt NullDeref (type i) ;;
    _ <- lift_opt OutOfRange (at_word (ty_children t) idx) ;;
    ret tt in
  match opc with
  | OpName =>
      w1 <- w 1%nat ;;
      _ <- GetByID w1 ;;
      _ <- w 2%nat ;;
      ret tt
  | OpMemberName =>
      w1 <- w 1%nat ;;
      varInst <- GetByID w1 ;;
      memIdx <- w 2%nat ;;
      member varInst memIdx ;;
      _ <- w 3%nat ;;
      ret tt
  | OpLine =>
      w1 <- w 1%nat ;;
      _ <- GetByID w1 ;;
      w2 <- w 2%nat ;;
      _ <- GetByID w2 ;;
      _ <- w 3%nat ;; _ <- w 4%nat ;;
      ret tt
  | OpDecorate =>
      w1 <- w 1%nat ;;
      _ <- GetByID w1 ;;
      _ <- w 2%nat ;;
      (if WordCount >? 3 then _ <- w 3%nat ;; ret tt else ret tt)
  | OpMemberDecorate =>
      w1 <- w 1%nat ;;
      structInst <- GetByID w1 ;;
      memberIdx <- w 2%nat ;;
      _ <- w 3%nat ;;
      (if WordCount >? 4 then _ <- w 4%nat ;; ret tt else ret tt) ;;
      member structInst memberIdx
  | _ => ret tt
  end.

Fixpoint annotation_pass (fuel : nat) (it : nat) : M PState unit :=
  match fuel with
  | O => fail OutOfFuel
  | S fuel' =>
      if (it <? spirvLength)%nat then
        w <- rd it ;;
        annotation_case it (word_count w) (word_opcode w) ;;
        annotation_pass fuel' (it + Z.to_nat (word_count w))%nat
      else ret tt
  end.

(** [a->var->storage], the key of [SortByVarClass]. *)
Definition var_storage (ops : list SPVInstruction) (p : ptr) : Z :=
  match ops !! p with
  | Some i => match var i with Some v => storage v | None => 0 end
  | None => 0
  end.

(** [std::sort(globals, SortByVarClass())].  [std::sort] leaves the order
    of elements with equal keys open; the insertion sort here keeps it. *)
Fixpoint insert_by {A} (key : A -> Z) (x : A) (l : list A) : list A :=
  match l with
  | [] => [x]
  | y :: l' => if key y <? key x then y :: insert_by key x l' else x :: l
  end.
Definition sort_by {A} (key : A -> Z) (l : list A) : list A :=
  foldr (insert_by key) [] l.

Definition ParseSPIRV : M PState unit :=
  w0 <- rd 0 ;;
  if negb (w0 =? MagicNumber) then
    logmsg (ErrMagic w0)
  else
    w1 <- rd 1 ;;
    on_mod (fun m => with_header (spirv m) w1 (generator m) (sourceLang m) (sourceVer m) m) ;;
    if negb (w1 =? Version) then
      logmsg (ErrVersion w1)
    else
      on_mod (fun m => with_header words (moduleVersion m) (generator m) (sourceLang m) (sourceVer m) m) ;;
      w2 <- rd 2 ;;
      on_mod (fun m => with_header (spirv m) (moduleVersion m) w2 (sourceLang m) (sourceVer m) m) ;;
      w3 <- rd 3 ;;
      on_mod (with_ids (resize (Z.to_nat w3) None)) ;;
      structural_pass (S spirvLength) 5 None None ;;
      annotation_pass (S spirvLength) 5 ;;
      on_mod (fun m => with_globals (sort_by (var_storage (operations m))) m).

End Parser.

(** A freshly constructed module and an empty log. *)
Definition fresh : PState := {| pmod := new_SPVModule; plog := [] |}.

(** ** Reading the arena without a state *)

Definition rbind {A B} (c : result A) (k : A -> result B) : result B :=
  match c with
  | Ok a => k a
  | Fault e => Fault e
  end.

Definition opt {A} (e : fault) (o : option A) : result A :=
  match o with
  | Some a => Ok a
  | None => Fault e
  end.

Notation "x <~ c ;; k" := (rbind c (fun x => k))
  (at level 100, c at next level, right associativity) : monad_scope.

(** [*p] *)
Definition deref (ops : list SPVInstruction) (p : ptr) : result SPVInstruction :=
  opt NullDeref (ops !! p).
(** [p->op] as a reference, for [p->op->...] *)
Definition deref_op (ops : list SPVInstruction) (p : ptr) : result SPVOperation :=
  i <~ deref ops p ;; opt NullDeref (op i).
(** [p->op->arguments[k]] *)
Definition argument (ops : list SPVInstruction) (p : ptr) (k : nat) : result ptr :=
  o <~ deref_op ops p ;; opt OutOfRange (arguments o !! k).

Definition is_some {A} (o : option A) : bool :=
  match o with Some _ => true | None => false end.

(** [erase_item]: the first occurrence goes, if there is one.  The C++
    function also reports whether it found one; no caller looks. *)
Fixpoint erase_item (vec : list ptr) (elem : ptr) : list ptr :=
  match vec with
  | [] => []
  | x :: vec' => if (x =? elem)%nat then vec' else x :: erase_item vec' elem
  end.

(** ** The purity predicate *)

(** The state of the scan of [IsUnmodified] at the end of a block: it has
    returned [false], it has met [to], or it goes on. *)
Inductive scan :=
| ScanFalse
| ScanDone
| ScanGo (looking : bool).

(** The inner [for] of the scan, over the instructions of one block. *)
Fixpoint scan_instructions (ops : list SPVInstruction) (from to var : ptr)
    (instrs : list ptr) (looking : bool) : result scan :=
  match instrs with
  | [] => Ok (ScanGo looking)
  | instr :: rest =>
      if (instr =? from)%nat then scan_instructions ops from to var rest true
      else if (instr =? to)%nat then Ok ScanDone
      else if looking then
        i <~ deref ops instr ;;
        if Op_eqb (opcode i) OpStore then
          dest <~ argument ops instr 0 ;;
          if (dest =? var)%nat then Ok ScanFalse
          else scan_instructions ops from to var rest looking
        else scan_instructions ops from to var rest looking
      else scan_instructions ops from to var rest looking
  end.

(** The outer [for], over the blocks of the function. *)
Fixpoint scan_blocks (ops : list SPVInstruction) (from to var : ptr)
    (blks : list ptr) (looking : bool) : result bool :=
  match blks with
  | [] => Ok true
  | b :: rest =>
      bi <~ deref ops b ;;
      blk <~ opt NullDeref (block bi) ;;
      r <~ scan_instructions ops from to var (instructions blk) looking ;;
      match r with
      | ScanFalse => Ok false
      | ScanDone => Ok true
      | ScanGo looking' => scan_blocks ops from to var rest looking'
      end
  end.

(** [from->opcode == spv::OpLoad && from->op->arguments[0]->var] *)
Definition is_var_load (ops : list SPVInstruction) (from : ptr) : result bool :=
  fi <~ deref ops from ;;
  if Op_eqb (opcode fi) OpLoad then
    a0 <~ argument ops from 0 ;;
    ai <~ deref ops a0 ;;
    Ok (is_some (var ai))
  else Ok false.

(** The loop of [IsUnmodified] over the arguments of [from], from argument
    [i] on: [ret &= IsUnmodified(func, from->op->arguments[i], to)], with
    the destination of a store skipped.  [recurse] is the recursive call. *)
Fixpoint args_loop (recurse : ptr -> result bool) (is_store : bool)
    (args : list ptr) (i : nat) (ret : bool) : result bool :=
  match args with
  | [] => Ok ret
  | a :: rest =>
      if is_store && (i =? 0)%nat then
        args_loop recurse is_store rest (S i) ret
      else
        r <~ recurse a ;;
        args_loop recurse is_store rest (S i) (ret && r)
  end.

(** [IsUnmodified].  The recursion follows the argument edges; the fuel
    bounds its depth. *)
Fixpoint IsUnmodified (fuel : nat) (ops : list SPVInstruction) (func : SPVFunction)
    (from to : ptr) : result bool :=
  match fuel with
  | O => Fault OutOfFuel
  | S fuel' =>
      fi <~ deref ops from ;;
      match op fi with
      | None => Ok true
      | Some fo =>
          vl <~ is_var_load ops from ;;
          if vl then
            var <~ argument ops from 0 ;;
            scan_blocks ops from to var (blocks func) false
          else
            args_loop (fun a => IsUnmodified fuel' ops func a to)
              (Op_eqb (opcode fi) OpStore) (arguments fo) 0 true
      end
  end.

(** [IsUnmodified] returns [b]: with enough fuel the model does. *)
Definition unmodified (ops : list SPVInstruction) (func : SPVFunction)
    (from to : ptr) (b : bool) : Prop :=
  exists fuel, IsUnmodified fuel ops func from to = Ok b.

(** The instructions of a function in linear block order. *)
Fixpoint linear_order (ops : list SPVInstruction) (blks : list ptr) : option (list ptr) :=
  match blks with
  | [] => Some []
  | b :: rest =>
      match ops !! b with
      | Some bi =>
          match block bi, linear_order ops rest with
          | Some blk, Some l => Some (instructions blk ++ l)
          | _, _ => None
          end
      | None => None
      end
  end.

(** [x] is a store to [var]. *)
Definition stores_to (ops : list SPVInstruction) (var x : ptr) : bool :=
  match ops !! x with
  | Some i =>
      Op_eqb (opcode i) OpStore &&
      match op i with
      | Some o =>
          match arguments o !! 0%nat with
          | Some d => (d =? var)%nat
          | None => false
          end
      | None => false
      end
  | None => false
  end.

(** [x] points to an instruction, and if that is a store it has its
    destination argument: what the parser makes of a store. *)
Definition store_shaped (ops : list SPVInstruction) (x : ptr) : Prop :=
  exists i, ops !! x = Some i /\
    (opcode i = OpStore -> exists o d, op i = Some o /\ arguments o !! 0%nat = Some d).

(** ** The inliner: [SPVModule::Disassemble], per function

    What the loop over the blocks of a function works on: the arena (the
    annotations and arguments of operations are rewritten in place), the
    local copy [vars] of the function's variables and the emit list
    [funcops]. *)

Record DState := {
  d_ops : list SPVInstruction;
  vars : list ptr;
  funcops : list ptr
}.

Definition on_ops (f : list SPVInstruction -> list SPVInstruction) : M DState unit :=
  modify (fun s => {| d_ops := f (d_ops s); vars := vars s; funcops := funcops s |}).
Definition on_vars (f : list ptr -> list ptr) : M DState unit :=
  modify (fun s => {| d_ops := d_ops s; vars := f (vars s); funcops := funcops s |}).
Definition on_funcops (f : list ptr -> list ptr) : M DState unit :=
  modify (fun s => {| d_ops := d_ops s; vars := vars s; funcops := f (funcops s) |}).

(** A read of the arena, in the state monad. *)
Definition reading {A} (f : list SPVInstruction -> result A) : M DState A :=
  fun s => match f (d_ops s) with
           | Ok a => Ok (a, s)
           | Fault e => Fault e
           end.

(** [p->op->field = ...] *)
Definition update_op (p : ptr) (f : SPVOperation -> SPVOperation) : M DState unit :=
  i <- reading (fun ops => deref ops p) ;;
  o <- lift_opt NullDeref (op i) ;;
  on_ops (fun ops => <[p := set_op (Some (f o)) i]> ops).

(** [1<<a], for [a] of type [size_t]: the [int] 1 shifted to the left.
    For [a] below 32 the value is bit [a], which the conversion to
    [uint32_t] keeps, also for [a = 31]; a shift of an [int] by 32 or more
    has no defined result. *)
Definition bit (a : nat) : option Z :=
  if (a <? 32)%nat then Some (Z.shiftl 1 (Z.of_nat a)) else None.

(** [p->op->inlineArgs |= b] *)
Definition or_inlineArgs (p : ptr) (b : Z) : M DState unit :=
  update_op p (fun o => set_inlineArgs (Z.lor (inlineArgs o) b) o).

(** [p->op->arguments[k] = v] *)
Definition store_argument (p : ptr) (k : nat) (v : ptr) : M DState unit :=
  _ <- reading (fun ops => argument ops p k) ;;
  update_op p (fun o => set_arguments (<[k := v]> (arguments o)) o).

(** The calls of [IsUnmodified] from [Disassemble].  A chain of argument
    edges without a cycle is no longer than the arena. *)
Definition is_unmodified (func : SPVFunction) (from to : ptr) : M DState bool :=
  reading (fun ops => IsUnmodified (S (length ops)) ops func from to).

(** One iteration of the loop over the arguments of [instr]; the result
    is the new [maxcomplex]. *)
Definition inline_arg (func : SPVFunction) (instr : ptr) (maxcomplex : Z) (a : nat)
    : M DState Z :=
  i <- reading (fun ops => deref ops instr) ;;
  arg <- reading (fun ops => argument ops instr a) ;;
  ai <- reading (fun ops => deref ops arg) ;;
  let fold := fun mc : Z =>
    on_funcops (fun l => erase_item l arg) ;;
    b <- lift_opt OutOfRange (bit a) ;;
    or_inlineArgs instr b ;;
    ret mc in
  match op ai with
  | Some ao =>
      let maxAllowedComplexity :=
        if Op_eqb (opcode i) OpCompositeConstruct
        then RDCMIN 2 NO_INLINE_COMPLEXITY else NO_INLINE_COMPLEXITY in
      if (complexity ao >=? maxAllowedComplexity)
         || ((2 <? length (arguments ao))%nat
             && negb (Op_eqb (opcode ai) OpAccessChain)
             && negb (Op_eqb (opcode ai) OpSelect)
             && negb (Op_eqb (opcode ai) OpCompositeConstruct))
      then ret maxcomplex
      else
        unmodified <- (if negb (Op_eqb (opcode i) OpStore) || (0 <? a)%nat
                       then is_unmodified func arg instr else ret true) ;;
        if negb unmodified then ret maxcomplex
        else fold (RDCMAX (complexity ao) maxcomplex)
  | None => fold maxcomplex
  end.

(** The loop over the arguments, and the complexity of [instr] after it. *)
Definition inline_args (func : SPVFunction) (instr : ptr) : M DState unit :=
  io <- reading (fun ops => deref_op ops instr) ;;
  maxcomplex <- foldM (seq 0 (length (arguments io))) 0 (inline_arg func instr) ;;
  update_op instr (set_complexity maxcomplex) ;;
  i <- reading (fun ops => deref ops instr) ;;
  io' <- reading (fun ops => deref_op ops instr) ;;
  if negb (Op_eqb (opcode i) OpStore)
     && negb (Op_eqb (opcode i) OpLoad)
     && negb (Op_eqb (opcode i) OpCompositeExtract)
     && negb (inlineArgs io' =? 0)
  then update_op instr (fun o => set_complexity (complexity o + 1) o)
  else ret tt.

(** The count of the stores in the emit list to what [instr] loads; the
    loop leaves at the second one. *)
Fixpoint count_stores (ops : list SPVInstruction) (instr : ptr) (l : list ptr)
    (prevstore : option ptr) (storecount : Z) : result (option ptr * Z) :=
  match l with
  | [] => Ok (prevstore, storecount)
  | previnstr :: rest =>
      pi <~ deref ops previnstr ;;
      hit <~ (if Op_eqb (opcode pi) OpStore then
                d <~ argument ops previnstr 0 ;;
                src <~ argument ops instr 0 ;;
                Ok (d =? src)%nat
              else Ok false) ;;
      if hit then
        if storecount + 1 >? 1 then Ok (Some previnstr, storecount + 1)
        else count_stores ops instr rest (Some previnstr) (storecount + 1)
      else count_stores ops instr rest prevstore storecount
  end.

(** Is there another load of the same pointer among the instructions of a
    block?  The [break] leaves the loop over one block only. *)
Fixpoint other_load_in (ops : list SPVInstruction) (instr : ptr) (l : list ptr)
    : result bool :=
  match l with
  | [] => Ok false
  | otherinstr :: rest =>
      oi <~ deref ops otherinstr ;;
      hit <~ (if negb (otherinstr =? instr)%nat && Op_eqb (opcode oi) OpLoad then
                s <~ argument ops otherinstr 0 ;;
                src <~ argument ops instr 0 ;;
                Ok (s =? src)%nat
              else Ok false) ;;
      if hit then Ok true else other_load_in ops instr rest
  end.

Fixpoint other_load (ops : list SPVInstruction) (instr : ptr) (blks : list ptr)
    (otherload : bool) : result bool :=
  match blks with
  | [] => Ok otherload
  | otherblock :: rest =>
      bi <~ deref ops otherblock ;;
      blk <~ opt NullDeref (block bi) ;;
      found <~ other_load_in ops instr (instructions blk) ;;
      other_load ops instr rest (otherload || found)
  end.

(** A temporary stored once and loaded once goes away: the load reads the
    store. *)
Definition merge_single_store (func : SPVFunction) (instr : ptr) : M DState unit :=
  i <- reading (fun ops => deref ops instr) ;;
  s <- get ;;
  if Op_eqb (opcode i) OpLoad && (1 <? length (funcops s))%nat then
    r <- reading (fun ops => count_stores ops instr (funcops s) None 0) ;;
    match r with
    | (Some prevstore, 1) =>
        unmodified <- is_unmodified func prevstore instr ;;
        if unmodified then
          otherload <- reading (fun ops => other_load ops instr (blocks func) false) ;;
          if otherload then ret tt
          else
            io <- reading (fun ops => deref_op ops instr) ;;
            po <- reading (fun ops => deref_op ops prevstore) ;;
            update_op instr (set_complexity (RDCMAX (complexity io) (complexity po))) ;;
            src <- reading (fun ops => argument ops instr 0) ;;
            on_vars (fun l => erase_item l src) ;;
            on_funcops (fun l => erase_item l prevstore) ;;
            store_argument instr 0 prevstore
        else ret tt
    | _ => ret tt
    end
  else ret tt.

(** A store of the temporary that the instruction just before it produced
    takes that instruction in. *)
Definition merge_adjacent_store (instr : ptr) : M DState unit :=
  i <- reading (fun ops => deref ops instr) ;;
  s <- get ;;
  if (Op_eqb (opcode i) OpStore || Op_eqb (opcode i) OpCompositeInsert)
     && (1 <? length (funcops s))%nat then
    value <- reading (fun ops => argument ops instr 1) ;;
    prev <- lift_opt OutOfRange (funcops s !! (length (funcops s) - 2)%nat) ;;
    if (value =? prev)%nat then
      on_funcops (fun l => erase_item l value) ;;
      vi <- reading (fun ops => deref ops value) ;;
      match op vi with
      | Some vo =>
          io <- reading (fun ops => deref_op ops instr) ;;
          update_op instr (set_complexity (RDCMAX (complexity io) (complexity vo)))
      | None => ret tt
      end ;;
      or_inlineArgs instr 2
    else ret tt
  else ret tt.

(** *** Function calls: temporaries made for passing parameters *)

(** What a search for the uses of a call argument has found so far. *)
Record usage := {
  canReplace : bool;
  found : option ptr;
  foundIdx : nat
}.

Definition no_replace (u : usage) : usage :=
  {| canReplace := false; found := found u; foundIdx := foundIdx u |}.

(** The loop over the arguments of [searchInst], instruction [j] of the
    block.  [hit] says whether an argument is the one looked for; a use by
    an instruction of opcode [kind] is recorded, once; any other use, or a
    second one, ends the search. *)
Fixpoint search_arguments (hit : ptr -> result bool) (kind : Op)
    (searchInst : ptr) (si : SPVInstruction) (j : nat) (args : list ptr) (u : usage)
    : result usage :=
  match args with
  | [] => Ok u
  | x :: rest =>
      h <~ hit x ;;
      if h then
        if Op_eqb (opcode si) kind then
          match found u with
          | Some _ => Ok (no_replace u)
          | None =>
              search_arguments hit kind searchInst si j rest
                {| canReplace := canReplace u; found := Some searchInst; foundIdx := j |}
          end
        else Ok (no_replace u)
      else search_arguments hit kind searchInst si j rest u
  end.

(** The loop over the instructions [j = lo, lo+1, ...] of the block;
    [cond] says whether a flow condition is the one looked for. *)
Fixpoint search_instructions (ops : list SPVInstruction)
    (hit : ptr -> result bool) (cond : ptr -> result bool) (kind : Op)
    (j : nat) (instrs : list ptr) (u : usage) : result usage :=
  match instrs with
  | [] => Ok u
  | searchInst :: rest =>
      si <~ deref ops searchInst ;;
      u1 <~ search_arguments hit kind searchInst si j
              (match op si with Some so => arguments so | None => [] end) u ;;
      u2 <~ match flow si with
            | Some fl =>
                match condition fl with
                | Some c => h <~ cond c ;; Ok (if h then no_replace u1 else u1)
                | None => Ok u1
                end
            | None => Ok u1
            end ;;
      if canReplace u2 then search_instructions ops hit cond kind (S j) rest u2
      else Ok u2
  end.

(** [x->id == arg->id] *)
Definition same_id (ops : list SPVInstruction) (arg x : ptr) : result bool :=
  xi <~ deref ops x ;;
  ai <~ deref ops arg ;;
  Ok (id xi =? id ai).

(** The handling of argument [a] of the call [instr], instruction [i] of
    [block]; the result is the new [ignore_items]. *)
Definition inline_call_argument (block_instructions : list ptr) (i : nat)
    (instr : ptr) (ignore_items : list ptr) (a : nat) : M DState (list ptr) :=
  arg <- reading (fun ops => argument ops instr a) ;;
  let size := length block_instructions in
  let start := {| canReplace := true; found := None; foundIdx := size |} in
  before <- reading (fun ops =>
    search_instructions ops (same_id ops arg) (same_id ops arg) OpStore
      0 (take i block_instructions) start) ;;
  let storeBefore := found before in
  after <- reading (fun ops =>
    search_instructions ops (same_id ops arg) (same_id ops arg) OpLoad
      (S i) (drop (S i) block_instructions)
      {| canReplace := canReplace before; found := None; foundIdx := size |}) ;;
  let loadAfter := found after in
  if canReplace after then
    (* in parameter *)
    match storeBefore, loadAfter with
    | Some sb, None =>
        on_funcops (fun l => erase_item l sb) ;;
        cur <- reading (fun ops => argument ops instr a) ;;
        on_vars (fun l => erase_item l cur) ;;
        v <- reading (fun ops => argument ops sb 1) ;;
        store_argument instr a v
    | _, _ => ret tt
    end ;;
    (* out or inout parameter *)
    match loadAfter with
    | None => ret ignore_items
    | Some la =>
        use <- reading (fun ops =>
          search_instructions ops (fun x => Ok (x =? la)%nat) (fun c => Ok (c =? la)%nat)
            OpStore (S (foundIdx after)) (drop (S (foundIdx after)) block_instructions)
            {| canReplace := true; found := None; foundIdx := size |}) ;;
        let storeUse := found use in
        ok <- (if canReplace use then
                 match storeBefore with
                 | Some sb =>
                     v <- reading (fun ops => argument ops sb 1) ;;
                     vi <- reading (fun ops => deref ops v) ;;
                     same <- (if Op_eqb (opcode vi) OpLoad then
                                su <- lift_opt NullDeref storeUse ;;
                                reading (fun ops =>
                                  src <~ argument ops v 0 ;;
                                  dst <~ argument ops su 0 ;;
                                  same_id ops dst src)
                              else ret false) ;;
                     if same then on_funcops (fun l => erase_item l sb) ;; ret true
                     else ret false
                 | None => ret true
                 end
               else ret false) ;;
        if ok then
          su <- lift_opt NullDeref storeUse ;;
          cur <- reading (fun ops => argument ops instr a) ;;
          on_vars (fun l => erase_item l cur) ;;
          dst <- reading (fun ops => argument ops su 0) ;;
          store_argument instr a dst ;;
          ret (ignore_items ++ [su])
        else ret ignore_items
    end
  else ret ignore_items.

Definition inline_call (block_instructions : list ptr) (i : nat) (instr : ptr)
    (ignore_items : list ptr) : M DState (list ptr) :=
  ii <- reading (fun ops => deref ops instr) ;;
  if Op_eqb (opcode ii) OpFunctionCall then
    io <- reading (fun ops => deref_op ops instr) ;;
    foldM (seq 0 (length (arguments io))) ignore_items
      (inline_call_argument block_instructions i instr)
  else ret ignore_items.

(** *** Blocks and functions *)

(** The body of the loop over the instructions of a block, for
    instruction [i]; the result is the new [ignore_items]. *)
Definition inline_instruction (func : SPVFunction) (block_instructions : list ptr)
    (ignore_items : list ptr) (i : nat) (instr : ptr) : M DState (list ptr) :=
  (if existsb (Nat.eqb instr) ignore_items then ret tt
   else on_funcops (fun l => l ++ [instr])) ;;
  ii <- reading (fun ops => deref ops instr) ;;
  match op ii with
  | Some _ =>
      inline_args func instr ;;
      merge_single_store func instr ;;
      merge_adjacent_store instr ;;
      inline_call block_instructions i instr ignore_items
  | None => ret ignore_items
  end.

Fixpoint inline_instructions (func : SPVFunction) (block_instructions : list ptr)
    (ignore_items : list ptr) (i : nat) (rest : list ptr) : M DState unit :=
  match rest with
  | [] => ret tt
  | instr :: rest' =>
      ignore_items' <- inline_instruction func block_instructions ignore_items i instr ;;
      inline_instructions func block_instructions ignore_items' (S i) rest'
  end.

(** The end of a block: its merge and exit instructions are emitted; a
    branch condition and a returned value are taken out of the emit list. *)
Definition inline_block_end (ids : list (option ptr)) (blk : SPVBlock) : M DState unit :=
  match mergeFlow blk with
  | Some m => on_funcops (fun l => l ++ [m])
  | None => ret tt
  end ;;
  match exitFlow blk with
  | Some e =>
      ei <- reading (fun ops => deref ops e) ;;
      fl <- lift_opt NullDeref (flow ei) ;;
      match condition fl with
      | Some c => on_funcops (fun l => erase_item l c)
      | None => ret tt
      end ;;
      (if Op_eqb (opcode ei) OpReturnValue then
         t <- lift_opt OutOfRange (targets fl !! 0%nat) ;;
         arg <- lift_opt OutOfRange (at_word ids t) ;;
         match arg with
         | Some x => on_funcops (fun l => erase_item l x)
         | None => ret tt
         end
       else ret tt) ;;
      on_funcops (fun l => l ++ [e])
  | None => ret tt
  end.

(** The body of the loop over the blocks, for block [b]. *)
Definition inline_block (ids : list (option ptr)) (func : SPVFunction)
    (b : nat) (blockInst : ptr) : M DState unit :=
  bi <- reading (fun ops => deref ops blockInst) ;;
  blk <- lift_opt NullDeref (block bi) ;;
  (if (0 <? b)%nat then on_funcops (fun l => l ++ [blockInst]) else ret tt) ;;
  inline_instructions func (instructions blk) [] 0 (instructions blk) ;;
  inline_block_end ids blk.

Fixpoint inline_blocks (ids : list (option ptr)) (func : SPVFunction)
    (b : nat) (rest : list ptr) : M DState unit :=
  match rest with
  | [] => ret tt
  | blockInst :: rest' =>
      inline_block ids func b blockInst ;;
      inline_blocks ids func (S b) rest'
  end.

(** The inliner over one function: [vars] starts as a copy of the
    function's variables, [funcops] empty. *)
Definition inline_function (ids : list (option ptr)) (func : SPVFunction) : M DState unit :=
  on_vars (fun _ => variables func) ;;
  on_funcops (fun _ => []) ;;
  inline_blocks ids func 0 (blocks func).

(** The inliner on a parsed module, for the function held by [*f]. *)
Definition run_inliner (m : SPVModule) (f : ptr) : result DState :=
  fi <~ deref (operations m) f ;;
  fn <~ opt NullDeref (func fi) ;;
  match inline_function (ids m) fn
          {| d_ops := operations m; vars := []; funcops := [] |} with
  | Ok (_, s) => Ok s
  | Fault e => Fault e
  end.

(** ** The sweep for redundant branch/label pairs *)

(** Is [label] a target of a flow instruction of the emit list, at an index
    other than [l]?  [b] is the index of the head of [rest]. *)
Fixpoint is_refd (ops : list SPVInstruction) (l : nat) (label : Z)
    (b : nat) (rest : list ptr) : result bool :=
  match rest with
  | [] => Ok false
  | x :: rest' =>
      if (l =? b)%nat then is_refd ops l label (S b) rest'
      else
        xi <~ deref ops x ;;
        match flow xi with
        | Some fl =>
            if existsb (Z.eqb label) (targets fl) then Ok true
            else is_refd ops l label (S b) rest'
        | None => is_refd ops l label (S b) rest'
        end
  end.

(** [funcops.size()-1] in [size_t] arithmetic (64 bits wide; the argument
    is the same for 32). *)
Definition size_minus_1 (l : list ptr) : Z := (Z.of_nat (length l) - 1) mod 2 ^ 64.

(** [for(size_t l=0; l < funcops.size()-1;)].  Every iteration either
    erases from [funcops] or advances [l]. *)
Fixpoint sweep_loop (fuel : nat) (ops : list SPVInstruction) (l : nat)
    (funcops : list ptr) : result (list ptr) :=
  match fuel with
  | O => Fault OutOfFuel
  | S fuel' =>
      if Z.of_nat l <? size_minus_1 funcops then
        x <~ opt OutOfRange (funcops !! l) ;;
        xi <~ deref ops x ;;
        if Op_eqb (opcode xi) OpBranch then
          y <~ opt OutOfRange (funcops !! S l) ;;
          yi <~ deref ops y ;;
          redundant <~ (if Op_eqb (opcode yi) OpLabel then
                          fl <~ opt NullDeref (flow xi) ;;
                          t <~ opt OutOfRange (targets fl !! 0%nat) ;;
                          Ok (t =? id yi)
                        else Ok false) ;;
          if redundant then
            refd <~ is_refd ops l (id yi) 0 funcops ;;
            if negb refd then sweep_loop fuel' ops l (delete l (delete l funcops))
            else sweep_loop fuel' ops l (delete l funcops)
          else sweep_loop fuel' ops (S l) funcops
        else sweep_loop fuel' ops (S l) funcops
      else Ok funcops
  end.

Definition sweep (ops : list SPVInstruction) (funcops : list ptr) : result (list ptr) :=
  sweep_loop (S (length funcops)) ops 0 funcops.

(** ** Rendering a vector shuffle

    The [case spv::OpVectorShuffle] of [SPVInstruction::Disassemble], from
    what it has read: the name of the result type
    ([op->type->GetName()]), the name of the instruction ([GetIDName()]),
    the size of the first source vector ([vec1type->vectorSize]), the
    selectors ([op->literals]) and the strings that
    [op->GetArg(ids, idx, arg)] yields.  How the case gets at the types,
    through [op] and the [op] of its first argument, is
    [Disassemble_OpVectorShuffle] below, on the arena. *)

Local Open Scope string_scope.

Definition string_of_char (c : Ascii.ascii) : string := String c EmptyString.

(** The first loop: the largest selector. *)
Definition max_shuffle (vec1size : Z) (lits : list Z) : Z :=
  fold_left (fun maxShuffle lit =>
               let s := if lit >? vec1size then lit - vec1size else lit in
               RDCMAX maxShuffle lit) lits 0%Z.

(** The second loop, from selector [i] on. *)
Fixpoint swizzle_loop (GetArg : nat -> string) (vec1size : Z) (lits : list Z)
    (i : nat) (lastvec : Z) (ret : string) : result string :=
  match lits with
  | [] => Ok ret
  | lit :: rest =>
      let '(s, vec) :=
        if lit =? 0xFFFFFFFF then (4, 0)
        else if lit >? vec1size then (lit - vec1size, 1)
        else (lit, 0) in
      let ret1 :=
        if negb (vec =? lastvec) then
          (ret ++ (if (0 <? i)%nat then ", " else "")) ++ GetArg 0%nat ++ "."
        else ret in
      let lastvec1 := if negb (vec =? lastvec) then vec else lastvec in
      c <~ opt OutOfRange (String.get (Z.to_nat s) "xyzw_") ;;
      swizzle_loop GetArg vec1size rest (S i) lastvec1 (ret1 ++ string_of_char c)
  end%Z.

Definition Disassemble_VectorShuffle (inlineOp : bool) (typeName idName : string)
    (GetArg : nat -> string) (vec1size : Z) (lits : list Z) : result string :=
  let ret := if inlineOp then "" else typeName ++ " " ++ idName ++ " = " in
  let maxShuffle := max_shuffle vec1size lits in
  let ret := ret ++ typeName ++ "(" in
  body <~ (if (maxShuffle <? 4)%Z
           then swizzle_loop GetArg vec1size lits 0 (-1) ret
           else Ok ret) ;;
  Ok (body ++ ")").

Local Close Scope string_scope.

(** ** Reflection: the order of constant blocks and resources *)

Record BindpointMap := {
  bindset : Z;
  bind : Z;
  used : bool;
  bm_arraySize : Z
}.

(** [bindpair<T>]: a bind point and the constant block or resource bound
    there. *)
Record bindpair (T : Type) := {
  map : BindpointMap;
  bindres : T
}.
Arguments map {T} _.
Arguments bindres {T} _.

(** [bindpair::operator<] *)
Definition bindpair_lt {T} (a o : bindpair T) : bool :=
  if negb (bindset (map a) =? bindset (map o)) then
    bindset (map a) <? bindset (map o)
  else if (bind (map a) =? -1) && (bind (map o) =? -1) then false
  else if bind (map a) =? -1 then false
  else if bind (map o) =? -1 then true
  else bind (map a) <? bind (map o).

(** What [std::sort] promises of its result: a rearrangement of the input
    in which no element is less than the one before it. *)
Definition sorted_by {A} (lt : A -> A -> bool) (l : list A) : Prop :=
  Sorted (fun x y => lt y x = false) l.
Definition is_std_sort {A} (lt : A -> A -> bool) (l l' : list A) : Prop :=
  Permutation l l' /\ sorted_by lt l'.

(** One sort that keeps the promise. *)
Fixpoint sort_insert {A} (lt : A -> A -> bool) (x : A) (l : list A) : list A :=
  match l with
  | [] => [x]
  | y :: l' => if lt y x then y :: sort_insert lt x l' else x :: l
  end.
Definition std_sort {A} (lt : A -> A -> bool) (l : list A) : list A :=
  foldr (sort_insert lt) [] l.

(** The two loops at the end of [MakeReflection]: the bind points go to the
    mapping, with -1 rewritten to 0; the blocks or resources go to the
    reflection, each with its index as [bindPoint]. *)
Definition fix_bind (m : BindpointMap) : BindpointMap :=
  if bind m =? -1
  then {| bindset := bindset m; bind := 0; used := used m; bm_arraySize := bm_arraySize m |}
  else m.

Definition mapping_of {T} (sorted : list (bindpair T)) : list BindpointMap :=
  List.map (fun p => fix_bind (map p)) sorted.

Definition reflection_of {T} (sorted : list (bindpair T)) : list (T * Z) :=
  imap (fun i p => (bindres p, Z.of_nat i)) sorted.

(** The tables that [MakeReflection] puts out for the pairs it has
    collected. *)
Definition MakeReflection_tables {T} (pairs : list (bindpair T))
    : list BindpointMap * list (T * Z) :=
  let sorted := std_sort bindpair_lt pairs in
  (mapping_of sorted, reflection_of sorted).

(** ** Sample modules

    Word buffers for the examples, with the opcode numbering and the
    version word of one revision of [spirv.hpp]. *)

Module Samples.

Definition sample_Version : Z := 99.
Definition sample_StorageClassFunction : Z := 7.

Definition sample_opOfWord (c : Z) : Op :=
  if c =? 19 then OpTypeVoid else if c =? 22 then OpTypeFloat
  else if c =? 32 then OpTypePointer else if c =? 33 then OpTypeFunction
  else if c =? 43 then OpConstant else if c =? 54 then OpFunction
  else if c =? 56 then OpFunctionEnd else if c =? 57 then OpFunctionCall
  else if c =? 59 then OpVariable
  else if c =? 61 then OpLoad else if c =? 62 then OpStore
  else if c =? 129 then OpFAdd
  else if c =? 20 then OpTypeBool else if c =? 41 then OpConstantTrue
  else if c =? 247 then OpSelectionMerge else if c =? 250 then OpBranchConditional
  else if c =? 248 then OpLabel else if c =? 249 then OpBranch
  else if c =? 253 then OpReturn else OpOther c.

(** The first word of an instruction. *)
Definition hd (count opc : Z) : Z := count * 65536 + opc.

Definition parse (ws : list Z) : result (unit * PState) :=
  ParseSPIRV sample_Version sample_opOfWord sample_StorageClassFunction ws fresh.

Definition parsed (ws : list Z) : PState :=
  match parse ws with
  | Ok (_, s) => s
  | Fault _ => fresh
  end.

(** [void f() { float v; v = 1.0; }]: ids 1 to 4 are the types, 5 the
    constant, 6 the function, 7 its label, 8 the variable; id 9 is
    below the bound and never defined. *)
Definition store_words : list Z :=
  [MagicNumber; 99; 0; 10; 0;
   hd 2 19; 1;
   hd 3 33; 2; 1;
   hd 3 22; 3; 32;
   hd 4 32; 4; 7; 3;
   hd 4 43; 3; 5; 1065353216;
   hd 5 54; 1; 6; 0; 2;
   hd 2 248; 7;
   hd 4 59; 4; 8; 7;
   hd 3 62; 8; 5;
   hd 1 253;
   hd 1 56].

Definition store_state : PState := Eval vm_compute in parsed store_words.

(** The arena of that module and the payload of its function. *)
Definition store_ops : list SPVInstruction := operations (pmod store_state).
Definition function_at (ops : list SPVInstruction) (f : ptr) : SPVFunction :=
match ops !! f with
| Some {| func := Some fn |} => fn
| _ => {| retType := None; funcType := None; f_arguments := [];
          control := 0; blocks := []; variables := [] |}
end.
Definition store_func : SPVFunction := Eval vm_compute in function_at store_ops 5.

(** The state after the loop over the arguments of the store, run on its
    own. *)
Definition store_after_args : DState :=
Eval vm_compute in
  match inline_args store_func 8
          {| d_ops := store_ops; vars := []; funcops := [8%nat] |} with
  | Ok (_, s) => s
  | Fault _ => {| d_ops := []; vars := []; funcops := [] |}
  end.

(** What [ops !! p] points to. *)
Definition instruction_at (ops : list SPVInstruction) (p : ptr) : SPVInstruction :=
match ops !! p with
| Some i => i
| None => new_SPVInstruction
end.

(** [void f() { float v; float w; w = v; }]: ids 8 and 9 are the
    variables, 10 is the load.  In the arena the function is at 4, the
    load at 8 and the store at 9. *)
Definition copy_words : list Z :=
[MagicNumber; 99; 0; 12; 0;
 hd 2 19; 1;
 hd 3 33; 2; 1;
 hd 3 22; 3; 32;
 hd 4 32; 4; 7; 3;
 hd 5 54; 1; 6; 0; 2;
 hd 2 248; 7;
 hd 4 59; 4; 8; 7;
 hd 4 59; 4; 9; 7;
 hd 4 61; 3; 10; 8;
 hd 3 62; 9; 10;
 hd 1 253;
 hd 1 56].

(** The emit list that the inliner makes of the function at [f]. *)
Definition emit_list (s : PState) (f : ptr) : list ptr :=
match run_inliner (pmod s) f with
| Ok d => funcops d
| Fault _ => []
end.

(** A function of two blocks, the first of which only branches to the
    second: [OpLabel %4; OpBranch %5; OpLabel %5; OpReturn].  In the arena
    the function is at 2, the branch at 4, the second label at 5 and the
    return at 6. *)
Definition branch_words : list Z :=
[MagicNumber; 99; 0; 6; 0;
 hd 2 19; 1;
 hd 3 33; 2; 1;
 hd 5 54; 1; 3; 0; 2;
 hd 2 248; 4;
 hd 2 249; 5;
 hd 2 248; 5;
 hd 1 253;
 hd 1 56].

Definition branch_state : PState := Eval vm_compute in parsed branch_words.
Definition branch_ops : list SPVInstruction := operations (pmod branch_state).
Definition branch_funcops : list ptr := Eval vm_compute in emit_list branch_state 2.

(** The same function with the terminator of its second block missing:
    [OpLabel %4; OpBranch %5; OpLabel %5]. *)
Definition open_words : list Z :=
[MagicNumber; 99; 0; 6; 0;
 hd 2 19; 1;
 hd 3 33; 2; 1;
 hd 5 54; 1; 3; 0; 2;
 hd 2 248; 4;
 hd 2 249; 5;
 hd 2 248; 5;
 hd 1 56].

Definition open_state : PState := Eval vm_compute in parsed open_words.
Definition open_ops : list SPVInstruction := operations (pmod open_state).
Definition open_funcops : list ptr := Eval vm_compute in emit_list open_state 2.

Definition copy_state : PState := Eval vm_compute in parsed copy_words.
Definition copy_ops : list SPVInstruction := operations (pmod copy_state).
Definition copy_func : SPVFunction := Eval vm_compute in function_at copy_ops 4.

End Samples.

(** ** The sweep, as a recursion

    [sweep_loop] at index [l] sees the emit list as the [l] instructions
    it keeps and the rest it has not examined yet.  [sweep_rec] is the
    loop as a recursion over that rest. *)

Fixpoint sweep_rec (ops : list SPVInstruction) (kept rest : list ptr)
    : result (list ptr) :=
  match rest with
  | [] => match kept with [] => Fault OutOfRange | _ => Ok kept end
  | x :: rest1 =>
      match rest1 with
      | [] => Ok (kept ++ [x])
      | y :: rest2 =>
          xi <~ deref ops x ;;
          if Op_eqb (opcode xi) OpBranch then
            yi <~ deref ops y ;;
            redundant <~ (if Op_eqb (opcode yi) OpLabel then
                            fl <~ opt NullDeref (flow xi) ;;
                            t <~ opt OutOfRange (targets fl !! 0%nat) ;;
                            Ok (t =? id yi)
                          else Ok false) ;;
            if redundant then
              refd <~ is_refd ops (length kept) (id yi) 0 (kept ++ rest) ;;
              if negb refd then sweep_rec ops kept rest2
              else sweep_rec ops kept rest1
            else sweep_rec ops (kept ++ [x]) rest1
          else sweep_rec ops (kept ++ [x]) rest1
      end
  end.

(** The targets of the flow instruction at [x]; none if [x] is no flow
    instruction. *)
Definition targets_of (ops : list SPVInstruction) (x : ptr) : list Z :=
  match ops !! x with
  | Some {| flow := Some fl |} => targets fl
  | _ => []
  end.

(** [x] is an [OpBranch] to the label with id [L]. *)
Definition branch_to (ops : list SPVInstruction) (x : ptr) (L : Z) : Prop :=
  exists i fl, ops !! x = Some i /\ opcode i = OpBranch /\
    flow i = Some fl /\ targets fl = [L].

(** [x] is the [OpLabel] with id [L]. *)
Definition label_of (ops : list SPVInstruction) (x : ptr) (L : Z) : Prop :=
  exists i, ops !! x = Some i /\ opcode i = OpLabel /\ id i = L /\ flow i = None.

(** An emit list as the inliner builds it from a parsed function: its
    instructions exist; a branch has one target; a label is no flow
    instruction; two labels have two ids. *)
Definition emit_shaped (ops : list SPVInstruction) (l : list ptr) : Prop :=
  (forall x, x ∈ l -> exists i, ops !! x = Some i /\
     (opcode i = OpBranch -> exists L, branch_to ops x L) /\
     (opcode i = OpLabel -> label_of ops x (id i))) /\
  (forall x y L, x ∈ l -> y ∈ l -> label_of ops x L -> label_of ops y L -> x = y).

(** [L] is a target of a flow instruction of [l] other than [br]. *)
Definition refd_elsewhere (ops : list SPVInstruction) (l : list ptr) (br : ptr) (L : Z) : Prop :=
  exists x, x ∈ l /\ x <> br /\ L ∈ targets_of ops x.

(** The instructions of an emit list exist, and a branch among them has
    its flow payload and a target. *)
Definition branches_shaped (ops : list SPVInstruction) (l : list ptr) : Prop :=
  forall x, x ∈ l -> exists i, ops !! x = Some i /\
    (opcode i = OpBranch -> exists fl t, flow i = Some fl /\ targets fl !! 0%nat = Some t).

(** The emit list does not end in a label: the last block of the function
    has its terminator. *)
Definition ends_terminated (ops : list SPVInstruction) (l : list ptr) : Prop :=
  forall x i, last l = Some x -> ops !! x = Some i -> opcode i <> OpLabel.

(** ** Sample inputs of the renderer and of the reflection *)

Module Inputs.

Local Open Scope string_scope.

(** [GetArg] for a shuffle of the vectors named [a] and [b]. *)
Definition shuffle_GetArg (idx : nat) : string :=
  match idx with
  | O => "a"
  | _ => "b"
  end.

(** A bind point in descriptor set [s] at binding [b]. *)
Definition bindpoint (s b : Z) : BindpointMap :=
  {| bindset := s; bind := b; used := false; bm_arraySize := 1 |}.

(** Two resources: ["bound"] in set 1 at binding 0, and ["unbound"] with
    no binding decoration (set 0 by default, binding -1). *)
Definition two_sets : list (bindpair string) :=
  [ {| map := bindpoint 1 0; bindres := "bound" |};
    {| map := bindpoint 0 (-1); bindres := "unbound" |} ].

End Inputs.

(** ** A second run of the inliner *)

(** The inliner once more, on the arena that a run has left. *)
Definition rerun_inliner (m : SPVModule) (f : nat) (d : DState) : result DState :=
  fi <~ deref (d_ops d) f ;;
  fn <~ opt NullDeref (func fi) ;;
  match inline_function (ids m) fn d with
  | Ok (_, s) => Ok s
  | Fault e => Fault e
  end.

(** The operands of the operation at [p]; none if [p] is no operation. *)
Definition operands (ops : list SPVInstruction) (p : nat) : list nat :=
  match ops !! p with
  | Some i => match op i with
              | Some o => arguments o
              | None => []
              end
  | None => []
  end.

Definition is_operation (ops : list SPVInstruction) (p : nat) : bool :=
  match ops !! p with
  | Some i => is_some (op i)
  | None => false
  end.

(** No instruction of [rest] is in [seen] or comes twice, and every
    operand that is an operation is in [seen] or earlier in [rest]. *)
Fixpoint defined_before_use (ops : list SPVInstruction) (seen rest : list nat) : bool :=
  match rest with
  | [] => true
  | instr :: rest' =>
      negb (existsb (Nat.eqb instr) seen)
      && forallb (fun arg => negb (is_operation ops arg) || existsb (Nat.eqb arg) seen)
           (operands ops instr)
      && defined_before_use ops (instr :: seen) rest'
  end.

(** No store of the arena writes to [v]. *)
Definition no_store_to (ops : list SPVInstruction) (v : nat) : bool :=
  forallb (fun x => negb (stores_to ops v x)) (seq 0 (length ops)).

(** The instruction at [p] is an [OpStore], an [OpLoad]. *)
Definition is_store (ops : list SPVInstruction) (p : nat) : bool :=
  match ops !! p with
  | Some i => Op_eqb (opcode i) OpStore
  | None => false
  end.

Definition is_load (ops : list SPVInstruction) (p : nat) : bool :=
  match ops !! p with
  | Some i => Op_eqb (opcode i) OpLoad
  | None => false
  end.

(** [v] points to an instruction that is no operation: a variable, a
    parameter, a constant. *)
Definition no_operation (ops : list SPVInstruction) (v : nat) : bool :=
  match ops !! v with
  | Some vi => negb (is_some (op vi))
  | None => false
  end.

Definition option_list {A} (o : option A) : list A :=
  match o with
  | Some a => [a]
  | None => []
  end.

(** What the loop over the blocks appends to the emit list besides the
    instructions of the blocks: the labels and the merge and exit
    instructions. *)
Fixpoint flow_instructions (ops : list SPVInstruction) (blks : list nat) : list nat :=
  match blks with
  | [] => []
  | b :: rest =>
      (b :: match ops !! b with
            | Some bi =>
                match block bi with
                | Some blk => option_list (mergeFlow blk) ++ option_list (exitFlow blk)
                | None => []
                end
            | None => []
            end) ++ flow_instructions ops rest
  end.

(** The only rewriting of arguments that the inliner can do at [instr] is
    the elision of a variable that is stored once and loaded once: [instr]
    is no [OpCompositeInsert] and no [OpFunctionCall], none of its operands
    is a store, and if it is a load, what it reads is something that no
    store writes to, or it is its only argument and no operation (a
    variable) that the function does not itself emit. *)
Definition plain_at (ops : list SPVInstruction) (emitted : list nat) (instr : nat) : bool :=
  match ops !! instr with
  | Some i =>
      negb (Op_eqb (opcode i) OpCompositeInsert)
      && negb (Op_eqb (opcode i) OpFunctionCall)
      && forallb (fun a => negb (is_store ops a)) (operands ops instr)
      && (negb (Op_eqb (opcode i) OpLoad)
          || match operands ops instr with
             | [] => true
             | v :: rest =>
                 no_store_to ops v
                 || (no_operation ops v && negb (existsb (Nat.eqb v) emitted)
                     && match rest with [] => true | _ => false end)
             end)
  | None => true
  end.

(** The function with the blocks [blks], whose instructions in order are
    [order]: its labels and flow instructions are no operations, and every
    instruction is plain. *)
Definition plain_function (ops : list SPVInstruction) (blks order : list nat) : bool :=
  forallb (fun p => negb (is_operation ops p)) (flow_instructions ops blks)
  && forallb (plain_at ops (order ++ flow_instructions ops blks)) order.

(** In the arena [F] that a run has left, the store that the load at
    [instr] has as its argument is below the complexity limit and has at
    most two arguments: the loop over the arguments would fold it. *)
Definition small_elision (F : list SPVInstruction) (instr : nat) : bool :=
  match F !! instr with
  | Some i =>
      negb (Op_eqb (opcode i) OpLoad)
      || match operands F instr with
         | s :: _ =>
             match F !! s with
             | Some si =>
                 negb (Op_eqb (opcode si) OpStore)
                 || match op si with
                    | Some so => (complexity so <? NO_INLINE_COMPLEXITY)
                                 && (length (arguments so) <=? 2)%nat
                    | None => true
                    end
             | None => true
             end
         | [] => true
         end
  | None => true
  end.

Definition small_elisions (F : list SPVInstruction) (order : list nat) : bool :=
  forallb (small_elision F) order.

(** ** Sample functions for a second run *)

Module Reruns.

Import Samples.

Definition no_state : DState := {| d_ops := []; vars := []; funcops := [] |}.

(** [void f() { float v; v = ((1.0 + 1.0) + 1.0) + 1.0; ... = v; }]: ids 9
    to 11 are the sums, 12 is the load.  In the arena the function is at
    5, the variable at 7, the sums at 8 to 10, the store at 11, the load
    at 12 and the return at 13. *)
Definition reload_words : list Z :=
[MagicNumber; 99; 0; 13; 0;
 hd 2 19; 1;
 hd 3 33; 2; 1;
 hd 3 22; 3; 32;
 hd 4 32; 4; 7; 3;
 hd 4 43; 3; 5; 1065353216;
 hd 5 54; 1; 6; 0; 2;
 hd 2 248; 7;
 hd 4 59; 4; 8; 7;
 hd 5 129; 3; 9; 5; 5;
 hd 5 129; 3; 10; 9; 5;
 hd 5 129; 3; 11; 10; 5;
 hd 3 62; 8; 11;
 hd 4 61; 3; 12; 8;
 hd 1 253;
 hd 1 56].

Definition reload_state : PState := Eval vm_compute in parsed reload_words.

(** The state after one run of the inliner and after a second one. *)
Definition reload_once : DState :=
Eval vm_compute in
  match run_inliner (pmod reload_state) 5 with
  | Ok d => d
  | Fault _ => no_state
  end.
Definition reload_twice : DState :=
Eval vm_compute in
  match rerun_inliner (pmod reload_state) 5 reload_once with
  | Ok d => d
  | Fault _ => no_state
  end.

(** [void f() { float v; float w; v = ((w + 1.0) + 1.0) + 1.0; }]: id 12
    is the load of [w], ids 9 to 11 are the sums.  In the arena the
    function is at 5, the load at 9, the sums at 10 to 12, the store at 13
    and the return at 14. *)
Definition sum_words : list Z :=
[MagicNumber; 99; 0; 14; 0;
 hd 2 19; 1;
 hd 3 33; 2; 1;
 hd 3 22; 3; 32;
 hd 4 32; 4; 7; 3;
 hd 4 43; 3; 5; 1065353216;
 hd 5 54; 1; 6; 0; 2;
 hd 2 248; 7;
 hd 4 59; 4; 8; 7;
 hd 4 59; 4; 13; 7;
 hd 4 61; 3; 12; 13;
 hd 5 129; 3; 9; 12; 5;
 hd 5 129; 3; 10; 9; 5;
 hd 5 129; 3; 11; 10; 5;
 hd 3 62; 8; 11;
 hd 1 253;
 hd 1 56].

Definition sum_state : PState := Eval vm_compute in parsed sum_words.
Definition sum_func : SPVFunction :=
Eval vm_compute in function_at (operations (pmod sum_state)) 5.
Definition sum_once : DState :=
Eval vm_compute in
  match run_inliner (pmod sum_state) 5 with
  | Ok d => d
  | Fault _ => no_state
  end.

End Reruns.

(** ** What the sweep takes out and what the inliner emits *)

(** The instruction at [x] is an [OpBranch] or an [OpLabel]. *)
Definition branch_or_label (ops : list SPVInstruction) (x : nat) : bool :=
  match ops !! x with
  | Some i => Op_eqb (opcode i) OpBranch || Op_eqb (opcode i) OpLabel
  | None => false
  end.

(** The rest of an emit list: what is neither branch nor label. *)
Definition statements (ops : list SPVInstruction) (l : list nat) : list nat :=
  List.filter (fun x => negb (branch_or_label ops x)) l.

(** A branch directly before the label it jumps to. *)
Definition redundant_at (ops : list SPVInstruction) (l : list nat) (j : nat) : Prop :=
  exists x y xi yi fl,
    l !! j = Some x /\ l !! S j = Some y /\
    ops !! x = Some xi /\ ops !! y = Some yi /\
    opcode xi = OpBranch /\ opcode yi = OpLabel /\
    flow xi = Some fl /\ targets fl !! 0%nat = Some (id yi).

(** The merge and exit instructions of the blocks [blks]. *)
Definition block_flows (ops : list SPVInstruction) (blks : list nat) : list nat :=
  flat_map (fun b =>
    match ops !! b with
    | Some bi => match block bi with
                 | Some blk =>
                     match mergeFlow blk with Some m => [m] | None => [] end ++
                     match exitFlow blk with Some e => [e] | None => [] end
                 | None => []
                 end
    | None => []
    end) blks.

(** The block at [b] ends in an instruction that is not a label. *)
Definition terminated (ops : list SPVInstruction) (b : nat) : Prop :=
  exists bi blk e ei, ops !! b = Some bi /\ block bi = Some blk /\
    exitFlow blk = Some e /\ ops !! e = Some ei /\ opcode ei <> OpLabel.

(** The operation at [p], if there is one, is not more complex than
    [NO_INLINE_COMPLEXITY]. *)
Definition within_bound (ops : list SPVInstruction) (p : nat) : Prop :=
  forall i o, ops !! p = Some i -> op i = Some o ->
    complexity o <= NO_INLINE_COMPLEXITY.

(** The bound, checked. *)
Definition within_boundb (ops : list SPVInstruction) (p : nat) : bool :=
  match ops !! p with
  | Some i => match op i with
              | Some o => complexity o <=? NO_INLINE_COMPLEXITY
              | None => true
              end
  | None => true
  end.

(** The positions at which the loops of the parser stand: [it], and from
    a position the one after its instruction.  The word count is that of
    [word_count]. *)
Inductive reaches (words : list Z) : nat -> nat -> Prop :=
| reaches_here it : reaches words it it
| reaches_next it w it' :
    words !! it = Some w ->
    reaches words (it + Z.to_nat (word_count w)) it' ->
    reaches words it it'.

(** The loop that starts at [it] comes to an instruction whose word
    count is zero. *)
Definition reaches_zero_count (words : list Z) (it : nat) : Prop :=
  exists it' w, reaches words it it' /\ words !! it' = Some w /\ word_count w = 0.

(** ** The letters of a swizzle *)

Local Open Scope string_scope.

(** The letter of a component. *)
Definition component (lit : Z) : string :=
  match String.get (Z.to_nat lit) "xyzw_" with
  | Some c => string_of_char c
  | None => ""
  end.

(** The letters of the components [lits], in a row. *)
Fixpoint swizzle (lits : list Z) : string :=
  match lits with
  | [] => ""
  | lit :: rest => component lit ++ swizzle rest
  end.

Local Close Scope string_scope.

(** ** Signature parameters

    [AddSignatureParameter], [BuiltInToSystemAttribute] and the comparison
    [sig_param_sort] of [MakeReflection].  The decorations of an
    instruction and the names and decorations of the members of a struct
    are not part of the records above; they are arguments here. *)

(** [SPVDecoration] *)
Record SPVDecoration := {
  decoration : Z;
  val : Z
}.

(** The enumerators of [spv::BuiltIn] that the code names. *)
Inductive BuiltIn :=
| BuiltInPosition | BuiltInPointSize | BuiltInClipDistance | BuiltInCullDistance
| BuiltInVertexId | BuiltInInstanceId | BuiltInPrimitiveId | BuiltInInvocationId
| BuiltInLayer | BuiltInViewportIndex | BuiltInTessLevelOuter | BuiltInTessLevelInner
| BuiltInPatchVertices | BuiltInFrontFacing | BuiltInSampleId | BuiltInSamplePosition
| BuiltInSampleMask | BuiltInFragColor | BuiltInFragDepth
| BuiltInOther (el : Z).

(** The enumerators of [SystemAttribute] that the code names. *)
Inductive SystemAttribute :=
| eAttr_None
| eAttr_Position | eAttr_PointSize | eAttr_ClipDistance | eAttr_CullDistance
| eAttr_VertexIndex | eAttr_InstanceIndex | eAttr_PrimitiveIndex | eAttr_InvocationIndex
| eAttr_RTIndex | eAttr_ViewportIndex | eAttr_OuterTessFactor | eAttr_InsideTessFactor
| eAttr_PatchNumVertices | eAttr_IsFrontFace | eAttr_MSAASampleIndex
| eAttr_MSAASamplePosition | eAttr_MSAACoverage | eAttr_ColourOutput | eAttr_DepthOutput.

Definition BuiltInToSystemAttribute (el : BuiltIn) : SystemAttribute :=
  match el with
  | BuiltInPosition => eAttr_Position
  | BuiltInPointSize => eAttr_PointSize
  | BuiltInClipDistance => eAttr_ClipDistance
  | BuiltInCullDistance => eAttr_CullDistance
  | BuiltInVertexId => eAttr_VertexIndex
  | BuiltInInstanceId => eAttr_InstanceIndex
  | BuiltInPrimitiveId => eAttr_PrimitiveIndex
  | BuiltInInvocationId => eAttr_InvocationIndex
  | BuiltInLayer => eAttr_RTIndex
  | BuiltInViewportIndex => eAttr_ViewportIndex
  | BuiltInTessLevelOuter => eAttr_OuterTessFactor
  | BuiltInTessLevelInner => eAttr_InsideTessFactor
  | BuiltInPatchVertices => eAttr_PatchNumVertices
  | BuiltInFrontFacing => eAttr_IsFrontFace
  | BuiltInSampleId => eAttr_MSAASampleIndex
  | BuiltInSamplePosition => eAttr_MSAASamplePosition
  | BuiltInSampleMask => eAttr_MSAACoverage
  | BuiltInFragColor => eAttr_ColourOutput
  | BuiltInFragDepth => eAttr_DepthOutput
  | BuiltInOther _ => eAttr_None
  end.

(** The component types that the code sets. *)
Inductive FormatComponentType :=
| eCompType_UInt | eCompType_SInt | eCompType_Float
| eCompType_Other (n : Z).

(** [SigParameter], the fields that the code writes. *)
Record SigParameter := {
  varName : string;
  semanticIdxName : string;
  semanticIndex : Z;
  needSemanticIndex : bool;
  regIndex : Z;
  systemValue : SystemAttribute;
  compType : FormatComponentType;
  regChannelMask : Z;
  channelUsedMask : Z;
  compCount : Z;
  stream : Z
}.

Definition set_varName (n : string) (s : SigParameter) : SigParameter :=
  {| varName := n; semanticIdxName := semanticIdxName s;
     semanticIndex := semanticIndex s; needSemanticIndex := needSemanticIndex s;
     regIndex := regIndex s; systemValue := systemValue s; compType := compType s;
     regChannelMask := regChannelMask s; channelUsedMask := channelUsedMask s;
     compCount := compCount s; stream := stream s |}.
Definition set_regIndex (r : Z) (s : SigParameter) : SigParameter :=
  {| varName := varName s; semanticIdxName := semanticIdxName s;
     semanticIndex := semanticIndex s; needSemanticIndex := needSemanticIndex s;
     regIndex := r; systemValue := systemValue s; compType := compType s;
     regChannelMask := regChannelMask s; channelUsedMask := channelUsedMask s;
     compCount := compCount s; stream := stream s |}.
Definition set_systemValue (v : SystemAttribute) (s : SigParameter) : SigParameter :=
  {| varName := varName s; semanticIdxName := semanticIdxName s;
     semanticIndex := semanticIndex s; needSemanticIndex := needSemanticIndex s;
     regIndex := regIndex s; systemValue := v; compType := compType s;
     regChannelMask := regChannelMask s; channelUsedMask := channelUsedMask s;
     compCount := compCount s; stream := stream s |}.
Definition set_compType (c : FormatComponentType) (s : SigParameter) : SigParameter :=
  {| varName := varName s; semanticIdxName := semanticIdxName s;
     semanticIndex := semanticIndex s; needSemanticIndex := needSemanticIndex s;
     regIndex := regIndex s; systemValue := systemValue s; compType := c;
     regChannelMask := regChannelMask s; channelUsedMask := channelUsedMask s;
     compCount := compCount s; stream := stream s |}.
(** [sig.compCount = ...; sig.stream = 0; sig.regChannelMask =
    sig.channelUsedMask = ...;] *)
Definition set_components (count mask : Z) (s : SigParameter) : SigParameter :=
  {| varName := varName s; semanticIdxName := semanticIdxName s;
     semanticIndex := semanticIndex s; needSemanticIndex := needSemanticIndex s;
     regIndex := regIndex s; systemValue := systemValue s; compType := compType s;
     regChannelMask := mask; channelUsedMask := mask;
     compCount := count; stream := 0 |}.

(** [(uint32_t)z] and [(int32_t)z] *)
Definition to_uint32 (z : Z) : Z := z mod 2 ^ 32.
Definition to_int32 (z : Z) : Z := (z + 2 ^ 31) mod 2 ^ 32 - 2 ^ 31.

(** [*type] for a [SPVTypeData *type]: the type payload of the
    instruction that holds it. *)
Definition deref_type (ops : list SPVInstruction) (t : option ptr) : result SPVTypeData :=
  p <~ opt NullDeref t ;;
  i <~ deref ops p ;;
  opt NullDeref (type i).

(** [for(size_t c=0; c < l.size(); c++) body(c, l[c])], from index [c] on. *)
Fixpoint for_each {A St} (l : list A) (c : nat) (body : nat -> A -> St -> result St)
    (s : St) : result St :=
  match l with
  | [] => Ok s
  | x :: rest => s' <~ body c x s ;; for_each rest (S c) body s'
  end.

Section Signature.

(** What comes from headers that are not at hand: the numbers of four
    decorations and the built-in that a number stands for
    ([spirv.hpp]); the number of a system attribute and the width of the
    channel masks (the replay headers); [SigParameter()]; and the text of
    [%u]. *)
Variables DecorationLocation DecorationBuiltIn DecorationRowMajor DecorationColMajor : Z.
Variable BuiltIn_of_val : Z -> BuiltIn.
Variable attr_value : SystemAttribute -> Z.
Variable to_mask : Z -> Z.
Variable new_SigParameter : SigParameter.
Variable Fmt_u : Z -> string.

(** [children[c].second] and [decorations[c]] of the struct type held by
    an instruction. *)
Variable member_name : ptr -> nat -> string.
Variable member_decorations : ptr -> nat -> list SPVDecoration.

(** [a == b] on system attributes. *)
Definition attr_eqb (a b : SystemAttribute) : bool := attr_value a =? attr_value b.

(** The parameter has no system value: [s.systemValue == eAttr_None]. *)
Definition plain (s : SigParameter) : Prop :=
  attr_value (systemValue s) = attr_value eAttr_None.

(** The loop over the decorations; the result is [sig] and [rowmajor]. *)
Definition read_decorations (decorations : list SPVDecoration) (sig : SigParameter)
    : SigParameter * bool :=
  fold_left (fun (acc : SigParameter * bool) d =>
    let '(sig, rowmajor) := acc in
    if decoration d =? DecorationLocation then (set_regIndex (val d) sig, rowmajor)
    else if decoration d =? DecorationBuiltIn then
      (set_systemValue (BuiltInToSystemAttribute (BuiltIn_of_val (val d))) sig, rowmajor)
    else if decoration d =? DecorationRowMajor then (sig, true)
    else if decoration d =? DecorationColMajor then (sig, false)
    else (sig, rowmajor)) decorations (sig, true).

(** [sigarray] and [inputAttrs]; the latter may be [NULL]. *)
Definition SigState : Type := list SigParameter * option (list Z).

(** [if(inputAttrs && sig.systemValue == eAttr_None)
      inputAttrs->elems[s.regIndex] = (int32_t)sigarray.size();
    sigarray.push_back(s);] *)
Definition push_sig (sig s : SigParameter) (st : SigState) : result SigState :=
  let '(sigarray, inputAttrs) := st in
  attrs <~ match inputAttrs with
           | Some elems =>
               if attr_eqb (systemValue sig) eAttr_None then
                 if (0 <=? regIndex s) && (Z.to_nat (regIndex s) <? length elems)%nat then
                   Ok (Some (<[Z.to_nat (regIndex s) :=
                                to_int32 (Z.of_nat (length sigarray))]> elems))
                 else Fault OutOfRange
               else Ok (Some elems)
           | None => Ok None
           end ;;
  Ok (sigarray ++ [s], attrs).

(** [AddSignatureParameter].  The recursion goes into the members of a
    struct; the fuel bounds its depth.  The assertions and the [RDCERR]
    of the [default] case only log. *)
Fixpoint AddSignatureParameter (fuel : nat) (ops : list SPVInstruction)
    (id childIdx : Z) (name : string) (type_ : option ptr)
    (decorations : list SPVDecoration) (st : SigState) : result SigState :=
  match fuel with
  | O => Fault OutOfFuel
  | S fuel' =>
      let sig :=
        {| varName := name; semanticIdxName := Fmt_u id;
           semanticIndex := childIdx; needSemanticIndex := false;
           regIndex := 0; systemValue := systemValue new_SigParameter;
           compType := compType new_SigParameter;
           regChannelMask := regChannelMask new_SigParameter;
           channelUsedMask := channelUsedMask new_SigParameter;
           compCount := compCount new_SigParameter;
           stream := stream new_SigParameter |} in
      let '(sig, rowmajor) := read_decorations decorations sig in
      t0 <~ deref_type ops type_ ;;
      let type_ := match ty_kind t0 with ePointer => baseType t0 | _ => type_ end in
      t <~ deref_type ops type_ ;;
      match ty_kind t with
      | eStruct =>
          p <~ opt NullDeref type_ ;;
          for_each (ty_children t) 0
            (fun c child st =>
               AddSignatureParameter fuel' ops id (to_uint32 (Z.of_nat c))
                 (name ++ "." ++ member_name p c)%string child
                 (member_decorations p c) st)
            st
      | _ =>
          k <~ match baseType t with
               | Some b => bt <~ deref_type ops (Some b) ;; Ok (ty_kind bt)
               | None => Ok (ty_kind t)
               end ;;
          let sig := match k with
                     | eBool | eUInt => set_compType eCompType_UInt sig
                     | eSInt => set_compType eCompType_SInt sig
                     | eFloat => set_compType eCompType_Float sig
                     | _ => sig
                     end in
          let sig := set_components (vectorSize t)
                       (to_mask (Z.shiftl 1 (vectorSize t) - 1)) sig in
          if matrixSize t =? 1 then push_sig sig sig st
          else
            for_each (seq 0 (Z.to_nat (matrixSize t))) 0
              (fun _ m st =>
                 let s := set_varName
                            (name ++ ":" ++ (if rowmajor then "row" else "col")
                               ++ Fmt_u (Z.of_nat m))%string sig in
                 let s := set_regIndex (to_uint32 (regIndex s + Z.of_nat m)) s in
                 push_sig sig s st)
              st
      end
  end.

(** [sig_param_sort::operator()] *)
Definition sig_param_sort (a b : SigParameter) : bool :=
  if attr_eqb (systemValue a) (systemValue b) then regIndex a <? regIndex b
  else if attr_eqb (systemValue a) eAttr_None then false
  else if attr_eqb (systemValue b) eAttr_None then true
  else attr_value (systemValue a) <? attr_value (systemValue b).

End Signature.

(** ** Sample signatures

    An input variable of a struct type, with the numbering of the
    decorations of one revision of [spirv.hpp]. *)

Module Signatures.

Local Open Scope string_scope.

Definition sample_DecorationRowMajor : Z := 4.
Definition sample_DecorationColMajor : Z := 5.
Definition sample_DecorationBuiltIn : Z := 11.
Definition sample_DecorationLocation : Z := 30.

Definition sample_BuiltIn_of_val (v : Z) : BuiltIn :=
  if (v =? 0)%Z then BuiltInPosition
  else if (v =? 1)%Z then BuiltInPointSize
  else BuiltInOther v.

(** The system attributes numbered in the order of the enumeration. *)
Definition sample_attr_value (a : SystemAttribute) : Z :=
  match a with
  | eAttr_None => 0
  | eAttr_Position => 1 | eAttr_PointSize => 2 | eAttr_ClipDistance => 3
  | eAttr_CullDistance => 4 | eAttr_VertexIndex => 5 | eAttr_InstanceIndex => 6
  | eAttr_PrimitiveIndex => 7 | eAttr_InvocationIndex => 8 | eAttr_RTIndex => 9
  | eAttr_ViewportIndex => 10 | eAttr_OuterTessFactor => 11
  | eAttr_InsideTessFactor => 12 | eAttr_PatchNumVertices => 13
  | eAttr_IsFrontFace => 14 | eAttr_MSAASampleIndex => 15
  | eAttr_MSAASamplePosition => 16 | eAttr_MSAACoverage => 17
  | eAttr_ColourOutput => 18 | eAttr_DepthOutput => 19
  end.

Definition sample_to_mask (z : Z) : Z := Z.land z 255.

Definition sample_Fmt_u (z : Z) : string := NilZero.string_of_uint (N.to_uint (Z.to_N z)).

Definition sample_SigParameter : SigParameter :=
  {| varName := ""; semanticIdxName := ""; semanticIndex := 0;
     needSemanticIndex := false; regIndex := 0; systemValue := eAttr_None;
     compType := eCompType_Float; regChannelMask := 0; channelUsedMask := 0;
     compCount := 0; stream := 0 |}.

Definition type_instruction (t : SPVTypeData) : SPVInstruction :=
  set_type (Some t) new_SPVInstruction.

(** [float]; [float4]; [float4x4]; [struct { float4 colour; float4x4 m;
    float4 pos; }]; a pointer to the struct. *)
Definition sample_types : list SPVInstruction :=
  [ type_instruction (new_SPVTypeData eFloat);
    type_instruction
      {| ty_kind := eVector; baseType := Some 0%nat; ty_children := [];
         ty_storage := 0; bitCount := 32; vectorSize := 4; matrixSize := 1;
         arraySize := 1 |};
    type_instruction
      {| ty_kind := eMatrix; baseType := Some 0%nat; ty_children := [];
         ty_storage := 0; bitCount := 32; vectorSize := 4; matrixSize := 4;
         arraySize := 1 |};
    type_instruction
      {| ty_kind := eStruct; baseType := None;
         ty_children := [Some 1%nat; Some 2%nat; Some 1%nat];
         ty_storage := 0; bitCount := 32; vectorSize := 1; matrixSize := 1;
         arraySize := 1 |};
    type_instruction
      {| ty_kind := ePointer; baseType := Some 3%nat; ty_children := [];
         ty_storage := 1; bitCount := 32; vectorSize := 1; matrixSize := 1;
         arraySize := 1 |} ].

Definition sample_member_name (p : ptr) (c : nat) : string :=
  match c with
  | 0%nat => "colour"
  | 1%nat => "m"
  | _ => "pos"
  end.

(** [colour] at location 2, [m] at location 4, [pos] the position. *)
Definition sample_member_decorations (p : ptr) (c : nat) : list SPVDecoration :=
  match c with
  | 0%nat => [ {| decoration := sample_DecorationLocation; val := 2 |} ]
  | 1%nat => [ {| decoration := sample_DecorationLocation; val := 4 |} ]
  | _ => [ {| decoration := sample_DecorationBuiltIn; val := 0 |} ]
  end.

(** [InputAttributes] as [MakeReflection] sets it up. *)
Definition no_attributes : list Z := replicate 16 (-1).

(** The call of [MakeReflection] for the input variable with id 9 of the
    pointer type. *)
Definition sample_call : result SigState :=
  AddSignatureParameter sample_DecorationLocation sample_DecorationBuiltIn
    sample_DecorationRowMajor sample_DecorationColMajor sample_BuiltIn_of_val
    sample_attr_value sample_to_mask sample_SigParameter sample_Fmt_u
    sample_member_name sample_member_decorations
    3 sample_types 9 4294967295 "v" (Some 4%nat) [] ([], Some no_attributes).

(** What the call appends, as [sample_call] computes it. *)
Definition sample_parameter (n : string) (idx reg : Z) (v : SystemAttribute)
    : SigParameter :=
  {| varName := n; semanticIdxName := "9"; semanticIndex := idx;
     needSemanticIndex := false; regIndex := reg; systemValue := v;
     compType := eCompType_Float; regChannelMask := 15; channelUsedMask := 15;
     compCount := 4; stream := 0 |}.

Definition sample_inputs : list SigParameter :=
  [ sample_parameter "v.colour" 0 2 eAttr_None;
    sample_parameter "v.m:row0" 1 4 eAttr_None;
    sample_parameter "v.m:row1" 1 5 eAttr_None;
    sample_parameter "v.m:row2" 1 6 eAttr_None;
    sample_parameter "v.m:row3" 1 7 eAttr_None;
    sample_parameter "v.pos" 2 0 eAttr_Position ].

Definition sample_attributes : list Z :=
  [-1; -1; 0; -1; 1; 2; 3; 4; -1; -1; -1; -1; -1; -1; -1; -1]%Z.

End Signatures.

(** ** A sample with a composite insert *)

Module Inserts.

Import Samples.

(** The numbering of [Samples], with [OpCompositeInsert]. *)
Definition insert_opOfWord (c : Z) : Op :=
  if c =? 82 then OpCompositeInsert else sample_opOfWord c.

(** [void f() { ... = insert(1.0 + 1.0 into 1.0, 0) + 1.0; }]: id 8 is the
    first sum, id 9 the insert, id 10 the sum that uses it.  In the arena
    the function is at 4, its label at 5, the first sum at 6, the insert
    at 7, the second sum at 8 and the return at 9. *)
Definition insert_words : list Z :=
[MagicNumber; 99; 0; 11; 0;
 hd 2 19; 1;
 hd 3 33; 2; 1;
 hd 3 22; 3; 32;
 hd 4 43; 3; 5; 1065353216;
 hd 5 54; 1; 6; 0; 2;
 hd 2 248; 7;
 hd 5 129; 3; 8; 5; 5;
 hd 6 82; 3; 9; 5; 8; 0;
 hd 5 129; 3; 10; 9; 5;
 hd 1 253;
 hd 1 56].

Definition insert_state : PState :=
Eval vm_compute in
  match ParseSPIRV sample_Version insert_opOfWord sample_StorageClassFunction
          insert_words fresh with
  | Ok (_, s) => s
  | Fault _ => fresh
  end.

Definition insert_once : DState :=
Eval vm_compute in
  match run_inliner (pmod insert_state) 4 with
  | Ok d => d
  | Fault _ => Reruns.no_state
  end.

End Inserts.

(** ** The vector shuffle on the arena

    The [case spv::OpVectorShuffle] of [SPVInstruction::Disassemble] as it
    reaches its operands: [this->op], for a named result its type, the
    first argument and its [op], the second argument and its [constant] or
    its [op], and the types of both, which the assertion reads.  The
    assertions only log.  [GetName] is [SPVTypeData::GetName]. *)
Definition Disassemble_OpVectorShuffle (ops : list SPVInstruction)
    (GetName : SPVTypeData -> string) (idName : string) (GetArg : nat -> string)
    (inlineOp : bool) (instr : ptr) : result string :=
  o <~ deref_op ops instr ;;
  _ <~ (if inlineOp then Ok tt else t <~ deref_type ops (op_type o) ;; Ok tt) ;;
  a0 <~ opt OutOfRange (arguments o !! 0%nat) ;;
  o0 <~ deref_op ops a0 ;;
  let vec1type := op_type o0 in
  a1 <~ opt OutOfRange (arguments o !! 1%nat) ;;
  i1 <~ deref ops a1 ;;
  vec2type <~ match constant i1 with
              | Some c => Ok (c_type c)
              | None => o1 <~ opt NullDeref (op i1) ;; Ok (op_type o1)
              end ;;
  t1 <~ deref_type ops vec1type ;;
  _ <~ match ty_kind t1 with
       | eVector => t2 <~ deref_type ops vec2type ;; Ok tt
       | _ => Ok tt
       end ;;
  t <~ deref_type ops (op_type o) ;;
  Disassemble_VectorShuffle inlineOp (GetName t) idName GetArg (vectorSize t1) (literals o).

(** The operands of the shuffle [o] are there: its type is [t], its first
    operand is an operation of type [t1], its second operand is a constant
    or an operation, and has a type. *)
Definition shuffle_operands (ops : list SPVInstruction) (o : SPVOperation)
    (t t1 : SPVTypeData) : Prop :=
  deref_type ops (op_type o) = Ok t /\
  exists a0 a1 o0 i1 t2,
    arguments o !! 0%nat = Some a0 /\ arguments o !! 1%nat = Some a1 /\
    deref_op ops a0 = Ok o0 /\ deref_type ops (op_type o0) = Ok t1 /\
    ops !! a1 = Some i1 /\
    match constant i1 with
    | Some c => deref_type ops (c_type c) = Ok t2
    | None => exists o1, op i1 = Some o1 /\ deref_type ops (op_type o1) = Ok t2
    end.

(** ** Sample shuffles *)

Module Shuffles.

Import Samples.

(** The numbering of [Samples], with [OpTypeVector] and [OpVectorShuffle]. *)
Definition shuffle_opOfWord (c : Z) : Op :=
  if c =? 23 then OpTypeVector else if c =? 79 then OpVectorShuffle
  else sample_opOfWord c.

(** Id 4 is the type of a vector of four floats, ids 8 and 9 are two sums
    of that type; id 10 shuffles them with the selectors (0, 1, 4, 5), id
    11 with (2, 1, 0), and id 12 shuffles the constant 5 and the sum 9.  In
    the arena the vector type is at 3, the sums at 7 and 8 and the
    shuffles at 9, 10 and 11. *)
Definition shuffle_words : list Z :=
[MagicNumber; 99; 0; 13; 0;
 hd 2 19; 1;
 hd 3 33; 2; 1;
 hd 3 22; 3; 32;
 hd 4 23; 4; 3; 4;
 hd 4 43; 3; 5; 1065353216;
 hd 5 54; 1; 6; 0; 2;
 hd 2 248; 7;
 hd 5 129; 4; 8; 5; 5;
 hd 5 129; 4; 9; 5; 5;
 hd 9 79; 4; 10; 8; 9; 0; 1; 4; 5;
 hd 8 79; 4; 11; 8; 9; 2; 1; 0;
 hd 9 79; 4; 12; 5; 9; 0; 1; 2; 3;
 hd 1 253;
 hd 1 56].

Definition shuffle_ops : list SPVInstruction :=
Eval vm_compute in
  match ParseSPIRV sample_Version shuffle_opOfWord sample_StorageClassFunction
          shuffle_words fresh with
  | Ok (_, s) => operations (pmod s)
  | Fault _ => []
  end.

(** The name of the one vector type of the sample. *)
Definition shuffle_GetName (t : SPVTypeData) : string := "float4"%string.

End Shuffles.

(** ** Sample functions with an elided variable *)

Module Elisions.

Import Samples.

(** The numbering of [Samples], with [OpAccessChain] and
    [OpCompositeInsert]. *)
Definition elision_opOfWord (c : Z) : Op :=
  if c =? 65 then OpAccessChain else if c =? 82 then OpCompositeInsert
  else sample_opOfWord c.

Definition elision_parsed (ws : list Z) : PState :=
  match ParseSPIRV sample_Version elision_opOfWord sample_StorageClassFunction ws fresh with
  | Ok (_, s) => s
  | Fault _ => fresh
  end.

Definition once (s : PState) (f : nat) : DState :=
  match run_inliner (pmod s) f with
  | Ok d => d
  | Fault _ => Reruns.no_state
  end.

Definition twice (s : PState) (f : nat) : DState :=
  match rerun_inliner (pmod s) f (once s f) with
  | Ok d => d
  | Fault _ => Reruns.no_state
  end.

(** [void f() { float v; float w; v = 1.0; w = v; }]: ids 8 and 9 are the
    variables, 10 is the load.  In the arena the function is at 5, the
    variables at 7 and 8, the store to [v] at 9, the load at 10, the store
    to [w] at 11 and the return at 12. *)
Definition relay_words : list Z :=
[MagicNumber; 99; 0; 12; 0;
 hd 2 19; 1;
 hd 3 33; 2; 1;
 hd 3 22; 3; 32;
 hd 4 32; 4; 7; 3;
 hd 4 43; 3; 5; 1065353216;
 hd 5 54; 1; 6; 0; 2;
 hd 2 248; 7;
 hd 4 59; 4; 8; 7;
 hd 4 59; 4; 9; 7;
 hd 3 62; 8; 5;
 hd 4 61; 3; 10; 8;
 hd 3 62; 9; 10;
 hd 1 253;
 hd 1 56].

Definition relay_state : PState := Eval vm_compute in elision_parsed relay_words.
Definition relay_func : SPVFunction :=
Eval vm_compute in function_at (operations (pmod relay_state)) 5.
Definition relay_once : DState := Eval vm_compute in once relay_state 5.
Definition relay_twice : DState := Eval vm_compute in twice relay_state 5.

(** [void f() { float v; v = 1.0 + 1.0; f(v); }]: id 9 is the sum, id 10
    the call, with the variable 8 as its argument.  In the arena the
    function is at 5, the variable at 7, the sum at 8, the store at 9, the
    call at 10 and the return at 11. *)
Definition call_words : list Z :=
[MagicNumber; 99; 0; 12; 0;
 hd 2 19; 1;
 hd 3 33; 2; 1;
 hd 3 22; 3; 32;
 hd 4 32; 4; 7; 3;
 hd 4 43; 3; 5; 1065353216;
 hd 5 54; 1; 6; 0; 2;
 hd 2 248; 7;
 hd 4 59; 4; 8; 7;
 hd 5 129; 3; 9; 5; 5;
 hd 3 62; 8; 9;
 hd 5 57; 1; 10; 6; 8;
 hd 1 253;
 hd 1 56].

Definition call_state : PState := Eval vm_compute in elision_parsed call_words.
Definition call_once : DState := Eval vm_compute in once call_state 5.
Definition call_twice : DState := Eval vm_compute in twice call_state 5.

(** [void f() { float v; ... = v; v = 1.0; ... = insert(s into s, 0); }]
    with [s] the sum of the loaded value with itself: id 10 is the load,
    id 11 the sum, id 12 the insert.  In the arena the function is at 5,
    the load at 8, the store at 9, the sum at 10, the insert at 11 and the
    return at 12. *)
Definition patch_words : list Z :=
[MagicNumber; 99; 0; 13; 0;
 hd 2 19; 1;
 hd 3 33; 2; 1;
 hd 3 22; 3; 32;
 hd 4 32; 4; 7; 3;
 hd 4 43; 3; 5; 1065353216;
 hd 5 54; 1; 6; 0; 2;
 hd 2 248; 7;
 hd 4 59; 4; 8; 7;
 hd 4 61; 3; 10; 8;
 hd 3 62; 8; 5;
 hd 5 129; 3; 11; 10; 10;
 hd 6 82; 3; 12; 11; 11; 0;
 hd 1 253;
 hd 1 56].

Definition patch_state : PState := Eval vm_compute in elision_parsed patch_words.
Definition patch_once : DState := Eval vm_compute in once patch_state 5.
Definition patch_twice : DState := Eval vm_compute in twice patch_state 5.

(** [void f() { float v; v[(1.0 + 1.0) + 1.0] = 1.0; ... = v[...]; }]: ids
    9 and 10 are the sums, id 11 the access chain, id 12 the load through
    it.  In the arena the function is at 5, the variable at 7, the sums at
    8 and 9, the access chain at 10, the store at 11, the load at 12 and
    the return at 13. *)
Definition chain_words : list Z :=
[MagicNumber; 99; 0; 13; 0;
 hd 2 19; 1;
 hd 3 33; 2; 1;
 hd 3 22; 3; 32;
 hd 4 32; 4; 7; 3;
 hd 4 43; 3; 5; 1065353216;
 hd 5 54; 1; 6; 0; 2;
 hd 2 248; 7;
 hd 4 59; 4; 8; 7;
 hd 5 129; 3; 9; 5; 5;
 hd 5 129; 3; 10; 9; 5;
 hd 5 65; 4; 11; 8; 10;
 hd 3 62; 11; 5;
 hd 4 61; 3; 12; 11;
 hd 1 253;
 hd 1 56].

Definition chain_state : PState := Eval vm_compute in elision_parsed chain_words.
Definition chain_once : DState := Eval vm_compute in once chain_state 5.
Definition chain_twice : DState := Eval vm_compute in twice chain_state 5.

End Elisions.

(** ** A composite of many parts *)

Module Wide.

Import Samples.

(** The numbering of [Samples], with [OpCompositeConstruct]. *)
Definition wide_opOfWord (c : Z) : Op :=
  if c =? 80 then OpCompositeConstruct else sample_opOfWord c.

(** [void f() { ... = construct((1.0 + 1.0) + 1.0, 1.0, ..., 1.0); }] with
    [n] times the constant after the sum: ids 8 and 9 are the sums, id 10
    the composite of [n + 1] parts.  In the arena the function is at 4,
    the sums at 6 and 7, the composite at 8. *)
Definition wide_words (n : nat) : list Z :=
[MagicNumber; 99; 0; 11; 0;
 hd 2 19; 1;
 hd 3 33; 2; 1;
 hd 3 22; 3; 32;
 hd 4 43; 3; 5; 1065353216;
 hd 5 54; 1; 6; 0; 2;
 hd 2 248; 7;
 hd 5 129; 3; 8; 5; 5;
 hd 5 129; 3; 9; 8; 5;
 hd (4 + Z.of_nat n) 80; 3; 10; 9] ++ replicate n 5 ++
[hd 1 253;
 hd 1 56].

Definition wide_parsed (n : nat) : PState :=
  match ParseSPIRV sample_Version wide_opOfWord sample_StorageClassFunction
          (wide_words n) fresh with
  | Ok (_, s) => s
  | Fault _ => fresh
  end.

(** The composite of 32 parts and the composite of 33 parts. *)
Definition wide32_state : PState := Eval vm_compute in wide_parsed 31.
Definition wide33_state : PState := Eval vm_compute in wide_parsed 32.

Definition wide32_once : DState :=
Eval vm_compute in
  match run_inliner (pmod wide32_state) 4 with
  | Ok d => d
  | Fault _ => Reruns.no_state
  end.

End Wide.

(** * Properties *)

(** ** The state monad *)

Lemma bindM_Ok {S A B} (c : M S A) (k : A -> M S B) s b s' :
  bindM c k s = Ok (b, s') ->
  exists a s1, c s = Ok (a, s1) /\ k a s1 = Ok (b, s').
Proof.
  unfold bindM. destruct (c s) as [[a s1]|e]; [|discriminate].
  intros H. exists a, s1. split; [reflexivity|exact H].
Qed.

Lemma rbind_Ok {A B} (c : result A) (k : A -> result B) b :
  rbind c k = Ok b -> exists a, c = Ok a /\ k a = Ok b.
Proof. destruct c as [a|e]; simpl; [eauto|discriminate]. Qed.

Lemma opt_Ok {A} e (o : option A) a : opt e o = Ok a -> o = Some a.
Proof. destruct o; simpl; congruence. Qed.

Lemma lift_opt_Ok {S A} e (o : option A) (s : S) a s' :
  lift_opt e o s = Ok (a, s') -> o = Some a /\ s' = s.
Proof. destruct o; simpl; unfold ret, fail; intros H; inversion H; auto. Qed.

(** ** The parser keeps [ids] as long as the header's bound

    [extends s s'] relates a state of the parser to a later one: [ids] has
    kept its length, [operations] has only grown, and if every entry of
    [ids] pointed into [operations], every entry still does. *)

Definition ids_valid (m : SPVModule) : Prop :=
  forall k p, ids m !! k = Some (Some p) -> (p < length (operations m))%nat.

Definition extends (s s' : PState) : Prop :=
  length (ids (pmod s')) = length (ids (pmod s)) /\
  (length (operations (pmod s)) <= length (operations (pmod s')))%nat /\
  (ids_valid (pmod s) -> ids_valid (pmod s')).

Lemma extends_refl s : extends s s.
Proof. unfold extends; auto. Qed.

Lemma extends_trans s1 s2 s3 : extends s1 s2 -> extends s2 s3 -> extends s1 s3.
Proof. unfold extends. intros (?&?&?) (?&?&?). repeat split; [congruence|lia|auto]. Qed.

(** [grows o c]: running [c] extends the state, when the pointer [o] that
    [c] is about (if there is one) points into the arena. *)
Definition grows {A} (o : option ptr) (c : M PState A) : Prop :=
  forall s a s', (forall p, o = Some p -> (p < length (operations (pmod s)))%nat) ->
    c s = Ok (a, s') -> extends s s'.

Lemma grows_ret {A} o (a : A) : grows o (ret a).
Proof. intros s a' s' _ H. inversion H; subst. apply extends_refl. Qed.

Lemma grows_fail {A} o e : grows o (@fail PState A e).
Proof. intros s a s' _ H. discriminate. Qed.

Lemma grows_bind {A B} o (c : M PState A) (k : A -> M PState B) :
  grows o c -> (forall a, grows o (k a)) -> grows o (bindM c k).
Proof.
  intros Hc Hk s b s' Ho H. apply bindM_Ok in H as (a & s1 & H1 & H2).
  pose proof (Hc _ _ _ Ho H1) as E1.
  eapply extends_trans; [exact E1|].
  eapply Hk; [|exact H2]. destruct E1 as (_ & ? & _).
  intros p Hp. specialize (Ho p Hp). lia.
Qed.

Lemma grows_get o : grows o get.
Proof. intros s a s' _ H. inversion H; subst. apply extends_refl. Qed.

Lemma grows_lift_opt {A} o e (x : option A) : grows o (lift_opt e x).
Proof. destruct x; [apply grows_ret|apply grows_fail]. Qed.

Lemma grows_logmsg o l : grows o (logmsg l).
Proof. intros s a s' _ H. inversion H; subst. unfold extends; simpl; auto. Qed.

Lemma grows_forM {A} o (l : list A) (body : A -> M PState unit) :
  (forall x, grows o (body x)) -> grows o (forM_ l body).
Proof.
  intros Hb. induction l as [|x l IH]; simpl.
  - apply grows_ret.
  - apply grows_bind; auto.
Qed.

Lemma grows_foldM {A B} o (l : list A) (b : B) (body : B -> A -> M PState B) :
  (forall b x, grows o (body b x)) -> grows o (foldM l b body).
Proof.
  intros Hb. revert b. induction l as [|x l IH]; intros b; simpl.
  - apply grows_ret.
  - apply grows_bind; auto.
Qed.

(** A change of the module that leaves [ids] and [operations] alone. *)
Lemma grows_on_mod o (f : SPVModule -> SPVModule) :
  (forall m, ids (f m) = ids m /\ operations (f m) = operations m) ->
  grows o (on_mod f).
Proof.
  intros Hf s a s' _ H. inversion H; subst. simpl.
  destruct (Hf (pmod s)) as [Hi Ho]. unfold extends, ids_valid. simpl.
  rewrite Hi, Ho. auto.
Qed.

Lemma grows_alloc o : grows o alloc.
Proof.
  intros s a s' _ H. unfold alloc in H.
  apply bindM_Ok in H as (s0 & s1 & H1 & H). inversion H1; subst.
  apply bindM_Ok in H as ([] & s2 & H2 & H). inversion H2; subst.
  inversion H; subst. unfold extends, ids_valid. simpl.
  rewrite length_app. simpl. repeat split; [lia|].
  intros Hv k p Hk. specialize (Hv k p Hk). lia.
Qed.

Lemma grows_p_deref o p : grows o (p_deref p).
Proof. apply grows_bind; [apply grows_get|intros; apply grows_lift_opt]. Qed.

Lemma grows_p_update o p f : grows o (p_update p f).
Proof.
  apply grows_bind; [apply grows_p_deref|]. intros i s a s' _ H.
  inversion H; subst. unfold extends, ids_valid. simpl.
  rewrite length_insert. auto.
Qed.

(** A store into [ids] of the pointer the judgement is about. *)
Lemma grows_ids_store o w : grows (Some o) (ids_store w o).
Proof.
  intros s a s' Ho H. specialize (Ho o eq_refl). unfold ids_store in H.
  apply bindM_Ok in H as (s0 & s1 & H1 & H). inversion H1; subst.
  apply bindM_Ok in H as (x & s2 & H2 & H).
  apply lift_opt_Ok in H2 as [_ ->]. inversion H; subst.
  unfold extends, ids_valid. simpl. rewrite length_insert.
  repeat split; [lia|]. intros Hv k p Hk.
  destruct (decide (k = Z.to_nat w)) as [->|Hne].
  - destruct (decide (Z.to_nat w < length (ids (pmod s1)))%nat) as [Hlt|Hge].
    + rewrite list_lookup_insert_eq in Hk by exact Hlt. congruence.
    + rewrite list_insert_ge in Hk by lia. eauto.
  - rewrite list_lookup_insert_ne in Hk by congruence. eauto.
Qed.

(** After an allocation the new pointer points into the arena. *)
Lemma alloc_Ok s p s' :
  alloc s = Ok (p, s') ->
  p = length (operations (pmod s)) /\
  s' = {| pmod := with_operations (fun ops => ops ++ [new_SPVInstruction]) (pmod s);
          plog := plog s |}.
Proof.
  unfold alloc. intros H.
  apply bindM_Ok in H as (s0 & s1 & H1 & H). inversion H1; subst.
  apply bindM_Ok in H as ([] & s2 & H2 & H). inversion H2; subst.
  inversion H; subst. auto.
Qed.

Lemma grows_alloc_then {A} o (k : ptr -> M PState A) :
  (forall p, grows (Some p) (k p)) -> grows o (p <- alloc ;; k p).
Proof.
  intros Hk s a s' Ho H. apply bindM_Ok in H as (p & s1 & H1 & H).
  pose proof (grows_alloc o _ _ _ Ho H1) as E1.
  eapply extends_trans; [exact E1|].
  eapply Hk; [|exact H]. apply alloc_Ok in H1 as [-> ->].
  intros q [= <-]. simpl. rewrite length_app. simpl. lia.
Qed.

Lemma grows_GetByID o k : grows o (GetByID k).
Proof.
  unfold GetByID.
  apply grows_bind; [apply grows_get|intros s0].
  apply grows_bind; [apply grows_lift_opt|intros [p|]].
  - apply grows_ret.
  - apply grows_bind; [apply grows_logmsg|intros _].
    apply grows_alloc_then. intros p.
    apply grows_bind; [apply grows_p_update|intros _].
    apply grows_bind; [apply grows_p_update|intros _].
    apply grows_bind; [apply grows_ids_store|intros _].
    apply grows_ret.
Qed.

(** The judgement on a computation, by its syntax. *)
Ltac grows_step :=
  lazymatch goal with
  | |- grows _ (ret _) => apply grows_ret
  | |- grows _ (fail _) => apply grows_fail
  | |- grows _ get => apply grows_get
  | |- grows _ (lift_opt _ _) => apply grows_lift_opt
  | |- grows _ (logmsg _) => apply grows_logmsg
  | |- grows _ (p_deref _) => apply grows_p_deref
  | |- grows _ (p_update _ _) => apply grows_p_update
  | |- grows _ (ids_store _ _) => apply grows_ids_store
  | |- grows _ (GetByID _) => apply grows_GetByID
  | |- grows _ (on_mod _) => apply grows_on_mod; intros ?; split; reflexivity
  | |- grows _ (forM_ _ _) => apply grows_forM; intros ?
  | |- grows _ (foldM _ _ _) => apply grows_foldM; intros ? ?
  | |- grows _ (bindM _ _) => apply grows_bind; [|intros ?]
  | |- grows _ (if ?b then _ else _) => destruct b
  | |- grows _ (match ?x with _ => _ end) => destruct x
  | |- grows _ (let _ := _ in _) => cbv zeta
  end.
Ltac grows_tac := repeat grows_step.

Lemma grows_type_ptr o p : grows o (type_ptr p).
Proof. unfold type_ptr. grows_tac. Qed.
Lemma grows_constant_ptr o p : grows o (constant_ptr p).
Proof. unfold constant_ptr. grows_tac. Qed.
Lemma grows_define_id o w : grows (Some o) (define_id o w).
Proof. unfold define_id. grows_tac. Qed.
Lemma grows_on_func o cf f : grows o (on_func cf f).
Proof. unfold on_func. grows_tac. Qed.
Lemma grows_on_block o cb f : grows o (on_block cb f).
Proof. unfold on_block. grows_tac. Qed.
Lemma grows_on_type o p f : grows o (on_type p f).
Proof. unfold on_type. grows_tac. Qed.
Lemma grows_on_op o p f : grows o (on_op p f).
Proof. unfold on_op. grows_tac. Qed.
Lemma grows_on_flow o p f : grows o (on_flow p f).
Proof. unfold on_flow. grows_tac. Qed.
Lemma grows_on_constant o p f : grows o (on_constant p f).
Proof. unfold on_constant. grows_tac. Qed.
Lemma grows_on_var o p f : grows o (on_var p f).
Proof. unfold on_var. grows_tac. Qed.
Lemma grows_rd o words i : grows o (rd words i).
Proof. unfold rd. grows_tac. Qed.
Lemma grows_new_operation o p w m : grows o (new_operation p w m).
Proof. unfold new_operation. grows_tac; apply grows_type_ptr. Qed.
Lemma grows_push_arg_word o p w : grows o (push_arg_word p w).
Proof. unfold push_arg_word. grows_tac; apply grows_on_op. Qed.
Lemma grows_new_type o p k : grows o (new_type p k).
Proof. unfold new_type. grows_tac. Qed.
Lemma grows_new_constant o p w : grows o (new_constant p w).
Proof. unfold new_constant. grows_tac; apply grows_type_ptr. Qed.
Lemma grows_new_flow o p : grows o (new_flow p).
Proof. unfold new_flow. grows_tac. Qed.

Ltac grows_parser_step :=
  lazymatch goal with
  | |- grows _ (type_ptr _) => apply grows_type_ptr
  | |- grows _ (constant_ptr _) => apply grows_constant_ptr
  | |- grows _ (define_id _ _) => apply grows_define_id
  | |- grows _ (on_func _ _) => apply grows_on_func
  | |- grows _ (on_block _ _) => apply grows_on_block
  | |- grows _ (on_type _ _) => apply grows_on_type
  | |- grows _ (on_op _ _) => apply grows_on_op
  | |- grows _ (on_flow _ _) => apply grows_on_flow
  | |- grows _ (on_constant _ _) => apply grows_on_constant
  | |- grows _ (on_var _ _) => apply grows_on_var
  | |- grows _ (rd _ _) => apply grows_rd
  | |- grows _ (new_operation _ _ _) => apply grows_new_operation
  | |- grows _ (push_arg_word _ _) => apply grows_push_arg_word
  | |- grows _ (new_type _ _) => apply grows_new_type
  | |- grows _ (new_constant _ _) => apply grows_new_constant
  | |- grows _ (new_flow _) => apply grows_new_flow
  | _ => grows_step
  end.

Lemma grows_structural_case SCF words it WordCount o opc cf cb :
  grows (Some o) (structural_case SCF words it WordCount o opc cf cb).
Proof.
  unfold structural_case. destruct opc; repeat grows_parser_step.
Qed.

Lemma grows_structural_pass opOfWord SCF words fuel : forall it cf cb o,
  grows o (structural_pass opOfWord SCF words fuel it cf cb).
Proof.
  induction fuel as [|fuel IH]; intros it cf cb o; simpl.
  - apply grows_fail.
  - destruct (it <? spirvLength words)%nat; [|apply grows_ret].
    apply grows_bind; [apply grows_rd|intros w].
    apply grows_alloc_then. intros p.
    apply grows_bind; [apply grows_p_update|intros _].
    apply grows_bind; [apply grows_structural_case|intros r].
    apply IH.
Qed.

Lemma grows_annotation_case words it WordCount opc o :
  grows o (annotation_case words it WordCount opc).
Proof.
  unfold annotation_case. destruct opc; repeat grows_parser_step.
Qed.

Lemma grows_annotation_pass opOfWord words fuel : forall it o,
  grows o (annotation_pass opOfWord words fuel it).
Proof.
  induction fuel as [|fuel IH]; intros it o; simpl.
  - apply grows_fail.
  - destruct (it <? spirvLength words)%nat; [|apply grows_ret].
    apply grows_bind; [apply grows_rd|intros w].
    apply grows_bind; [apply grows_annotation_case|intros _].
    apply IH.
Qed.

(** What [ParseSPIRV] leaves behind when it gets past the header of a
    buffer: [ids] has as many entries as the header's bound says, and each
    entry that is set points into [operations]. *)
Lemma ParseSPIRV_accepts Version opOfWord SCF words bound s :
  words !! 0%nat = Some MagicNumber ->
  words !! 1%nat = Some Version ->
  words !! 3%nat = Some bound ->
  ParseSPIRV Version opOfWord SCF words fresh = Ok (tt, s) ->
  length (ids (pmod s)) = Z.to_nat bound /\ ids_valid (pmod s).
Proof.
  intros H0 H1 H3 H. unfold ParseSPIRV in H.
  apply bindM_Ok in H as (w0 & s0 & R0 & H).
  apply lift_opt_Ok in R0 as [R0 ->]. rewrite H0 in R0. inversion R0; subst w0.
  rewrite Z.eqb_refl in H. simpl in H.
  apply bindM_Ok in H as (w1 & s1 & R1 & H).
  apply lift_opt_Ok in R1 as [R1 ->]. rewrite H1 in R1. inversion R1; subst w1.
  apply bindM_Ok in H as ([] & s1 & E1 & H). inversion E1; subst s1. clear E1.
  rewrite Z.eqb_refl in H. simpl in H.
  apply bindM_Ok in H as ([] & s2 & E2 & H). inversion E2; subst s2. clear E2.
  apply bindM_Ok in H as (w2 & s2 & R2 & H). apply lift_opt_Ok in R2 as [R2 ->].
  apply bindM_Ok in H as ([] & s3 & E3 & H). inversion E3; subst s3. clear E3.
  apply bindM_Ok in H as (w3 & s3 & R3 & H). apply lift_opt_Ok in R3 as [R3 ->].
  rewrite H3 in R3. inversion R3; subst w3.
  apply bindM_Ok in H as ([] & s4 & E4 & H). inversion E4; subst s4. clear E4.
  assert (G : grows None
    (structural_pass opOfWord SCF words (S (spirvLength words)) 5 None None ;;
     annotation_pass opOfWord words (S (spirvLength words)) 5 ;;
     on_mod (fun m => with_globals (sort_by (var_storage (operations m))) m))).
  { apply grows_bind; [apply grows_structural_pass|intros _].
    apply grows_bind; [apply grows_annotation_pass|intros _].
    grows_step. }
  apply G in H; [|discriminate]. destruct H as (Hlen & _ & Hval).
  simpl in Hlen, Hval. split.
  - rewrite Hlen. apply length_resize.
  - apply Hval. intros k p Hk. simpl in Hk.
    rewrite resize_nil in Hk. apply lookup_replicate in Hk as [Hk _]. discriminate.
Qed.

(** ** Header rejection *)

(** C1.  A buffer whose first word is not the magic number, or whose second
    word is not the supported version, makes [ParseSPIRV] log one error and
    return; [operations], [ids], [globals] and [funcs] of the module are
    still empty. *)
Theorem ParseSPIRV_rejects_header Version opOfWord SCF words w0 :
  words !! 0%nat = Some w0 ->
  (w0 <> MagicNumber \/
   exists w1, words !! 1%nat = Some w1 /\ w1 <> Version) ->
  exists msg m,
    ParseSPIRV Version opOfWord SCF words fresh
      = Ok (tt, {| pmod := m; plog := [msg] |}) /\
    (msg = ErrMagic w0 \/ exists w1, words !! 1%nat = Some w1 /\ msg = ErrVersion w1) /\
    operations m = [] /\ ids m = [] /\ globals m = [] /\ funcs m = [].
Proof.
  intros H0 Hbad. unfold ParseSPIRV, bindM at 1, rd. rewrite H0. simpl.
  destruct (Z.eqb_spec w0 MagicNumber) as [->|Hm]; simpl.
  - destruct Hbad as [Hbad|(w1 & H1 & Hv)]; [congruence|].
    unfold bindM at 1. rewrite H1. simpl.
    destruct (Z.eqb_spec w1 Version) as [->|_]; [congruence|]. simpl.
    eexists _, _. split; [reflexivity|]. simpl. eauto 10.
  - eexists _, _. split; [reflexivity|]. simpl. auto 10.
Qed.

(** ** Lookup after parsing *)

(** C2.  Once [ParseSPIRV] has accepted a buffer, [GetByID k] returns for
    every [k] below the bound of the header, and what it returns points to
    an instruction of the arena that [ids] now holds at [k].  An id that
    was set is returned as it is and nothing changes; for an id that was
    never set the instruction is new, of opcode [OpUnknown] and with id
    [k], and a warning is logged. *)
Theorem GetByID_total_after_parse Version opOfWord SCF words bound s k :
  words !! 0%nat = Some MagicNumber ->
  words !! 1%nat = Some Version ->
  words !! 3%nat = Some bound ->
  ParseSPIRV Version opOfWord SCF words fresh = Ok (tt, s) ->
  0 <= k < bound ->
  exists p s' i,
    GetByID k s = Ok (p, s') /\
    operations (pmod s') !! p = Some i /\
    at_word (ids (pmod s')) k = Some (Some p) /\
    (forall q, at_word (ids (pmod s)) k = Some (Some q) -> p = q /\ s' = s) /\
    (at_word (ids (pmod s)) k = Some None ->
       p = length (operations (pmod s)) /\
       opcode i = OpUnknown /\ id i = k /\
       plog s' = plog s ++ [WarnMissingID k]).
Proof.
  intros H0 H1 H3 HP Hk.
  destruct (ParseSPIRV_accepts _ _ _ _ _ _ H0 H1 H3 HP) as [Hlen Hval].
  assert (Hin : (Z.to_nat k < length (ids (pmod s)))%nat) by lia.
  destruct (lookup_lt_is_Some_2 _ _ Hin) as [slot Hslot].
  assert (Hat : at_word (ids (pmod s)) k = Some slot).
  { unfold at_word. destruct (Z.leb_spec 0 k); [exact Hslot|lia]. }
  unfold GetByID, bindM at 1, get. unfold bindM at 1. rewrite Hat. simpl.
  destruct slot as [p|].
  - destruct (lookup_lt_is_Some_2 _ _ (Hval _ _ Hslot)) as [i Hi].
    exists p, s, i. unfold ret. repeat split; auto; congruence.
  - unfold bindM at 1, logmsg, modify. unfold bindM at 1, alloc, bindM at 1, get.
    unfold bindM at 1, on_mod, modify. simpl.
    unfold bindM at 1, p_update, bindM at 1, p_deref, bindM at 1, get. simpl.
    rewrite lookup_app_r by lia. rewrite Nat.sub_diag. simpl.
    unfold bindM at 1, bindM at 1, bindM at 1, get. simpl.
    rewrite list_lookup_insert_eq by (rewrite length_app; simpl; lia). simpl.
    unfold bindM at 1, ids_store, bindM at 1, get. simpl.
    unfold bindM at 1. rewrite Hat. simpl.
    eexists _, _, _. split; [reflexivity|]. simpl.
    split.
    { apply list_lookup_insert_eq. rewrite length_insert, length_app. simpl. lia. }
    split.
    { unfold at_word. destruct (Z.leb_spec 0 k); [|lia].
      apply list_lookup_insert_eq. lia. }
    split; [intros q Hq; congruence|]. intros _. auto.
Qed.

Lemma ParseSPIRV_rejects_header_witness :
  exists msg m,
    Samples.parse [0x07230203; 100; 0; 10; 0]
      = Ok (tt, {| pmod := m; plog := [msg] |}) /\
    (msg = ErrMagic 0x07230203 \/
     exists w1, [0x07230203; 100; 0; 10; 0] !! 1%nat = Some w1 /\ msg = ErrVersion w1) /\
    operations m = [] /\ ids m = [] /\ globals m = [] /\ funcs m = [].
Proof.
  apply (ParseSPIRV_rejects_header Samples.sample_Version Samples.sample_opOfWord
           Samples.sample_StorageClassFunction [0x07230203; 100; 0; 10; 0] 0x07230203).
  - reflexivity.
  - right. exists 100. split; [reflexivity|]. unfold Samples.sample_Version. lia.
Defined.

Lemma GetByID_total_after_parse_witness :
  exists p s' i,
    GetByID 9 Samples.store_state = Ok (p, s') /\
    operations (pmod s') !! p = Some i /\
    at_word (ids (pmod s')) 9 = Some (Some p) /\
    (forall q, at_word (ids (pmod Samples.store_state)) 9 = Some (Some q) ->
       p = q /\ s' = Samples.store_state) /\
    (at_word (ids (pmod Samples.store_state)) 9 = Some None ->
       p = length (operations (pmod Samples.store_state)) /\
       opcode i = OpUnknown /\ id i = 9 /\
       plog s' = plog Samples.store_state ++ [WarnMissingID 9]).
Proof.
  apply (GetByID_total_after_parse Samples.sample_Version Samples.sample_opOfWord
           Samples.sample_StorageClassFunction Samples.store_words 10).
  - reflexivity.
  - reflexivity.
  - reflexivity.
  - vm_compute. reflexivity.
  - lia.
Defined.

(** ** Opcodes *)

Lemma Op_tag_inj a b : Op_tag a = Op_tag b -> a = b.
Proof.
  destruct a; destruct b; simpl; intros H;
    first [reflexivity | discriminate H | (inversion H; reflexivity)].
Qed.

Lemma Op_eqb_eq a b : Op_eqb a b = true <-> a = b.
Proof.
  unfold Op_eqb. split.
  - intros H. apply andb_prop in H as [H1 H2].
    apply Z.eqb_eq in H1, H2. apply Op_tag_inj.
    destruct (Op_tag a), (Op_tag b); simpl in *; congruence.
  - intros ->. rewrite !Z.eqb_refl. reflexivity.
Qed.

Lemma Op_eqb_neq a b : Op_eqb a b = false <-> a <> b.
Proof.
  split.
  - intros H E. apply Op_eqb_eq in E. congruence.
  - intros H. destruct (Op_eqb a b) eqn:E; [|reflexivity].
    apply Op_eqb_eq in E. contradiction.
Qed.

Lemma classic_store (o : Op) (i : nat) :
  (o = OpStore /\ i = 0%nat) \/ ~ (o = OpStore /\ i = 0%nat).
Proof.
  destruct (Op_eqb o OpStore) eqn:E.
  - apply Op_eqb_eq in E. destruct i; [left; auto|right; intros [_ H]; discriminate].
  - apply Op_eqb_neq in E. right. intros [H _]. contradiction.
Qed.

(** ** The purity predicate *)

Lemma args_loop_mono (r1 r2 : ptr -> result bool) is_store args :
  (forall a b, r1 a = Ok b -> r2 a = Ok b) ->
  forall i ret b,
    args_loop r1 is_store args i ret = Ok b ->
    args_loop r2 is_store args i ret = Ok b.
Proof.
  intros Hr. induction args as [|a args IH]; intros i ret b H; simpl in *.
  - exact H.
  - destruct (is_store && (i =? 0)%nat); [auto|].
    apply rbind_Ok in H as (r & H1 & H2). rewrite (Hr _ _ H1). simpl. auto.
Qed.

(** More fuel does not change a result. *)
Lemma IsUnmodified_fuel_mono ops func to n : forall m from b,
  IsUnmodified n ops func from to = Ok b -> (n <= m)%nat ->
  IsUnmodified m ops func from to = Ok b.
Proof.
  induction n as [|n IH]; intros m from b H Hle; [discriminate|].
  destruct m as [|m]; [lia|]. simpl in *.
  destruct (deref ops from) as [fi|]; simpl in *; [|discriminate].
  destruct (op fi) as [fo|]; [|exact H].
  destruct (is_var_load ops from) as [[|]|]; simpl in *; try exact H.
  eapply args_loop_mono; [|exact H]. intros a b' Ha. apply IH; [exact Ha|lia].
Qed.

Lemma unmodified_deterministic ops func from to b1 b2 :
  unmodified ops func from to b1 -> unmodified ops func from to b2 -> b1 = b2.
Proof.
  intros [n1 H1] [n2 H2].
  apply (IsUnmodified_fuel_mono _ _ _ _ (n1 + n2)%nat) in H1; [|lia].
  apply (IsUnmodified_fuel_mono _ _ _ _ (n1 + n2)%nat) in H2; [|lia].
  congruence.
Qed.

(** The loop over the arguments returns [true] exactly when every call it
    makes does. *)
Lemma args_loop_true recurse is_store args : forall i,
  args_loop recurse is_store args i true = Ok true <->
  (forall j a, args !! j = Some a -> ~ (is_store = true /\ (i + j = 0)%nat) ->
     recurse a = Ok true).
Proof.
  induction args as [|a args IH]; intros i; simpl.
  - split; [intros _ j a' H; discriminate|reflexivity].
  - destruct (is_store && (i =? 0)%nat) eqn:E.
    + apply andb_prop in E as [-> E]. apply Nat.eqb_eq in E. subst i.
      rewrite (IH 1%nat). split.
      * intros H [|j] a' Ha Hn; simpl in Ha.
        -- exfalso. apply Hn. auto.
        -- apply (H j a' Ha). lia.
      * intros H j a' Ha Hn. apply (H (S j) a' Ha). lia.
    + assert (Hn : ~ (is_store = true /\ (i + 0 = 0)%nat)).
      { intros [-> Hi]. replace i with 0%nat in E by lia. discriminate. }
      split.
      * intros H. apply rbind_Ok in H as (r & H1 & H2).
        destruct r; simpl in H2.
        -- pose proof (proj1 (IH (S i)) H2) as H3.
           intros [|j] a' Ha Hn'; simpl in Ha.
           ++ congruence.
           ++ apply (H3 j a' Ha). lia.
        -- exfalso. clear - H2. revert H2. generalize (S i).
           induction args as [|x args IHa]; intros k H; simpl in H; [discriminate|].
           destruct (is_store && (k =? 0)%nat); [eauto|].
           apply rbind_Ok in H as (r & _ & H). eauto.
      * intros H. rewrite (H 0%nat a eq_refl Hn). simpl. apply (proj2 (IH (S i))).
        intros j a' Ha Hn'. apply (H (S j) a' Ha). lia.
Qed.

(** The scan of one block after another is the scan of their instructions
    in a row. *)
Lemma scan_instructions_app ops from to var l1 l2 : forall looking,
  scan_instructions ops from to var (l1 ++ l2) looking =
  (r <~ scan_instructions ops from to var l1 looking ;;
   match r with
   | ScanGo looking' => scan_instructions ops from to var l2 looking'
   | _ => Ok r
   end).
Proof.
  induction l1 as [|x l1 IH]; intros looking; simpl; [reflexivity|].
  destruct (x =? from)%nat; [apply IH|].
  destruct (x =? to)%nat; [reflexivity|].
  destruct looking; [|apply IH].
  destruct (deref ops x) as [xi|]; simpl; [|reflexivity].
  destruct (Op_eqb (opcode xi) OpStore); [|apply IH].
  destruct (argument ops x 0) as [d|]; simpl; [|reflexivity].
  destruct (d =? var)%nat; [reflexivity|apply IH].
Qed.

Lemma scan_blocks_linear ops from to var blks : forall flat looking,
  linear_order ops blks = Some flat ->
  scan_blocks ops from to var blks looking =
  (r <~ scan_instructions ops from to var flat looking ;;
   Ok (match r with ScanFalse => false | _ => true end)).
Proof.
  induction blks as [|b blks IH]; intros flat looking H; simpl in *.
  - inversion H; subst. reflexivity.
  - unfold deref. destruct (ops !! b) as [bi|]; [|discriminate]. simpl.
    destruct (block bi) as [blk|]; [|discriminate]. simpl.
    destruct (linear_order ops blks) as [l|]; [|discriminate].
    inversion H; subst. rewrite scan_instructions_app.
    destruct (scan_instructions ops from to var (instructions blk) looking)
      as [[| |lk]|]; simpl; try reflexivity.
    apply IH. reflexivity.
Qed.

(** Before [from] is met nothing is looked at. *)
Lemma scan_instructions_before ops from to var l :
  from ∉ l -> to ∉ l ->
  scan_instructions ops from to var l false = Ok (ScanGo false).
Proof.
  induction l as [|x l IH]; intros Hf Ht; simpl; [reflexivity|].
  apply not_elem_of_cons in Hf as [Hf1 Hf2].
  apply not_elem_of_cons in Ht as [Ht1 Ht2].
  destruct (Nat.eqb_spec x from); [congruence|].
  destruct (Nat.eqb_spec x to); [congruence|]. auto.
Qed.

(** Between [from] and [to] the scan stops at the first store to [var]. *)
Lemma scan_instructions_between ops from to var l :
  to ∉ l -> stores_to ops var from = false -> Forall (store_shaped ops) l ->
  scan_instructions ops from to var l true =
  Ok (if existsb (stores_to ops var) l then ScanFalse else ScanGo true).
Proof.
  intros Ht Hfrom Hs. induction Hs as [|x l (xi & Hx & Hsh) Hs IH]; simpl; [reflexivity|].
  apply not_elem_of_cons in Ht as [Ht1 Ht2].
  destruct (Nat.eqb_spec x from) as [->|Hxf].
  { rewrite Hfrom. simpl. auto. }
  destruct (Nat.eqb_spec x to); [congruence|].
  assert (Hst : stores_to ops var x =
                Op_eqb (opcode xi) OpStore &&
                match op xi with
                | Some o => match arguments o !! 0%nat with
                            | Some d => (d =? var)%nat
                            | None => false
                            end
                | None => false
                end).
  { unfold stores_to. rewrite Hx. reflexivity. }
  rewrite Hst. unfold deref, argument, deref_op, deref. rewrite Hx. simpl.
  destruct (Op_eqb (opcode xi) OpStore) eqn:E; simpl; [|auto].
  apply Op_eqb_eq in E. destruct (Hsh E) as (o & d & Ho & Hd).
  rewrite Ho. cbn [rbind opt]. rewrite !Hd. cbn [rbind opt andb].
  destruct (d =? var)%nat; cbn [orb]; auto.
Qed.

(** C5.  [IsUnmodified(func, from, to)]:
    - for an instruction that is not an operation it returns true;
    - for a load of a variable, with [from] before [to] in the linear
      order of the blocks, it returns true if and only if none of the
      instructions strictly between them is a store to that variable;
    - for any other operation it returns true if and only if it returns
      true for every operand, the destination (argument 0) of a store
      left out. *)
Theorem IsUnmodified_spec ops func from to fi :
  ops !! from = Some fi ->
  (op fi = None -> unmodified ops func from to true) /\
  (forall fo v vi l1 l2 l3,
     op fi = Some fo -> opcode fi = OpLoad ->
     arguments fo !! 0%nat = Some v -> ops !! v = Some vi -> is_some (var vi) = true ->
     linear_order ops (blocks func) = Some (l1 ++ from :: l2 ++ to :: l3) ->
     from ∉ l1 -> to ∉ l1 -> to ∉ l2 -> from <> to ->
     Forall (store_shaped ops) l2 ->
     exists b, unmodified ops func from to b /\
       (b = true <-> forall x, x ∈ l2 -> stores_to ops v x = false)) /\
  (forall fo,
     op fi = Some fo -> is_var_load ops from = Ok false ->
     (unmodified ops func from to true <->
      forall i a, arguments fo !! i = Some a -> ~ (opcode fi = OpStore /\ i = 0%nat) ->
        unmodified ops func a to true)).
Proof.
  intros Hfrom. split; [|split].
  - intros Hop. exists 1%nat. simpl. unfold deref. rewrite Hfrom. simpl.
    rewrite Hop. reflexivity.
  - intros fo v vi l1 l2 l3 Hop Hload Hv Hvi Hvar Hlin Hf1 Ht1 Ht2 Hne Hs.
    exists (negb (existsb (stores_to ops v) l2)). split.
    + exists 1%nat. simpl. unfold deref. rewrite Hfrom. simpl. rewrite Hop.
      unfold is_var_load, argument, deref_op, deref. rewrite Hfrom. simpl.
      rewrite Hload. simpl. rewrite Hop. simpl. rewrite Hv. simpl. rewrite Hvi.
      simpl. rewrite Hvar. simpl.
      rewrite (scan_blocks_linear _ _ _ _ _ _ _ Hlin).
      rewrite scan_instructions_app, scan_instructions_before by assumption.
      simpl. rewrite Nat.eqb_refl.
      rewrite scan_instructions_app, scan_instructions_between; try assumption.
      * simpl. destruct (existsb (stores_to ops v) l2); simpl; [reflexivity|].
        destruct (Nat.eqb_spec to from); [congruence|].
        rewrite Nat.eqb_refl. reflexivity.
      * unfold stores_to. rewrite Hfrom, Hload. reflexivity.
    + rewrite negb_true_iff. split.
      * intros H x Hx. destruct (stores_to ops v x) eqn:E; [|reflexivity].
        assert (existsb (stores_to ops v) l2 = true); [|congruence].
        apply existsb_exists. exists x. split; [apply list_elem_of_In; exact Hx|exact E].
      * intros H. destruct (existsb (stores_to ops v) l2) eqn:E; [|reflexivity].
        apply existsb_exists in E as (x & Hx & E). apply list_elem_of_In in Hx.
        rewrite (H x Hx) in E. discriminate.
  - intros fo Hop Hvl. split.
    + intros [n H] i a Ha Hn. destruct n as [|n]; [discriminate|]. simpl in H.
      unfold deref in H. rewrite Hfrom in H. simpl in H. rewrite Hop, Hvl in H.
      simpl in H. rewrite args_loop_true in H. exists n. apply (H i a Ha).
      intros [E Hi]. apply Hn. split; [apply Op_eqb_eq; exact E|lia].
    + intros H.
      assert (Hall : exists n, forall i a, arguments fo !! i = Some a ->
                ~ (opcode fi = OpStore /\ i = 0%nat) ->
                IsUnmodified n ops func a to = Ok true).
      { clear Hop. revert H. generalize (arguments fo) as args.
        intros args. induction args as [|a0 args IH] using rev_ind; intros H.
        - exists 0%nat. intros i a Ha. rewrite lookup_nil in Ha. discriminate.
        - destruct IH as [n Hn].
          { intros i a Ha. apply H. rewrite lookup_app_l; [exact Ha|].
            eapply lookup_lt_Some; exact Ha. }
          destruct (classic_store (opcode fi) (length args)) as [Hskip|Hkeep].
          + exists n. intros i a Ha Hi.
            destruct (decide (i < length args)%nat) as [Hlt|Hge].
            * rewrite lookup_app_l in Ha by exact Hlt. eauto.
            * exfalso. apply Hi. 
              rewrite lookup_app_r in Ha by lia.
              destruct (i - length args)%nat eqn:Ei; simpl in Ha; [|rewrite lookup_nil in Ha; discriminate].
              destruct Hskip as [Hs1 Hs2]. split; [exact Hs1|lia].
          + destruct (H (length args) a0) as [n0 Hn0].
            { rewrite lookup_app_r by lia. rewrite Nat.sub_diag. reflexivity. }
            { exact Hkeep. }
            exists (n + n0)%nat. intros i a Ha Hi.
            destruct (decide (i < length args)%nat) as [Hlt|Hge].
            * rewrite lookup_app_l in Ha by exact Hlt.
              eapply IsUnmodified_fuel_mono; [eapply Hn; eauto|lia].
            * rewrite lookup_app_r in Ha by lia.
              destruct (i - length args)%nat eqn:Ei; simpl in Ha; [|rewrite lookup_nil in Ha; discriminate].
              inversion Ha; subst a. eapply IsUnmodified_fuel_mono; [exact Hn0|lia]. }
      destruct Hall as [n Hn]. exists (S n). simpl. unfold deref.
      rewrite Hfrom. simpl. rewrite Hop, Hvl. simpl. apply args_loop_true.
      intros j a Ha Hj. apply (Hn j a Ha). intros [E Hi]. apply Hj.
      split; [apply Op_eqb_eq; exact E|lia].
Qed.

Lemma IsUnmodified_spec_witness :
  (exists fi, Samples.store_ops !! 4%nat = Some fi /\
     (op fi = None -> unmodified Samples.store_ops Samples.store_func 4 8 true)) /\
  (exists b, unmodified (operations (pmod Reruns.sum_state)) Reruns.sum_func 9 13 b /\
     (b = true <->
      forall x, x ∈ [10; 11; 12]%nat ->
        stores_to (operations (pmod Reruns.sum_state)) 8 x = false)).
Proof.
  split.
  - eexists. split; [reflexivity|].
    apply (IsUnmodified_spec Samples.store_ops Samples.store_func 4 8).
    reflexivity.
  - destruct (IsUnmodified_spec (operations (pmod Reruns.sum_state)) Reruns.sum_func 9 13
                (Samples.instruction_at (operations (pmod Reruns.sum_state)) 9) eq_refl)
      as (_ & H & _).
    eapply (H _ 8%nat _ [] [10; 11; 12]%nat []); try reflexivity.
    + apply not_elem_of_nil.
    + apply not_elem_of_nil.
    + intros Hin. repeat (apply elem_of_cons in Hin as [Hin|Hin]; [discriminate Hin|]).
      apply elem_of_nil in Hin. exact Hin.
    + discriminate.
    + repeat constructor; eexists; (split; [reflexivity|]); intros E; discriminate E.
Defined.

(** ** The inliner: the loop over the arguments *)

Lemma ret_Ok {S A} (a : A) (s : S) b s' : ret a s = Ok (b, s') -> b = a /\ s' = s.
Proof. unfold ret. intros H. inversion H. auto. Qed.

Lemma modify_Ok {S} (f : S -> S) s u s' : modify f s = Ok (u, s') -> s' = f s.
Proof. unfold modify. intros H. inversion H. auto. Qed.

Lemma get_Ok {S} (s : S) a s' : get s = Ok (a, s') -> a = s /\ s' = s.
Proof. unfold get. intros H. inversion H. auto. Qed.

Lemma reading_Ok {A} (f : list SPVInstruction -> result A) s a s' :
  reading f s = Ok (a, s') -> f (d_ops s) = Ok a /\ s' = s.
Proof.
  unfold reading. destruct (f (d_ops s)); intros H; inversion H. auto.
Qed.

Lemma deref_Ok ops p i : deref ops p = Ok i -> ops !! p = Some i.
Proof. apply opt_Ok. Qed.

Lemma deref_op_Ok ops p o :
  deref_op ops p = Ok o -> exists i, ops !! p = Some i /\ op i = Some o.
Proof.
  unfold deref_op. intros H. apply rbind_Ok in H as (i & H1 & H2).
  apply deref_Ok in H1. apply opt_Ok in H2. eauto.
Qed.

Lemma argument_Ok ops p k a :
  argument ops p k = Ok a ->
  exists i o, ops !! p = Some i /\ op i = Some o /\ arguments o !! k = Some a.
Proof.
  unfold argument. intros H. apply rbind_Ok in H as (o & H1 & H2).
  apply deref_op_Ok in H1 as (i & Hi & Ho). apply opt_Ok in H2. eauto.
Qed.

Lemma update_op_Ok p f s u s' :
  update_op p f s = Ok (u, s') ->
  exists i o, d_ops s !! p = Some i /\ op i = Some o /\
    s' = {| d_ops := <[p := set_op (Some (f o)) i]> (d_ops s);
            vars := vars s; funcops := funcops s |}.
Proof.
  unfold update_op. intros H.
  apply bindM_Ok in H as (i & s1 & H1 & H). apply reading_Ok in H1 as [H1 ->].
  apply deref_Ok in H1.
  apply bindM_Ok in H as (o & s2 & H2 & H). apply lift_opt_Ok in H2 as [H2 ->].
  apply modify_Ok in H. eauto.
Qed.

(** [bit a] is defined below 32, and then it is the bit [a] and no
    other. *)
Lemma bit_Some a z : bit a = Some z -> (a < 32)%nat /\ z = Z.shiftl 1 (Z.of_nat a).
Proof.
  unfold bit. destruct (Nat.ltb_spec a 32); [|discriminate].
  intros [= <-]. auto.
Qed.

Lemma bit_testbit a z b :
  bit a = Some z -> Z.testbit z (Z.of_nat b) = true -> b = a.
Proof.
  intros Hz. apply bit_Some in Hz as [_ ->].
  rewrite (Z.shiftl_spec 1 (Z.of_nat a) (Z.of_nat b) (Nat2Z.is_nonneg b)).
  intros H.
  destruct (decide (b = a)) as [|Hne]; [assumption|exfalso].
  destruct (Z.ltb_spec (Z.of_nat b - Z.of_nat a) 0) as [Hlt|Hge].
  - rewrite Z.testbit_neg_r in H by exact Hlt. discriminate.
  - change 1 with (Z.ones 1) in H.
    rewrite Z.ones_spec_high in H by lia. discriminate.
Qed.

Lemma bit_testbit_same a z : bit a = Some z -> Z.testbit z (Z.of_nat a) = true.
Proof.
  intros Hz. apply bit_Some in Hz as [_ ->].
  rewrite (Z.shiftl_spec 1 (Z.of_nat a) (Z.of_nat a) (Nat2Z.is_nonneg a)).
  rewrite Z.sub_diag. reflexivity.
Qed.

(** The test under which the loop folds an argument that is an operation:
    below the complexity limit of [instr], and narrow or of an opcode that
    may be wide. *)
Definition may_fold (i ai : SPVInstruction) (ao : SPVOperation) : Prop :=
  complexity ao < (if Op_eqb (opcode i) OpCompositeConstruct then 2 else 3) /\
  ((length (arguments ao) <= 2)%nat \/
   opcode ai = OpAccessChain \/ opcode ai = OpSelect \/
   opcode ai = OpCompositeConstruct).

Lemma may_fold_test i ai ao :
  (complexity ao >=?
     (if Op_eqb (opcode i) OpCompositeConstruct
      then RDCMIN 2 NO_INLINE_COMPLEXITY else NO_INLINE_COMPLEXITY))
  || ((2 <? length (arguments ao))%nat
      && negb (Op_eqb (opcode ai) OpAccessChain)
      && negb (Op_eqb (opcode ai) OpSelect)
      && negb (Op_eqb (opcode ai) OpCompositeConstruct)) = false
  <-> may_fold i ai ao.
Proof.
  unfold may_fold. rewrite orb_false_iff.
  assert (E : (if Op_eqb (opcode i) OpCompositeConstruct
               then RDCMIN 2 NO_INLINE_COMPLEXITY else NO_INLINE_COMPLEXITY)
              = (if Op_eqb (opcode i) OpCompositeConstruct then 2 else 3)).
  { destruct (Op_eqb (opcode i) OpCompositeConstruct); reflexivity. }
  rewrite E. clear E.
  assert (A : (complexity ao >=? (if Op_eqb (opcode i) OpCompositeConstruct then 2 else 3)) = false
              <-> complexity ao < (if Op_eqb (opcode i) OpCompositeConstruct then 2 else 3)).
  { rewrite Z.geb_leb, Z.leb_gt. reflexivity. }
  rewrite A. clear A.
  assert (B : (2 <? length (arguments ao))%nat
      && negb (Op_eqb (opcode ai) OpAccessChain)
      && negb (Op_eqb (opcode ai) OpSelect)
      && negb (Op_eqb (opcode ai) OpCompositeConstruct) = false
      <-> ((length (arguments ao) <= 2)%nat \/
           opcode ai = OpAccessChain \/ opcode ai = OpSelect \/
           opcode ai = OpCompositeConstruct)).
  { rewrite !andb_false_iff, !negb_false_iff, !Op_eqb_eq, Nat.ltb_ge. tauto. }
  rewrite B. reflexivity.
Qed.

(** The instruction [i] with the bits [z] as its [inlineArgs]. *)
Definition with_bits (z : Z) (i : SPVInstruction) (io : SPVOperation) : SPVInstruction :=
  set_op (Some (set_inlineArgs z io)) i.

(** One iteration of the loop, on an instruction [instr] whose bits so far
    are [z]: either nothing changes, or the bit of the argument is set and
    the argument was not an operation or passed the test. *)
Lemma inline_arg_Ok func instr mc a s mc' s' i io z arg ai :
  d_ops s !! instr = Some (with_bits z i io) ->
  arguments io !! a = Some arg ->
  d_ops s !! arg = Some ai ->
  inline_arg func instr mc a s = Ok (mc', s') ->
  (d_ops s' = d_ops s /\
   exists ao, op ai = Some ao /\
     (may_fold (with_bits z i io) ai ao -> opcode i <> OpStore \/ a <> 0%nat)) \/
  (exists bz, bit a = Some bz /\
   d_ops s' = <[instr := with_bits (Z.lor z bz) i io]> (d_ops s) /\
   (op ai = None \/ exists ao, op ai = Some ao /\ may_fold (with_bits z i io) ai ao)).
Proof.
  intros Hi Ha Hai H. unfold inline_arg in H.
  apply bindM_Ok in H as (i0 & s1 & H1 & H). apply reading_Ok in H1 as [H1 ->].
  apply deref_Ok in H1. rewrite Hi in H1. inversion H1; subst i0. clear H1.
  apply bindM_Ok in H as (arg0 & s1 & H1 & H). apply reading_Ok in H1 as [H1 ->].
  apply argument_Ok in H1 as (i1 & o1 & E1 & E2 & E3). rewrite Hi in E1.
  inversion E1; subst i1. simpl in E2. inversion E2; subst o1. simpl in E3.
  rewrite Ha in E3. inversion E3; subst arg0. clear E1 E2 E3.
  apply bindM_Ok in H as (ai0 & s1 & H1 & H). apply reading_Ok in H1 as [H1 ->].
  apply deref_Ok in H1. rewrite Hai in H1. inversion H1; subst ai0. clear H1.
  assert (Hfold : forall (mc0 : Z) s0 (r : Z) s2,
    d_ops s0 = d_ops s ->
    (on_funcops (fun l => erase_item l arg) ;;
     b <- lift_opt OutOfRange (bit a) ;; or_inlineArgs instr b ;;
     @ret DState Z mc0) s0 = Ok (r, s2) ->
    exists bz, bit a = Some bz /\
      d_ops s2 = <[instr := with_bits (Z.lor z bz) i io]> (d_ops s)).
  { intros mc0 s0 r s2 Hs0 F.
    apply bindM_Ok in F as ([] & t1 & F1 & F). apply modify_Ok in F1. subst t1.
    apply bindM_Ok in F as (bz & t2 & F2 & F). apply lift_opt_Ok in F2 as [F2 ->].
    apply bindM_Ok in F as ([] & t3 & F3 & F). apply ret_Ok in F as [_ ->].
    apply update_op_Ok in F3 as (i2 & o2 & G1 & G2 & ->). simpl in *.
    rewrite Hs0 in *. rewrite Hi in G1. inversion G1; subst i2. simpl in G2.
    inversion G2; subst o2. exists bz. split; [exact F2|reflexivity]. }
  destruct (op ai) as [ao|] eqn:Hop.
  - match type of H with (if ?c then _ else _) _ = _ => destruct c eqn:Htest end.
    + apply ret_Ok in H as [_ ->]. left. split; [reflexivity|].
      exists ao. split; [reflexivity|]. intros Hmf. apply may_fold_test in Hmf.
      simpl in Hmf. simpl in Htest. congruence.
    + apply may_fold_test in Htest.
      apply bindM_Ok in H as (u & s1 & H1 & H).
      assert (Hs1 : s1 = s).
      { destruct (negb (Op_eqb (opcode (with_bits z i io)) OpStore) || (0 <? a)%nat).
        - unfold is_unmodified in H1. apply reading_Ok in H1 as [_ ->]. reflexivity.
        - apply ret_Ok in H1 as [_ ->]. reflexivity. }
      subst s1. destruct u; simpl in H.
      * right. destruct (Hfold _ _ _ _ eq_refl H) as (bz & Hbz & Hs').
        exists bz. split; [exact Hbz|]. split; [exact Hs'|]. right. eauto.
      * apply ret_Ok in H as [_ ->]. left. split; [reflexivity|].
        exists ao. split; [reflexivity|]. intros _.
        destruct (negb (Op_eqb (opcode (with_bits z i io)) OpStore) || (0 <? a)%nat) eqn:G.
        -- apply orb_prop in G as [G|G].
           ++ left. apply negb_true_iff, Op_eqb_neq in G. exact G.
           ++ right. apply Nat.ltb_lt in G. lia.
        -- apply ret_Ok in H1 as [H1 _]. discriminate.
  - right. destruct (Hfold _ _ _ _ eq_refl H) as (bz & Hbz & Hs').
    exists bz. split; [exact Hbz|]. split; [exact Hs'|]. left. reflexivity.
Qed.

(** What the test reads of the argument: whether it is an operation, its
    opcode, complexity and number of arguments. *)
Definition foldable (i ai : SPVInstruction) : Prop :=
  match op ai with
  | None => True
  | Some ao => may_fold i ai ao
  end.

Lemma with_bits_id i io : op i = Some io -> with_bits (inlineArgs io) i io = i.
Proof. destruct i, io. simpl. intros ->. reflexivity. Qed.

Lemma foldable_with_bits_l z i io ai :
  foldable (with_bits z i io) ai <-> foldable i ai.
Proof. reflexivity. Qed.

(** In an arena that differs from [ops0] only in the bits of [instr], an
    instruction looks to the test as it does in any other such arena. *)
Lemma lookup_with_bits (ops0 : list SPVInstruction) (instr : nat) i io z z' (p : nat) x :
  <[instr := with_bits z i io]> ops0 !! p = Some x ->
  exists x', <[instr := with_bits z' i io]> ops0 !! p = Some x' /\
    (op x = None <-> op x' = None) /\
    (forall j, foldable j x <-> foldable j x').
Proof.
  intros H. destruct (decide (p = instr)) as [->|Hne].
  - assert (Hlt : (instr < length ops0)%nat).
    { apply lookup_lt_Some in H. rewrite length_insert in H. exact H. }
    rewrite list_lookup_insert_eq in H by exact Hlt. inversion H; subst x.
    exists (with_bits z' i io). rewrite list_lookup_insert_eq by exact Hlt.
    split; [reflexivity|]. split; [simpl; split; discriminate|].
    intros j. reflexivity.
  - rewrite list_lookup_insert_ne in H by congruence.
    exists x. rewrite list_lookup_insert_ne by congruence.
    split; [exact H|]. split; reflexivity.
Qed.

(** The loop over the argument positions [l] of [instr].  The arena changes
    in the bits of [instr] only; no bit is cleared; a bit that the loop
    sets belongs to a position of [l] whose argument is not an operation
    or passes the test; and the bit of such a position is set when the
    argument is not an operation, or is the destination of a store. *)
Lemma inline_arg_loop func (instr : nat) i io (ops0 : list SPVInstruction) l :
  forall mc s z mc' s',
  d_ops s = <[instr := with_bits z i io]> ops0 ->
  (instr < length ops0)%nat ->
  NoDup l ->
  foldM l mc (inline_arg func instr) s = Ok (mc', s') ->
  exists z',
    d_ops s' = <[instr := with_bits z' i io]> ops0 /\
    (forall b, Z.testbit z b = true -> Z.testbit z' b = true) /\
    (forall b, Z.testbit z' (Z.of_nat b) = true ->
       Z.testbit z (Z.of_nat b) = true \/
       (b ∈ l /\ exists arg ai, arguments io !! b = Some arg /\
          d_ops s !! arg = Some ai /\ foldable i ai)) /\
    (forall b arg ai, b ∈ l ->
       arguments io !! b = Some arg -> d_ops s !! arg = Some ai ->
       foldable i ai -> op ai = None \/ (opcode i = OpStore /\ b = 0%nat) ->
       Z.testbit z' (Z.of_nat b) = true).
Proof.
  induction l as [|a l IH]; intros mc s z mc' s' Hs Hlen Hnd H; simpl in H.
  - apply ret_Ok in H as [_ ->]. exists z. split; [exact Hs|].
    split; [auto|]. split; [auto|]. intros b arg ai Hb. apply elem_of_nil in Hb. contradiction.
  - apply NoDup_cons in Hnd as [Hal Hnd].
    apply bindM_Ok in H as (mc1 & s1 & H1 & H).
    assert (Hi : d_ops s !! instr = Some (with_bits z i io)).
    { rewrite Hs. apply list_lookup_insert_eq. exact Hlen. }
    (* the argument and what it points to *)
    pose proof H1 as H1'. unfold inline_arg in H1'.
    apply bindM_Ok in H1' as (i0 & t & T1 & H1'). apply reading_Ok in T1 as [_ ->].
    apply bindM_Ok in H1' as (arg & t & T2 & H1'). apply reading_Ok in T2 as [T2 ->].
    apply argument_Ok in T2 as (i1 & o1 & E1 & E2 & E3). rewrite Hi in E1.
    inversion E1; subst i1. simpl in E2. inversion E2; subst o1. simpl in E3.
    apply bindM_Ok in H1' as (ai & t & T3 & _). apply reading_Ok in T3 as [T3 _].
    apply deref_Ok in T3. clear E1 E2.
    destruct (inline_arg_Ok _ _ _ _ _ _ _ _ _ _ _ _ Hi E3 T3 H1)
      as [[Hs1 (ao & Hao & Hpure)]|(bz & Hbz & Hs1 & Hcond)].
    + (* not folded *)
      rewrite Hs in Hs1.
      destruct (IH _ _ _ _ _ Hs1 Hlen Hnd H) as (z' & Hz' & Hmono & Hset & Hmust).
      exists z'. split; [exact Hz'|]. split; [exact Hmono|]. split.
      * intros b Hb. destruct (Hset b Hb) as [?|(Hbl & arg' & ai' & ? & Hl & ?)]; [auto|].
        right. split; [apply elem_of_cons; auto|].
        rewrite Hs1, <- Hs in Hl. eauto 6.
      * intros b arg' ai' Hb Harg' Hai' Hf Hwhy.
        apply elem_of_cons in Hb as [->|Hb].
        -- exfalso. rewrite E3 in Harg'. inversion Harg'; subst arg'.
           rewrite T3 in Hai'. inversion Hai'; subst ai'.
           destruct Hwhy as [Hn|[Hst H0]]; [congruence|].
           unfold foldable in Hf. rewrite Hao in Hf.
           destruct (Hpure Hf) as [?|?]; congruence.
        -- apply (Hmust b arg' ai' Hb Harg'); [|exact Hf|exact Hwhy].
           rewrite Hs1, <- Hs. exact Hai'.
    + (* folded *)
      rewrite Hs in Hs1. rewrite list_insert_insert_eq in Hs1.
      destruct (IH _ _ _ _ _ Hs1 Hlen Hnd H) as (z' & Hz' & Hmono & Hset & Hmust).
      exists z'. split; [exact Hz'|]. split.
      { intros b Hb. apply Hmono. rewrite Z.lor_spec, Hb. reflexivity. }
      split.
      * intros b Hb. destruct (Hset b Hb) as [Hb1|(Hbl & arg' & ai' & Ha' & Hl & Hf)].
        -- rewrite Z.lor_spec in Hb1. apply orb_prop in Hb1 as [Hb1|Hb1]; [auto|].
           apply (bit_testbit _ _ _ Hbz) in Hb1. subst b. right.
           split; [apply elem_of_cons; auto|]. exists arg, ai.
           split; [exact E3|]. split; [exact T3|].
           unfold foldable. destruct Hcond as [->|(ao & -> & Hmf)]; [exact I|exact Hmf].
        -- right. split; [apply elem_of_cons; auto|].
           rewrite Hs1 in Hl.
           destruct (lookup_with_bits _ _ _ _ _ z _ _ Hl) as (x' & Hx' & _ & Hfx).
           rewrite <- Hs in Hx'. exists arg', x'. split; [exact Ha'|].
           split; [exact Hx'|]. apply Hfx. exact Hf.
      * intros b arg' ai' Hb Harg' Hai' Hf Hwhy.
        apply elem_of_cons in Hb as [->|Hb].
        -- apply Hmono. rewrite Z.lor_spec, (bit_testbit_same _ _ Hbz).
           apply orb_true_r.
        -- rewrite Hs in Hai'.
           destruct (lookup_with_bits _ _ _ _ _ (Z.lor z bz) _ _ Hai')
             as (x' & Hx' & Hnone & Hfx).
           rewrite <- Hs1 in Hx'.
           apply (Hmust b arg' x' Hb Harg' Hx'); [apply Hfx; exact Hf|].
           destruct Hwhy as [Hn|?]; [left; apply Hnone; exact Hn|auto].
Qed.

Lemma set_op_set_op o1 o2 i : set_op o1 (set_op o2 i) = set_op o1 i.
Proof. reflexivity. Qed.

(** The whole of the loop and the complexity update after it, on an
    operation [instr]: what is left in the arena is [instr] with new bits
    and a new complexity. *)
Lemma inline_args_Ok func (instr : nat) s s' i io :
  d_ops s !! instr = Some i -> op i = Some io ->
  inline_args func instr s = Ok (tt, s') ->
  exists z' c',
    d_ops s' = <[instr := set_op (Some (set_complexity c' (set_inlineArgs z' io))) i]> (d_ops s) /\
    (forall b, Z.testbit (inlineArgs io) b = true -> Z.testbit z' b = true) /\
    (forall b, Z.testbit z' (Z.of_nat b) = true ->
       Z.testbit (inlineArgs io) (Z.of_nat b) = true \/
       exists arg ai, arguments io !! b = Some arg /\
          d_ops s !! arg = Some ai /\ foldable i ai) /\
    (forall b arg ai,
       arguments io !! b = Some arg -> d_ops s !! arg = Some ai ->
       foldable i ai -> op ai = None \/ (opcode i = OpStore /\ b = 0%nat) ->
       Z.testbit z' (Z.of_nat b) = true).
Proof.
  intros Hi Hop H. unfold inline_args in H.
  apply bindM_Ok in H as (io0 & s0 & H0 & H). apply reading_Ok in H0 as [H0 ->].
  apply deref_op_Ok in H0 as (i0 & E1 & E2). rewrite Hi in E1. inversion E1; subst i0.
  rewrite Hop in E2. inversion E2; subst io0. clear E1 E2.
  apply bindM_Ok in H as (mc & s1 & H1 & H).
  assert (Hlen : (instr < length (d_ops s))%nat) by (eapply lookup_lt_Some; exact Hi).
  assert (Hs : d_ops s = <[instr := with_bits (inlineArgs io) i io]> (d_ops s)).
  { rewrite with_bits_id by exact Hop. symmetry. apply list_insert_id. exact Hi. }
  destruct (inline_arg_loop _ _ _ _ _ _ _ _ _ _ _ Hs Hlen (NoDup_seq _ _) H1)
    as (z' & Hs1 & Hmono & Hset & Hmust).
  apply bindM_Ok in H as ([] & s2 & H2 & H).
  apply update_op_Ok in H2 as (i2 & o2 & G1 & G2 & ->).
  rewrite Hs1, list_lookup_insert_eq in G1 by exact Hlen. inversion G1; subst i2.
  simpl in G2. inversion G2; subst o2. clear G1 G2.
  apply bindM_Ok in H as (i3 & s3 & H3 & H). apply reading_Ok in H3 as [H3 ->].
  apply bindM_Ok in H as (io3 & s4 & H4 & H). apply reading_Ok in H4 as [H4 ->].
  simpl in H3, H4. rewrite Hs1, list_insert_insert_eq in H3, H4.
  apply deref_Ok in H3. rewrite list_lookup_insert_eq in H3 by exact Hlen.
  inversion H3; subst i3. clear H3.
  apply deref_op_Ok in H4 as (i4 & E1 & E2).
  rewrite list_lookup_insert_eq in E1 by exact Hlen. inversion E1; subst i4.
  simpl in E2. inversion E2; subst io3. clear E1 E2.
  assert (Hfinal : exists c',
    d_ops s' = <[instr := set_op (Some (set_complexity c' (set_inlineArgs z' io))) i]> (d_ops s)).
  { match type of H with (if ?c then _ else _) _ = _ => destruct c end.
    - apply update_op_Ok in H as (i5 & o5 & G1 & G2 & ->). simpl in *.
      rewrite Hs1, list_insert_insert_eq in *.
      rewrite list_lookup_insert_eq in G1 by exact Hlen. inversion G1; subst i5.
      simpl in G2. inversion G2; subst o5. rewrite list_insert_insert_eq.
      eexists. reflexivity.
    - apply ret_Ok in H as [_ ->]. simpl. rewrite Hs1, list_insert_insert_eq.
      eexists. reflexivity. }
  destruct Hfinal as (c' & Hfinal). exists z', c'. split; [exact Hfinal|].
  split; [exact Hmono|]. split.
  - intros b Hb. destruct (Hset b Hb) as [?|(_ & ?)]; auto.
  - intros b arg ai Harg Hai Hf Hwhy.
    apply (Hmust b arg ai); auto.
    apply elem_of_seq. split; [lia|]. simpl. eapply lookup_lt_Some. exact Harg.
Qed.




(** ** The destination of a store *)

(** The claim that bit 0 of every store is clear after the inliner has run
    fails on [void f() { float v; v = 1.0; }]: the store ends with both
    bits set. *)
Lemma store_destination_folded_counterexample :
  exists s i io,
    run_inliner (pmod Samples.store_state) 5 = Ok s /\
    d_ops s !! 8%nat = Some i /\ opcode i = OpStore /\ op i = Some io /\
    Z.testbit (inlineArgs io) 0 = true.
Proof.
  eexists. eexists. eexists. split; [vm_compute; reflexivity|].
  split; [reflexivity|]. split; [reflexivity|]. split; reflexivity.
Qed.

(** C4, amended.  The destination of a store (argument 0) is exempt from
    the purity check, not from folding: when the loop over the arguments
    runs on a store whose bit 0 is clear, bit 0 is set afterwards exactly
    when the destination is not an operation, or is an operation that
    passes the test on complexity and width.  [IsUnmodified] has no say. *)
Theorem store_destination_folded func (instr : nat) s s' i io (dest : nat) di :
  d_ops s !! instr = Some i -> op i = Some io -> opcode i = OpStore ->
  arguments io !! 0%nat = Some dest -> d_ops s !! dest = Some di ->
  Z.testbit (inlineArgs io) 0 = false ->
  inline_args func instr s = Ok (tt, s') ->
  exists i' io',
    d_ops s' !! instr = Some i' /\ op i' = Some io' /\
    (Z.testbit (inlineArgs io') 0 = true <->
     (op di = None \/
      exists dop, op di = Some dop /\ complexity dop < 3 /\
        ((length (arguments dop) <= 2)%nat \/
         opcode di = OpAccessChain \/ opcode di = OpSelect \/
         opcode di = OpCompositeConstruct))).
Proof.
  intros Hi Hop Hst Hdest Hdi Hclear H.
  destruct (inline_args_Ok _ _ _ _ _ _ Hi Hop H) as (z' & c' & Hs' & _ & Hbits & Hmust).
  eexists. eexists. split.
  { rewrite Hs'. apply list_lookup_insert_eq. eapply lookup_lt_Some. exact Hi. }
  split; [reflexivity|]. simpl.
  assert (Hcc : Op_eqb (opcode i) OpCompositeConstruct = false).
  { rewrite Hst. reflexivity. }
  assert (Hf : foldable i di <->
    (op di = None \/
      exists dop, op di = Some dop /\ complexity dop < 3 /\
        ((length (arguments dop) <= 2)%nat \/
         opcode di = OpAccessChain \/ opcode di = OpSelect \/
         opcode di = OpCompositeConstruct))).
  { unfold foldable, may_fold. rewrite Hcc. destruct (op di) as [dop|].
    - split.
      + intros [? ?]. right. exists dop. auto.
      + intros [?|(d' & [= <-] & ? & ?)]; [discriminate|auto].
    - split; auto. }
  rewrite <- Hf. split.
  - intros Hset. destruct (Hbits 0%nat Hset) as [Hb|(arg' & ai' & Harg' & Hai' & Hfo)].
    + change (Z.of_nat 0) with 0 in Hb. congruence.
    + rewrite Hdest in Harg'. inversion Harg'; subst arg'.
      rewrite Hdi in Hai'. inversion Hai'; subst ai'. exact Hfo.
  - intros Hfo. apply (Hmust 0%nat dest di); auto.
Qed.

Lemma store_destination_folded_witness :
  exists i' io',
    d_ops Samples.store_after_args !! 8%nat = Some i' /\ op i' = Some io' /\
    (Z.testbit (inlineArgs io') 0 = true <->
     (op (Samples.instruction_at Samples.store_ops 7) = None \/
      exists dop, op (Samples.instruction_at Samples.store_ops 7) = Some dop /\
        complexity dop < 3 /\
        ((length (arguments dop) <= 2)%nat \/
         opcode (Samples.instruction_at Samples.store_ops 7) = OpAccessChain \/
         opcode (Samples.instruction_at Samples.store_ops 7) = OpSelect \/
         opcode (Samples.instruction_at Samples.store_ops 7) = OpCompositeConstruct))).
Proof.
  eapply (store_destination_folded Samples.store_func 8
            {| d_ops := Samples.store_ops; vars := []; funcops := [8%nat] |}
            Samples.store_after_args _ _ 7).
  - reflexivity.
  - reflexivity.
  - reflexivity.
  - reflexivity.
  - reflexivity.
  - reflexivity.
  - vm_compute. reflexivity.
Defined.

(** ** The sweep for redundant branch/label pairs *)

Lemma size_minus_1_pos (l : list nat) :
  (0 < length l)%nat -> Z.of_nat (length l) <= 2 ^ 64 ->
  size_minus_1 l = Z.of_nat (length l) - 1.
Proof.
  intros H1 H2. unfold size_minus_1. apply Z.mod_small. lia.
Qed.

Lemma sweep_rec_unfold ops kept x y rest2 :
  sweep_rec ops kept (x :: y :: rest2) =
  (xi <~ deref ops x ;;
   if Op_eqb (opcode xi) OpBranch then
     yi <~ deref ops y ;;
     redundant <~ (if Op_eqb (opcode yi) OpLabel then
                     fl <~ opt NullDeref (flow xi) ;;
                     t <~ opt OutOfRange (targets fl !! 0%nat) ;;
                     Ok (t =? id yi)
                   else Ok false) ;;
     if redundant then
       refd <~ is_refd ops (length kept) (id yi) 0 (kept ++ x :: y :: rest2) ;;
       if negb refd then sweep_rec ops kept rest2
       else sweep_rec ops kept (y :: rest2)
     else sweep_rec ops (kept ++ [x]) (y :: rest2)
   else sweep_rec ops (kept ++ [x]) (y :: rest2)).
Proof. reflexivity. Qed.

(** The loop at index [length kept] on [kept ++ rest] is the recursion on
    [rest]. *)
Lemma sweep_loop_rec ops : forall n rest kept fuel,
  (length rest <= n)%nat -> (n < fuel)%nat ->
  Z.of_nat (length (kept ++ rest)) <= 2 ^ 64 ->
  sweep_loop fuel ops (length kept) (kept ++ rest) = sweep_rec ops kept rest.
Proof.
  induction n as [|n IH]; intros rest kept fuel Hn Hfuel Hsize;
    (destruct fuel as [|fuel]; [lia|]).
  - destruct rest as [|x rest]; [|simpl in Hn; lia].
    rewrite app_nil_r in *. simpl. destruct kept as [|k kept].
    + reflexivity.
    + rewrite size_minus_1_pos by (simpl in *; lia).
      destruct (Z.ltb_spec (Z.of_nat (length (k :: kept))) (Z.of_nat (length (k :: kept)) - 1));
        [lia|reflexivity].
  - destruct rest as [|x [|y rest2]].
    + rewrite app_nil_r in *. simpl. destruct kept as [|k kept].
      * reflexivity.
      * rewrite size_minus_1_pos by (simpl in *; lia).
        destruct (Z.ltb_spec (Z.of_nat (length (k :: kept))) (Z.of_nat (length (k :: kept)) - 1));
          [lia|reflexivity].
    + simpl. rewrite size_minus_1_pos by (rewrite length_app in *; simpl in *; lia).
      rewrite length_app. simpl.
      destruct (Z.ltb_spec (Z.of_nat (length kept)) (Z.of_nat (length kept + 1) - 1));
        [lia|reflexivity].
    + rewrite sweep_rec_unfold. cbn [sweep_loop].
      rewrite size_minus_1_pos by (rewrite length_app in *; simpl in *; lia).
      rewrite length_app. cbn [length].
      destruct (Z.ltb_spec (Z.of_nat (length kept))
                  (Z.of_nat (length kept + S (S (length rest2))) - 1)); [|lia].
      rewrite list_lookup_middle by reflexivity. cbn [opt rbind].
      destruct (deref ops x) as [xi|]; [|reflexivity]. cbn [rbind].
      assert (Hnext : sweep_loop fuel ops (S (length kept)) (kept ++ x :: y :: rest2)
                      = sweep_rec ops (kept ++ [x]) (y :: rest2)).
      { replace (S (length kept)) with (length (kept ++ [x]))
          by (rewrite length_app; simpl; lia).
        replace (kept ++ x :: y :: rest2) with ((kept ++ [x]) ++ y :: rest2)
          by (rewrite <- app_assoc; reflexivity).
        apply IH; [simpl in *; lia|lia|].
        rewrite <- app_assoc. exact Hsize. }
      destruct (Op_eqb (opcode xi) OpBranch); [|exact Hnext].
      replace (kept ++ x :: y :: rest2) with ((kept ++ [x]) ++ y :: rest2) at 1
        by (rewrite <- app_assoc; reflexivity).
      rewrite (list_lookup_middle (kept ++ [x]) rest2 y (S (length kept)))
        by (rewrite length_app; simpl; lia).
      cbn [opt rbind].
      destruct (deref ops y) as [yi|]; [|reflexivity]. cbn [rbind].
      match goal with |- rbind ?c _ = rbind ?c _ => destruct c as [[|]|] end;
        cbn [rbind]; [|exact Hnext|reflexivity].
      destruct (is_refd ops (length kept) (id yi) 0 (kept ++ x :: y :: rest2))
        as [[|]|]; cbn [rbind negb]; [| |reflexivity].
      * rewrite delete_middle. apply IH; [simpl in *; lia|lia|].
        rewrite length_app in *. simpl in *. lia.
      * rewrite delete_middle, delete_middle. apply IH; [simpl in *; lia|lia|].
        rewrite length_app in *. simpl in *. lia.
Qed.

Lemma sweep_is_rec ops funcops :
  Z.of_nat (length funcops) <= 2 ^ 64 ->
  sweep ops funcops = sweep_rec ops [] funcops.
Proof.
  intros H. unfold sweep.
  apply (sweep_loop_rec ops (length funcops) funcops [] (S (length funcops))); auto.
Qed.

(** What comes out of the sweep is what was kept, followed by some of the
    rest. *)
Lemma sweep_rec_out ops : forall n rest kept out,
  (length rest <= n)%nat ->
  sweep_rec ops kept rest = Ok out ->
  exists tail, out = kept ++ tail /\ (forall x, x ∈ tail -> x ∈ rest).
Proof.
  induction n as [|n IH]; intros rest kept out Hn H.
  - destruct rest; [|simpl in Hn; lia]. simpl in H.
    destruct kept; [discriminate|]. inversion H; subst.
    exists []. rewrite app_nil_r. split; [reflexivity|]. intros x Hx.
    apply elem_of_nil in Hx. contradiction.
  - destruct rest as [|x [|y rest2]].
    + simpl in H. destruct kept; [discriminate|]. inversion H; subst.
      exists []. rewrite app_nil_r. split; [reflexivity|]. intros x Hx.
      apply elem_of_nil in Hx. contradiction.
    + simpl in H. inversion H; subst. exists [x]. split; [reflexivity|auto].
    + rewrite sweep_rec_unfold in H.
      assert (Hkeep : forall out, sweep_rec ops (kept ++ [x]) (y :: rest2) = Ok out ->
                exists tail, out = kept ++ tail /\ (forall z, z ∈ tail -> z ∈ x :: y :: rest2)).
      { intros out' H'. apply IH in H' as (tail & -> & Ht); [|simpl in Hn |- *; lia].
        exists (x :: tail). rewrite <- app_assoc. split; [reflexivity|].
        intros z Hz. apply elem_of_cons in Hz as [->|Hz]; [left|right; auto]. }
      apply rbind_Ok in H as (xi & _ & H).
      destruct (Op_eqb (opcode xi) OpBranch); [|auto].
      apply rbind_Ok in H as (yi & _ & H).
      apply rbind_Ok in H as ([|] & _ & H); [|auto].
      apply rbind_Ok in H as ([|] & _ & H); cbn [negb] in H.
      * apply IH in H as (tail & -> & Ht); [|simpl in Hn |- *; lia].
        exists tail. split; [reflexivity|]. intros z Hz. right. auto.
      * apply IH in H as (tail & -> & Ht); [|simpl in Hn |- *; lia].
        exists tail. split; [reflexivity|]. intros z Hz. right. right. auto.
Qed.

Lemma existsb_eqb_elem (L : Z) (l : list Z) : existsb (Z.eqb L) l = true <-> L ∈ l.
Proof.
  rewrite existsb_exists. split.
  - intros (x & Hx & E). apply Z.eqb_eq in E. subst. apply list_elem_of_In. exact Hx.
  - intros H. exists L. split; [apply list_elem_of_In; exact H|apply Z.eqb_refl].
Qed.

Lemma targets_of_flow ops (x : nat) xi :
  ops !! x = Some xi ->
  targets_of ops x = match flow xi with Some fl => targets fl | None => [] end.
Proof. unfold targets_of. intros ->. destruct xi. reflexivity. Qed.

(** The search for another reference to the label. *)
Lemma is_refd_Ok ops l L : forall rest b r,
  is_refd ops l L b rest = Ok r ->
  (r = true <-> exists j x, rest !! j = Some x /\ (b + j)%nat <> l /\ L ∈ targets_of ops x).
Proof.
  induction rest as [|x rest IH]; intros b r H; simpl in H.
  - inversion H; subst. split; [discriminate|]. intros (j & x & Hx & _).
    rewrite lookup_nil in Hx. discriminate.
  - assert (Hskip : forall r', is_refd ops l L (S b) rest = Ok r' ->
              ~ ((b + 0)%nat <> l /\ L ∈ targets_of ops x) ->
              (r' = true <-> exists j y, (x :: rest) !! j = Some y /\ (b + j)%nat <> l /\
                               L ∈ targets_of ops y)).
    { intros r' H' Hx. rewrite (IH _ _ H'). split.
      - intros (j & y & Hy & Hj & Ht). exists (S j), y. split; [exact Hy|].
        split; [lia|exact Ht].
      - intros ([|j] & y & Hy & Hj & Ht); simpl in Hy.
        + inversion Hy; subst y. exfalso. apply Hx. split; assumption.
        + exists j, y. split; [exact Hy|]. split; [lia|exact Ht]. }
    destruct (Nat.eqb_spec l b) as [->|Hne].
    { apply Hskip; [exact H|]. intros [Hn _]. lia. }
    apply rbind_Ok in H as (xi & Hxi & H). apply deref_Ok in Hxi.
    pose proof (targets_of_flow _ _ _ Hxi) as Ht.
    destruct (flow xi) as [fl|].
    + destruct (existsb (Z.eqb L) (targets fl)) eqn:E.
      * inversion H; subst r. split; [intros _|reflexivity].
        exists 0%nat, x. split; [reflexivity|]. split; [lia|].
        rewrite Ht. apply existsb_eqb_elem. exact E.
      * apply Hskip; [exact H|]. intros [_ Hin]. rewrite Ht in Hin.
        apply existsb_eqb_elem in Hin. congruence.
    + apply Hskip; [exact H|]. intros [_ Hin]. rewrite Ht in Hin.
      apply elem_of_nil in Hin. contradiction.
Qed.

(** With no instruction twice in the list, "at another index" is "another
    instruction". *)
Lemma is_refd_elsewhere ops (kept : list nat) br rest L r :
  NoDup (kept ++ br :: rest) ->
  is_refd ops (length kept) L 0 (kept ++ br :: rest) = Ok r ->
  (r = true <-> refd_elsewhere ops (kept ++ br :: rest) br L).
Proof.
  intros Hnd H. rewrite (is_refd_Ok _ _ _ _ _ _ H). unfold refd_elsewhere.
  assert (Hbr : (kept ++ br :: rest) !! length kept = Some br)
    by (apply list_lookup_middle; reflexivity).
  split.
  - intros (j & x & Hx & Hj & Ht). exists x. split; [eapply list_elem_of_lookup_2; exact Hx|].
    split; [|exact Ht]. intros ->. apply Hj. simpl.
    eapply NoDup_lookup; eauto.
  - intros (x & Hx & Hne & Ht). apply list_elem_of_lookup in Hx as (j & Hx).
    exists j, x. split; [exact Hx|]. split; [|exact Ht]. simpl. intros ->.
    rewrite Hbr in Hx. congruence.
Qed.

(** A label at the head of the rest is kept. *)
Lemma sweep_rec_keeps_label ops kept lb rest L out :
  label_of ops lb L ->
  sweep_rec ops kept (lb :: rest) = Ok out -> lb ∈ out.
Proof.
  intros (li & Hli & Hop & _ & _) H. destruct rest as [|y rest].
  - simpl in H. inversion H; subst. apply elem_of_app. right. left.
  - rewrite sweep_rec_unfold in H. unfold deref in H. rewrite Hli in H.
    cbn [opt rbind] in H. rewrite Hop in H. cbn [Op_eqb Op_tag fst snd Z.eqb andb] in H.
    change (Op_eqb OpLabel OpBranch) with false in H. cbv iota in H.
    apply (sweep_rec_out _ (length (y :: rest))) in H as (tail & -> & _); [|lia].
    apply elem_of_app. left. apply elem_of_app. right. left.
Qed.

(** Membership in lists put together with [++] and [::]. *)
Ltac mem_tac :=
  repeat (rewrite elem_of_app || rewrite elem_of_cons);
  intuition congruence.

Lemma refd_elsewhere_remove ops (l l' : list nat) br L :
  (forall x, x ∈ l' -> x ∈ l) ->
  (forall x, x ∈ l -> x ∉ l' -> L ∉ targets_of ops x) ->
  (refd_elsewhere ops l br L <-> refd_elsewhere ops l' br L).
Proof.
  intros Hsub Hgone. unfold refd_elsewhere. split.
  - intros (x & Hx & Hne & Ht). exists x. split; [|auto].
    destruct (decide (x ∈ l')) as [|Hn]; [assumption|].
    exfalso. exact (Hgone x Hx Hn Ht).
  - intros (x & Hx & Hne & Ht). exists x. auto.
Qed.

Lemma emit_shaped_sub ops (l l' : list nat) :
  (forall x, x ∈ l' -> x ∈ l) -> emit_shaped ops l -> emit_shaped ops l'.
Proof.
  intros Hsub [H1 H2]. split.
  - intros x Hx. apply H1. auto.
  - intros x y L Hx Hy. apply H2; auto.
Qed.

(** A branch that the sweep takes out with the label after it does not
    target any other label of the list. *)
Lemma redundant_branch_targets ops (l : list nat) x y xi yi fl t lb L :
  emit_shaped ops l -> x ∈ l -> y ∈ l -> lb ∈ l -> y <> lb ->
  ops !! x = Some xi -> opcode xi = OpBranch ->
  ops !! y = Some yi -> opcode yi = OpLabel ->
  flow xi = Some fl -> targets fl !! 0%nat = Some t -> t = id yi ->
  label_of ops lb L ->
  (L ∉ targets_of ops x) /\ (L ∉ targets_of ops y).
Proof.
  intros [Hsh Hlab] Hx Hy Hlb Hne Hxi Hbr Hyi Hlb' Hfl Ht Hid HL.
  destruct (Hsh y Hy) as (yi' & Hyi' & _ & Hyl). rewrite Hyi in Hyi'.
  inversion Hyi'; subst yi'. specialize (Hyl Hlb').
  assert (HnL : L <> id yi).
  { intros ->. apply Hne. eapply Hlab; eauto. }
  split.
  - destruct (Hsh x Hx) as (xi' & Hxi' & Hxb & _). rewrite Hxi in Hxi'.
    inversion Hxi'; subst xi'. destruct (Hxb Hbr) as (L' & i' & fl' & E1 & _ & E2 & E3).
    rewrite Hxi in E1. inversion E1; subst i'. rewrite Hfl in E2. inversion E2; subst fl'.
    rewrite E3 in Ht. inversion Ht; subst L'.
    rewrite (targets_of_flow _ _ _ Hxi), Hfl, E3. intros Hin.
    apply list_elem_of_singleton in Hin. congruence.
  - destruct Hyl as (li & E1 & _ & _ & E2). rewrite Hyi in E1. inversion E1; subst li.
    rewrite (targets_of_flow _ _ _ Hyi), E2. apply not_elem_of_nil.
Qed.

(** The fate of a redundant pair [br; lb] of the part not yet examined:
    the branch goes; the label stays exactly when its id is a target of
    another flow instruction of the list. *)
Lemma sweep_rec_pair ops (br lb : nat) L :
  branch_to ops br L -> label_of ops lb L ->
  forall n (s1 s2 kept out : list nat),
    (length s1 <= n)%nat ->
    NoDup (kept ++ s1 ++ br :: lb :: s2) ->
    emit_shaped ops (kept ++ s1 ++ br :: lb :: s2) ->
    sweep_rec ops kept (s1 ++ br :: lb :: s2) = Ok out ->
    (br ∉ out) /\ (lb ∈ out <-> refd_elsewhere ops (kept ++ s1 ++ br :: lb :: s2) br L).
Proof.
  intros Hbr Hlb.
  pose proof Hbr as (bi & bfl & Hbi & Hbop & Hbfl & Hbt).
  pose proof Hlb as (li & Hli & Hlop & Hlid & Hlfl).
  assert (Hbl : br <> lb).
  { intros ->. rewrite Hbi in Hli. inversion Hli; subst li. congruence. }
  induction n as [|n IH]; intros s1 s2 kept out Hn Hnd Hsh H.
  - destruct s1; [|simpl in Hn; lia]. cbn [app] in *.
    rewrite sweep_rec_unfold in H. unfold deref in H. rewrite Hbi, Hli in H.
    cbn [opt rbind] in H. rewrite Hbop, Hlop, Hbfl in H.
    change (Op_eqb OpBranch OpBranch) with true in H.
    change (Op_eqb OpLabel OpLabel) with true in H.
    cbn [opt rbind] in H. rewrite Hbt in H. cbn [lookup list_lookup opt rbind] in H.
    rewrite Hlid, Z.eqb_refl in H.
    apply rbind_Ok in H as (refd & Hrefd & H).
    apply (is_refd_elsewhere _ _ _ _ _ _ Hnd) in Hrefd.
    apply NoDup_app in Hnd as (_ & Hk & Hnd).
    apply NoDup_cons in Hnd as (Hb1 & Hnd). apply NoDup_cons in Hnd as (Hl1 & _).
    destruct refd; cbn [negb] in H.
    + pose proof (sweep_rec_keeps_label _ _ _ _ _ _ Hlb H) as Hin.
      apply (sweep_rec_out _ (length (lb :: s2))) in H as (tail & -> & Ht); [|lia].
      split.
      * intros Hb. apply elem_of_app in Hb as [Hb|Hb].
        -- eapply Hk; [exact Hb|left].
        -- apply Hb1. apply Ht. exact Hb.
      * split; [intros _; apply Hrefd; reflexivity|intros _; exact Hin].
    + apply (sweep_rec_out _ (length s2)) in H as (tail & -> & Ht); [|lia].
      split.
      * intros Hb. apply elem_of_app in Hb as [Hb|Hb].
        -- eapply Hk; [exact Hb|left].
        -- apply Hb1. right. apply Ht. exact Hb.
      * split; [|intros Hr; apply Hrefd in Hr; discriminate].
        intros Hb. exfalso. apply elem_of_app in Hb as [Hb|Hb].
        -- eapply Hk; [exact Hb|right; left].
        -- apply Hl1. apply Ht. exact Hb.
  - destruct s1 as [|x s1]; [apply (IH [] s2 kept out); [simpl; lia|assumption..]|].
    (* the instruction after [x] *)
    assert (Hy : exists y rest2, s1 ++ br :: lb :: s2 = y :: rest2).
    { destruct s1; simpl; eauto. }
    destruct Hy as (y & rest2 & Hy).
    change ((x :: s1) ++ br :: lb :: s2) with (x :: (s1 ++ br :: lb :: s2)) in *.
    rewrite Hy in H. rewrite sweep_rec_unfold in H. rewrite <- Hy in H.
    assert (Hkeep : sweep_rec ops (kept ++ [x]) (s1 ++ br :: lb :: s2) = Ok out ->
              (br ∉ out) /\ (lb ∈ out <->
                refd_elsewhere ops (kept ++ x :: s1 ++ br :: lb :: s2) br L)).
    { intros H'.
      replace (kept ++ x :: s1 ++ br :: lb :: s2)
        with ((kept ++ [x]) ++ s1 ++ br :: lb :: s2) in *
        by (rewrite <- app_assoc; reflexivity).
      apply (IH s1 s2 (kept ++ [x]) out); [simpl in Hn; lia|assumption..]. }
    apply rbind_Ok in H as (xi & Hxi & H). apply deref_Ok in Hxi.
    destruct (Op_eqb (opcode xi) OpBranch) eqn:Exb; [|auto].
    apply Op_eqb_eq in Exb.
    apply rbind_Ok in H as (yi & Hyi & H). apply deref_Ok in Hyi.
    apply rbind_Ok in H as (redundant & Hred & H).
    destruct redundant; [|auto].
    destruct (Op_eqb (opcode yi) OpLabel) eqn:Eyl; [|discriminate].
    apply Op_eqb_eq in Eyl.
    apply rbind_Ok in Hred as (fl & Hfl & Hred). apply opt_Ok in Hfl.
    apply rbind_Ok in Hred as (t & Ht & Hred). apply opt_Ok in Ht.
    inversion Hred as [Hteq]. apply Z.eqb_eq in Hteq. clear Hred.
    (* [y] is a label, so it is in [s1], not the branch [br] *)
    destruct s1 as [|y' s1].
    { simpl in Hy. inversion Hy; subst y. rewrite Hbi in Hyi.
      inversion Hyi; subst yi. congruence. }
    simpl in Hy. inversion Hy; subst y' rest2. clear Hy.
    assert (Hmem : forall z, z ∈ kept ++ s1 ++ br :: lb :: s2 ->
                     z ∈ kept ++ x :: y :: s1 ++ br :: lb :: s2).
    { clear. intros z. mem_tac. }
    assert (Hmem' : forall z, z ∈ kept ++ y :: s1 ++ br :: lb :: s2 ->
                     z ∈ kept ++ x :: y :: s1 ++ br :: lb :: s2).
    { clear. intros z. mem_tac. }
    assert (Hxin : x ∈ kept ++ x :: y :: s1 ++ br :: lb :: s2).
    { clear. mem_tac. }
    assert (Hyin : y ∈ kept ++ x :: y :: s1 ++ br :: lb :: s2).
    { clear. mem_tac. }
    assert (Hlin : lb ∈ kept ++ x :: y :: s1 ++ br :: lb :: s2).
    { clear. mem_tac. }
    assert (Hylb : y <> lb).
    { intros ->. apply NoDup_app in Hnd as (_ & _ & Hnd).
      apply NoDup_cons in Hnd as (_ & Hnd). apply NoDup_cons in Hnd as (Hnin & _).
      apply Hnin. clear. mem_tac. }
    destruct (redundant_branch_targets _ _ _ _ _ _ _ _ _ _ Hsh Hxin Hyin Hlin Hylb
                Hxi Exb Hyi Eyl Hfl Ht Hteq Hlb) as [HLx HLy].
    assert (Hnd1 : NoDup (kept ++ y :: s1 ++ br :: lb :: s2)).
    { apply NoDup_app in Hnd as (Hk & Hd & Hnd). apply NoDup_cons in Hnd as (_ & Hnd).
      apply NoDup_app. split; [exact Hk|]. split; [|exact Hnd].
      intros z Hz Hz'. apply (Hd z Hz). right. exact Hz'. }
    assert (Hnd2 : NoDup (kept ++ s1 ++ br :: lb :: s2)).
    { apply NoDup_app in Hnd1 as (Hk & Hd & Hnd1). apply NoDup_cons in Hnd1 as (_ & Hnd1).
      apply NoDup_app. split; [exact Hk|]. split; [|exact Hnd1].
      intros z Hz Hz'. apply (Hd z Hz). right. exact Hz'. }
    apply rbind_Ok in H as (refd & _ & H). destruct refd; cbn [negb] in H.
    + (* the branch [x] goes, the label [y] is examined next *)
      apply (IH (y :: s1) s2 kept out) in H;
        [|simpl in Hn |- *; lia|exact Hnd1|eapply emit_shaped_sub; [exact Hmem'|exact Hsh]].
      destruct H as [Hb Hl]. split; [exact Hb|]. rewrite Hl. symmetry.
      apply refd_elsewhere_remove; [exact Hmem'|].
      intros z Hz Hnz. assert (z = x); [|subst; exact HLx].
      clear - Hz Hnz. revert Hz Hnz. mem_tac.
    + (* both go *)
      apply (IH s1 s2 kept out) in H;
        [|simpl in Hn |- *; lia|exact Hnd2|eapply emit_shaped_sub; [exact Hmem|exact Hsh]].
      destruct H as [Hb Hl]. split; [exact Hb|]. rewrite Hl. symmetry.
      apply refd_elsewhere_remove; [exact Hmem|].
      intros z Hz Hnz. assert (z = x \/ z = y) as [->| ->]; [|assumption..].
      clear - Hz Hnz. revert Hz Hnz. mem_tac.
Qed.

(** C7.  Of an adjacent pair [OpBranch L; OpLabel L] of the emit list the
    sweep always removes the branch; it removes the label too when [L] is
    not a target of any other flow instruction of the list, and keeps the
    label when it is. *)
Theorem sweep_removes_redundant_pairs ops (funcops s1 s2 : list nat) br lb L out :
  Z.of_nat (length funcops) <= 2 ^ 64 ->
  NoDup funcops ->
  emit_shaped ops funcops ->
  funcops = s1 ++ br :: lb :: s2 ->
  branch_to ops br L -> label_of ops lb L ->
  sweep ops funcops = Ok out ->
  (br ∉ out) /\
  (~ refd_elsewhere ops funcops br L -> lb ∉ out) /\
  (refd_elsewhere ops funcops br L -> lb ∈ out).
Proof.
  intros Hsize Hnd Hsh -> Hbr Hlb H. rewrite sweep_is_rec in H by exact Hsize.
  destruct (sweep_rec_pair ops br lb L Hbr Hlb (length s1) s1 s2 [] out
              (le_n _) Hnd Hsh H) as [Hb Hl].
  simpl in Hl. split; [exact Hb|]. split.
  - intros Hn Hin. apply Hn, Hl, Hin.
  - intros Hr. apply Hl, Hr.
Qed.

Lemma sweep_removes_redundant_pairs_witness :
  (4%nat ∉ [6%nat]) /\
  (~ refd_elsewhere Samples.branch_ops Samples.branch_funcops 4 5 -> 5%nat ∉ [6%nat]) /\
  (refd_elsewhere Samples.branch_ops Samples.branch_funcops 4 5 -> 5%nat ∈ [6%nat]).
Proof.
  apply (sweep_removes_redundant_pairs Samples.branch_ops Samples.branch_funcops
           [] [6%nat] 4 5 5 [6%nat]).
  - vm_compute. discriminate.
  - vm_compute. repeat constructor; rewrite ?elem_of_cons, ?elem_of_nil;
      intuition discriminate.
  - split.
    + intros x Hx. vm_compute in Hx.
      repeat (apply elem_of_cons in Hx as [->|Hx]);
        [| | |apply elem_of_nil in Hx; contradiction];
        eexists; (split; [reflexivity|]); (split; [intros E|intros E]);
        try discriminate E.
      * exists 5. eexists; eexists. repeat split; reflexivity.
      * eexists. repeat split; reflexivity.
    + intros x y L Hx Hy (xi & Hxi & Hxo & _) (yi & Hyi & Hyo & _).
      vm_compute in Hx, Hy.
      repeat (apply elem_of_cons in Hx as [->|Hx]);
        try (apply elem_of_nil in Hx; contradiction);
        repeat (apply elem_of_cons in Hy as [->|Hy]);
        try (apply elem_of_nil in Hy; contradiction);
        try reflexivity;
        vm_compute in Hxi, Hyi; inversion Hxi; inversion Hyi; subst;
        discriminate.
  - reflexivity.
  - eexists; eexists. repeat split; reflexivity.
  - eexists. repeat split; reflexivity.
  - vm_compute. reflexivity.
Defined.

(** ** The bounds of the sweep *)

Lemma is_refd_total ops l L : forall rest b,
  (forall x, x ∈ rest -> exists i, ops !! x = Some i) ->
  exists r, is_refd ops l L b rest = Ok r.
Proof.
  induction rest as [|x rest IH]; intros b Hall; simpl.
  - eauto.
  - assert (Hrest : forall z, z ∈ rest -> exists i, ops !! z = Some i).
    { intros z Hz. apply Hall. right. exact Hz. }
    destruct (l =? b)%nat; [auto|].
    destruct (Hall x) as (xi & Hxi); [left|]. unfold deref. rewrite Hxi. simpl.
    destruct (flow xi) as [fl|]; [|auto].
    destruct (existsb (Z.eqb L) (targets fl)); [eauto|auto].
Qed.

(** On an emit list that is not empty and does not end in a label every
    access of the sweep is in bounds, and the sweep returns. *)
Lemma sweep_rec_total ops : forall n (rest kept : list nat),
  (length rest <= n)%nat ->
  kept ++ rest <> [] ->
  ends_terminated ops (kept ++ rest) ->
  branches_shaped ops (kept ++ rest) ->
  exists out, sweep_rec ops kept rest = Ok out.
Proof.
  induction n as [|n IH]; intros rest kept Hn Hne Hend Hsh.
  - destruct rest; [|simpl in Hn; lia]. rewrite app_nil_r in Hne. simpl.
    destruct kept; [congruence|eauto].
  - destruct rest as [|x [|y rest2]].
    + rewrite app_nil_r in Hne. simpl. destruct kept; [congruence|eauto].
    + simpl. eauto.
    + rewrite sweep_rec_unfold.
      destruct (Hsh x) as (xi & Hxi & Hxb); [clear; mem_tac|].
      destruct (Hsh y) as (yi & Hyi & _); [clear; mem_tac|].
      unfold deref. rewrite Hxi, Hyi. cbn [opt rbind].
      assert (Hkeep : exists out, sweep_rec ops (kept ++ [x]) (y :: rest2) = Ok out).
      { apply IH; [simpl in Hn |- *; lia| | |];
          rewrite <- app_assoc; assumption. }
      destruct (Op_eqb (opcode xi) OpBranch) eqn:Exb; [|exact Hkeep].
      apply Op_eqb_eq in Exb. destruct (Hxb Exb) as (fl & t & Hfl & Ht).
      destruct (Op_eqb (opcode yi) OpLabel) eqn:Eyl; cbn [rbind]; [|exact Hkeep].
      apply Op_eqb_eq in Eyl.
      rewrite Hfl. cbn [opt rbind]. rewrite Ht. cbn [opt rbind].
      destruct (t =? id yi); [|exact Hkeep].
      destruct (is_refd_total ops (length kept) (id yi) (kept ++ x :: y :: rest2) 0%nat)
        as (refd & ->).
      { intros z Hz. destruct (Hsh z Hz) as (zi & Hzi & _). eauto. }
      cbn [rbind].
      assert (Hsub : forall l', (forall z, z ∈ l' -> z ∈ kept ++ x :: y :: rest2) ->
                branches_shaped ops l').
      { intros l' Hl' z Hz. apply Hsh, Hl', Hz. }
      destruct refd; cbn [negb].
      * apply IH; [simpl in Hn |- *; lia| | |].
        -- destruct kept; discriminate.
        -- intros z zi Hz. apply Hend.
           rewrite last_app in Hz |- *. rewrite last_cons in Hz.
           rewrite last_cons, last_cons.
           destruct (last rest2); exact Hz.
        -- apply Hsub. clear. intros z. mem_tac.
      * (* the label [y] is not the last instruction *)
        assert (Hr2 : rest2 <> []).
        { intros ->. apply (Hend y yi); [|exact Hyi|exact Eyl].
          rewrite last_app. reflexivity. }
        apply IH; [simpl in Hn |- *; lia| | |].
        -- destruct kept; [simpl; exact Hr2|discriminate].
        -- intros z zi Hz. apply Hend.
           rewrite last_app in Hz |- *. rewrite last_cons, last_cons.
           destruct (last rest2) eqn:El; [exact Hz|].
           apply last_None in El. contradiction.
        -- apply Hsub. clear. intros z. mem_tac.
Qed.

(** The claim that a non-empty emit list is enough fails on a function
    whose last block has no terminator: [OpLabel %4; OpBranch %5;
    OpLabel %5] gives the emit list [branch; label], the sweep erases both
    and then reads [funcops[0]] of the empty list. *)
Lemma sweep_in_bounds_counterexample :
  Samples.open_funcops <> [] /\
  sweep Samples.open_ops Samples.open_funcops = Fault OutOfRange.
Proof. split; [discriminate|reflexivity]. Qed.

(** C10, amended.  The sweep reads [funcops[l]] and [funcops[l+1]] in
    bounds and returns when the emit list is not empty and does not end in
    a label, which is so when the last block of the function has its
    terminator.  On the empty list the bound [funcops.size()-1] wraps
    around and the first read is out of bounds. *)
Theorem sweep_in_bounds ops (funcops : list nat) :
  sweep ops [] = Fault OutOfRange /\
  (funcops <> [] ->
   Z.of_nat (length funcops) <= 2 ^ 64 ->
   ends_terminated ops funcops ->
   branches_shaped ops funcops ->
   exists out, sweep ops funcops = Ok out).
Proof.
  split; [reflexivity|]. intros Hne Hsize Hend Hsh.
  rewrite sweep_is_rec by exact Hsize.
  apply (sweep_rec_total ops (length funcops) funcops []); auto.
Qed.

Lemma sweep_in_bounds_witness :
  sweep Samples.branch_ops [] = Fault OutOfRange /\
  exists out, sweep Samples.branch_ops Samples.branch_funcops = Ok out.
Proof.
  destruct (sweep_in_bounds Samples.branch_ops Samples.branch_funcops) as [H0 H].
  split; [exact H0|]. apply H.
  - discriminate.
  - vm_compute. discriminate.
  - intros x i Hx Hi. vm_compute in Hx. inversion Hx; subst x.
    vm_compute in Hi. inversion Hi; subst i. discriminate.
  - intros x Hx. vm_compute in Hx.
    repeat (apply elem_of_cons in Hx as [->|Hx]);
      [| | |apply elem_of_nil in Hx; contradiction];
      eexists; (split; [reflexivity|]); intros E; try discriminate E.
    eexists; eexists. split; reflexivity.
Defined.

(** ** Rendering a vector shuffle *)

(** Whatever the selectors, a selector of 4 or more leaves the brackets
    empty: the largest selector is taken before the size of the first
    vector is subtracted. *)
Lemma max_shuffle_ge vec1size lits lit :
  lit ∈ lits -> lit <= max_shuffle vec1size lits.
Proof.
  unfold max_shuffle. intros Hin.
  assert (G : forall l acc, (lit <= acc \/ lit ∈ l) ->
    lit <= fold_left (fun maxShuffle x => RDCMAX maxShuffle x) l acc).
  { induction l as [|x l IH]; intros acc H; simpl.
    - destruct H as [H|H]; [exact H|]. apply elem_of_nil in H. contradiction.
    - apply IH. unfold RDCMAX. destruct H as [H|H].
      + left. destruct (Z.gtb_spec acc x); lia.
      + apply elem_of_cons in H as [->|H]; [|auto].
        left. destruct (Z.gtb_spec acc x); lia. }
  apply G. auto.
Qed.

Lemma shuffle_selector_ge_4 inlineOp typeName idName GetArg vec1size lits lit :
  lit ∈ lits -> 4 <= lit ->
  Disassemble_VectorShuffle inlineOp typeName idName GetArg vec1size lits =
  Ok (((if inlineOp then "" else typeName ++ " " ++ idName ++ " = ")
       ++ typeName ++ "(") ++ ")")%string.
Proof.
  intros Hin Hge. unfold Disassemble_VectorShuffle.
  pose proof (max_shuffle_ge vec1size lits lit Hin) as Hmax.
  destruct (Z.ltb_spec (max_shuffle vec1size lits) 4); [lia|]. reflexivity.
Qed.

(** C6: the code at the input of the claim.  The shuffle of two vectors of
    four components with the selectors (0, 1, 4, 5) is rendered as
    [float4()], not as [float4(a.xy, b.xy)]. *)
Theorem shuffle_0145_renders_empty :
  Disassemble_VectorShuffle true "float4" "x" Inputs.shuffle_GetArg 4 [0; 1; 4; 5]
    = Ok "float4()"%string /\
  Disassemble_VectorShuffle true "float4" "x" Inputs.shuffle_GetArg 4 [0; 1; 4; 5]
    <> Ok "float4(a.xy, b.xy)"%string.
Proof. split; [reflexivity|discriminate]. Qed.

(** An undefined selector (all ones) is never rendered as an underscore:
    it makes the largest selector 4 or more. *)
Lemma shuffle_undefined_selector :
  Disassemble_VectorShuffle true "float4" "x" Inputs.shuffle_GetArg 4
    [0; 4294967295; 2; 3] = Ok "float4()"%string.
Proof. reflexivity. Qed.

(** Below 4 the selector equal to the size of the first vector still reads
    the first vector, and a segment of the second vector is printed under
    the name of the first. *)
Lemma shuffle_second_vector_named_first :
  Disassemble_VectorShuffle true "float4" "x" Inputs.shuffle_GetArg 2 [0; 1; 2; 3]
    = Ok "float4(a.xyz, a.y)"%string.
Proof. reflexivity. Qed.

(** ** Reflection: the order of constant blocks and resources *)

Lemma sort_insert_perm {A} (lt : A -> A -> bool) x l :
  Permutation (x :: l) (sort_insert lt x l).
Proof.
  induction l as [|y l IH]; simpl; [reflexivity|].
  destruct (lt y x); [|reflexivity].
  rewrite perm_swap. apply perm_skip. exact IH.
Qed.

Lemma std_sort_perm {A} (lt : A -> A -> bool) l : Permutation l (std_sort lt l).
Proof.
  induction l as [|x l IH]; simpl; [reflexivity|].
  rewrite <- sort_insert_perm. apply perm_skip. exact IH.
Qed.

(** The comparison of [bindpair] is asymmetric, and an element that is not
    less than another is not before an element less than that one. *)
Lemma bindpair_lt_asym {T} (a b : bindpair T) :
  bindpair_lt a b = true -> bindpair_lt b a = false.
Proof.
  unfold bindpair_lt.
  destruct (Z.eqb_spec (bindset (map a)) (bindset (map b))) as [E|E];
    destruct (Z.eqb_spec (bindset (map b)) (bindset (map a))) as [E'|E'];
    try congruence; simpl.
  - destruct (Z.eqb_spec (bind (map a)) (-1)), (Z.eqb_spec (bind (map b)) (-1));
      simpl; try congruence. rewrite !Z.ltb_lt, Z.ltb_ge. lia.
  - rewrite !Z.ltb_lt, Z.ltb_ge. lia.
Qed.

Lemma sort_insert_sorted {A} (lt : A -> A -> bool) x l :
  (forall a b, lt a b = true -> lt b a = false) ->
  sorted_by lt l -> sorted_by lt (sort_insert lt x l).
Proof.
  intros Hasym Hs. unfold sorted_by in *. induction Hs as [|y l Hs IH Hd]; simpl.
  - repeat constructor.
  - destruct (lt y x) eqn:E.
    + constructor; [exact IH|]. destruct Hd as [|z l Hz]; simpl.
      * constructor. apply Hasym. exact E.
      * destruct (lt z x); constructor; [exact Hz|apply Hasym; exact E].
    + constructor; [constructor; assumption|]. constructor. exact E.
Qed.

(** The sort of the model keeps the promise of [std::sort] for the
    comparison of [bindpair]. *)
Lemma std_sort_bindpair {T} (l : list (bindpair T)) :
  is_std_sort bindpair_lt l (std_sort bindpair_lt l).
Proof.
  split; [apply std_sort_perm|].
  induction l as [|x l IH]; simpl; [constructor|].
  apply sort_insert_sorted; [apply bindpair_lt_asym|exact IH].
Qed.

(** C8: the code at an input with two descriptor sets.  The resource
    without a binding (set 0, binding -1) comes out first, before the
    resource bound in set 1, and its binding is rewritten to 0: entries
    with binding -1 trail within their descriptor set only. *)
Theorem unbound_resource_sorts_before_other_set :
  MakeReflection_tables Inputs.two_sets =
    ([Inputs.bindpoint 0 0; Inputs.bindpoint 1 0],
     [("unbound", 0); ("bound", 1)]%string).
Proof. reflexivity. Qed.

(** No other order is open to [std::sort] on that input. *)
Lemma two_sets_sorted_one_way sorted :
  is_std_sort bindpair_lt Inputs.two_sets sorted ->
  List.map bindres sorted = ["unbound"; "bound"]%string.
Proof.
  intros [Hperm Hsorted]. unfold Inputs.two_sets in Hperm.
  apply Permutation_length_2_inv in Hperm as [->| ->]; [|reflexivity].
  exfalso. unfold sorted_by in Hsorted. inversion Hsorted as [|? ? _ Hd]; subst.
  inversion Hd as [|? ? E]; subst. vm_compute in E. discriminate.
Qed.

(** What holds of the tables in general: after the sort every binding -1
    of the mapping is 0, and within one descriptor set the entries whose
    binding was -1 come after the others. *)
Lemma mapping_has_no_unbound {T} (sorted : list (bindpair T)) m :
  m ∈ mapping_of sorted -> bind m <> -1.
Proof.
  unfold mapping_of. intros H. apply list_elem_of_In, in_map_iff in H as (p & <- & _).
  unfold fix_bind. destruct (Z.eqb_spec (bind (map p)) (-1)); simpl; lia.
Qed.

Lemma unbound_trails_within_set {T} (l1 l2 : list (bindpair T)) a b :
  sorted_by bindpair_lt (l1 ++ a :: b :: l2) ->
  bindset (map a) = bindset (map b) ->
  bind (map a) = -1 -> bind (map b) = -1.
Proof.
  unfold sorted_by. intros Hs Hset Ha. induction l1 as [|x l1 IH]; simpl in Hs.
  - inversion Hs as [|? ? _ Hd]; subst. inversion Hd as [|? ? E]; subst.
    unfold bindpair_lt in E. rewrite Hset, Z.eqb_refl, Ha in E. simpl in E.
    destruct (Z.eqb_spec (bind (map b)) (-1)); [assumption|discriminate].
  - inversion Hs; subst. auto.
Qed.

(** ** What a run of the inliner writes to

    Every write of the inliner to the arena is a write to the payload [op]
    of the instruction that the loop is at. *)

Definition touched_in (l : list nat) (ops ops' : list SPVInstruction) : Prop :=
  forall p, (p ∉ l -> ops' !! p = ops !! p) /\
            set_op None <$> ops' !! p = set_op None <$> ops !! p.

Lemma touched_refl l ops : touched_in l ops ops.
Proof. intros p. split; reflexivity. Qed.

Lemma touched_trans l ops1 ops2 ops3 :
  touched_in l ops1 ops2 -> touched_in l ops2 ops3 -> touched_in l ops1 ops3.
Proof.
  intros H1 H2 p. destruct (H1 p) as [A1 B1], (H2 p) as [A2 B2]. split.
  - intros Hp. rewrite A2, A1; auto.
  - rewrite B2, B1. reflexivity.
Qed.

#[export] Instance touched_preorder l : PreOrder (touched_in l).
Proof. split; [intros ops; apply touched_refl|intros a b c; apply touched_trans]. Qed.

Lemma touched_mono l l' ops ops' :
  (forall p, p ∈ l -> p ∈ l') -> touched_in l ops ops' -> touched_in l' ops ops'.
Proof.
  intros Hsub H p. destruct (H p) as [A B]. split; [|exact B].
  intros Hp. apply A. intros Hin. apply Hp, Hsub, Hin.
Qed.

(** What a computation keeps of the arena: [T] relates the arena before
    to the arena after. *)
Section Keeps.

Context (T : list SPVInstruction -> list SPVInstruction -> Prop) `{!PreOrder T}.

Definition keeps {A} (c : M DState A) : Prop :=
  forall s a s', c s = Ok (a, s') -> T (d_ops s) (d_ops s').

Lemma keeps_ret {A} (a : A) : keeps (ret a).
Proof. intros s a' s' H. inversion H; subst. reflexivity. Qed.

Lemma keeps_fail {A} e : keeps (@fail DState A e).
Proof. intros s a s' H. discriminate. Qed.

Lemma keeps_bind {A B} (c : M DState A) (k : A -> M DState B) :
  keeps c -> (forall a, keeps (k a)) -> keeps (bindM c k).
Proof.
  intros Hc Hk s b s' H. apply bindM_Ok in H as (a & s1 & H1 & H2).
  etransitivity; [eapply Hc, H1|eapply Hk, H2].
Qed.

Lemma keeps_get : keeps get.
Proof. intros s a s' H. inversion H; subst. reflexivity. Qed.

Lemma keeps_lift_opt {A} e (x : option A) : keeps (lift_opt e x).
Proof. destruct x; [apply keeps_ret|apply keeps_fail]. Qed.

Lemma keeps_reading {A} (f : list SPVInstruction -> result A) : keeps (reading f).
Proof. intros s a s' H. apply reading_Ok in H as [_ ->]. reflexivity. Qed.

Lemma keeps_on_funcops f : keeps (on_funcops f).
Proof. intros s a s' H. apply modify_Ok in H as ->. reflexivity. Qed.

Lemma keeps_on_vars f : keeps (on_vars f).
Proof. intros s a s' H. apply modify_Ok in H as ->. reflexivity. Qed.

Lemma keeps_foldM {A B} (xs : list A) (b : B) (body : B -> A -> M DState B) :
  (forall b x, keeps (body b x)) -> keeps (foldM xs b body).
Proof.
  intros Hb. revert b. induction xs as [|x xs IH]; intros b; simpl.
  - apply keeps_ret.
  - apply keeps_bind; auto.
Qed.

End Keeps.

Abbreviation touches l := (keeps (touched_in l)).

Lemma touches_mono {A} l l' (c : M DState A) :
  (forall p, p ∈ l -> p ∈ l') -> touches l c -> touches l' c.
Proof. intros Hsub H s a s' E. eapply touched_mono; [exact Hsub|]. eapply H, E. Qed.

Lemma touches_update_op l p f : p ∈ l -> touches l (update_op p f).
Proof.
  intros Hp s a s' H. apply update_op_Ok in H as (i & o & Hi & Ho & ->). simpl.
  intros q. destruct (decide (q = p)) as [->|Hq].
  - split; [intros Hn; contradiction|].
    rewrite list_lookup_insert_eq by (eapply lookup_lt_Some, Hi).
    rewrite Hi. reflexivity.
  - rewrite list_lookup_insert_ne by congruence. split; reflexivity.
Qed.

(** The steps that keep the arena whatever [T] is. *)
Ltac keeps_step :=
  lazymatch goal with
  | |- keeps _ (ret _) => apply keeps_ret; tc_solve
  | |- keeps _ (fail _) => apply keeps_fail
  | |- keeps _ get => apply keeps_get; tc_solve
  | |- keeps _ (lift_opt _ _) => apply keeps_lift_opt; tc_solve
  | |- keeps _ (reading _) => apply keeps_reading; tc_solve
  | |- keeps _ (is_unmodified _ _ _) => apply keeps_reading; tc_solve
  | |- keeps _ (on_funcops _) => apply keeps_on_funcops; tc_solve
  | |- keeps _ (on_vars _) => apply keeps_on_vars; tc_solve
  | |- keeps _ (foldM _ _ _) => apply keeps_foldM; [tc_solve|intros ? ?]
  | |- keeps _ (bindM _ _) => apply keeps_bind; [tc_solve| |intros ?]
  | |- keeps _ (if ?b then _ else _) => destruct b
  | |- keeps _ (match ?x with _ => _ end) => destruct x
  | |- keeps _ (let _ := _ in _) => cbv zeta
  end.

Ltac touches_step :=
  lazymatch goal with
  | |- keeps _ (update_op _ _) => apply touches_update_op; assumption
  | |- keeps _ (or_inlineArgs _ _) => apply touches_update_op; assumption
  | |- keeps _ (store_argument _ _ _) => unfold store_argument
  | _ => keeps_step
  end.

Lemma touches_inline_args l func instr : instr ∈ l -> touches l (inline_args func instr).
Proof. intros Hin. unfold inline_args, inline_arg. repeat touches_step. Qed.

Lemma touches_merge_single_store l func instr :
  instr ∈ l -> touches l (merge_single_store func instr).
Proof. intros Hin. unfold merge_single_store. repeat touches_step. Qed.

Lemma touches_merge_adjacent_store l instr :
  instr ∈ l -> touches l (merge_adjacent_store instr).
Proof. intros Hin. unfold merge_adjacent_store. repeat touches_step. Qed.

Lemma touches_inline_call l bi i instr ign :
  instr ∈ l -> touches l (inline_call bi i instr ign).
Proof. intros Hin. unfold inline_call, inline_call_argument. repeat touches_step. Qed.

Lemma touches_inline_instruction l func bi ign i instr :
  instr ∈ l -> touches l (inline_instruction func bi ign i instr).
Proof.
  intros Hin. unfold inline_instruction.
  apply keeps_bind; [tc_solve|destruct (existsb _ _); touches_step|intros _].
  apply keeps_bind; [tc_solve|touches_step|intros ii].
  destruct (op ii); [|touches_step].
  apply keeps_bind; [tc_solve|apply touches_inline_args, Hin|intros _].
  apply keeps_bind; [tc_solve|apply touches_merge_single_store, Hin|intros _].
  apply keeps_bind; [tc_solve|apply touches_merge_adjacent_store, Hin|intros _].
  apply touches_inline_call, Hin.
Qed.

Lemma touches_inline_instructions func bi rest : forall l ign i,
  (forall p, p ∈ rest -> p ∈ l) ->
  touches l (inline_instructions func bi ign i rest).
Proof.
  induction rest as [|instr rest IH]; intros l ign i Hsub; simpl.
  - apply keeps_ret. tc_solve.
  - apply keeps_bind; [tc_solve| |].
    + apply touches_inline_instruction, Hsub. left.
    + intros ign'. apply IH. intros p Hp. apply Hsub. right. exact Hp.
Qed.

Lemma touches_inline_block_end l ids blk : touches l (inline_block_end ids blk).
Proof. unfold inline_block_end. repeat touches_step. Qed.

Lemma touched_block l ops ops' p :
  touched_in l ops ops' ->
  (block <$> ops' !! p) = (block <$> ops !! p).
Proof.
  intros H. destruct (H p) as [_ B].
  destruct (ops' !! p) as [i'|], (ops !! p) as [i|]; simpl in *; try discriminate;
    [|reflexivity].
  inversion B. congruence.
Qed.

Lemma linear_order_touched l ops ops' blks :
  touched_in l ops ops' -> linear_order ops' blks = linear_order ops blks.
Proof.
  intros H. induction blks as [|b blks IH]; simpl; [reflexivity|].
  pose proof (touched_block l ops ops' b H) as B. rewrite IH.
  destruct (ops' !! b) as [i'|], (ops !! b) as [i|]; simpl in *; try discriminate;
    [|reflexivity].
  inversion B as [B']. rewrite B'. reflexivity.
Qed.

Lemma inline_block_touched ids func b blockInst s u s' bi blk :
  inline_block ids func b blockInst s = Ok (u, s') ->
  d_ops s !! blockInst = Some bi -> block bi = Some blk ->
  touched_in (instructions blk) (d_ops s) (d_ops s').
Proof.
  intros H Hbi Hblk. unfold inline_block in H.
  apply bindM_Ok in H as (bi' & s1 & H1 & H). apply reading_Ok in H1 as [H1 ->].
  apply deref_Ok in H1. rewrite Hbi in H1. inversion H1; subst bi'.
  apply bindM_Ok in H as (blk' & s1 & H1' & H). apply lift_opt_Ok in H1' as [H1' ->].
  rewrite Hblk in H1'. inversion H1'; subst blk'.
  revert H. generalize s u s'.
  change (touches (instructions blk)
    ((if (0 <? b)%nat then on_funcops (fun l => l ++ [blockInst]) else ret tt) ;;
     inline_instructions func (instructions blk) [] 0 (instructions blk) ;;
     inline_block_end ids blk)).
  repeat touches_step; try apply touches_inline_block_end;
    apply touches_inline_instructions; auto.
Qed.

Lemma inline_blocks_touched ids func rest : forall b s u s' l,
  inline_blocks ids func b rest s = Ok (u, s') ->
  linear_order (d_ops s) rest = Some l ->
  touched_in l (d_ops s) (d_ops s').
Proof.
  induction rest as [|blockInst rest IH]; intros b s u s' l H Hl; simpl in *.
  - apply ret_Ok in H as [_ ->]. apply touched_refl.
  - apply bindM_Ok in H as (u1 & s1 & H1 & H2).
    destruct (d_ops s !! blockInst) as [bi|] eqn:Hbi; [|discriminate].
    destruct (block bi) as [blk|] eqn:Hblk; [|discriminate].
    destruct (linear_order (d_ops s) rest) as [l'|] eqn:Hl'; [|discriminate].
    inversion Hl; subst l.
    pose proof (inline_block_touched _ _ _ _ _ _ _ _ _ H1 Hbi Hblk) as T1.
    eapply touched_trans.
    + eapply touched_mono; [|exact T1]. intros p Hp. apply elem_of_app. auto.
    + eapply touched_mono; [|eapply IH; [exact H2|]].
      * intros p Hp. apply elem_of_app. right. exact Hp.
      * rewrite (linear_order_touched _ _ _ _ T1). exact Hl'.
Qed.

(** ** The skeleton of the arena

    Where it rewrites no argument list the inliner writes only the
    annotations [complexity] and [inlineArgs]; what it reads besides the
    annotations of operands is the arena without them. *)

Definition strip (o : SPVOperation) : SPVOperation :=
  set_inlineArgs 0 (set_complexity 0 o).

Definition skeleton (i : SPVInstruction) : SPVInstruction :=
  set_op (strip <$> op i) i.

Definition same_skeleton (ops ops' : list SPVInstruction) : Prop :=
  skeleton <$> ops = skeleton <$> ops'.

Lemma skeleton_idemp i : skeleton (skeleton i) = skeleton i.
Proof. destruct i as [? ? ? ? [o|] ? ? ? ? ? ?]; reflexivity. Qed.

Lemma skeleton_opcode i j : skeleton i = skeleton j -> opcode i = opcode j.
Proof. intros H. apply (f_equal opcode) in H. exact H. Qed.

Lemma skeleton_id i j : skeleton i = skeleton j -> id i = id j.
Proof. intros H. apply (f_equal id) in H. exact H. Qed.

Lemma skeleton_var i j : skeleton i = skeleton j -> var i = var j.
Proof. intros H. apply (f_equal var) in H. exact H. Qed.

Lemma skeleton_block i j : skeleton i = skeleton j -> block i = block j.
Proof. intros H. apply (f_equal block) in H. exact H. Qed.

Lemma skeleton_flow i j : skeleton i = skeleton j -> flow i = flow j.
Proof. intros H. apply (f_equal flow) in H. exact H. Qed.

Lemma skeleton_op i j : skeleton i = skeleton j -> strip <$> op i = strip <$> op j.
Proof. intros H. apply (f_equal op) in H. exact H. Qed.

Lemma skeleton_op_Some i j o :
  skeleton i = skeleton j -> op i = Some o ->
  exists o', op j = Some o' /\ strip o = strip o'.
Proof.
  intros H Ho. apply skeleton_op in H. rewrite Ho in H.
  destruct (op j) as [o'|]; [|discriminate]. simpl in H. apply (inj Some) in H.
  exists o'. split; [reflexivity|exact H].
Qed.

Lemma skeleton_op_None i j : skeleton i = skeleton j -> op i = None -> op j = None.
Proof.
  intros H Ho. apply skeleton_op in H. rewrite Ho in H.
  destruct (op j); [discriminate|reflexivity].
Qed.

Lemma strip_arguments o o' : strip o = strip o' -> arguments o = arguments o'.
Proof. intros H. apply (f_equal arguments) in H. exact H. Qed.

(** An instruction is its skeleton and its annotations. *)
Lemma strip_eq o o' :
  strip o = strip o' -> complexity o = complexity o' -> inlineArgs o = inlineArgs o' ->
  o = o'.
Proof.
  destruct o, o'. unfold strip, set_inlineArgs, set_complexity. simpl.
  intros H ? ?. inversion H. congruence.
Qed.

Lemma skeleton_None_eq i j : skeleton i = skeleton j -> op i = None -> i = j.
Proof.
  intros H Ho. pose proof (skeleton_op_None _ _ H Ho) as Ho'.
  destruct i, j. simpl in *. subst. unfold skeleton in H. simpl in H. exact H.
Qed.

Lemma skeleton_eq i j o o' :
  skeleton i = skeleton j -> op i = Some o -> op j = Some o' -> o = o' -> i = j.
Proof.
  intros H Ho Ho' ->. destruct i, j. simpl in *. subst.
  unfold skeleton in H. simpl in H. inversion H. reflexivity.
Qed.

Lemma skeleton_set_op i o f :
  op i = Some o -> strip (f o) = strip o -> skeleton (set_op (Some (f o)) i) = skeleton i.
Proof.
  intros Ho Hf. destruct i. simpl in *. subst. unfold skeleton. simpl. rewrite Hf.
  reflexivity.
Qed.

Lemma same_skeleton_refl ops : same_skeleton ops ops.
Proof. reflexivity. Qed.

Lemma same_skeleton_trans a b c :
  same_skeleton a b -> same_skeleton b c -> same_skeleton a c.
Proof. unfold same_skeleton. congruence. Qed.

Lemma same_skeleton_sym a b : same_skeleton a b -> same_skeleton b a.
Proof. unfold same_skeleton. congruence. Qed.

Lemma same_skeleton_length a b : same_skeleton a b -> length a = length b.
Proof.
  intros H. apply (f_equal length) in H. rewrite !length_fmap in H. exact H.
Qed.

Lemma same_skeleton_lookup a b p :
  same_skeleton a b -> skeleton <$> a !! p = skeleton <$> b !! p.
Proof. intros H. rewrite <- !list_lookup_fmap. rewrite H. reflexivity. Qed.

Lemma same_skeleton_Some a b p i :
  same_skeleton a b -> a !! p = Some i ->
  exists j, b !! p = Some j /\ skeleton i = skeleton j.
Proof.
  intros H Hi. apply (same_skeleton_lookup _ _ p) in H. rewrite Hi in H.
  destruct (b !! p) as [j|]; [|discriminate]. simpl in H. apply (inj Some) in H. eauto.
Qed.

Lemma same_skeleton_insert a b p i j :
  same_skeleton a b -> b !! p = Some j -> skeleton i = skeleton j ->
  same_skeleton a (<[p := i]> b).
Proof.
  unfold same_skeleton. intros H Hj Hs. rewrite list_fmap_insert, Hs, H.
  symmetry. apply list_insert_id. rewrite list_lookup_fmap, Hj. reflexivity.
Qed.

(** *** Readers that see the skeleton only *)

Definition sk (ops : list SPVInstruction) : list SPVInstruction := skeleton <$> ops.

Lemma deref_sk ops p : deref (sk ops) p = (i <~ deref ops p ;; Ok (skeleton i)).
Proof.
  unfold deref, sk. rewrite list_lookup_fmap. destruct (ops !! p); reflexivity.
Qed.

Lemma deref_op_sk ops p : deref_op (sk ops) p = (o <~ deref_op ops p ;; Ok (strip o)).
Proof.
  unfold deref_op. rewrite deref_sk. destruct (deref ops p) as [i|]; simpl; [|reflexivity].
  destruct (op i); reflexivity.
Qed.

Lemma argument_sk ops p k : argument (sk ops) p k = argument ops p k.
Proof.
  unfold argument. rewrite deref_op_sk. destruct (deref_op ops p); reflexivity.
Qed.

Lemma scan_instructions_sk ops from to var instrs : forall looking,
  scan_instructions (sk ops) from to var instrs looking =
  scan_instructions ops from to var instrs looking.
Proof.
  induction instrs as [|x l IH]; intros looking; simpl; [reflexivity|].
  rewrite !IH, deref_sk, argument_sk.
  destruct (x =? from)%nat; [reflexivity|]. destruct (x =? to)%nat; [reflexivity|].
  destruct looking; [|reflexivity].
  destruct (deref ops x) as [i|]; simpl; [|reflexivity].
  destruct (Op_eqb (opcode i) OpStore); [|reflexivity].
  destruct (argument ops x 0); reflexivity.
Qed.

Lemma scan_blocks_sk ops from to var blks : forall looking,
  scan_blocks (sk ops) from to var blks looking =
  scan_blocks ops from to var blks looking.
Proof.
  induction blks as [|b l IH]; intros looking; simpl; [reflexivity|].
  rewrite deref_sk. destruct (deref ops b) as [bi|]; simpl; [|reflexivity].
  destruct (block bi); simpl; [|reflexivity].
  rewrite scan_instructions_sk.
  destruct (scan_instructions ops from to var (instructions s) looking) as [[]|];
    simpl; auto.
Qed.

Lemma is_var_load_sk ops from : is_var_load (sk ops) from = is_var_load ops from.
Proof.
  unfold is_var_load. rewrite deref_sk, argument_sk.
  destruct (deref ops from) as [fi|]; simpl; [|reflexivity].
  destruct (Op_eqb (opcode fi) OpLoad); [|reflexivity].
  destruct (argument ops from 0) as [a0|]; simpl; [|reflexivity].
  rewrite deref_sk. destruct (deref ops a0); reflexivity.
Qed.

Lemma args_loop_ext (r1 r2 : nat -> result bool) is_store args :
  (forall a, r1 a = r2 a) -> forall i ret,
  args_loop r1 is_store args i ret = args_loop r2 is_store args i ret.
Proof.
  intros H. induction args as [|a l IH]; intros i ret; simpl; [reflexivity|].
  rewrite H, !IH. destruct (is_store && (i =? 0)%nat); [reflexivity|].
  destruct (r2 a); simpl; auto.
Qed.

Lemma IsUnmodified_sk fuel ops func to : forall from,
  IsUnmodified fuel (sk ops) func from to = IsUnmodified fuel ops func from to.
Proof.
  induction fuel as [|n IH]; intros from; simpl; [reflexivity|].
  rewrite deref_sk, is_var_load_sk, argument_sk.
  destruct (deref ops from) as [fi|]; simpl; [|reflexivity].
  destruct (op fi) as [fo|]; simpl; [|reflexivity].
  destruct (is_var_load ops from) as [[]|]; simpl; try reflexivity.
  - destruct (argument ops from 0); simpl; [|reflexivity]. apply scan_blocks_sk.
  - apply args_loop_ext. exact IH.
Qed.

Lemma count_stores_sk ops instr l : forall prevstore storecount,
  count_stores (sk ops) instr l prevstore storecount =
  count_stores ops instr l prevstore storecount.
Proof.
  induction l as [|x l IH]; intros prevstore storecount; simpl; [reflexivity|].
  rewrite deref_sk, !argument_sk, !IH.
  destruct (deref ops x) as [pi|]; simpl; reflexivity.
Qed.

Lemma IsUnmodified_same_skeleton a b fuel func from to :
  same_skeleton a b -> IsUnmodified fuel a func from to = IsUnmodified fuel b func from to.
Proof.
  intros H. rewrite <- (IsUnmodified_sk fuel a), <- (IsUnmodified_sk fuel b).
  unfold sk. rewrite H. reflexivity.
Qed.

Lemma argument_same_skeleton a b p k :
  same_skeleton a b -> argument a p k = argument b p k.
Proof.
  intros H. rewrite <- (argument_sk a), <- (argument_sk b). unfold sk. rewrite H.
  reflexivity.
Qed.

Lemma count_stores_same_skeleton a b instr l prevstore storecount :
  same_skeleton a b ->
  count_stores a instr l prevstore storecount = count_stores b instr l prevstore storecount.
Proof.
  intros H. rewrite <- (count_stores_sk a), <- (count_stores_sk b). unfold sk. rewrite H.
  reflexivity.
Qed.

Lemma operands_same_skeleton a b p : same_skeleton a b -> operands a p = operands b p.
Proof.
  intros H. unfold operands. pose proof (same_skeleton_lookup _ _ p H) as E.
  destruct (a !! p) as [i|], (b !! p) as [j|]; simpl in E; try discriminate; [|reflexivity].
  apply (inj Some) in E. pose proof (skeleton_op _ _ E) as E'.
  destruct (op i), (op j); simpl in E'; try discriminate; [|reflexivity].
  apply (inj Some) in E'. apply strip_arguments, E'.
Qed.

Lemma is_operation_same_skeleton a b p :
  same_skeleton a b -> is_operation a p = is_operation b p.
Proof.
  intros H. unfold is_operation. pose proof (same_skeleton_lookup _ _ p H) as E.
  destruct (a !! p) as [i|], (b !! p) as [j|]; simpl in E; try discriminate; [|reflexivity].
  apply (inj Some) in E. pose proof (skeleton_op _ _ E) as E'.
  destruct (op i), (op j); simpl in E'; try discriminate; reflexivity.
Qed.

Lemma stores_to_same_skeleton a b v x :
  same_skeleton a b -> stores_to a v x = stores_to b v x.
Proof.
  intros H. unfold stores_to. pose proof (same_skeleton_lookup _ _ x H) as E.
  destruct (a !! x) as [i|], (b !! x) as [j|]; simpl in E; try discriminate; [|reflexivity].
  apply (inj Some) in E. rewrite (skeleton_opcode _ _ E). pose proof (skeleton_op _ _ E) as E'.
  destruct (op i), (op j); simpl in E'; try discriminate; [|reflexivity].
  apply (inj Some) in E'. rewrite (strip_arguments _ _ E'). reflexivity.
Qed.

Lemma linear_order_same_skeleton a b blks :
  same_skeleton a b -> linear_order a blks = linear_order b blks.
Proof.
  intros H. induction blks as [|x blks IH]; simpl; [reflexivity|].
  pose proof (same_skeleton_lookup _ _ x H) as E. rewrite IH.
  destruct (a !! x) as [i|], (b !! x) as [j|]; simpl in E; try discriminate; [|reflexivity].
  apply (inj Some) in E. rewrite (skeleton_block _ _ E). reflexivity.
Qed.

(** ** Steps that an instruction skips *)

Lemma no_store_to_spec ops v x : no_store_to ops v = true -> stores_to ops v x = false.
Proof.
  unfold no_store_to. intros H.
  destruct (Nat.lt_ge_cases x (length ops)) as [Hlt|Hge].
  - rewrite forallb_forall in H. specialize (H x).
    rewrite <- list_elem_of_In, elem_of_seq in H.
    apply negb_true_iff, H. lia.
  - unfold stores_to. rewrite (lookup_ge_None_2 ops x) by lia. reflexivity.
Qed.

Lemma operands_head ops p i o v :
  ops !! p = Some i -> op i = Some o -> arguments o !! 0%nat = Some v ->
  exists rest, operands ops p = v :: rest.
Proof.
  intros Hi Ho Hv. unfold operands. rewrite Hi, Ho.
  destruct (arguments o) as [|x rest]; [discriminate|]. simpl in Hv.
  inversion Hv; subst. eauto.
Qed.

Lemma merge_single_store_skip fn instr s i :
  d_ops s !! instr = Some i ->
  (Op_eqb (opcode i) OpLoad = true -> (1 <? length (funcops s))%nat = true ->
   count_stores (d_ops s) instr (funcops s) None 0 = Ok (None, 0)) ->
  merge_single_store fn instr s = Ok (tt, s).
Proof.
  intros Hi Hc. unfold merge_single_store, bindM, reading at 1, deref, get.
  rewrite Hi. simpl.
  destruct (Op_eqb (opcode i) OpLoad && (1 <? length (funcops s))%nat) eqn:E;
    [|reflexivity].
  apply andb_true_iff in E as [E1 E2]. unfold reading. rewrite (Hc E1 E2). reflexivity.
Qed.

Lemma merge_adjacent_store_skip instr s i :
  d_ops s !! instr = Some i ->
  Op_eqb (opcode i) OpStore = false -> Op_eqb (opcode i) OpCompositeInsert = false ->
  merge_adjacent_store instr s = Ok (tt, s).
Proof.
  intros Hi H1 H2. unfold merge_adjacent_store, bindM, reading at 1, deref, get.
  rewrite Hi. simpl. rewrite H1, H2. reflexivity.
Qed.

Lemma inline_call_skip bi k instr ign s i :
  d_ops s !! instr = Some i -> Op_eqb (opcode i) OpFunctionCall = false ->
  inline_call bi k instr ign s = Ok (ign, s).
Proof.
  intros Hi H1. unfold inline_call, bindM, reading at 1, deref.
  rewrite Hi. simpl. rewrite H1. reflexivity.
Qed.

#[export] Instance same_skeleton_preorder : PreOrder same_skeleton.
Proof.
  split; [intros ops; apply same_skeleton_refl|intros a b c; apply same_skeleton_trans].
Qed.

Lemma skeleton_update_op p f :
  (forall o, strip (f o) = strip o) -> keeps same_skeleton (update_op p f).
Proof.
  intros Hf s a s' H. apply update_op_Ok in H as (i & o & Hi & Ho & ->). simpl.
  eapply same_skeleton_insert; [reflexivity|exact Hi|]. apply skeleton_set_op; auto.
Qed.

Ltac skeleton_step :=
  lazymatch goal with
  | |- keeps _ (update_op _ _) => apply skeleton_update_op; intros ?; reflexivity
  | |- keeps _ (or_inlineArgs _ _) => apply skeleton_update_op; intros ?; reflexivity
  | _ => keeps_step
  end.

Lemma skeleton_inline_args func instr : keeps same_skeleton (inline_args func instr).
Proof. unfold inline_args, inline_arg. repeat skeleton_step. Qed.

Lemma skeleton_merge_adjacent_store instr :
  keeps same_skeleton (merge_adjacent_store instr).
Proof. unfold merge_adjacent_store. repeat skeleton_step. Qed.

Lemma skeleton_inline_block_end ids blk : keeps same_skeleton (inline_block_end ids blk).
Proof. unfold inline_block_end. repeat skeleton_step. Qed.

Lemma linear_order_cons ops b rest order :
  linear_order ops (b :: rest) = Some order ->
  exists bi blk order', ops !! b = Some bi /\ block bi = Some blk /\
    linear_order ops rest = Some order' /\ order = instructions blk ++ order'.
Proof.
  simpl. intros H. destruct (ops !! b) as [bi|]; [|discriminate].
  destruct (block bi) as [blk|] eqn:Hblk; [|discriminate].
  destruct (linear_order ops rest) as [order'|]; [|discriminate].
  inversion H. exists bi, blk, order'. auto.
Qed.

(** ** Two runs side by side *)

(** [c1] from a state and [c2] from a related state: when the first
    returns, the second returns, with related results. *)
Definition sim {A} (R : DState -> DState -> Prop) (c1 c2 : M DState A)
    (Q : A -> A -> DState -> DState -> Prop) : Prop :=
  forall s1 s2 a1 s1', R s1 s2 -> c1 s1 = Ok (a1, s1') ->
    exists a2 s2', c2 s2 = Ok (a2, s2') /\ Q a1 a2 s1' s2'.

(** Same results and the same relation afterwards. *)
Definition same {A} (R : DState -> DState -> Prop) : A -> A -> DState -> DState -> Prop :=
  fun a1 a2 s1 s2 => a1 = a2 /\ R s1 s2.

Lemma sim_ret {A} (R : DState -> DState -> Prop) (a : A) : sim R (ret a) (ret a) (same R).
Proof.
  intros s1 s2 a1 s1' HR H. apply ret_Ok in H as [-> ->].
  exists a, s2. split; [reflexivity|]. split; [reflexivity|exact HR].
Qed.

Lemma sim_bind {A B} R (c1 c2 : M DState A) Q (k1 k2 : A -> M DState B) Q' :
  sim R c1 c2 Q -> (forall a1 a2, sim (Q a1 a2) (k1 a1) (k2 a2) Q') ->
  sim R (bindM c1 k1) (bindM c2 k2) Q'.
Proof.
  intros Hc Hk s1 s2 b1 s1' HR H. apply bindM_Ok in H as (a1 & t1 & H1 & H2).
  destruct (Hc _ _ _ _ HR H1) as (a2 & t2 & E1 & HQ).
  destruct (Hk _ _ _ _ _ _ HQ H2) as (b2 & s2' & E2 & HQ').
  exists b2, s2'. split; [|exact HQ']. unfold bindM. rewrite E1. exact E2.
Qed.

Lemma sim_pure {A} (P : Prop) R (c1 c2 : M DState A) Q :
  (P -> sim R c1 c2 Q) -> sim (fun s1 s2 => P /\ R s1 s2) c1 c2 Q.
Proof. intros H s1 s2 a1 s1' [HP HR]. apply H; assumption. Qed.

Lemma sim_conseq {A} (R R' : DState -> DState -> Prop) (c1 c2 : M DState A)
    (Q Q' : A -> A -> DState -> DState -> Prop) :
  (forall s1 s2, R' s1 s2 -> R s1 s2) ->
  (forall a1 a2 s1 s2, Q a1 a2 s1 s2 -> Q' a1 a2 s1 s2) ->
  sim R c1 c2 Q -> sim R' c1 c2 Q'.
Proof.
  intros HR HQ H s1 s2 a1 s1' HR' E.
  destruct (H _ _ _ _ (HR _ _ HR') E) as (a2 & s2' & E2 & Q2). eauto.
Qed.

(** The continuation of a step with the same result on both sides. *)
Lemma sim_bind_same {A B} R (c : M DState A) R' (k : A -> M DState B) Q' :
  sim R c c (same R') -> (forall a, sim R' (k a) (k a) Q') ->
  sim R (bindM c k) (bindM c k) Q'.
Proof.
  intros Hc Hk. eapply sim_bind; [exact Hc|]. intros a1 a2.
  apply sim_pure. intros ->. apply Hk.
Qed.

Lemma sim_reading {A} (R : DState -> DState -> Prop) (f : list SPVInstruction -> result A)
    (Q : A -> A -> DState -> DState -> Prop) :
  (forall s1 s2 a1, R s1 s2 -> f (d_ops s1) = Ok a1 ->
     exists a2, f (d_ops s2) = Ok a2 /\ Q a1 a2 s1 s2) ->
  sim R (reading f) (reading f) Q.
Proof.
  intros H s1 s2 a1 s1' HR E. apply reading_Ok in E as [E ->].
  destruct (H _ _ _ HR E) as (a2 & E2 & HQ). exists a2, s2. split; [|exact HQ].
  unfold reading. rewrite E2. reflexivity.
Qed.

Lemma sim_lift_opt {A} (R : DState -> DState -> Prop) e (o : option A) :
  sim R (lift_opt e o) (lift_opt e o) (same R).
Proof.
  intros s1 s2 a1 s1' HR E. pose proof E as E'. apply lift_opt_Ok in E' as [-> ->].
  exists a1, s2. split; [reflexivity|]. split; [reflexivity|exact HR].
Qed.

Lemma sim_foldM {A B} (R : DState -> DState -> Prop) (l : list A)
    (body : B -> A -> M DState B) :
  (forall b x, sim R (body b x) (body b x) (same R)) ->
  forall b, sim R (foldM l b body) (foldM l b body) (same R).
Proof.
  intros Hb. induction l as [|x l IH]; intros b; simpl.
  - apply sim_ret.
  - eapply sim_bind_same; [apply Hb|]. intros b'. apply IH.
Qed.

(** *** The relation while the loop is at an instruction *)

Definition bits_at (ops : list SPVInstruction) (p : nat) : Z :=
  match ops !! p with
  | Some i => match op i with
              | Some o => inlineArgs o
              | None => 0
              end
  | None => 0
  end.

Definition complexity_at (ops : list SPVInstruction) (p : nat) : Z :=
  match ops !! p with
  | Some i => match op i with
              | Some o => complexity o
              | None => 0
              end
  | None => 0
  end.

Lemma update_op_run p f s i o :
  d_ops s !! p = Some i -> op i = Some o ->
  update_op p f s =
    Ok (tt, {| d_ops := <[p := set_op (Some (f o)) i]> (d_ops s);
               vars := vars s; funcops := funcops s |}).
Proof.
  intros Hi Ho. unfold update_op, bindM, reading, deref. rewrite Hi. simpl.
  rewrite Ho. reflexivity.
Qed.

Lemma bindM_run {S A B} (c : M S A) (k : A -> M S B) s a s' :
  c s = Ok (a, s') -> bindM c k s = k a s'.
Proof. intros H. unfold bindM. rewrite H. reflexivity. Qed.

Lemma sim_get (R : DState -> DState -> Prop) :
  sim R get get (fun a1 a2 s1 s2 => a1 = s1 /\ a2 = s2 /\ R s1 s2).
Proof.
  intros s1 s2 a1 s1' HR E. apply get_Ok in E as [-> ->].
  exists s2, s2. split; [reflexivity|]. auto.
Qed.

Lemma sim_get_bind {B} (R : DState -> DState -> Prop) (k1 k2 : DState -> M DState B) Q :
  (forall s1 s2, R s1 s2 -> sim R (k1 s1) (k2 s2) Q) ->
  sim R (bindM get k1) (bindM get k2) Q.
Proof.
  intros H s1 s2 b s1' HR E. unfold bindM, get in *. eapply H; eassumption.
Qed.

(** The opcodes for which an operation with a folded argument counts as
    one level more complex. *)
Definition plus_op (opc : Op) : bool :=
  negb (Op_eqb opc OpStore) && negb (Op_eqb opc OpLoad)
  && negb (Op_eqb opc OpCompositeExtract).

Lemma bits_at_lookup ops p i o :
  ops !! p = Some i -> op i = Some o -> bits_at ops p = inlineArgs o.
Proof. intros Hi Ho. unfold bits_at. rewrite Hi, Ho. reflexivity. Qed.

Lemma complexity_at_lookup ops p i o :
  ops !! p = Some i -> op i = Some o -> complexity_at ops p = complexity o.
Proof. intros Hi Ho. unfold complexity_at. rewrite Hi, Ho. reflexivity. Qed.

Lemma touched_cell l ops ops' p i :
  touched_in l ops ops' -> ops !! p = Some i ->
  exists i', ops' !! p = Some i' /\ opcode i' = opcode i.
Proof.
  intros H Hi. destruct (H p) as [_ B]. rewrite Hi in B.
  destruct (ops' !! p) as [i'|]; [|discriminate]. simpl in B. apply (inj Some) in B.
  exists i'. split; [reflexivity|]. apply (f_equal opcode) in B. exact B.
Qed.

Lemma plus_op_opcode opc :
  plus_op opc = true -> Op_eqb opc OpStore = false /\ Op_eqb opc OpLoad = false.
Proof.
  unfold plus_op. intros H. apply andb_true_iff in H as [H _].
  apply andb_true_iff in H as [H1 H2]. apply negb_true_iff in H1, H2. auto.
Qed.

Lemma existsb_eqb_nat (x : nat) l : existsb (Nat.eqb x) l = true <-> x ∈ l.
Proof.
  rewrite existsb_exists. split.
  - intros (y & Hy & E). apply Nat.eqb_eq in E. subst. apply list_elem_of_In, Hy.
  - intros H. exists x. split; [apply list_elem_of_In, H|apply Nat.eqb_refl].
Qed.

Lemma defined_before_use_cons ops seen instr rest :
  defined_before_use ops seen (instr :: rest) = true ->
  (instr ∉ seen) /\
  (forall arg, arg ∈ operands ops instr -> is_operation ops arg = true -> arg ∈ seen) /\
  defined_before_use ops (instr :: seen) rest = true.
Proof.
  simpl. intros H. apply andb_true_iff in H as [H H3]. apply andb_true_iff in H as [H1 H2].
  split; [|split; [|exact H3]].
  - intros Hin. apply existsb_eqb_nat in Hin. rewrite Hin in H1. discriminate.
  - intros arg Harg Hop. rewrite forallb_forall in H2.
    specialize (H2 arg (proj1 (list_elem_of_In _ _) Harg)). rewrite Hop in H2.
    simpl in H2. apply existsb_eqb_nat, H2.
Qed.

Lemma defined_before_use_fresh ops rest : forall seen p,
  defined_before_use ops seen rest = true -> p ∈ rest -> p ∉ seen.
Proof.
  induction rest as [|x rest IH]; intros seen p H Hp.
  - apply elem_of_nil in Hp. contradiction.
  - apply defined_before_use_cons in H as (Hx & _ & H).
    apply elem_of_cons in Hp as [->|Hp]; [exact Hx|].
    intros Hin. apply (IH _ _ H Hp). right. exact Hin.
Qed.

Lemma defined_before_use_app ops l1 : forall seen l2,
  defined_before_use ops seen (l1 ++ l2) = true ->
  defined_before_use ops seen l1 = true /\
  defined_before_use ops (rev l1 ++ seen) l2 = true.
Proof.
  induction l1 as [|x l1 IH]; intros seen l2 H; [auto|].
  change ((x :: l1) ++ l2) with (x :: (l1 ++ l2)) in H. simpl in H |- *.
  apply andb_true_iff in H as [H1 H2]. rewrite H1. simpl.
  destruct (IH _ _ H2) as [A B]. split; [exact A|].
  rewrite <- app_assoc. exact B.
Qed.

Lemma defined_before_use_disjoint ops seen l1 l2 p :
  defined_before_use ops seen (l1 ++ l2) = true -> p ∈ l1 -> p ∉ l2.
Proof.
  intros H Hp1 Hp2. apply defined_before_use_app in H as [_ H].
  apply (defined_before_use_fresh _ _ _ _ H Hp2).
  apply elem_of_app. left. apply list_elem_of_In, in_rev.
  rewrite rev_involutive. apply list_elem_of_In, Hp1.
Qed.

Lemma DState_eq (a b : DState) :
  d_ops a = d_ops b -> vars a = vars b -> funcops a = funcops b -> a = b.
Proof. destruct a, b. simpl. congruence. Qed.

(* ---------- Part I ---------- *)

(** ** Arenas that differ in what a load reads

    A run of the inliner over a function without calls rewrites, besides
    the annotations, the argument of the loads that it merges with a
    store.  Two cells are alike when they differ at most in the
    annotations and, for a load, in the arguments. *)

Definition alike_cell (i j : SPVInstruction) : Prop :=
  set_op None i = set_op None j /\
  match op i, op j with
  | Some o, Some o' => opcode i = OpLoad \/ strip o = strip o'
  | None, None => True
  | _, _ => False
  end.

Definition alike (A B : list SPVInstruction) : Prop :=
  length A = length B /\
  forall p i j, A !! p = Some i -> B !! p = Some j -> alike_cell i j.

(** The cells at [p] have the same skeleton. *)
Definition tight (A B : list SPVInstruction) (p : nat) : Prop :=
  skeleton <$> A !! p = skeleton <$> B !! p.

Lemma alike_cell_refl i : alike_cell i i.
Proof. split; [reflexivity|]. destruct (op i); auto. Qed.

Lemma alike_cell_opcode i j : alike_cell i j -> opcode i = opcode j.
Proof. intros [H _]. apply (f_equal opcode) in H. exact H. Qed.

Lemma alike_cell_sym i j : alike_cell i j -> alike_cell j i.
Proof.
  intros H. pose proof (alike_cell_opcode _ _ H) as Hop. destruct H as [H1 H2].
  split; [symmetry; exact H1|].
  destruct (op i), (op j); try contradiction; auto.
  destruct H2 as [H2|H2]; [left; congruence|right; symmetry; exact H2].
Qed.

Lemma alike_cell_trans i j k : alike_cell i j -> alike_cell j k -> alike_cell i k.
Proof.
  intros H G. pose proof (alike_cell_opcode _ _ H) as Hop.
  destruct H as [H1 H2], G as [G1 G2].
  split; [congruence|].
  destruct (op i), (op j), (op k); try contradiction; auto.
  destruct H2 as [H2|H2]; [left; exact H2|].
  destruct G2 as [G2|G2]; [left; congruence|right; congruence].
Qed.

Lemma skeleton_alike_cell i j : skeleton i = skeleton j -> alike_cell i j.
Proof.
  intros H. split.
  - destruct i, j. unfold skeleton in H. simpl in *. inversion H. reflexivity.
  - pose proof (skeleton_op _ _ H) as E.
    destruct (op i), (op j); simpl in E; try discriminate; auto.
    right. apply (inj Some) in E. exact E.
Qed.

Lemma alike_cell_skeleton i j :
  alike_cell i j -> opcode i <> OpLoad -> skeleton i = skeleton j.
Proof.
  intros [H1 H2] Hop.
  destruct i as [c1 d1 e1 n1 o1 f1 t1 g1 b1 k1 v1], j as [c2 d2 e2 n2 o2 f2 t2 g2 b2 k2 v2].
  simpl in *. inversion H1; subst.
  unfold skeleton. simpl.
  destruct o1, o2; try contradiction; [|reflexivity].
  destruct H2 as [H2|H2]; [contradiction|]. simpl. rewrite H2. reflexivity.
Qed.

Lemma alike_cell_None i j : alike_cell i j -> op i = None -> i = j.
Proof.
  intros [H1 H2] Ho. rewrite Ho in H2. destruct (op j) eqn:Hj; [contradiction|].
  destruct i, j. simpl in *. subst. inversion H1. reflexivity.
Qed.

Lemma alike_refl A : alike A A.
Proof.
  split; [reflexivity|]. intros p i j Hi Hj. rewrite Hi in Hj. inversion Hj.
  apply alike_cell_refl.
Qed.

Lemma alike_sym A B : alike A B -> alike B A.
Proof.
  intros [Hl H]. split; [symmetry; exact Hl|].
  intros p i j Hi Hj. apply alike_cell_sym. eapply H; eassumption.
Qed.

Lemma alike_Some A B p i :
  alike A B -> A !! p = Some i -> exists j, B !! p = Some j /\ alike_cell i j.
Proof.
  intros [Hl H] Hi. destruct (B !! p) as [j|] eqn:Hj.
  - exists j. split; [reflexivity|]. eapply H; eassumption.
  - apply lookup_ge_None in Hj. apply lookup_lt_Some in Hi. lia.
Qed.

Lemma alike_None A B p : alike A B -> A !! p = None -> B !! p = None.
Proof.
  intros [Hl H] Hi. apply lookup_ge_None. apply lookup_ge_None in Hi. lia.
Qed.

Lemma alike_trans A B C : alike A B -> alike B C -> alike A C.
Proof.
  intros HAB HBC. split; [destruct HAB, HBC; congruence|].
  intros p i k Hi Hk. destruct (alike_Some _ _ _ _ HAB Hi) as (j & Hj & Hij).
  eapply alike_cell_trans; [exact Hij|]. destruct HBC as [_ H]. eapply H; eassumption.
Qed.

#[export] Instance alike_preorder : PreOrder alike.
Proof. split; [intros A; apply alike_refl|intros A B C; apply alike_trans]. Qed.

Lemma same_skeleton_alike A B : same_skeleton A B -> alike A B.
Proof.
  intros H. split; [apply same_skeleton_length, H|].
  intros p i j Hi Hj. apply skeleton_alike_cell.
  pose proof (same_skeleton_lookup _ _ p H) as E. rewrite Hi, Hj in E.
  apply (inj Some) in E. exact E.
Qed.

Lemma tight_Some A B p i :
  tight A B p -> A !! p = Some i -> exists j, B !! p = Some j /\ skeleton i = skeleton j.
Proof.
  unfold tight. intros H Hi. rewrite Hi in H.
  destruct (B !! p) as [j|]; [|discriminate]. simpl in H. apply (inj Some) in H. eauto.
Qed.

Lemma tight_None A B p : tight A B p -> A !! p = None -> B !! p = None.
Proof.
  unfold tight. intros H Hi. rewrite Hi in H.
  destruct (B !! p) as [j|]; [discriminate|reflexivity].
Qed.

Lemma alike_tight A B p i :
  alike A B -> A !! p = Some i -> opcode i <> OpLoad -> tight A B p.
Proof.
  intros H Hi Hop. destruct (alike_Some _ _ _ _ H Hi) as (j & Hj & Hij).
  unfold tight. rewrite Hi, Hj. simpl. f_equal. apply alike_cell_skeleton; assumption.
Qed.

Lemma equal_tight A B p : A !! p = B !! p -> tight A B p.
Proof. unfold tight. intros ->. reflexivity. Qed.

(** *** What the readers make of alike arenas *)

Lemma deref_tight A B p :
  tight A B p -> deref B p = (i <~ deref A p ;; match B !! p with Some j => Ok j | None => Ok i end).
Proof.
  intros H. unfold deref. destruct (A !! p) as [i|] eqn:Hi.
  - destruct (tight_Some _ _ _ _ H Hi) as (j & Hj & _). rewrite Hj. reflexivity.
  - rewrite (tight_None _ _ _ H Hi). reflexivity.
Qed.

Lemma argument_tight A B p k : tight A B p -> argument A p k = argument B p k.
Proof.
  intros H. unfold argument, deref_op, deref. destruct (A !! p) as [i|] eqn:Hi.
  - destruct (tight_Some _ _ _ _ H Hi) as (j & Hj & E). rewrite Hj. simpl.
    pose proof (skeleton_op _ _ E) as E'.
    destruct (op i), (op j); simpl in E'; try discriminate; [|reflexivity].
    apply (inj Some) in E'. simpl. rewrite (strip_arguments _ _ E'). reflexivity.
  - rewrite (tight_None _ _ _ H Hi). reflexivity.
Qed.

Lemma operands_tight A B p : tight A B p -> operands A p = operands B p.
Proof.
  intros H. unfold operands. destruct (A !! p) as [i|] eqn:Hi.
  - destruct (tight_Some _ _ _ _ H Hi) as (j & Hj & E). rewrite Hj.
    pose proof (skeleton_op _ _ E) as E'.
    destruct (op i), (op j); simpl in E'; try discriminate; [|reflexivity].
    apply (inj Some) in E'. apply strip_arguments, E'.
  - rewrite (tight_None _ _ _ H Hi). reflexivity.
Qed.

Lemma scan_instructions_alike A B from to var instrs :
  alike A B -> forall looking,
  scan_instructions A from to var instrs looking =
  scan_instructions B from to var instrs looking.
Proof.
  intros H. induction instrs as [|x l IH]; intros looking; simpl; [reflexivity|].
  rewrite !IH. destruct (x =? from)%nat; [reflexivity|].
  destruct (x =? to)%nat; [reflexivity|]. destruct looking; [|reflexivity].
  unfold deref. destruct (A !! x) as [i|] eqn:Hi.
  - destruct (alike_Some _ _ _ _ H Hi) as (j & Hj & Hij). rewrite Hj. simpl.
    rewrite <- (alike_cell_opcode _ _ Hij).
    destruct (Op_eqb (opcode i) OpStore) eqn:Hst; [|reflexivity].
    apply Op_eqb_eq in Hst.
    rewrite (argument_tight A B x 0); [reflexivity|].
    eapply alike_tight; [exact H|exact Hi|]. rewrite Hst. discriminate.
  - rewrite (alike_None _ _ _ H Hi). reflexivity.
Qed.

Lemma alike_cell_block i j : alike_cell i j -> block i = block j.
Proof. intros [H _]. apply (f_equal block) in H. exact H. Qed.

Lemma alike_cell_flow i j : alike_cell i j -> flow i = flow j.
Proof. intros [H _]. apply (f_equal flow) in H. exact H. Qed.

Lemma alike_cell_var i j : alike_cell i j -> var i = var j.
Proof. intros [H _]. apply (f_equal var) in H. exact H. Qed.

Lemma alike_cell_func i j : alike_cell i j -> func i = func j.
Proof. intros [H _]. apply (f_equal func) in H. exact H. Qed.

Lemma alike_cell_op_None i j : alike_cell i j -> op i = None -> op j = None.
Proof. intros [_ H] Ho. rewrite Ho in H. destruct (op j); [contradiction|reflexivity]. Qed.

Lemma scan_blocks_alike A B from to var blks :
  alike A B -> forall looking,
  scan_blocks A from to var blks looking = scan_blocks B from to var blks looking.
Proof.
  intros H. induction blks as [|b l IH]; intros looking; simpl; [reflexivity|].
  unfold deref. destruct (A !! b) as [bi|] eqn:Hb.
  - destruct (alike_Some _ _ _ _ H Hb) as (bj & Hbj & Hij). rewrite Hbj. simpl.
    rewrite <- (alike_cell_block _ _ Hij).
    destruct (block bi) as [blk|]; simpl; [|reflexivity].
    rewrite (scan_instructions_alike A B) by exact H.
    destruct (scan_instructions B from to var (instructions blk) looking) as [[]|];
      simpl; auto.
  - rewrite (alike_None _ _ _ H Hb). reflexivity.
Qed.

Lemma is_var_load_alike A B from :
  alike A B -> tight A B from -> is_var_load A from = is_var_load B from.
Proof.
  intros H Ht. unfold is_var_load.
  rewrite <- (argument_tight A B from 0 Ht).
  unfold deref at 1 3. destruct (A !! from) as [fi|] eqn:Hf.
  - destruct (tight_Some _ _ _ _ Ht Hf) as (fj & Hfj & E). rewrite Hfj. simpl.
    rewrite <- (skeleton_opcode _ _ E).
    destruct (Op_eqb (opcode fi) OpLoad); [|reflexivity].
    destruct (argument A from 0) as [a0|]; simpl; [|reflexivity].
    unfold deref. destruct (A !! a0) as [ai|] eqn:Ha.
    + destruct (alike_Some _ _ _ _ H Ha) as (aj & Haj & Hij). rewrite Haj. simpl.
      rewrite (alike_cell_var _ _ Hij). reflexivity.
    + rewrite (alike_None _ _ _ H Ha). reflexivity.
  - rewrite (tight_None _ _ _ Ht Hf). reflexivity.
Qed.

Lemma args_loop_ext_in (r1 r2 : nat -> result bool) is_store args :
  (forall a, a ∈ args -> r1 a = r2 a) -> forall i ret,
  args_loop r1 is_store args i ret = args_loop r2 is_store args i ret.
Proof.
  induction args as [|a l IH]; intros H i ret; simpl; [reflexivity|].
  rewrite (H a) by left.
  assert (Hl : forall a0, a0 ∈ l -> r1 a0 = r2 a0) by (intros a0 Ha0; apply H; right; exact Ha0).
  rewrite !(IH Hl). destruct (is_store && (i =? 0)%nat); [reflexivity|].
  destruct (r2 a); simpl; auto.
Qed.

(** [IsUnmodified] from an instruction whose operands, and theirs, have
    the same skeleton in both arenas. *)
Lemma IsUnmodified_alike A B func to (C : nat -> Prop) :
  alike A B ->
  (forall p, C p -> tight A B p) ->
  (forall p a, C p -> a ∈ operands A p -> C a) ->
  forall fuel from, C from ->
  IsUnmodified fuel A func from to = IsUnmodified fuel B func from to.
Proof.
  intros H Ht Hcl. induction fuel as [|n IH]; intros from Hfrom; simpl; [reflexivity|].
  pose proof (Ht _ Hfrom) as Hf.
  rewrite <- (is_var_load_alike A B from H Hf), <- (argument_tight A B from 0 Hf).
  unfold deref. destruct (A !! from) as [fi|] eqn:Hfi.
  - destruct (tight_Some _ _ _ _ Hf Hfi) as (fj & Hfj & E). rewrite Hfj. simpl.
    rewrite <- (skeleton_opcode _ _ E).
    pose proof (skeleton_op _ _ E) as E'.
    destruct (op fi) as [fo|] eqn:Hfo, (op fj) as [fo'|]; simpl in E'; try discriminate;
      [|reflexivity].
    apply (inj Some) in E'. rewrite <- (strip_arguments _ _ E').
    destruct (is_var_load A from) as [[]|]; simpl; try reflexivity.
    + destruct (argument A from 0); simpl; [|reflexivity].
      apply scan_blocks_alike, H.
    + apply args_loop_ext_in. intros a Ha. apply IH. apply (Hcl from a Hfrom).
      unfold operands. rewrite Hfi, Hfo. exact Ha.
  - rewrite (tight_None _ _ _ Hf Hfi). reflexivity.
Qed.

Lemma count_stores_alike A B instr l :
  alike A B -> tight A B instr -> forall prevstore storecount,
  count_stores A instr l prevstore storecount = count_stores B instr l prevstore storecount.
Proof.
  intros H Ht. induction l as [|x l IH]; intros prevstore storecount; simpl; [reflexivity|].
  rewrite <- (argument_tight A B instr 0 Ht).
  unfold deref. destruct (A !! x) as [i|] eqn:Hi.
  - destruct (alike_Some _ _ _ _ H Hi) as (j & Hj & Hij). rewrite Hj. simpl.
    rewrite <- (alike_cell_opcode _ _ Hij).
    destruct (Op_eqb (opcode i) OpStore) eqn:Hst.
    + apply Op_eqb_eq in Hst.
      rewrite (argument_tight A B x 0)
        by (eapply alike_tight; [exact H|exact Hi|rewrite Hst; discriminate]).
      destruct (argument B x 0); simpl; [|reflexivity].
      destruct (argument A instr 0); simpl; [|reflexivity].
      rewrite !IH. reflexivity.
    + simpl. rewrite !IH. reflexivity.
  - rewrite (alike_None _ _ _ H Hi). reflexivity.
Qed.

(** A load [y] that reads something else than [instr] does, in both
    arenas. *)
Definition apart (A B : list SPVInstruction) (instr y : nat) : Prop :=
  exists vy sy, argument A y 0 = Ok vy /\ argument B y 0 = Ok sy /\
    forall v, argument A instr 0 = Ok v -> vy <> v /\ sy <> v.

Lemma other_load_in_alike A B instr l :
  alike A B -> tight A B instr ->
  (forall y i, y <> instr -> A !! y = Some i -> opcode i = OpLoad ->
     tight A B y \/ apart A B instr y) ->
  other_load_in A instr l = other_load_in B instr l.
Proof.
  intros H Ht Hy. induction l as [|y l IH]; simpl; [reflexivity|].
  rewrite IH.
  rewrite <- (argument_tight A B instr 0 Ht).
  unfold deref. destruct (A !! y) as [i|] eqn:Hi.
  - destruct (alike_Some _ _ _ _ H Hi) as (j & Hj & Hij). rewrite Hj. simpl.
    rewrite <- (alike_cell_opcode _ _ Hij).
    destruct (Nat.eqb_spec y instr) as [->|Hne]; simpl; [reflexivity|].
    destruct (Op_eqb (opcode i) OpLoad) eqn:Hld; [|reflexivity].
    apply Op_eqb_eq in Hld.
    destruct (Hy y i Hne Hi Hld) as [Hty|(vy & sy & Ev & Es & Hd)].
    + rewrite (argument_tight A B y 0 Hty). reflexivity.
    + rewrite Ev, Es. simpl.
      destruct (argument A instr 0) as [v|]; simpl; [|reflexivity].
      destruct (Hd v eq_refl) as [D1 D2].
      destruct (Nat.eqb_spec vy v); [contradiction|].
      destruct (Nat.eqb_spec sy v); [contradiction|]. reflexivity.
  - rewrite (alike_None _ _ _ H Hi). reflexivity.
Qed.

Lemma other_load_alike A B instr blks :
  alike A B -> tight A B instr ->
  (forall y i, y <> instr -> A !! y = Some i -> opcode i = OpLoad ->
     tight A B y \/ apart A B instr y) ->
  forall b, other_load A instr blks b = other_load B instr blks b.
Proof.
  intros H Ht Hy. induction blks as [|blk l IH]; intros b; simpl; [reflexivity|].
  unfold deref. destruct (A !! blk) as [bi|] eqn:Hb.
  - destruct (alike_Some _ _ _ _ H Hb) as (bj & Hbj & Hij). rewrite Hbj. simpl.
    rewrite <- (alike_cell_block _ _ Hij).
    destruct (block bi) as [bk|] eqn:Hbk; simpl; [|reflexivity].
    rewrite (other_load_in_alike A B instr (instructions bk) H Ht Hy).
    destruct (other_load_in B instr (instructions bk)); simpl; [|reflexivity].
    apply IH.
  - rewrite (alike_None _ _ _ H Hb). reflexivity.
Qed.

Lemma linear_order_alike A B blks : alike A B -> linear_order A blks = linear_order B blks.
Proof.
  intros H. induction blks as [|b blks IH]; simpl; [reflexivity|]. rewrite IH.
  destruct (A !! b) as [bi|] eqn:Hb.
  - destruct (alike_Some _ _ _ _ H Hb) as (bj & Hbj & Hij). rewrite Hbj.
    rewrite (alike_cell_block _ _ Hij). reflexivity.
  - rewrite (alike_None _ _ _ H Hb). reflexivity.
Qed.

(* ---------- Part II: what the first run does at an instruction ---------- *)

Lemma elem_of_erase_item (l : list nat) x p : p ∈ erase_item l x -> p ∈ l.
Proof.
  induction l as [|y l IH]; simpl; [auto|].
  destruct (y =? x)%nat.
  - intros H. right. exact H.
  - intros H. apply elem_of_cons in H as [->|H]; [left|right; auto].
Qed.

Lemma erase_item_not_in (l : list nat) x : x ∉ l -> erase_item l x = l.
Proof.
  induction l as [|y l IH]; intros H; simpl; [reflexivity|].
  apply not_elem_of_cons in H as [Hne Hl].
  destruct (Nat.eqb_spec y x); [congruence|]. rewrite IH; auto.
Qed.

(** What [count_stores] returns besides what it was given is a store of
    the list that writes to what [instr] reads. *)
Lemma count_stores_found ops instr l : forall p c r n,
  count_stores ops instr l p c = Ok (r, n) ->
  (r = p /\ n = c) \/
  (exists s d, r = Some s /\ s ∈ l /\ is_store ops s = true /\
     argument ops s 0 = Ok d /\ argument ops instr 0 = Ok d).
Proof.
  induction l as [|x l IH]; intros p c r n H; simpl in H.
  - inversion H. auto.
  - apply rbind_Ok in H as (pi & Hpi & H). apply deref_Ok in Hpi.
    apply rbind_Ok in H as (hit & Hhit & H).
    destruct hit.
    + assert (Hx : is_store ops x = true /\ exists d, argument ops x 0 = Ok d /\
                     argument ops instr 0 = Ok d).
      { unfold is_store. rewrite Hpi.
        destruct (Op_eqb (opcode pi) OpStore); [|inversion Hhit].
        split; [reflexivity|].
        apply rbind_Ok in Hhit as (d & Hd & Hhit).
        apply rbind_Ok in Hhit as (src & Hsrc & Hhit). inversion Hhit as [E].
        apply Nat.eqb_eq in E. subst src. eauto. }
      destruct Hx as (Hst & d & Hd & Hsrc).
      destruct (c + 1 >? 1).
      * inversion H; subst. right. exists x, d. repeat split; auto. left.
      * destruct (IH _ _ _ _ H) as [[-> ->]|(s & d' & -> & Hin & Hs & Hd' & Hsrc')].
        -- right. exists x, d. repeat split; auto. left.
        -- right. exists s, d'. repeat split; auto. right. exact Hin.
    + destruct (IH _ _ _ _ H) as [[-> ->]|(s & d' & -> & Hin & Hs & Hd' & Hsrc')]; [auto|].
      right. exists s, d'. repeat split; auto. right. exact Hin.
Qed.

(** The two ways of [merge_single_store]: nothing happens, or [instr] is a
    load and takes the one store in. *)
Lemma merge_single_store_cases fn instr s u s' i :
  merge_single_store fn instr s = Ok (u, s') ->
  d_ops s !! instr = Some i ->
  s' = s \/
  (opcode i = OpLoad /\
   exists prevstore io po src,
     count_stores (d_ops s) instr (funcops s) None 0 = Ok (Some prevstore, 1) /\
     IsUnmodified (S (length (d_ops s))) (d_ops s) fn prevstore instr = Ok true /\
     other_load (d_ops s) instr (blocks fn) false = Ok false /\
     op i = Some io /\ deref_op (d_ops s) prevstore = Ok po /\
     arguments io !! 0%nat = Some src /\
     s' = {| d_ops := <[instr := set_op (Some (set_arguments (<[0%nat := prevstore]> (arguments io))
                                    (set_complexity (RDCMAX (complexity io) (complexity po)) io))) i]>
                        (d_ops s);
             vars := erase_item (vars s) src;
             funcops := erase_item (funcops s) prevstore |}).
Proof.
  intros H Hi. unfold merge_single_store in H.
  apply bindM_Ok in H as (i' & t & H1 & H). apply reading_Ok in H1 as [H1 ->].
  apply deref_Ok in H1. rewrite Hi in H1. inversion H1; subst i'. clear H1.
  apply bindM_Ok in H as (t & t' & H2 & H). apply get_Ok in H2 as [-> ->].
  destruct (Op_eqb (opcode i) OpLoad && (1 <? length (funcops s))%nat) eqn:E;
    [|apply ret_Ok in H as [_ ->]; auto].
  apply andb_true_iff in E as [E1 E2]. apply Op_eqb_eq in E1.
  apply bindM_Ok in H as (r & t & H3 & H). apply reading_Ok in H3 as [H3 ->].
  destruct r as [[prevstore|] n]; [|apply ret_Ok in H as [_ ->]; auto].
  destruct (Z.eq_dec n 1) as [->|Hn].
  2:{ assert (H' : @ret DState unit tt s = Ok (u, s')).
      { destruct n as [|[]|]; try exact H. contradiction. }
      apply ret_Ok in H' as [_ ->]. auto. }
  apply bindM_Ok in H as (unmodified & t & H4 & H).
  unfold is_unmodified in H4. apply reading_Ok in H4 as [H4 ->].
  destruct unmodified; [|apply ret_Ok in H as [_ ->]; auto].
  apply bindM_Ok in H as (otherload & t & H5 & H). apply reading_Ok in H5 as [H5 ->].
  destruct otherload; [apply ret_Ok in H as [_ ->]; auto|].
  apply bindM_Ok in H as (io & t & H6 & H). apply reading_Ok in H6 as [H6 ->].
  apply deref_op_Ok in H6 as (i6 & E6 & Hio). rewrite Hi in E6. inversion E6; subst i6.
  apply bindM_Ok in H as (po & t & H7 & H). apply reading_Ok in H7 as [H7 ->].
  apply bindM_Ok in H as (u8 & t8 & H8 & H).
  apply update_op_Ok in H8 as (i8 & o8 & E8 & Ho8 & ->).
  rewrite Hi in E8. inversion E8; subst i8. rewrite Hio in Ho8. inversion Ho8; subst o8.
  apply bindM_Ok in H as (src & t & H9 & H). apply reading_Ok in H9 as [H9 ->].
  apply argument_Ok in H9 as (i9 & o9 & E9 & Ho9 & Hsrc). simpl in E9.
  rewrite list_lookup_insert_eq in E9 by (eapply lookup_lt_Some, Hi).
  inversion E9; subst i9. simpl in Ho9. inversion Ho9; subst o9. simpl in Hsrc.
  apply bindM_Ok in H as (u10 & t10 & H10 & H). apply modify_Ok in H10. subst t10.
  apply bindM_Ok in H as (u11 & t11 & H11 & H). apply modify_Ok in H11. subst t11.
  unfold store_argument in H.
  apply bindM_Ok in H as (a12 & t12 & H12 & H). apply reading_Ok in H12 as [_ ->].
  apply update_op_Ok in H as (i13 & o13 & E13 & Ho13 & ->). simpl in *.
  rewrite list_lookup_insert_eq in E13 by (eapply lookup_lt_Some, Hi).
  inversion E13; subst i13. simpl in Ho13. inversion Ho13; subst o13. simpl.
  rewrite list_insert_insert_eq.
  right. split; [exact E1|]. exists prevstore, io, po, src.
  repeat split; auto.
Qed.

Lemma reading_run {A} (f : list SPVInstruction -> result A) s a :
  f (d_ops s) = Ok a -> reading f s = Ok (a, s).
Proof. intros H. unfold reading. rewrite H. reflexivity. Qed.

Lemma deref_run ops p i : ops !! p = Some i -> deref ops p = Ok i.
Proof. intros H. unfold deref. rewrite H. reflexivity. Qed.

Lemma deref_op_run ops p i o : ops !! p = Some i -> op i = Some o -> deref_op ops p = Ok o.
Proof. intros H Ho. unfold deref_op, deref. rewrite H. simpl. rewrite Ho. reflexivity. Qed.

Lemma argument_run ops p k i o a :
  ops !! p = Some i -> op i = Some o -> arguments o !! k = Some a -> argument ops p k = Ok a.
Proof.
  intros H Ho Ha. unfold argument. rewrite (deref_op_run _ _ _ _ H Ho). simpl.
  rewrite Ha. reflexivity.
Qed.

(** A load of a variable: the loop over its one argument, computed. *)
Lemma inline_args_load_var fn x s i0 o0 v vi :
  d_ops s !! x = Some i0 -> opcode i0 = OpLoad -> op i0 = Some o0 ->
  arguments o0 = [v] -> d_ops s !! v = Some vi -> op vi = None ->
  inline_args fn x s =
  Ok (tt, {| d_ops := <[x := set_op (Some (set_complexity 0
                             (set_inlineArgs (Z.lor (inlineArgs o0) 1) o0))) i0]> (d_ops s);
             vars := vars s;
             funcops := erase_item (funcops s) v |}).
Proof.
  intros Hi Hld Ho Hargs Hv Hvo.
  assert (Hlt : (x < length (d_ops s))%nat) by (eapply lookup_lt_Some, Hi).
  assert (Hxv : x <> v) by (intros ->; congruence).
  unfold inline_args.
  rewrite (bindM_run _ _ s o0 s) by (apply reading_run, (deref_op_run _ _ _ _ Hi Ho)).
  rewrite Hargs. simpl seq. cbn [foldM].
  set (s1 := {| d_ops := d_ops s; vars := vars s; funcops := erase_item (funcops s) v |}).
  set (i1 := set_op (Some (set_inlineArgs (Z.lor (inlineArgs o0) 1) o0)) i0).
  set (s2 := {| d_ops := <[x := i1]> (d_ops s); vars := vars s;
                funcops := erase_item (funcops s) v |}).
  assert (Harg : inline_arg fn x 0 0 s = Ok (0, s2)).
  { unfold inline_arg.
    rewrite (bindM_run _ _ s i0 s) by (apply reading_run, deref_run, Hi).
    rewrite (bindM_run _ _ s v s)
      by (apply reading_run; eapply argument_run; [exact Hi|exact Ho|rewrite Hargs; reflexivity]).
    rewrite (bindM_run _ _ s vi s) by (apply reading_run, deref_run, Hv).
    rewrite Hvo. cbv zeta.
    rewrite (bindM_run _ _ s tt s1) by reflexivity.
    rewrite (bindM_run _ _ s1 1 s1) by reflexivity.
    rewrite (bindM_run _ _ s1 tt s2).
    - reflexivity.
    - unfold or_inlineArgs.
      rewrite (update_op_run x _ s1 i0 o0 Hi Ho). reflexivity. }
  rewrite (bindM_run _ _ s 0 s2) by (rewrite (bindM_run _ _ _ _ _ Harg); reflexivity).
  set (i2 := set_op (Some (set_complexity 0 (set_inlineArgs (Z.lor (inlineArgs o0) 1) o0))) i0).
  set (s3 := {| d_ops := <[x := i2]> (d_ops s); vars := vars s;
                funcops := erase_item (funcops s) v |}).
  assert (Hi1 : d_ops s2 !! x = Some i1) by (apply list_lookup_insert_eq, Hlt).
  rewrite (bindM_run _ _ s2 tt s3).
  2:{ rewrite (update_op_run x _ s2 i1 _ Hi1 eq_refl). unfold s3. simpl.
      rewrite list_insert_insert_eq. reflexivity. }
  assert (Hi2 : d_ops s3 !! x = Some i2) by (apply list_lookup_insert_eq, Hlt).
  rewrite (bindM_run _ _ s3 i2 s3) by (apply reading_run, deref_run, Hi2).
  rewrite (bindM_run _ _ s3 _ s3) by (apply reading_run, (deref_op_run _ _ _ _ Hi2 eq_refl)).
  change (opcode i2) with (opcode i0). rewrite Hld. reflexivity.
Qed.

(** *** What a step leaves in the emit list *)

(** [c] adds nothing to the emit list. *)
Definition shrinks {A} (c : M DState A) : Prop :=
  forall s a s', c s = Ok (a, s') -> forall p, p ∈ funcops s' -> p ∈ funcops s.

Lemma shrinks_ret {A} (a : A) : shrinks (ret a).
Proof. intros s a' s' H. apply ret_Ok in H as [_ ->]. auto. Qed.

Lemma shrinks_fail {A} e : shrinks (@fail DState A e).
Proof. intros s a s' H. discriminate. Qed.

Lemma shrinks_bind {A B} (c : M DState A) (k : A -> M DState B) :
  shrinks c -> (forall a, shrinks (k a)) -> shrinks (bindM c k).
Proof.
  intros Hc Hk s b s' H. apply bindM_Ok in H as (a & s1 & H1 & H2).
  intros p Hp. eapply Hc; [exact H1|]. eapply Hk; [exact H2|exact Hp].
Qed.

Lemma shrinks_get : shrinks get.
Proof. intros s a s' H. apply get_Ok in H as [_ ->]. auto. Qed.

Lemma shrinks_lift_opt {A} e (x : option A) : shrinks (lift_opt e x).
Proof. destruct x; [apply shrinks_ret|apply shrinks_fail]. Qed.

Lemma shrinks_reading {A} (f : list SPVInstruction -> result A) : shrinks (reading f).
Proof. intros s a s' H. apply reading_Ok in H as [_ ->]. auto. Qed.

Lemma shrinks_erase x : shrinks (on_funcops (fun l => erase_item l x)).
Proof.
  intros s a s' H. apply modify_Ok in H as ->. simpl. intros p.
  apply elem_of_erase_item.
Qed.

Lemma shrinks_on_vars f : shrinks (on_vars f).
Proof. intros s a s' H. apply modify_Ok in H as ->. auto. Qed.

Lemma shrinks_update_op p f : shrinks (update_op p f).
Proof. intros s a s' H. apply update_op_Ok in H as (i & o & _ & _ & ->). auto. Qed.

Lemma shrinks_foldM {A B} (xs : list A) (b : B) (body : B -> A -> M DState B) :
  (forall b x, shrinks (body b x)) -> shrinks (foldM xs b body).
Proof.
  intros Hb. revert b. induction xs as [|x xs IH]; intros b; simpl.
  - apply shrinks_ret.
  - apply shrinks_bind; auto.
Qed.

Ltac shrinks_step :=
  lazymatch goal with
  | |- shrinks (ret _) => apply shrinks_ret
  | |- shrinks (fail _) => apply shrinks_fail
  | |- shrinks get => apply shrinks_get
  | |- shrinks (lift_opt _ _) => apply shrinks_lift_opt
  | |- shrinks (reading _) => apply shrinks_reading
  | |- shrinks (is_unmodified _ _ _) => apply shrinks_reading
  | |- shrinks (on_funcops (fun l => erase_item l _)) => apply shrinks_erase
  | |- shrinks (on_vars _) => apply shrinks_on_vars
  | |- shrinks (update_op _ _) => apply shrinks_update_op
  | |- shrinks (or_inlineArgs _ _) => apply shrinks_update_op
  | |- shrinks (store_argument _ _ _) => unfold store_argument
  | |- shrinks (foldM _ _ _) => apply shrinks_foldM; intros ? ?
  | |- shrinks (bindM _ _) => apply shrinks_bind; [|intros ?]
  | |- shrinks (if ?b then _ else _) => destruct b
  | |- shrinks (match ?x with _ => _ end) => destruct x
  | |- shrinks (let _ := _ in _) => cbv zeta
  end.

Lemma shrinks_inline_args func instr : shrinks (inline_args func instr).
Proof. unfold inline_args, inline_arg. repeat shrinks_step. Qed.

Lemma shrinks_merge_single_store func instr : shrinks (merge_single_store func instr).
Proof. unfold merge_single_store. repeat shrinks_step. Qed.

Lemma shrinks_merge_adjacent_store instr : shrinks (merge_adjacent_store instr).
Proof. unfold merge_adjacent_store. repeat shrinks_step. Qed.

(** The body of the loop at an instruction that is no call: the emit
    list grows by [instr] at most, and nothing is to be ignored. *)
Lemma inline_instruction_emits fn bi k x s ign' s' i :
  d_ops s !! x = Some i -> Op_eqb (opcode i) OpFunctionCall = false ->
  inline_instruction fn bi [] k x s = Ok (ign', s') ->
  ign' = [] /\ forall p, p ∈ funcops s' -> p ∈ funcops s \/ p = x.
Proof.
  intros Hi Hcall H. unfold inline_instruction in H. simpl existsb in H. cbv iota in H.
  apply bindM_Ok in H as (u & sp & Hpush & H). apply modify_Ok in Hpush. subst sp.
  apply bindM_Ok in H as (i' & t & Hi' & H). apply reading_Ok in Hi' as [Hi' ->].
  apply deref_Ok in Hi'. simpl in Hi'. rewrite Hi in Hi'. inversion Hi'; subst i'.
  assert (Hpush : forall p, p ∈ funcops s ++ [x] -> p ∈ funcops s \/ p = x).
  { intros p Hp. apply elem_of_app in Hp as [Hp|Hp]; [auto|].
    apply list_elem_of_singleton in Hp. auto. }
  destruct (op i) as [o|]; [|apply ret_Ok in H as [-> ->]; split; [reflexivity|exact Hpush]].
  apply bindM_Ok in H as (u1 & sb & Hargs & H).
  apply bindM_Ok in H as (u2 & sm & Hsingle & H).
  apply bindM_Ok in H as (u3 & sn & Hadj & H).
  pose proof (touches_inline_args [x] fn x ltac:(left) _ _ _ Hargs) as Tb.
  destruct (touched_cell _ _ _ _ _ Tb Hi) as (ib & Hib & Hopb).
  pose proof (touches_merge_single_store [x] fn x ltac:(left) _ _ _ Hsingle) as Tm.
  destruct (touched_cell _ _ _ _ _ Tm Hib) as (im & Him & Hopm).
  pose proof (touches_merge_adjacent_store [x] x ltac:(left) _ _ _ Hadj) as Tn.
  destruct (touched_cell _ _ _ _ _ Tn Him) as (i_n & Hin & Hopn).
  rewrite (inline_call_skip _ _ _ _ _ _ Hin) in H by (rewrite Hopn, Hopm, Hopb; exact Hcall).
  inversion H; subst ign' s'. split; [reflexivity|].
  intros p Hp. apply Hpush.
  apply (shrinks_inline_args _ _ _ _ _ Hargs).
  apply (shrinks_merge_single_store _ _ _ _ _ Hsingle).
  apply (shrinks_merge_adjacent_store _ _ _ _ Hadj). exact Hp.
Qed.

Lemma other_load_in_false A x l :
  other_load_in A x l = Ok false ->
  forall q, q ∈ l -> q <> x -> is_load A q = true ->
  exists vq vx, argument A q 0 = Ok vq /\ argument A x 0 = Ok vx /\ vq <> vx.
Proof.
  induction l as [|y l IH]; intros H q Hq Hne Hld; [apply elem_of_nil in Hq; contradiction|].
  simpl in H. apply rbind_Ok in H as (oi & Hoi & H). apply deref_Ok in Hoi.
  apply rbind_Ok in H as (hit & Hhit & H). destruct hit; [discriminate|].
  apply elem_of_cons in Hq as [->|Hq]; [|apply IH; assumption].
  unfold is_load in Hld. rewrite Hoi in Hld. rewrite Hld in Hhit.
  destruct (Nat.eqb_spec y x); [contradiction|]. simpl in Hhit.
  apply rbind_Ok in Hhit as (vq & Hvq & Hhit). apply rbind_Ok in Hhit as (vx & Hvx & Hhit).
  inversion Hhit as [E]. exists vq, vx. split; [exact Hvq|]. split; [exact Hvx|].
  intros ->. rewrite Nat.eqb_refl in E. discriminate.
Qed.

Lemma other_load_false A x blks : forall b l,
  other_load A x blks b = Ok false -> linear_order A blks = Some l ->
  b = false /\
  forall q, q ∈ l -> q <> x -> is_load A q = true ->
  exists vq vx, argument A q 0 = Ok vq /\ argument A x 0 = Ok vx /\ vq <> vx.
Proof.
  induction blks as [|blk blks IH]; intros b l H Hl.
  - simpl in H, Hl. inversion H; subst b. inversion Hl; subst l. split; [reflexivity|].
    intros q Hq. apply elem_of_nil in Hq. contradiction.
  - apply linear_order_cons in Hl as (bi & bk & l' & Hbi & Hbk & Hl' & ->).
    simpl in H. unfold deref in H. rewrite Hbi in H. simpl in H. rewrite Hbk in H. simpl in H.
    apply rbind_Ok in H as (found & Hfound & H).
    destruct (IH _ _ H Hl') as [Hb Hrest].
    apply orb_false_iff in Hb as [-> ->]. split; [reflexivity|].
    intros q Hq Hne Hld. apply elem_of_app in Hq as [Hq|Hq].
    + eapply other_load_in_false; eassumption.
    + apply Hrest; assumption.
Qed.

Lemma touched_length l A A' : touched_in l A A' -> length A' = length A.
Proof.
  intros H.
  destruct (Nat.lt_trichotomy (length A') (length A)) as [Hlt|[Heq|Hgt]]; [|exact Heq|].
  - destruct (H (length A')) as [_ E].
    rewrite (lookup_ge_None_2 A' (length A')) in E by lia.
    destruct (lookup_lt_is_Some_2 A (length A') Hlt) as [i Hi]. rewrite Hi in E. discriminate.
  - destruct (H (length A)) as [_ E].
    rewrite (lookup_ge_None_2 A (length A)) in E by lia.
    destruct (lookup_lt_is_Some_2 A' (length A) Hgt) as [i Hi]. rewrite Hi in E. discriminate.
Qed.

(** What [plain_at] says. *)
Lemma plain_at_spec ops emitted x i :
  plain_at ops emitted x = true -> ops !! x = Some i ->
  Op_eqb (opcode i) OpCompositeInsert = false /\
  Op_eqb (opcode i) OpFunctionCall = false /\
  (forall a, a ∈ operands ops x -> is_store ops a = false) /\
  (opcode i = OpLoad -> forall v rest, operands ops x = v :: rest ->
     no_store_to ops v = true \/
     (no_operation ops v = true /\ (v ∉ emitted) /\ rest = [])).
Proof.
  unfold plain_at. intros H Hi. rewrite Hi in H.
  apply andb_true_iff in H as [H H4]. apply andb_true_iff in H as [H H3].
  apply andb_true_iff in H as [H1 H2]. apply negb_true_iff in H1, H2.
  split; [exact H1|]. split; [exact H2|]. split.
  - intros a Ha. rewrite forallb_forall in H3. apply negb_true_iff. apply H3. apply list_elem_of_In. exact Ha.
  - intros Hld v rest Hops. rewrite Hld, Hops in H4. simpl in H4.
    apply orb_true_iff in H4 as [H4|H4]; [auto|]. right.
    apply andb_true_iff in H4 as [H4 H6]. apply andb_true_iff in H4 as [H4 H5].
    split; [exact H4|]. split.
    + intros Hin. apply negb_true_iff in H5.
      assert (existsb (Nat.eqb v) emitted = true); [|congruence].
      apply existsb_exists. exists v. split; [apply list_elem_of_In, Hin|apply Nat.eqb_refl].
    + destruct rest; [reflexivity|discriminate].
Qed.

Section FirstRun.

(** [ops0] is the arena before the run, [order] the instructions of the
    function in the order of its blocks. *)
Variables (ops0 : list SPVInstruction) (fn : SPVFunction) (order emitted : list nat).
Hypothesis Horder : linear_order ops0 (blocks fn) = Some order.
Hypothesis Hplain : forall x, x ∈ order -> plain_at ops0 emitted x = true.

(** No other load of the function reads [v]. *)
Definition twinless (p v : nat) : Prop :=
  forall q, q ∈ order -> q <> p -> is_load ops0 q = true ->
    head (operands ops0 q) <> Some v.

(** In the arena [A], the load at [p] has taken in a store. *)
Definition elided (A : list SPVInstruction) (p : nat) : Prop :=
  exists i0 o0 i o v st,
    ops0 !! p = Some i0 /\ op i0 = Some o0 /\ opcode i0 = OpLoad /\ arguments o0 = [v] /\
    A !! p = Some i /\ op i = Some o /\ arguments o = [st] /\
    set_op None i = set_op None i0 /\
    is_store ops0 st = true /\ twinless p v.

(** [A] is [ops0] but for annotations and loads that have taken a store
    in. *)
Definition elides (A : list SPVInstruction) : Prop :=
  length A = length ops0 /\ forall p, tight ops0 A p \/ elided A p.

Lemma elides_refl : elides ops0.
Proof. split; [reflexivity|]. intros p. left. reflexivity. Qed.

Lemma elides_alike A : elides A -> alike ops0 A.
Proof.
  intros [Hl H]. split; [symmetry; exact Hl|]. intros p i0 i Hi0 Hi.
  destruct (H p) as [Ht|(j0 & o0 & j & o & v & st & E0 & Ho0 & Hld & _ & E & Ho & _ & Hsh & _)].
  - apply skeleton_alike_cell. unfold tight in Ht. rewrite Hi0, Hi in Ht.
    apply (inj Some) in Ht. exact Ht.
  - rewrite Hi0 in E0. inversion E0; subst j0. rewrite Hi in E. inversion E; subst j.
    split; [symmetry; exact Hsh|]. rewrite Ho0, Ho. left. exact Hld.
Qed.

Lemma elides_touched A A' x :
  elides A -> touched_in [x] A A' -> tight ops0 A' x \/ elided A' x -> elides A'.
Proof.
  intros [Hl H] T Hx. split; [rewrite (touched_length _ _ _ T); exact Hl|].
  intros p. destruct (decide (p = x)) as [->|Hne]; [exact Hx|].
  destruct (T p) as [E _]. specialize (E ltac:(intros Hin; apply list_elem_of_singleton in Hin; contradiction)).
  destruct (H p) as [Ht|(j0 & o0 & j & o & v & st & E0 & Ho0 & Hld & Ha0 & Ej & Ho & Ha & Hsh & Hst & Htw)].
  - left. unfold tight in *. rewrite E. exact Ht.
  - right. exists j0, o0, j, o, v, st. rewrite E. repeat split; assumption.
Qed.

Lemma is_load_alike A B p : alike A B -> is_load A p = is_load B p.
Proof.
  intros H. unfold is_load. destruct (A !! p) as [i|] eqn:Hi.
  - destruct (alike_Some _ _ _ _ H Hi) as (j & Hj & Hij). rewrite Hj.
    rewrite (alike_cell_opcode _ _ Hij). reflexivity.
  - rewrite (alike_None _ _ _ H Hi). reflexivity.
Qed.

Lemma is_store_alike A B p : alike A B -> is_store A p = is_store B p.
Proof.
  intros H. unfold is_store. destruct (A !! p) as [i|] eqn:Hi.
  - destruct (alike_Some _ _ _ _ H Hi) as (j & Hj & Hij). rewrite Hj.
    rewrite (alike_cell_opcode _ _ Hij). reflexivity.
  - rewrite (alike_None _ _ _ H Hi). reflexivity.
Qed.

Lemma is_operation_alike A B p : alike A B -> is_operation A p = is_operation B p.
Proof.
  intros H. unfold is_operation. destruct (A !! p) as [i|] eqn:Hi.
  - destruct (alike_Some _ _ _ _ H Hi) as (j & Hj & [_ Hij]). rewrite Hj.
    destruct (op i), (op j); try contradiction; reflexivity.
  - rewrite (alike_None _ _ _ H Hi). reflexivity.
Qed.

(** A store has the same destination in alike arenas. *)
Lemma store_argument_alike A B p k :
  alike A B -> is_store A p = true -> argument A p k = argument B p k.
Proof.
  intros H Hst. unfold is_store in Hst. destruct (A !! p) as [i|] eqn:Hi; [|discriminate].
  apply Op_eqb_eq in Hst. apply argument_tight.
  eapply alike_tight; [exact H|exact Hi|]. rewrite Hst. discriminate.
Qed.

Lemma argument_head ops p v :
  argument ops p 0 = Ok v -> head (operands ops p) = Some v.
Proof.
  intros H. apply argument_Ok in H as (i & o & Hi & Ho & Hv). unfold operands.
  rewrite Hi, Ho. destruct (arguments o); [discriminate|]. simpl in *. congruence.
Qed.

(** The body of the loop at an instruction [x] that the run has not been
    at: what it leaves is again [ops0] but for annotations and elided
    loads. *)
Lemma visit_elides bi k x s ign' s' :
  x ∈ order -> elides (d_ops s) -> d_ops s !! x = ops0 !! x ->
  inline_instruction fn bi [] k x s = Ok (ign', s') ->
  ign' = [] /\ elides (d_ops s') /\
  (forall p, p ∈ funcops s' -> p ∈ funcops s \/ p = x).
Proof.
  intros Hx Hel Hcell H.
  pose proof (elides_alike _ Hel) as Hal.
  pose proof (touches_inline_instruction [x] fn bi [] k x ltac:(left) _ _ _ H) as T.
  pose proof H as H0. unfold inline_instruction in H. simpl existsb in H. cbv iota in H.
  apply bindM_Ok in H as (u & sp & Hpush & H). apply modify_Ok in Hpush. subst sp.
  apply bindM_Ok in H as (i & t & Hi & H). apply reading_Ok in Hi as [Hi ->].
  apply deref_Ok in Hi. simpl in Hi.
  assert (Hi0 : ops0 !! x = Some i) by (rewrite <- Hcell; exact Hi).
  destruct (plain_at_spec _ _ _ _ (Hplain x Hx) Hi0) as (HnoCI & HnoCall & Hnost & Hload).
  destruct (inline_instruction_emits _ _ _ _ _ _ _ _ Hi HnoCall H0) as [-> Hemit].
  split; [reflexivity|]. split; [|exact Hemit].
  apply (elides_touched _ _ x Hel T).
  destruct (op i) as [o|] eqn:Ho.
  2:{ apply ret_Ok in H as [_ ->]. simpl. left. unfold tight. rewrite Hcell. reflexivity. }
  apply bindM_Ok in H as (u1 & sb & Hargs & H).
  apply bindM_Ok in H as (u2 & sm & Hsingle & H).
  apply bindM_Ok in H as (u3 & sn & Hadj & H).
  pose proof (skeleton_inline_args _ _ _ _ _ Hargs) as Kb. simpl in Kb.
  destruct (same_skeleton_Some _ _ _ _ Kb Hi) as (ib & Hib & Eb).
  pose proof (touches_inline_args [x] fn x ltac:(left) _ _ _ Hargs) as Tb. simpl in Tb.
  destruct (merge_single_store_cases _ _ _ _ _ _ Hsingle Hib)
    as [->|(Hld & st & io & po & src & Hcount & Hunm & Hother & Hio & Hpo & Hsrc & ->)].
  - (* nothing merged *)
    pose proof (skeleton_merge_adjacent_store _ _ _ _ Hadj) as Kn.
    destruct (same_skeleton_Some _ _ _ _ Kn Hib) as (i_n & Hin & En).
    rewrite (inline_call_skip _ _ _ _ _ _ Hin) in H
      by (rewrite <- (skeleton_opcode _ _ En), <- (skeleton_opcode _ _ Eb); exact HnoCall).
    inversion H; subst s'. left. unfold tight. rewrite Hin, Hi0. simpl. f_equal. congruence.
  - (* the load takes the store in *)
    set (im := set_op (Some (set_arguments (<[0%nat := st]> (arguments io))
                 (set_complexity (RDCMAX (complexity io) (complexity po)) io))) ib) in *.
    assert (Hlt : (x < length (d_ops sb))%nat) by (eapply lookup_lt_Some, Hib).
    assert (Him : <[x := im]> (d_ops sb) !! x = Some im) by (apply list_lookup_insert_eq, Hlt).
    rewrite (merge_adjacent_store_skip x _ im) in Hadj;
      [|exact Him|simpl; rewrite Hld; reflexivity|simpl; rewrite Hld; reflexivity].
    inversion Hadj; subst sn. clear Hadj.
    rewrite (inline_call_skip bi k x [] _ im) in H;
      [|exact Him|simpl; rewrite Hld; reflexivity].
    inversion H; subst s'. clear H. simpl.
    assert (Hopi : opcode i = OpLoad) by (rewrite (skeleton_opcode _ _ Eb); exact Hld).
    destruct (skeleton_op_Some _ _ _ Eb Ho) as (io' & Hio' & Est).
    rewrite Hio in Hio'. inversion Hio'; subst io'.
    pose proof (strip_arguments _ _ Est) as Eargs.
    assert (Halb : alike ops0 (d_ops sb)).
    { etransitivity; [exact Hal|]. apply same_skeleton_alike, Kb. }
    destruct (count_stores_found _ _ _ _ _ _ _ Hcount)
      as [[E _]|(st' & d & E & Hin & Hst & Hd & Hxd)]; [discriminate|].
    inversion E; subst st'. clear E.
    assert (Hdv : d = src).
    { apply argument_Ok in Hxd as (j & oj & Hj & Hoj & Hv). rewrite Hib in Hj.
      inversion Hj; subst j. rewrite Hio in Hoj. inversion Hoj; subst oj. congruence. }
    subst d.
    assert (Hst0 : is_store ops0 st = true) by (rewrite (is_store_alike _ _ st Halb); exact Hst).
    destruct (arguments o) as [|v rest] eqn:Hao; [rewrite <- Eargs in Hsrc; discriminate|].
    assert (v = src) as -> by (rewrite <- Eargs in Hsrc; simpl in Hsrc; congruence).
    assert (Hops0 : operands ops0 x = src :: rest).
    { unfold operands. rewrite Hi0, Ho. exact Hao. }
    destruct (Hload Hopi _ _ Hops0) as [Hno|(Hnop & Hnem & ->)].
    { exfalso. pose proof (no_store_to_spec _ _ st Hno) as Hf.
      unfold stores_to in Hf. unfold is_store in Hst0.
      destruct (ops0 !! st) as [sti|] eqn:Hsti; [|discriminate]. rewrite Hst0 in Hf.
      rewrite <- (store_argument_alike ops0 (d_ops sb) st 0 Halb) in Hd
        by (unfold is_store; rewrite Hsti; exact Hst0).
      apply argument_Ok in Hd as (j & oj & Hj & Hoj & Hv). rewrite Hsti in Hj.
      inversion Hj; subst j. rewrite Hoj, Hv in Hf. simpl in Hf.
      rewrite Nat.eqb_refl in Hf. discriminate. }
    right. exists i, o, im, (set_arguments (<[0%nat := st]> (arguments io))
                 (set_complexity (RDCMAX (complexity io) (complexity po)) io)), src, st.
    split; [exact Hi0|]. split; [exact Ho|]. split; [exact Hopi|]. split; [exact Hao|].
    split; [exact Him|]. split; [reflexivity|]. split.
    { simpl. rewrite <- Eargs. reflexivity. }
    split.
    { unfold im. destruct i, ib. unfold skeleton in Eb. simpl in *. inversion Eb. reflexivity. }
    split; [exact Hst0|].
    (* no other load reads [src] *)
    assert (Hlo : linear_order (d_ops sb) (blocks fn) = Some order).
    { rewrite <- (linear_order_alike _ _ _ Halb). exact Horder. }
    destruct (other_load_false _ _ _ _ _ Hother Hlo) as [_ Hoth].
    intros q Hq Hne Hldq.
    destruct (Hoth q Hq Hne) as (vq & vx & Hvq & Hvx & Hdiff).
    { rewrite <- (is_load_alike _ _ q Halb). exact Hldq. }
    assert (vx = src) as ->.
    { apply argument_Ok in Hvx as (j & oj & Hj & Hoj & Hv). rewrite Hib in Hj.
      inversion Hj; subst j. rewrite Hio in Hoj. inversion Hoj; subst oj. congruence. }
    assert (Hq_cell : d_ops sb !! q = d_ops s !! q).
    { destruct (Tb q) as [E _]. apply E. intros Hin'.
      apply list_elem_of_singleton in Hin'. contradiction. }
    destruct Hel as [_ Hel]. destruct (Hel q) as [Ht|(j0 & o0 & j & oj & v & stq & E0 & Ho0 & Hld0 & Ha0 & Ej & Hoj & Haj & _ & _ & Htw)].
    + rewrite (operands_tight _ _ _ Ht).
      assert (Hh : head (operands (d_ops sb) q) = Some vq) by (apply argument_head, Hvq).
      unfold operands in Hh |- *. rewrite Hq_cell in Hh. rewrite Hh. congruence.
    + unfold operands at 1. rewrite E0, Ho0, Ha0. simpl. intros [= ->].
      apply (Htw x Hx ltac:(congruence)).
      * unfold is_load. rewrite Hi0, Hopi. reflexivity.
      * rewrite Hops0. reflexivity.
Qed.

End FirstRun.

Lemma touched_nil A A' : touched_in [] A A' -> A' = A.
Proof.
  intros H. apply list_eq. intros p. destruct (H p) as [E _]. apply E, not_elem_of_nil.
Qed.

Section FirstRunLoops.

Variables (ops0 : list SPVInstruction) (fn : SPVFunction) (order emitted : list nat).
Hypothesis Horder : linear_order ops0 (blocks fn) = Some order.
Hypothesis Hplain : forall x, x ∈ order -> plain_at ops0 emitted x = true.

Lemma instructions_elides bi rest : forall seen k s u s',
  defined_before_use ops0 seen rest = true ->
  (forall p, p ∈ rest -> p ∈ order) ->
  elides ops0 order (d_ops s) ->
  (forall p, p ∈ rest -> d_ops s !! p = ops0 !! p) ->
  inline_instructions fn bi [] k rest s = Ok (u, s') ->
  elides ops0 order (d_ops s').
Proof.
  induction rest as [|x rest IH]; intros seen k s u s' Hdbu Hsub Hel Hcells H.
  - simpl in H. apply ret_Ok in H as [_ ->]. exact Hel.
  - simpl in H. apply bindM_Ok in H as (ign' & sa & Hstep & Hrest).
    apply defined_before_use_cons in Hdbu as (Hnew & _ & Hdbu).
    destruct (visit_elides ops0 fn order emitted Horder Hplain bi k x s ign' sa)
      as (-> & Hela & _); [apply Hsub; left|exact Hel|apply Hcells; left|exact Hstep|].
    apply (IH (x :: seen) (S k) sa u s' Hdbu); [|exact Hela| |exact Hrest].
    + intros p Hp. apply Hsub. right. exact Hp.
    + intros p Hp.
      pose proof (touches_inline_instruction [x] fn bi [] k x ltac:(left) _ _ _ Hstep) as T.
      destruct (T p) as [E _]. rewrite E; [apply Hcells; right; exact Hp|].
      intros Hin. apply list_elem_of_singleton in Hin. subst p.
      apply (defined_before_use_fresh _ _ _ _ Hdbu Hp). left.
Qed.

Lemma block_elides ids seen b blockInst bi0 blk s u s' :
  ops0 !! blockInst = Some bi0 -> block bi0 = Some blk ->
  defined_before_use ops0 seen (instructions blk) = true ->
  (forall p, p ∈ instructions blk -> p ∈ order) ->
  elides ops0 order (d_ops s) ->
  (forall p, p ∈ instructions blk -> d_ops s !! p = ops0 !! p) ->
  inline_block ids fn b blockInst s = Ok (u, s') ->
  elides ops0 order (d_ops s').
Proof.
  intros Hbi0 Hblk Hdbu Hsub Hel Hcells H. unfold inline_block in H.
  apply bindM_Ok in H as (bi1 & t & H1 & H). apply reading_Ok in H1 as [H1 ->].
  apply deref_Ok in H1.
  destruct (alike_Some _ _ _ _ (elides_alike _ _ _ Hel) Hbi0) as (j & Hj & Hij).
  rewrite H1 in Hj. inversion Hj; subst j.
  apply bindM_Ok in H as (blk' & t & H2 & H). apply lift_opt_Ok in H2 as [H2 ->].
  rewrite <- (alike_cell_block _ _ Hij), Hblk in H2. inversion H2; subst blk'.
  apply bindM_Ok in H as (u1 & sp & Hpush & H).
  assert (Hsp : d_ops sp = d_ops s).
  { destruct (0 <? b)%nat.
    - apply modify_Ok in Hpush as ->. reflexivity.
    - apply ret_Ok in Hpush as [_ ->]. reflexivity. }
  apply bindM_Ok in H as (u2 & si & Hinstrs & Hend).
  pose proof (touches_inline_block_end [] ids blk _ _ _ Hend) as T.
  rewrite (touched_nil _ _ T).
  apply (instructions_elides (instructions blk) (instructions blk) seen 0%nat sp u2 si
           Hdbu Hsub); [rewrite Hsp; exact Hel|rewrite Hsp; exact Hcells|exact Hinstrs].
Qed.

Lemma blocks_elides ids rest : forall l seen b s u s',
  linear_order ops0 rest = Some l ->
  defined_before_use ops0 seen l = true ->
  (forall p, p ∈ l -> p ∈ order) ->
  elides ops0 order (d_ops s) ->
  (forall p, p ∈ l -> d_ops s !! p = ops0 !! p) ->
  inline_blocks ids fn b rest s = Ok (u, s') ->
  elides ops0 order (d_ops s').
Proof.
  induction rest as [|blockInst rest IH]; intros l seen b s u s' Hl Hdbu Hsub Hel Hcells H.
  - simpl in H. apply ret_Ok in H as [_ ->]. exact Hel.
  - apply linear_order_cons in Hl as (bi0 & blk & l' & Hbi0 & Hblk & Hl' & ->).
    pose proof Hdbu as Hdis.
    apply defined_before_use_app in Hdbu as [Hd1 Hd2].
    simpl in H. apply bindM_Ok in H as (u1 & sm & Hblock & Hrest).
    assert (Helm : elides ops0 order (d_ops sm)).
    { apply (block_elides ids seen b blockInst bi0 blk s u1 sm Hbi0 Hblk Hd1); auto.
      - intros p Hp. apply Hsub, elem_of_app. auto.
      - intros p Hp. apply Hcells, elem_of_app. auto. }
    apply (IH l' (rev (instructions blk) ++ seen) (S b) sm u s' Hl' Hd2);
      [|exact Helm| |exact Hrest].
    + intros p Hp. apply Hsub, elem_of_app. auto.
    + intros p Hp.
      assert (Hbs : d_ops s !! blockInst = Some bi0 \/ True) by auto.
      destruct (alike_Some _ _ _ _ (elides_alike _ _ _ Hel) Hbi0) as (j & Hj & Hij).
      pose proof (inline_block_touched _ _ _ _ _ _ _ j blk Hblock Hj
                    ltac:(rewrite <- (alike_cell_block _ _ Hij); exact Hblk)) as T.
      destruct (T p) as [E _]. rewrite E; [apply Hcells, elem_of_app; auto|].
      intros Hin. eapply defined_before_use_disjoint; eassumption.
Qed.

(** The arena that a run over the function leaves. *)
Lemma inline_function_elides ids s0 u d1 :
  d_ops s0 = ops0 ->
  defined_before_use ops0 [] order = true ->
  inline_function ids fn s0 = Ok (u, d1) ->
  elides ops0 order (d_ops d1).
Proof.
  intros Hs0 Hdbu H. unfold inline_function in H.
  apply bindM_Ok in H as (u1 & t1 & E1 & H). apply modify_Ok in E1. subst t1.
  apply bindM_Ok in H as (u2 & t2 & E2 & H). apply modify_Ok in E2. subst t2.
  simpl in H.
  eapply (blocks_elides ids (blocks fn) order []);
    [exact Horder|exact Hdbu|auto| | |exact H].
  - simpl. rewrite Hs0. apply elides_refl.
  - intros p _. simpl. rewrite Hs0. reflexivity.
Qed.

End FirstRunLoops.

(** *** Whether a load takes a store in *)

(** The decision of [merge_single_store]: the store that the load at
    [instr] takes in, if it does. *)
Definition merge_candidate (func : SPVFunction) (instr : nat) (l : list nat)
    (ops : list SPVInstruction) : result (option nat) :=
  i <~ deref ops instr ;;
  if Op_eqb (opcode i) OpLoad && (1 <? length l)%nat then
    r <~ count_stores ops instr l None 0 ;;
    match r with
    | (Some prevstore, 1) =>
        unmodified <~ IsUnmodified (S (length ops)) ops func prevstore instr ;;
        if unmodified then
          otherload <~ other_load ops instr (blocks func) false ;;
          if otherload then Ok None else Ok (Some prevstore)
        else Ok None
    | _ => Ok None
    end
  else Ok None.

Lemma reading_bind {A B} (f : list SPVInstruction -> result A) (k : A -> M DState B) s :
  bindM (reading f) k s =
  match f (d_ops s) with
  | Ok a => k a s
  | Fault e => Fault e
  end.
Proof. unfold bindM, reading. destruct (f (d_ops s)); reflexivity. Qed.

(** A load whose one argument is an operation that the loop folds. *)
Lemma inline_args_load_fold func x s i o a ai ao :
  d_ops s !! x = Some i -> opcode i = OpLoad -> op i = Some o -> arguments o = [a] ->
  d_ops s !! a = Some ai -> op ai = Some ao ->
  (complexity ao <? NO_INLINE_COMPLEXITY) = true ->
  (length (arguments ao) <=? 2)%nat = true ->
  IsUnmodified (S (length (d_ops s))) (d_ops s) func a x = Ok true ->
  inline_args func x s =
  Ok (tt, {| d_ops := <[x := set_op (Some (set_complexity (RDCMAX (complexity ao) 0)
                             (set_inlineArgs (Z.lor (inlineArgs o) 1) o))) i]> (d_ops s);
             vars := vars s;
             funcops := erase_item (funcops s) a |}).
Proof.
  intros Hi Hld Ho Hargs Ha Hao Hc Hn Hunm.
  assert (Hlt : (x < length (d_ops s))%nat) by (eapply lookup_lt_Some, Hi).
  unfold inline_args.
  rewrite (bindM_run _ _ s o s) by (apply reading_run, (deref_op_run _ _ _ _ Hi Ho)).
  rewrite Hargs. simpl seq. cbn [foldM].
  set (s1 := {| d_ops := d_ops s; vars := vars s; funcops := erase_item (funcops s) a |}).
  set (i1 := set_op (Some (set_inlineArgs (Z.lor (inlineArgs o) 1) o)) i).
  set (s2 := {| d_ops := <[x := i1]> (d_ops s); vars := vars s;
                funcops := erase_item (funcops s) a |}).
  assert (Harg : inline_arg func x 0 0 s = Ok (RDCMAX (complexity ao) 0, s2)).
  { unfold inline_arg.
    rewrite (bindM_run _ _ s i s) by (apply reading_run, deref_run, Hi).
    rewrite (bindM_run _ _ s a s)
      by (apply reading_run; eapply argument_run; [exact Hi|exact Ho|rewrite Hargs; reflexivity]).
    rewrite (bindM_run _ _ s ai s) by (apply reading_run, deref_run, Ha).
    rewrite Hao. cbv zeta. rewrite Hld.
    change (Op_eqb OpLoad OpCompositeConstruct) with false. cbv iota.
    change (Op_eqb OpLoad OpStore) with false.
    replace (complexity ao >=? NO_INLINE_COMPLEXITY) with false
      by (rewrite Z.geb_leb; symmetry; apply Z.leb_gt, Z.ltb_lt, Hc).
    replace (2 <? length (arguments ao))%nat with false
      by (symmetry; apply Nat.ltb_ge, Nat.leb_le, Hn).
    cbn [orb andb negb].
    rewrite (bindM_run _ _ s true s) by (unfold is_unmodified; apply reading_run, Hunm).
    cbn [negb].
    rewrite (bindM_run _ _ s tt s1) by reflexivity.
    rewrite (bindM_run _ _ s1 1 s1) by reflexivity.
    rewrite (bindM_run _ _ s1 tt s2).
    - reflexivity.
    - unfold or_inlineArgs.
      rewrite (update_op_run x _ s1 i o Hi Ho). reflexivity. }
  rewrite (bindM_run _ _ s _ s2) by (rewrite (bindM_run _ _ _ _ _ Harg); reflexivity).
  set (i2 := set_op (Some (set_complexity (RDCMAX (complexity ao) 0)
                 (set_inlineArgs (Z.lor (inlineArgs o) 1) o))) i).
  set (s3 := {| d_ops := <[x := i2]> (d_ops s); vars := vars s;
                funcops := erase_item (funcops s) a |}).
  assert (Hi1 : d_ops s2 !! x = Some i1) by (apply list_lookup_insert_eq, Hlt).
  rewrite (bindM_run _ _ s2 tt s3).
  2:{ rewrite (update_op_run x _ s2 i1 _ Hi1 eq_refl). unfold s3. simpl.
      rewrite list_insert_insert_eq. reflexivity. }
  assert (Hi2 : d_ops s3 !! x = Some i2) by (apply list_lookup_insert_eq, Hlt).
  rewrite (bindM_run _ _ s3 i2 s3) by (apply reading_run, deref_run, Hi2).
  rewrite (bindM_run _ _ s3 _ s3) by (apply reading_run, (deref_op_run _ _ _ _ Hi2 eq_refl)).
  change (opcode i2) with (opcode i). rewrite Hld. reflexivity.
Qed.

(** A count of one: the loop has looked at every instruction of the emit
    list. *)
Lemma count_stores_looked ops instr l : forall p c r n,
  count_stores ops instr l p c = Ok (r, n) -> n <= 1 ->
  forall q, q ∈ l ->
    exists qi, ops !! q = Some qi /\
      (opcode qi = OpStore -> exists d, argument ops q 0 = Ok d).
Proof.
  induction l as [|y l IH]; intros p c r n H Hn q Hq; [inversion Hq|].
  simpl in H. apply rbind_Ok in H as (yi & Hy & H). apply deref_Ok in Hy.
  apply rbind_Ok in H as (hit & Hhit & H).
  assert (Hyd : opcode yi = OpStore -> exists d, argument ops y 0 = Ok d).
  { intros E. rewrite E in Hhit. change (Op_eqb OpStore OpStore) with true in Hhit.
    cbv iota in Hhit. apply rbind_Ok in Hhit as (d & Hd & _). eauto. }
  assert (Hrest : forall q, q ∈ l -> exists qi, ops !! q = Some qi /\
                    (opcode qi = OpStore -> exists d, argument ops q 0 = Ok d)).
  { destruct hit.
    - destruct (c + 1 >? 1) eqn:E.
      + inversion H; subst. apply Z.gtb_lt in E. lia.
      + eapply IH; eassumption.
    - eapply IH; eassumption. }
  apply elem_of_cons in Hq as [->|Hq]; [eauto|auto].
Qed.

(** No store of the emit list writes to what [instr] reads. *)
Lemma count_stores_none ops instr l p c :
  (forall q, q ∈ l -> exists qi, ops !! q = Some qi /\
     (opcode qi = OpStore ->
      exists d s, argument ops q 0 = Ok d /\ argument ops instr 0 = Ok s /\ d <> s)) ->
  count_stores ops instr l p c = Ok (p, c).
Proof.
  induction l as [|y l IH]; intros H; [reflexivity|].
  simpl. destruct (H y ltac:(left)) as (yi & Hy & Hst).
  rewrite (deref_run _ _ _ Hy). unfold rbind at 1.
  destruct (Op_eqb (opcode yi) OpStore) eqn:E.
  - apply Op_eqb_eq in E. destruct (Hst E) as (d & s & Hd & Hs & Hne).
    rewrite Hd, Hs. unfold rbind.
    replace (d =? s)%nat with false by (symmetry; apply Nat.eqb_neq, Hne).
    apply IH. intros q Hq. apply H. right. exact Hq.
  - unfold rbind. apply IH. intros q Hq. apply H. right. exact Hq.
Qed.

Lemma RDCMAX_comm a b : RDCMAX a b = RDCMAX b a.
Proof.
  unfold RDCMAX. destruct (a >? b) eqn:E1, (b >? a) eqn:E2; try reflexivity.
  - apply Z.gtb_lt in E1, E2. lia.
  - rewrite Z.gtb_ltb in E1, E2. apply Z.ltb_ge in E1, E2. lia.
Qed.

(** What [merge_single_store] does once it has decided. *)
Definition elide_store (instr prevstore : nat) : M DState unit :=
  io <- reading (fun ops => deref_op ops instr) ;;
  po <- reading (fun ops => deref_op ops prevstore) ;;
  update_op instr (set_complexity (RDCMAX (complexity io) (complexity po))) ;;
  src <- reading (fun ops => argument ops instr 0) ;;
  on_vars (fun l => erase_item l src) ;;
  on_funcops (fun l => erase_item l prevstore) ;;
  store_argument instr 0 prevstore.

Lemma merge_single_store_candidate func instr s :
  merge_single_store func instr s =
  (c <- reading (merge_candidate func instr (funcops s)) ;;
   match c with
   | Some prevstore => elide_store instr prevstore
   | None => ret tt
   end) s.
Proof.
  unfold merge_single_store, elide_store. rewrite !reading_bind.
  unfold merge_candidate, rbind.
  destruct (deref (d_ops s) instr) as [i|e]; [|reflexivity].
  unfold bindM at 1. unfold get.
  destruct (Op_eqb (opcode i) OpLoad && (1 <? length (funcops s))%nat); [|reflexivity].
  rewrite reading_bind.
  destruct (count_stores (d_ops s) instr (funcops s) None 0) as [[[p|] n]|e];
    try reflexivity.
  destruct (Z.eq_dec n 1) as [->|Hn].
  2:{ destruct n as [|[]|]; try reflexivity. contradiction. }
  cbv beta iota. unfold is_unmodified. rewrite reading_bind.
  destruct (IsUnmodified (S (length (d_ops s))) (d_ops s) func p instr) as [[]|e];
    try reflexivity.
  rewrite reading_bind.
  destruct (other_load (d_ops s) instr (blocks func) false) as [[]|e]; reflexivity.
Qed.

Lemma merge_candidate_Some func instr l ops p :
  merge_candidate func instr l ops = Ok (Some p) ->
  exists i, ops !! instr = Some i /\ opcode i = OpLoad /\
    count_stores ops instr l None 0 = Ok (Some p, 1) /\
    IsUnmodified (S (length ops)) ops func p instr = Ok true /\
    other_load ops instr (blocks func) false = Ok false.
Proof.
  unfold merge_candidate. intros H.
  apply rbind_Ok in H as (i & Hi & H). apply deref_Ok in Hi.
  destruct (Op_eqb (opcode i) OpLoad) eqn:Hld; [|discriminate]. apply Op_eqb_eq in Hld.
  destruct (1 <? length l)%nat; [|discriminate]. unfold andb in H.
  apply rbind_Ok in H as ([[q|] n] & Hc & H); [|discriminate].
  destruct (Z.eq_dec n 1) as [->|Hn].
  2:{ exfalso. destruct n as [|[]|]; try discriminate. contradiction. }
  apply rbind_Ok in H as (unm & Hu & H). destruct unm; [|discriminate].
  apply rbind_Ok in H as (ol & Ho & H). destruct ol; [discriminate|].
  inversion H; subst q. exists i. auto.
Qed.

Lemma elide_store_Ok instr prevstore s u s' i :
  elide_store instr prevstore s = Ok (u, s') -> d_ops s !! instr = Some i ->
  exists io po src,
    op i = Some io /\ deref_op (d_ops s) prevstore = Ok po /\
    arguments io !! 0%nat = Some src /\
    s' = {| d_ops := <[instr := set_op (Some (set_arguments (<[0%nat := prevstore]> (arguments io))
                                   (set_complexity (RDCMAX (complexity io) (complexity po)) io))) i]>
                       (d_ops s);
            vars := erase_item (vars s) src;
            funcops := erase_item (funcops s) prevstore |}.
Proof.
  intros H Hi. unfold elide_store in H.
  apply bindM_Ok in H as (io & t & H6 & H). apply reading_Ok in H6 as [H6 ->].
  apply deref_op_Ok in H6 as (i6 & E6 & Hio). rewrite Hi in E6. inversion E6; subst i6.
  apply bindM_Ok in H as (po & t & H7 & H). apply reading_Ok in H7 as [H7 ->].
  apply bindM_Ok in H as (u8 & t8 & H8 & H).
  apply update_op_Ok in H8 as (i8 & o8 & E8 & Ho8 & ->).
  rewrite Hi in E8. inversion E8; subst i8. rewrite Hio in Ho8. inversion Ho8; subst o8.
  apply bindM_Ok in H as (src & t & H9 & H). apply reading_Ok in H9 as [H9 ->].
  apply argument_Ok in H9 as (i9 & o9 & E9 & Ho9 & Hsrc). simpl in E9.
  rewrite list_lookup_insert_eq in E9 by (eapply lookup_lt_Some, Hi).
  inversion E9; subst i9. simpl in Ho9. inversion Ho9; subst o9. simpl in Hsrc.
  apply bindM_Ok in H as (u10 & t10 & H10 & H). apply modify_Ok in H10. subst t10.
  apply bindM_Ok in H as (u11 & t11 & H11 & H). apply modify_Ok in H11. subst t11.
  unfold store_argument in H.
  apply bindM_Ok in H as (a12 & t12 & H12 & H). apply reading_Ok in H12 as [_ ->].
  apply update_op_Ok in H as (i13 & o13 & E13 & Ho13 & ->). simpl in *.
  rewrite list_lookup_insert_eq in E13 by (eapply lookup_lt_Some, Hi).
  inversion E13; subst i13. simpl in Ho13. inversion Ho13; subst o13. simpl.
  rewrite list_insert_insert_eq.
  exists io, po, src. repeat split; auto.
Qed.

Section SecondRun.

(** [ops0] is the arena before the first run and [F] the arena after
    it; [order] are the instructions of the function and [flows] its
    labels and flow instructions. *)
Variables (ops0 F : list SPVInstruction) (fn : SPVFunction) (order flows : list nat).
Hypothesis Hplain : forall x, x ∈ order -> plain_at ops0 (order ++ flows) x = true.
Hypothesis Hflows : forall p, p ∈ flows -> is_operation ops0 p = false.
Hypothesis HF : elides ops0 order F.
Hypothesis Hsmall : forall x, x ∈ order -> small_elision F x = true.

(** The two runs between two instructions, [seen] being those that both
    have been at: the second run has the arena [F]; the first has it
    where it has been. *)
Definition Inv (seen : list nat) (s1 s2 : DState) : Prop :=
  funcops s1 = funcops s2 /\ d_ops s2 = F /\ length (d_ops s1) = length F /\
  (forall p, p ∈ seen -> d_ops s1 !! p = F !! p) /\
  (forall p, p ∉ seen -> d_ops s1 !! p = ops0 !! p) /\
  (forall p, p ∈ funcops s1 -> p ∈ seen \/ p ∈ flows) /\
  (forall p a, p ∈ seen -> a ∈ operands F p -> is_operation F a = true -> a ∈ seen) /\
  (forall p, p ∈ seen -> p ∈ order).

(** What both runs have the same cell for: what they have been at, and
    what is no operation. *)
Definition fixed (seen : list nat) (p : nat) : Prop :=
  p ∈ seen \/ is_operation ops0 p = false.

Lemma alike_F : alike ops0 F.
Proof. apply (elides_alike _ _ _ HF). Qed.

Lemma no_operation_cell p : is_operation ops0 p = false -> F !! p = ops0 !! p.
Proof.
  intros H. unfold is_operation in H. destruct (ops0 !! p) as [i|] eqn:Hi.
  - destruct (alike_Some _ _ _ _ alike_F Hi) as (j & Hj & Hij). rewrite Hj. f_equal.
    symmetry. apply (alike_cell_None _ _ Hij). destruct (op i); [discriminate|reflexivity].
  - apply (alike_None _ _ _ alike_F Hi).
Qed.

Section AtInstruction.

(** The loop is at the operation [x] of [order], which the runs have not
    been at and which the first run leaves as it is but for the
    annotations.  [A0] is the arena of the first run when it comes to
    [x]; [z1] and [zf] are the bits of [x] in the first and in the second
    run then. *)
Variables (seen : list nat) (x : nat) (i0 : SPVInstruction) (A0 : list SPVInstruction).
Variables (z1 zf : Z).
Hypothesis Hx_new : x ∉ seen.
Hypothesis Hx_order : x ∈ order.
Hypothesis Hx0 : ops0 !! x = Some i0.
Hypothesis Hx_op : is_operation ops0 x = true.
Hypothesis Hops_seen :
  forall arg, arg ∈ operands ops0 x -> is_operation ops0 arg = true -> arg ∈ seen.
Hypothesis HA_seen : forall p, p ∈ seen -> A0 !! p = F !! p.
Hypothesis HA_unseen : forall p, p ∉ seen -> A0 !! p = ops0 !! p.
Hypothesis Hclosed :
  forall p a, p ∈ seen -> a ∈ operands F p -> is_operation F a = true -> a ∈ seen.

Local Abbreviation fixed := (fixed seen).

Definition Rel (c : bool) (s1 s2 : DState) : Prop :=
  funcops s1 = funcops s2 /\
  (forall p, p ∈ funcops s1 -> p ∈ seen \/ p = x \/ p ∈ flows) /\
  length (d_ops s1) = length F /\ length (d_ops s2) = length F /\
  (forall p, p <> x -> d_ops s1 !! p = A0 !! p) /\
  (forall p, p <> x -> d_ops s2 !! p = F !! p) /\
  (exists i1 i2, d_ops s1 !! x = Some i1 /\ d_ops s2 !! x = Some i2 /\
     skeleton i1 = skeleton i0 /\ skeleton i2 = skeleton i0) /\
  (exists D, bits_at (d_ops s1) x = Z.lor z1 D /\
             bits_at (d_ops s2) x = Z.lor zf D) /\
  (c = true -> complexity_at (d_ops s1) x = complexity_at (d_ops s2) x).

Lemma fixed_not_x p : fixed p -> p <> x.
Proof. intros [H|H] ->; [contradiction|congruence]. Qed.

Lemma Rel_alike c s1 s2 : Rel c s1 s2 -> alike (d_ops s1) (d_ops s2).
Proof.
  intros (_ & _ & L1 & L2 & H1 & H2 & (i1 & i2 & E1 & E2 & K1 & K2) & _).
  split; [congruence|]. intros p i j Hi Hj.
  destruct (decide (p = x)) as [->|Hne].
  - rewrite E1 in Hi. rewrite E2 in Hj. inversion Hi; inversion Hj; subst.
    apply skeleton_alike_cell. congruence.
  - rewrite (H1 p Hne) in Hi. rewrite (H2 p Hne) in Hj.
    destruct (decide (p ∈ seen)) as [Hs|Hs].
    + rewrite (HA_seen p Hs) in Hi. rewrite Hi in Hj. inversion Hj. apply alike_cell_refl.
    + rewrite (HA_unseen p Hs) in Hi. destruct alike_F as [_ H]. eapply H; eassumption.
Qed.

Lemma Rel_fixed c s1 s2 p : Rel c s1 s2 -> fixed p -> d_ops s1 !! p = d_ops s2 !! p.
Proof.
  intros HR Hk. pose proof (fixed_not_x _ Hk) as Hne.
  destruct HR as (_ & _ & _ & _ & H1 & H2 & _). rewrite (H1 p Hne), (H2 p Hne).
  destruct (decide (p ∈ seen)) as [Hs|Hs]; [apply HA_seen, Hs|].
  rewrite (HA_unseen p Hs). destruct Hk as [Hk|Hk]; [contradiction|].
  symmetry. apply no_operation_cell, Hk.
Qed.

Lemma Rel_tight_x c s1 s2 : Rel c s1 s2 -> tight (d_ops s1) (d_ops s2) x.
Proof.
  intros (_ & _ & _ & _ & _ & _ & (i1 & i2 & E1 & E2 & K1 & K2) & _).
  unfold tight. rewrite E1, E2. simpl. congruence.
Qed.

Lemma Rel_closed c s1 s2 p a :
  Rel c s1 s2 -> fixed p -> a ∈ operands (d_ops s1) p -> fixed a.
Proof.
  intros HR Hk Ha. pose proof (fixed_not_x _ Hk) as Hne.
  assert (Hcell : d_ops s1 !! p = F !! p).
  { rewrite (Rel_fixed _ _ _ _ HR Hk). destruct HR as (_ & _ & _ & _ & _ & H2 & _).
    apply H2, Hne. }
  assert (Hops : operands (d_ops s1) p = operands F p).
  { unfold operands. rewrite Hcell. reflexivity. }
  rewrite Hops in Ha.
  destruct (is_operation F a) eqn:Hop.
  - destruct Hk as [Hk|Hk].
    + left. eapply Hclosed; eassumption.
    + exfalso. rewrite (is_operation_alike _ _ p alike_F) in Hk.
      unfold operands in Ha. unfold is_operation in Hk.
      destruct (F !! p) as [j|]; [|apply elem_of_nil in Ha; contradiction].
      destruct (op j); [discriminate|apply elem_of_nil in Ha; contradiction].
  - right. rewrite (is_operation_alike _ _ a alike_F). exact Hop.
Qed.

Lemma operand_fixed arg : arg ∈ operands ops0 x -> fixed arg.
Proof.
  intros H. destruct (is_operation ops0 arg) eqn:Hop; [left|right; exact Hop].
  apply Hops_seen; assumption.
Qed.

Lemma Rel_operands c s1 s2 : Rel c s1 s2 -> operands (d_ops s1) x = operands ops0 x.
Proof.
  intros (_ & _ & _ & _ & _ & _ & (i1 & i2 & E1 & E2 & K1 & K2) & _).
  unfold operands. rewrite E1, Hx0. pose proof (skeleton_op _ _ K1) as E.
  destruct (op i1), (op i0); simpl in E; try discriminate; [|reflexivity].
  apply (inj Some) in E. apply strip_arguments, E.
Qed.

(** A load that the first run elides later reads something else than
    [x] does, before and after. *)
Lemma Rel_apart c s1 s2 y i :
  Rel c s1 s2 -> opcode i0 = OpLoad ->
  y <> x -> d_ops s1 !! y = Some i -> opcode i = OpLoad ->
  tight (d_ops s1) (d_ops s2) y \/ apart (d_ops s1) (d_ops s2) x y.
Proof.
  intros HR Hld Hne Hi Hldy.
  pose proof (Rel_operands _ _ _ HR) as Hopsx.
  destruct HR as (_ & _ & _ & _ & H1 & H2 & (i1 & i2 & E1 & E2 & K1 & K2) & _).
  destruct (decide (y ∈ seen)) as [Hs|Hs].
  { left. apply equal_tight. rewrite (H1 y Hne), (H2 y Hne). apply HA_seen, Hs. }
  destruct HF as [_ HF']. destruct (HF' y) as [Ht|(j0 & o0 & j & o & v & st & E0 & Ho0 & Hld0 & Ha0 & Ej & Ho & Ha & _ & Hst & Htw)].
  { left. unfold tight. rewrite (H1 y Hne), (H2 y Hne), (HA_unseen y Hs). exact Ht. }
  right. exists v, st.
  split.
  { eapply argument_run; [rewrite (H1 y Hne), (HA_unseen y Hs); exact E0|exact Ho0|].
    rewrite Ha0. reflexivity. }
  split.
  { eapply argument_run; [rewrite (H2 y Hne); exact Ej|exact Ho|]. rewrite Ha. reflexivity. }
  intros v' Hv'. apply argument_head in Hv'. rewrite Hopsx in Hv'. split.
  - intros ->. apply (Htw x Hx_order ltac:(congruence)); [|exact Hv'].
    unfold is_load. rewrite Hx0, Hld. reflexivity.
  - intros ->.
    destruct (plain_at_spec _ _ _ _ (Hplain x Hx_order) Hx0) as (_ & _ & Hnost & _).
    rewrite Hnost in Hst; [discriminate|].
    destruct (operands ops0 x); [discriminate|]. simpl in Hv'. inversion Hv'. left.
Qed.

(** *** The steps of the two runs at [x] *)

Lemma sim_deref c :
  sim (Rel c) (reading (fun ops => deref ops x)) (reading (fun ops => deref ops x))
    (fun i1 i2 s1 s2 => skeleton i1 = skeleton i0 /\ skeleton i2 = skeleton i0 /\ Rel c s1 s2).
Proof.
  apply sim_reading. intros s1 s2 i1 HR E. apply deref_Ok in E.
  pose proof HR as (_ & _ & _ & _ & _ & _ & (j1 & j2 & E1 & E2 & K1 & K2) & _).
  rewrite E1 in E. inversion E; subst j1.
  exists j2. unfold deref. rewrite E2. auto.
Qed.

Lemma sim_deref_op c :
  sim (Rel c) (reading (fun ops => deref_op ops x)) (reading (fun ops => deref_op ops x))
    (fun o1 o2 s1 s2 => strip o1 = strip o2 /\ Rel c s1 s2).
Proof.
  apply sim_reading. intros s1 s2 o1 HR E. apply deref_op_Ok in E as (i1 & E & Ho).
  pose proof HR as (_ & _ & _ & _ & _ & _ & (j1 & j2 & E1 & E2 & K1 & K2) & _).
  rewrite E1 in E. inversion E; subst j1.
  assert (K : skeleton i1 = skeleton j2) by congruence.
  destruct (skeleton_op_Some _ _ _ K Ho) as (o2 & Ho2 & Hst).
  exists o2. unfold deref_op, deref. rewrite E2. simpl. rewrite Ho2. auto.
Qed.

Lemma sim_argument c k :
  sim (Rel c) (reading (fun ops => argument ops x k)) (reading (fun ops => argument ops x k))
    (fun a1 a2 s1 s2 => a1 = a2 /\ a1 ∈ operands ops0 x /\ Rel c s1 s2).
Proof.
  apply sim_reading. intros s1 s2 a1 HR E. exists a1.
  rewrite <- (argument_tight _ _ x k (Rel_tight_x _ _ _ HR)).
  split; [exact E|]. split; [reflexivity|]. split; [|exact HR].
  rewrite <- (Rel_operands _ _ _ HR).
  apply argument_Ok in E as (i & o & Hi & Ho & Ha). unfold operands. rewrite Hi, Ho.
  eapply list_elem_of_lookup_2, Ha.
Qed.

Lemma sim_deref_fixed c p :
  fixed p ->
  sim (Rel c) (reading (fun ops => deref ops p)) (reading (fun ops => deref ops p))
    (same (Rel c)).
Proof.
  intros Hk. apply sim_reading. intros s1 s2 i1 HR E. exists i1.
  unfold deref in *. rewrite <- (Rel_fixed _ _ _ _ HR Hk).
  split; [exact E|]. split; [reflexivity|exact HR].
Qed.

Lemma Rel_IsUnmodified c s1 s2 func from to :
  Rel c s1 s2 -> fixed from ->
  IsUnmodified (S (length (d_ops s1))) (d_ops s1) func from to =
  IsUnmodified (S (length (d_ops s2))) (d_ops s2) func from to.
Proof.
  intros HR Hk.
  assert (Hlen : length (d_ops s1) = length (d_ops s2)) by (destruct (Rel_alike _ _ _ HR); auto).
  rewrite <- Hlen.
  apply (IsUnmodified_alike _ _ func to fixed (Rel_alike _ _ _ HR)).
  - intros p Hp. apply equal_tight, (Rel_fixed _ _ _ _ HR Hp).
  - intros p a Hp Ha. eapply Rel_closed; eassumption.
  - exact Hk.
Qed.

Lemma sim_is_unmodified c func from to :
  fixed from ->
  sim (Rel c) (is_unmodified func from to) (is_unmodified func from to) (same (Rel c)).
Proof.
  intros Hk. apply sim_reading. intros s1 s2 b HR E. exists b.
  rewrite <- (Rel_IsUnmodified _ _ _ func from to HR Hk).
  split; [exact E|]. split; [reflexivity|exact HR].
Qed.

Lemma sim_on_funcops c f :
  (forall l p, p ∈ f l -> p ∈ l) ->
  sim (Rel c) (on_funcops f) (on_funcops f) (same (Rel c)).
Proof.
  intros Hsub s1 s2 u s1' HR E. apply modify_Ok in E as ->.
  exists tt. eexists. split; [reflexivity|]. split; [destruct u; reflexivity|].
  destruct HR as (Hf & Hin & H). unfold Rel. simpl. rewrite Hf.
  split; [reflexivity|]. split; [|exact H].
  intros p Hp. apply Hin. rewrite Hf. apply Hsub, Hp.
Qed.

(** A write to the annotations of [x], the same on both sides. *)
Lemma sim_update_op c c' f :
  (forall o, strip (f o) = strip o) ->
  (forall o1 o2 D, inlineArgs o1 = Z.lor z1 D -> inlineArgs o2 = Z.lor zf D ->
     exists D', inlineArgs (f o1) = Z.lor z1 D' /\ inlineArgs (f o2) = Z.lor zf D') ->
  (forall o1 o2, (c = true -> complexity o1 = complexity o2) -> c' = true ->
     complexity (f o1) = complexity (f o2)) ->
  sim (Rel c) (update_op x f) (update_op x f) (same (Rel c')).
Proof.
  intros Hstrip Hbits Hcomp s1 s2 u s1' HR E.
  apply update_op_Ok in E as (i1 & o1 & Hi1 & Ho1 & ->).
  destruct HR as (Hf & Hin & L1 & L2 & H1 & H2 & (j1 & i2 & E1 & Hi2 & K1 & K2)
                  & (D & Hb1 & Hb2) & Hc).
  rewrite Hi1 in E1. inversion E1; subst j1.
  assert (K : skeleton i1 = skeleton i2) by congruence.
  destruct (skeleton_op_Some _ _ _ K Ho1) as (o2 & Ho2 & Hst).
  exists tt. eexists. split; [apply (update_op_run _ _ _ _ _ Hi2 Ho2)|].
  split; [destruct u; reflexivity|].
  assert (Hlt1 : (x < length (d_ops s1))%nat) by (eapply lookup_lt_Some; eassumption).
  assert (Hlt2 : (x < length (d_ops s2))%nat) by (eapply lookup_lt_Some; eassumption).
  unfold Rel. simpl. rewrite !length_insert.
  split; [exact Hf|]. split; [exact Hin|]. split; [exact L1|]. split; [exact L2|].
  split; [intros p Hp; rewrite list_lookup_insert_ne by congruence; apply H1, Hp|].
  split; [intros p Hp; rewrite list_lookup_insert_ne by congruence; apply H2, Hp|].
  split; [|split].
  - exists (set_op (Some (f o1)) i1), (set_op (Some (f o2)) i2).
    rewrite !list_lookup_insert_eq by assumption.
    split; [reflexivity|]. split; [reflexivity|].
    rewrite !skeleton_set_op by auto. auto.
  - unfold bits_at in *. rewrite Hi1, Ho1 in Hb1. rewrite Hi2, Ho2 in Hb2.
    destruct (Hbits _ _ _ Hb1 Hb2) as (D' & G1 & G2). exists D'.
    rewrite !list_lookup_insert_eq by assumption. simpl. auto.
  - intros Hc'. unfold complexity_at in *. rewrite Hi1, Ho1, Hi2, Ho2 in Hc.
    rewrite !list_lookup_insert_eq by assumption. simpl.
    apply Hcomp; assumption.
Qed.

Lemma sim_or_inlineArgs c b :
  sim (Rel c) (or_inlineArgs x b) (or_inlineArgs x b) (same (Rel c)).
Proof.
  unfold or_inlineArgs. apply sim_update_op.
  - intros o. reflexivity.
  - intros o1 o2 D E1 E2. exists (Z.lor D b). simpl. rewrite E1, E2, !Z.lor_assoc. auto.
  - intros o1 o2 H Hc. simpl. auto.
Qed.

Lemma sim_set_complexity c k :
  sim (Rel c) (update_op x (set_complexity k)) (update_op x (set_complexity k))
    (same (Rel true)).
Proof.
  apply sim_update_op.
  - intros o. reflexivity.
  - intros o1 o2 D E1 E2. exists D. simpl. auto.
  - intros o1 o2 _ _. reflexivity.
Qed.

(** One argument of [x], and the loop over all of them. *)
Lemma sim_inline_arg c func mc a :
  sim (Rel c) (inline_arg func x mc a) (inline_arg func x mc a) (same (Rel c)).
Proof.
  unfold inline_arg.
  eapply sim_bind; [apply sim_deref|]. intros i1 i2. apply sim_pure. intros Hi1.
  apply sim_pure. intros Hi2.
  rewrite (skeleton_opcode _ _ Hi1), (skeleton_opcode _ _ Hi2).
  eapply sim_bind; [apply sim_argument|]. intros arg arg2.
  apply sim_pure. intros <-. apply sim_pure. intros Harg.
  eapply sim_bind_same; [apply sim_deref_fixed, operand_fixed, Harg|]. intros ai.
  assert (Hfold : forall m : Z,
    sim (Rel c)
      (on_funcops (fun l => erase_item l arg) ;;
       b <- lift_opt OutOfRange (bit a) ;; or_inlineArgs x b ;; ret m)
      (on_funcops (fun l => erase_item l arg) ;;
       b <- lift_opt OutOfRange (bit a) ;; or_inlineArgs x b ;; ret m)
      (same (Rel c))).
  { intros m. eapply sim_bind_same.
    { apply sim_on_funcops. intros l p. apply elem_of_erase_item. }
    intros _. eapply sim_bind_same; [apply sim_lift_opt|]. intros b.
    eapply sim_bind_same; [apply sim_or_inlineArgs|]. intros _. apply sim_ret. }
  destruct (op ai) as [ao|]; [|apply Hfold].
  match goal with |- sim _ (if ?b then _ else _) _ _ => destruct b end;
    [apply sim_ret|].
  eapply sim_bind_same.
  { match goal with |- sim _ (if ?b then _ else _) _ _ => destruct b end;
      [apply sim_is_unmodified, operand_fixed, Harg|apply sim_ret]. }
  intros unmodified. destruct unmodified; simpl; [apply Hfold|apply sim_ret].
Qed.

Lemma sim_arg_loop c func l mc :
  sim (Rel c) (foldM l mc (inline_arg func x)) (foldM l mc (inline_arg func x))
    (same (Rel c)).
Proof. apply sim_foldM. intros b a. apply sim_inline_arg. Qed.

Lemma sim_deref_op_complexity :
  sim (Rel true) (reading (fun ops => deref_op ops x))
    (reading (fun ops => deref_op ops x))
    (fun o1 o2 s1 s2 => complexity o1 = complexity o2 /\ Rel true s1 s2).
Proof.
  apply sim_reading. intros s1 s2 o1 HR E.
  destruct (sim_deref_op true s1 s2 o1 s1 HR) as (o2 & s2' & E2 & Hst & _).
  { unfold reading. rewrite E. reflexivity. }
  apply reading_Ok in E2 as [E2 _]. exists o2. split; [exact E2|]. split; [|exact HR].
  apply deref_op_Ok in E as (i1 & Hi1 & Ho1). apply deref_op_Ok in E2 as (i2 & Hi2 & Ho2).
  destruct HR as (_ & _ & _ & _ & _ & _ & _ & _ & Hc). specialize (Hc eq_refl).
  rewrite (complexity_at_lookup _ _ _ _ Hi1 Ho1) in Hc.
  rewrite (complexity_at_lookup _ _ _ _ Hi2 Ho2) in Hc. exact Hc.
Qed.

(** A store of what the instruction before it produced. *)
Lemma sim_merge_adjacent_store :
  sim (Rel true) (merge_adjacent_store x) (merge_adjacent_store x) (same (Rel true)).
Proof.
  unfold merge_adjacent_store.
  eapply sim_bind; [apply sim_deref|]. intros i1 i2. apply sim_pure. intros Hi1.
  apply sim_pure. intros Hi2.
  rewrite (skeleton_opcode _ _ Hi1), (skeleton_opcode _ _ Hi2).
  apply sim_get_bind. intros s1 s2 HR.
  assert (Hf : funcops s1 = funcops s2) by apply HR. rewrite <- Hf.
  match goal with |- sim _ (if ?b then _ else _) _ _ => destruct b end;
    [|apply sim_ret].
  eapply sim_bind; [apply sim_argument|]. intros value value2.
  apply sim_pure. intros <-. apply sim_pure. intros Hvalue.
  eapply sim_bind_same; [apply sim_lift_opt|]. intros prev.
  destruct (value =? prev)%nat; [|apply sim_ret].
  eapply sim_bind_same.
  { apply sim_on_funcops. intros l p. apply elem_of_erase_item. }
  intros _.
  eapply sim_bind_same; [apply sim_deref_fixed, operand_fixed, Hvalue|]. intros vi.
  eapply sim_bind_same; [|intros _; apply sim_or_inlineArgs].
  destruct (op vi) as [vo|]; [|apply sim_ret].
  eapply sim_bind; [apply sim_deref_op_complexity|]. intros io1 io2.
  apply sim_pure. intros <-. apply sim_set_complexity.
Qed.

Lemma sim_bump_complexity :
  sim (Rel true) (update_op x (fun o => set_complexity (complexity o + 1) o))
    (update_op x (fun o => set_complexity (complexity o + 1) o)) (same (Rel true)).
Proof.
  apply sim_update_op.
  - intros o. reflexivity.
  - intros o1 o2 D E1 E2. exists D. simpl. auto.
  - intros o1 o2 H _. simpl. rewrite (H eq_refl). reflexivity.
Qed.

Lemma bits_at_update_complexity p (f : SPVOperation -> Z) s u s' :
  update_op p (fun o => set_complexity (f o) o) s = Ok (u, s') ->
  forall q, bits_at (d_ops s') q = bits_at (d_ops s) q.
Proof.
  intros H q. apply update_op_Ok in H as (i & o & Hi & Ho & ->). simpl.
  unfold bits_at. destruct (decide (q = p)) as [->|Hq].
  - rewrite list_lookup_insert_eq by (eapply lookup_lt_Some, Hi).
    rewrite Hi, Ho. reflexivity.
  - rewrite list_lookup_insert_ne by congruence. reflexivity.
Qed.

(** The loop over the arguments and the complexity after it.  Where the
    complexity depends on [inlineArgs], the bits that the first run ends
    with are those that the second starts with. *)
Lemma inline_args_sim func s1 s2 u s1b :
  Rel false s1 s2 ->
  inline_args func x s1 = Ok (u, s1b) ->
  (plus_op (opcode i0) = true -> zf = bits_at (d_ops s1b) x) ->
  exists s2b, inline_args func x s2 = Ok (tt, s2b) /\ Rel true s1b s2b.
Proof.
  intros HR H Hstab. unfold inline_args in H |- *.
  apply bindM_Ok in H as (io1 & t & Hio1 & H).
  destruct (sim_deref_op _ _ _ _ _ HR Hio1) as (io2 & t2 & Hio2 & Hst & HR1).
  rewrite (bindM_run _ _ _ _ _ Hio2). rewrite <- (strip_arguments _ _ Hst).
  apply bindM_Ok in H as (mc & s1l & Hloop1 & H).
  destruct (sim_arg_loop false func _ _ _ _ _ _ HR1 Hloop1)
    as (mc2 & s2l & Hloop2 & <- & HRl).
  rewrite (bindM_run _ _ _ _ _ Hloop2).
  apply bindM_Ok in H as (u1 & s1c & Hset1 & H).
  destruct (sim_set_complexity false mc _ _ _ _ HRl Hset1)
    as (u2 & s2c & Hset2 & _ & HRc).
  rewrite (bindM_run _ _ _ _ _ Hset2).
  apply bindM_Ok in H as (i1 & t' & Hi1 & H).
  destruct (sim_deref true _ _ _ _ HRc Hi1) as (i2 & t2' & Hi2 & Hsk1 & Hsk2 & _).
  rewrite (bindM_run _ _ _ _ _ Hi2).
  apply reading_Ok in Hi1 as [Hi1 ->]. apply reading_Ok in Hi2 as [Hi2 ->].
  apply deref_Ok in Hi1, Hi2.
  apply bindM_Ok in H as (io1' & t'' & Hio1' & H).
  destruct (sim_deref_op true _ _ _ _ HRc Hio1') as (io2' & t2'' & Hio2' & Hst' & _).
  rewrite (bindM_run _ _ _ _ _ Hio2').
  apply reading_Ok in Hio1' as [Hio1' ->]. apply reading_Ok in Hio2' as [Hio2' ->].
  apply deref_op_Ok in Hio1' as (j1 & Hj1 & Ho1). apply deref_op_Ok in Hio2' as (j2 & Hj2 & Ho2).
  rewrite Hi1 in Hj1. inversion Hj1; subst j1. rewrite Hi2 in Hj2. inversion Hj2; subst j2.
  rewrite (skeleton_opcode _ _ Hsk1) in H. rewrite (skeleton_opcode _ _ Hsk2).
  fold (plus_op (opcode i0)) in H |- *.
  destruct (plus_op (opcode i0)) eqn:Hplus; simpl in H |- *.
  - assert (Hb1 : bits_at (d_ops s1b) x = bits_at (d_ops s1c) x).
    { destruct (negb (inlineArgs io1' =? 0)).
      - eapply bits_at_update_complexity, H.
      - apply ret_Ok in H as [_ ->]. reflexivity. }
    assert (Hbits : inlineArgs io2' = inlineArgs io1').
    { destruct HRc as (_ & _ & _ & _ & _ & _ & _ & (D & E1 & E2) & _).
      rewrite (bits_at_lookup _ _ _ _ Hi2 Ho2) in E2.
      rewrite (bits_at_lookup _ _ _ _ Hi1 Ho1) in E1, Hb1.
      rewrite E2, (Hstab eq_refl), Hb1, E1, <- Z.lor_assoc, Z.lor_diag. reflexivity. }
    rewrite Hbits. destruct (negb (inlineArgs io1' =? 0)).
    + destruct (sim_bump_complexity _ _ _ _ HRc H) as ([] & s2b & E & _ & HRb).
      exists s2b. auto.
    + apply ret_Ok in H as [_ ->]. exists s2c. split; [reflexivity|exact HRc].
  - apply ret_Ok in H as [_ ->]. exists s2c. split; [reflexivity|exact HRc].
Qed.

(** Whether the load takes a store in is decided the same way in both
    runs. *)
Lemma Rel_merge_candidate c s1 s2 :
  Rel c s1 s2 ->
  merge_candidate fn x (funcops s1) (d_ops s1) = merge_candidate fn x (funcops s2) (d_ops s2).
Proof.
  intros HR. pose proof (Rel_alike _ _ _ HR) as Hal.
  pose proof (Rel_tight_x _ _ _ HR) as Htx.
  assert (Hf : funcops s1 = funcops s2) by apply HR.
  unfold merge_candidate. rewrite <- Hf.
  pose proof HR as (_ & Hin & _ & _ & _ & _ & (i1 & i2 & E1 & E2 & K1 & K2) & _).
  rewrite (deref_run _ _ _ E1), (deref_run _ _ _ E2). unfold rbind at 1 5.
  rewrite (skeleton_opcode _ _ K1), (skeleton_opcode _ _ K2).
  destruct (Op_eqb (opcode i0) OpLoad) eqn:Hld; [|reflexivity]. apply Op_eqb_eq in Hld.
  destruct (1 <? length (funcops s1))%nat; [|reflexivity]. cbv beta iota. unfold andb.
  rewrite <- (count_stores_alike _ _ x (funcops s1) Hal Htx).
  destruct (count_stores (d_ops s1) x (funcops s1) None 0) as [[[p|] n]|e] eqn:Hcount;
    try reflexivity.
  destruct (Z.eq_dec n 1) as [->|Hn].
  2:{ destruct n as [|[]|]; try reflexivity. contradiction. }
  assert (Hp : fixed p).
  { destruct (count_stores_found _ _ _ _ _ _ _ Hcount)
      as [[E _]|(st & d & E & Hst_in & Hst & Hd & _)]; [discriminate|].
    inversion E; subst st. left.
    destruct (Hin p Hst_in) as [Hs|[->|Hfl]]; [exact Hs| |].
    - unfold is_store in Hst. rewrite E1 in Hst. rewrite (skeleton_opcode _ _ K1), Hld in Hst.
      discriminate.
    - exfalso. apply Hflows in Hfl.
      assert (Hne : p <> x) by (intros ->; congruence).
      apply argument_Ok in Hd as (j & oj & Hj & Hoj & _).
      destruct HR as (_ & _ & _ & _ & H1 & _). rewrite (H1 p Hne) in Hj.
      destruct (decide (p ∈ seen)) as [Hs|Hs].
      + rewrite (HA_seen p Hs), (no_operation_cell p Hfl) in Hj.
        unfold is_operation in Hfl. rewrite Hj, Hoj in Hfl. discriminate.
      + rewrite (HA_unseen p Hs) in Hj.
        unfold is_operation in Hfl. rewrite Hj, Hoj in Hfl. discriminate. }
  unfold rbind at 1 4. cbv beta iota.
  rewrite <- (Rel_IsUnmodified _ _ _ fn p x HR Hp).
  destruct (IsUnmodified (S (length (d_ops s1))) (d_ops s1) fn p x) as [[]|e];
    try reflexivity.
  unfold rbind at 1 2.
  rewrite <- (other_load_alike _ _ x (blocks fn) Hal Htx); [reflexivity|].
  intros y i Hne Hi Hldy. eapply Rel_apart; eassumption.
Qed.

End AtInstruction.


(** *** The body of the loop, in the first run and in the second *)

Lemma Inv_alike seen s1 s2 : Inv seen s1 s2 -> alike (d_ops s1) F.
Proof.
  intros (_ & _ & Hlen & Hcells & Hrest & _). split; [exact Hlen|].
  intros p i j Hi Hj. destruct (decide (p ∈ seen)) as [Hs|Hs].
  - rewrite (Hcells p Hs), Hj in Hi. inversion Hi. apply alike_cell_refl.
  - rewrite (Hrest p Hs) in Hi. destruct alike_F as [_ H]. eapply H; eassumption.
Qed.

(** An operation that the first run leaves with its arguments. *)
Lemma visit_tight seen x bi k s1 s2 ign' s1a i0 :
  x ∉ seen -> x ∈ order -> ops0 !! x = Some i0 -> is_operation ops0 x = true ->
  (forall arg, arg ∈ operands ops0 x -> is_operation ops0 arg = true -> arg ∈ seen) ->
  tight ops0 F x ->
  Inv seen s1 s2 ->
  inline_instruction fn bi [] k x s1 = Ok (ign', s1a) ->
  F !! x = d_ops s1a !! x ->
  ign' = [] /\
  exists s2a, inline_instruction fn bi [] k x s2 = Ok ([], s2a) /\
    Inv (x :: seen) s1a s2a.
Proof.
  intros Hnew Hxo Hi0 Hxop Hseen Htight HI H HFx.
  destruct HI as (Hf & HdF & Hlen & Hcells & Hrest & Hfl & Hcl & Hso).
  destruct (plain_at_spec _ _ _ _ (Hplain x Hxo) Hi0) as (HnoCI & HnoCall & Hnost & Hload).
  unfold inline_instruction in H |- *. simpl existsb in H |- *. cbv iota in H |- *.
  apply bindM_Ok in H as (u & s1p & Hpush & H). apply modify_Ok in Hpush. subst s1p.
  rewrite (bindM_run _ _ s2 tt
    {| d_ops := d_ops s2; vars := vars s2; funcops := funcops s2 ++ [x] |})
    by reflexivity.
  set (s1p := {| d_ops := d_ops s1; vars := vars s1; funcops := funcops s1 ++ [x] |}) in *.
  set (s2p := {| d_ops := d_ops s2; vars := vars s2; funcops := funcops s2 ++ [x] |}) in *.
  assert (Hi1 : d_ops s1 !! x = Some i0) by (rewrite (Hrest x Hnew); exact Hi0).
  rewrite (bindM_run _ _ s1p i0 s1p) in H by (apply reading_run, deref_run, Hi1).
  destruct (tight_Some _ _ _ _ Htight Hi0) as (iF & HiF & EF).
  assert (Hi2 : d_ops s2 !! x = Some iF) by (rewrite HdF; exact HiF).
  rewrite (bindM_run _ _ s2p iF s2p) by (apply reading_run, deref_run, Hi2).
  unfold is_operation in Hxop. rewrite Hi0 in Hxop.
  destruct (op i0) as [o0|] eqn:Ho0; [|discriminate]. clear Hxop.
  destruct (skeleton_op_Some _ _ _ EF Ho0) as (oF & HoF & EstF). rewrite HoF.
  assert (Hxop : is_operation ops0 x = true) by (unfold is_operation; rewrite Hi0, Ho0; reflexivity).
  apply bindM_Ok in H as (u1 & s1b & Hargs & H).
  apply bindM_Ok in H as (u2 & s1m & Hsingle & H).
  apply bindM_Ok in H as (u3 & s1n & Hadj & H).
  (* the instruction after each step of the first run *)
  pose proof (touches_inline_args [x] fn x ltac:(left) _ _ _ Hargs) as Tb.
  destruct (touched_cell _ _ _ _ _ Tb Hi1) as (ib & Hib & Hopb).
  pose proof (touches_merge_single_store [x] fn x ltac:(left) _ _ _ Hsingle) as Tm.
  destruct (touched_cell _ _ _ _ _ Tm Hib) as (im & Him & Hopm).
  pose proof (touches_merge_adjacent_store [x] x ltac:(left) _ _ _ Hadj) as Tn.
  destruct (touched_cell _ _ _ _ _ Tn Him) as (i_n & Hin & Hopn).
  assert (Hopn0 : opcode i_n = opcode i0) by congruence.
  assert (Hopm0 : opcode im = opcode i0) by congruence.
  assert (Hopb0 : opcode ib = opcode i0) by congruence.
  rewrite (inline_call_skip _ _ _ _ _ _ Hin) in H by (rewrite Hopn0; exact HnoCall).
  inversion H; subst ign' s1a. clear H. split; [reflexivity|].
  set (z1 := bits_at (d_ops s1) x). set (zf := bits_at (d_ops s2) x).
  set (A0 := d_ops s1).
  assert (HR : Rel seen x i0 A0 z1 zf false s1p s2p).
  { unfold Rel. subst s1p s2p. simpl.
    split; [congruence|]. split.
    { intros p Hp. apply elem_of_app in Hp as [Hp|Hp].
      - destruct (Hfl p Hp); auto.
      - apply list_elem_of_singleton in Hp. auto. }
    split; [exact Hlen|]. split; [rewrite HdF; reflexivity|].
    split; [reflexivity|]. split; [intros p _; rewrite HdF; reflexivity|].
    split; [exists i0, iF; auto|].
    split; [|discriminate]. exists 0. rewrite !Z.lor_0_r. auto. }
  assert (Hzf : zf = bits_at (d_ops s1n) x).
  { unfold zf, bits_at. rewrite <- HFx, HdF. reflexivity. }
  assert (HA_seen : forall p, p ∈ seen -> A0 !! p = F !! p) by exact Hcells.
  assert (HA_unseen : forall p, p ∉ seen -> A0 !! p = ops0 !! p) by exact Hrest.
  (* the first run takes no store in *)
  assert (Hplainm : s1m = s1b /\
            merge_candidate fn x (funcops s1b) (d_ops s1b) = Ok None).
  { rewrite merge_single_store_candidate in Hsingle.
    apply bindM_Ok in Hsingle as (cand & t & Hc & Hsingle).
    apply reading_Ok in Hc as [Hc ->].
    destruct cand as [p|]; [exfalso|apply ret_Ok in Hsingle as [_ ->]; auto].
    destruct (merge_candidate_Some _ _ _ _ _ Hc) as (j & Hj & Hld & Hcount & _).
    rewrite Hib in Hj. inversion Hj; subst j.
    destruct (elide_store_Ok _ _ _ _ _ _ Hsingle Hib) as (io & po & src & Hio & _ & Hsrc & ->).
    simpl in Him. rewrite list_lookup_insert_eq in Him by (eapply lookup_lt_Some, Hib).
    inversion Him; subst im. clear Him.
    assert (Hlt : (x < length (d_ops s1b))%nat) by (eapply lookup_lt_Some, Hib).
    rewrite (merge_adjacent_store_skip x _
               (set_op (Some (set_arguments (<[0%nat := p]> (arguments io))
                  (set_complexity (RDCMAX (complexity io) (complexity po)) io))) ib)) in Hadj;
      [|apply list_lookup_insert_eq, Hlt|simpl; rewrite Hld; reflexivity
       |simpl; rewrite Hld; reflexivity].
    inversion Hadj; subst s1n. simpl in HFx.
    rewrite list_lookup_insert_eq in HFx by exact Hlt.
    rewrite HiF in HFx. inversion HFx; subst iF. simpl in HoF. inversion HoF; subst oF.
    pose proof (strip_arguments _ _ EstF) as Ea. simpl in Ea.
    pose proof (skeleton_inline_args _ _ _ _ _ Hargs) as Kb. simpl in Kb.
    destruct (same_skeleton_Some _ _ _ _ Kb Hi1) as (ib' & Hib' & Eb).
    rewrite Hib in Hib'. inversion Hib'; subst ib'.
    destruct (skeleton_op_Some _ _ _ Eb Ho0) as (io' & Hio' & Est).
    rewrite Hio in Hio'. inversion Hio'; subst io'.
    pose proof (strip_arguments _ _ Est) as Ea'. rewrite <- Ea' in Ea.
    destruct (arguments o0) as [|a0 rest] eqn:Hargs0; [rewrite <- Ea' in Hsrc; discriminate|].
    simpl in Ea. inversion Ea; subst a0.
    assert (Hst : is_store ops0 p = true).
    { destruct (count_stores_found _ _ _ _ _ _ _ Hcount)
        as [[E _]|(st & d & E & _ & Hst & _)]; [discriminate|].
      inversion E; subst st.
      assert (Hal : alike ops0 (d_ops s1b)).
      { etransitivity; [|apply same_skeleton_alike, Kb].
        apply alike_sym. etransitivity; [|apply alike_sym, alike_F].
        apply (Inv_alike seen s1 s2). unfold Inv. auto 10. }
      rewrite (is_store_alike _ _ p Hal). exact Hst. }
    rewrite Hnost in Hst; [discriminate|].
    unfold operands. rewrite Hi0, Ho0, Hargs0. left. }
  destruct Hplainm as [-> Hcand1].
  destruct (inline_args_sim seen x i0 A0 z1 zf Hnew Hi0 Hxop Hseen HA_seen HA_unseen Hcl
              fn s1p s2p u1 s1b HR Hargs) as (s2b & Hargs2 & HRb).
  { intros Hplus. destruct (plus_op_opcode _ Hplus) as [HnoStore HnoLoad].
    rewrite Hzf.
    rewrite (merge_adjacent_store_skip _ _ _ Hib) in Hadj
      by (rewrite Hopb0; assumption).
    inversion Hadj; subst s1n. reflexivity. }
  rewrite (bindM_run _ _ _ _ _ Hargs2).
  assert (Hsingle2 : merge_single_store fn x s2b = Ok (tt, s2b)).
  { rewrite merge_single_store_candidate.
    rewrite (bindM_run _ _ s2b None s2b); [reflexivity|].
    apply reading_run.
    rewrite <- (Rel_merge_candidate seen x i0 A0 z1 zf Hnew Hxo Hi0 Hxop Hseen
                  HA_seen HA_unseen Hcl true s1b s2b HRb).
    exact Hcand1. }
  rewrite (bindM_run _ _ _ _ _ Hsingle2).
  destruct (sim_merge_adjacent_store seen x i0 A0 z1 zf Hnew Hi0 Hxop Hseen HA_seen HA_unseen
              _ _ _ _ HRb Hadj) as (u3' & s2n & Hadj2 & _ & HRn).
  rewrite (bindM_run _ _ _ _ _ Hadj2).
  destruct HRn as (Hfn & Hinn & L1 & L2 & H1n & H2n & (j1 & j_n & E1 & Hjn & K1 & K2)
                   & (D & Hb1 & Hb2) & Hcomp).
  rewrite Hin in E1. inversion E1; subst j1.
  rewrite (inline_call_skip _ _ _ _ _ _ Hjn)
    by (rewrite (skeleton_opcode _ _ K2); exact HnoCall).
  exists s2n. split; [reflexivity|].
  assert (Hcellx : d_ops s1n !! x = d_ops s2n !! x).
  { rewrite Hin, Hjn. f_equal.
    assert (Enn : skeleton i_n = skeleton j_n) by congruence.
    destruct (op i_n) as [on|] eqn:Hon.
    + destruct (skeleton_op_Some _ _ _ Enn Hon) as (oj & Hoj & Estn).
      eapply skeleton_eq; [exact Enn|exact Hon|exact Hoj|].
      apply strip_eq; [exact Estn| |].
      * specialize (Hcomp eq_refl).
        rewrite (complexity_at_lookup _ _ _ _ Hin Hon) in Hcomp.
        rewrite (complexity_at_lookup _ _ _ _ Hjn Hoj) in Hcomp. exact Hcomp.
      * rewrite (bits_at_lookup _ _ _ _ Hin Hon) in Hb1.
        rewrite (bits_at_lookup _ _ _ _ Hjn Hoj) in Hb2.
        rewrite Hb2, Hzf, (bits_at_lookup _ _ _ _ Hin Hon), Hb1.
        rewrite <- Z.lor_assoc, Z.lor_diag. reflexivity.
    + apply skeleton_None_eq; assumption. }
  unfold Inv.
  split; [exact Hfn|]. split.
  { apply list_eq. intros p. destruct (decide (p = x)) as [->|Hne].
    - rewrite <- Hcellx. symmetry. exact HFx.
    - apply H2n, Hne. }
  split; [exact L1|]. split.
  { intros p Hp. apply elem_of_cons in Hp as [->|Hp]; [symmetry; exact HFx|].
    rewrite (H1n p) by (intros ->; contradiction). apply Hcells, Hp. }
  split.
  { intros p Hp. apply not_elem_of_cons in Hp as [Hne Hp].
    rewrite (H1n p Hne). apply Hrest, Hp. }
  split.
  { intros p Hp. destruct (Hinn p Hp) as [Hs|[->|Hfl']].
    - left. right. exact Hs.
    - left. left.
    - right. exact Hfl'. }
  split.
  { intros p a Hp Ha Hop. apply elem_of_cons in Hp as [->|Hp].
    - right. apply Hseen.
      + rewrite (operands_tight _ _ _ Htight). exact Ha.
      + rewrite (is_operation_alike _ _ a alike_F). exact Hop.
    - right. eapply Hcl; eassumption. }
  intros p Hp. apply elem_of_cons in Hp as [->|Hp]; [exact Hxo|apply Hso, Hp].
Qed.

Lemma argument_cell A B p k : A !! p = B !! p -> argument A p k = argument B p k.
Proof. intros H. unfold argument, deref_op, deref. rewrite H. reflexivity. Qed.

Lemma fixed_cell seen s1 s2 p : Inv seen s1 s2 -> fixed seen p -> d_ops s1 !! p = F !! p.
Proof.
  intros (_ & _ & _ & Hcells & Hrest & _) [Hp|Hp]; [apply Hcells, Hp|].
  destruct (decide (p ∈ seen)) as [Hs|Hs]; [apply Hcells, Hs|].
  rewrite (Hrest p Hs). symmetry. apply no_operation_cell, Hp.
Qed.

Lemma fixed_closed seen s1 s2 p a :
  Inv seen s1 s2 -> fixed seen p -> a ∈ operands F p -> fixed seen a.
Proof.
  intros (_ & _ & _ & _ & _ & _ & Hcl & _) [Hp|Hp] Ha.
  - destruct (is_operation F a) eqn:E.
    + left. eapply Hcl; eassumption.
    + right. rewrite (is_operation_alike _ _ a alike_F). exact E.
  - exfalso. unfold operands in Ha. rewrite (no_operation_cell p Hp) in Ha.
    unfold is_operation in Hp. destruct (ops0 !! p) as [i|]; [|inversion Ha].
    destruct (op i); [discriminate|inversion Ha].
Qed.

Lemma emitted_fixed seen s1 s2 p :
  Inv seen s1 s2 -> p ∈ funcops s1 -> fixed seen p.
Proof.
  intros (_ & _ & _ & _ & _ & Hfl & _) Hp.
  destruct (Hfl p Hp) as [H|H]; [left; exact H|right; apply Hflows, H].
Qed.

(** A load that took a store in, in the first run. *)
Lemma visit_elided seen x bi k s1 s2 ign' s1a :
  x ∉ seen -> x ∈ order ->
  elided ops0 order F x ->
  Inv seen s1 s2 ->
  inline_instruction fn bi [] k x s1 = Ok (ign', s1a) ->
  F !! x = d_ops s1a !! x ->
  ign' = [] /\
  exists s2a, inline_instruction fn bi [] k x s2 = Ok ([], s2a) /\
    Inv (x :: seen) s1a s2a.
Proof.
  intros Hnew Hxo Hel HI H HFx.
  pose proof (Inv_alike _ _ _ HI) as Hal1.
  pose proof (fun p => fixed_cell _ _ _ p HI) as Hkc.
  pose proof (fun p a => fixed_closed _ _ _ p a HI) as Hkcl.
  pose proof (fun p => emitted_fixed _ _ _ p HI) as Hek.
  destruct HI as (Hf & HdF & Hlen & Hcells & Hrest & Hfl & Hcl & Hso).
  destruct Hel as (i0 & o0 & iF & oF & v & st & Hi0 & Ho0 & Hld & Ha0 & HiF & HoF & HaF
                   & Hset & Hst0 & Htw).
  destruct (plain_at_spec _ _ _ _ (Hplain x Hxo) Hi0) as (HnoCI & HnoCall & Hnost & Hload).
  assert (Hops0 : operands ops0 x = [v]) by (unfold operands; rewrite Hi0, Ho0; exact Ha0).
  assert (Hxop : is_operation ops0 x = true)
    by (unfold is_operation; rewrite Hi0, Ho0; reflexivity).
  destruct s2 as [A2 V2 L2]. simpl in Hf, HdF. subst A2 L2.
  unfold inline_instruction in H |- *. simpl existsb in H |- *. cbv iota in H |- *.
  apply bindM_Ok in H as (u & s1p & Hpush & H). apply modify_Ok in Hpush. subst s1p.
  rewrite (bindM_run _ _ _ tt
    {| d_ops := F; vars := V2; funcops := funcops s1 ++ [x] |}) by reflexivity.
  set (s1p := {| d_ops := d_ops s1; vars := vars s1; funcops := funcops s1 ++ [x] |}) in *.
  set (s2p := {| d_ops := F; vars := V2; funcops := funcops s1 ++ [x] |}).
  assert (Hi1 : d_ops s1 !! x = Some i0) by (rewrite (Hrest x Hnew); exact Hi0).
  rewrite (bindM_run _ _ s1p i0 s1p) in H by (apply reading_run, deref_run, Hi1).
  rewrite (bindM_run _ _ s2p iF s2p) by (apply reading_run, deref_run, HiF).
  rewrite Ho0 in H. rewrite HoF.
  apply bindM_Ok in H as (u1 & s1b & Hargs & H).
  apply bindM_Ok in H as (u2 & s1m & Hsingle & H).
  apply bindM_Ok in H as (u3 & s1n & Hadj & H).
  pose proof (skeleton_inline_args _ _ _ _ _ Hargs) as Kb. simpl in Kb.
  destruct (same_skeleton_Some _ _ _ _ Kb Hi1) as (ib & Hib & Eb).
  destruct (skeleton_op_Some _ _ _ Eb Ho0) as (io & Hio & Est).
  pose proof (strip_arguments _ _ Est) as Eargs. rewrite Ha0 in Eargs.
  assert (Hldb : opcode ib = OpLoad) by (rewrite <- (skeleton_opcode _ _ Eb); exact Hld).
  assert (Hv_not_store : is_store ops0 v = false) by (apply Hnost; rewrite Hops0; left).
  rewrite merge_single_store_candidate in Hsingle.
  apply bindM_Ok in Hsingle as (cand & t & Hc & Hsingle).
  apply reading_Ok in Hc as [Hc ->].
  destruct cand as [p|].
  2:{ (* no store taken in: the arguments would be those of [ops0] *)
      exfalso. apply ret_Ok in Hsingle as [_ ->].
      rewrite (merge_adjacent_store_skip _ _ _ Hib) in Hadj
        by (rewrite Hldb; reflexivity).
      inversion Hadj; subst s1n.
      rewrite (inline_call_skip _ _ _ _ _ _ Hib) in H by (rewrite Hldb; reflexivity).
      inversion H; subst s1a. rewrite HiF, Hib in HFx. inversion HFx; subst iF.
      rewrite Hio in HoF. inversion HoF; subst oF. rewrite <- Eargs in HaF.
      inversion HaF; subst st. congruence. }
  destruct (merge_candidate_Some _ _ _ _ _ Hc) as (j & Hj & _ & Hcount & Hunm & Hother).
  destruct (elide_store_Ok _ _ _ _ _ _ Hsingle Hib)
    as (io' & po & src & Hio' & Hpo & Hsrc & ->).
  rewrite Hio in Hio'. inversion Hio'; subst io'. clear Hio'.
  rewrite <- Eargs in Hsrc. simpl in Hsrc. inversion Hsrc; subst src. clear Hsrc.
  set (im := set_op (Some (set_arguments (<[0%nat := p]> (arguments io))
               (set_complexity (RDCMAX (complexity io) (complexity po)) io))) ib) in *.
  assert (Hlt : (x < length (d_ops s1b))%nat) by (eapply lookup_lt_Some, Hib).
  assert (Him : <[x := im]> (d_ops s1b) !! x = Some im) by (apply list_lookup_insert_eq, Hlt).
  rewrite (merge_adjacent_store_skip x _ im) in Hadj;
    [|exact Him|simpl; rewrite Hldb; reflexivity|simpl; rewrite Hldb; reflexivity].
  inversion Hadj; subst s1n. clear Hadj.
  rewrite (inline_call_skip bi k x [] _ im) in H;
    [|exact Him|simpl; rewrite Hldb; reflexivity].
  inversion H; subst ign' s1a. clear H. split; [reflexivity|].
  simpl in HFx. rewrite Him, HiF in HFx. inversion HFx; subst iF. clear HFx.
  simpl in HoF. inversion HoF; subst oF. clear HoF.
  simpl in HaF. rewrite <- Eargs in HaF. simpl in HaF. inversion HaF; subst st. clear HaF.
  assert (Halb : alike ops0 (d_ops s1b)).
  { etransitivity; [|apply same_skeleton_alike, Kb].
    etransitivity; [apply alike_F|]. apply alike_sym, Hal1. }
  destruct (count_stores_found _ _ _ _ _ _ _ Hcount)
    as [[E _]|(st' & d & E & Hin & Hst & Hd & Hxd)]; [discriminate|].
  inversion E; subst st'. clear E.
  assert (d = v) as ->.
  { apply argument_Ok in Hxd as (j' & oj & Hj' & Hoj & Hv). rewrite Hib in Hj'.
    inversion Hj'; subst j'. rewrite Hio in Hoj. inversion Hoj; subst oj.
    rewrite <- Eargs in Hv. simpl in Hv. congruence. }
  destruct (Hload Hld _ _ Hops0) as [Hno|(Hnop & Hnem & _)].
  { exfalso. pose proof (no_store_to_spec _ _ p Hno) as Hf'.
    unfold stores_to in Hf'. unfold is_store in Hst0.
    destruct (ops0 !! p) as [sti|] eqn:Hsti; [|discriminate]. rewrite Hst0 in Hf'.
    rewrite <- (store_argument_alike ops0 (d_ops s1b) p 0 Halb) in Hd
      by (unfold is_store; rewrite Hsti; exact Hst0).
    apply argument_Ok in Hd as (j' & oj & Hj' & Hoj & Hv). rewrite Hsti in Hj'.
    inversion Hj'; subst j'. rewrite Hoj, Hv in Hf'. simpl in Hf'.
    rewrite Nat.eqb_refl in Hf'. discriminate. }
  (* the first run, computed *)
  unfold no_operation in Hnop. destruct (ops0 !! v) as [vi|] eqn:Hvi; [|discriminate].
  destruct (op vi) eqn:Hvo; [discriminate|]. clear Hnop.
  assert (Hv_out : v ∉ funcops s1 ++ [x]).
  { intros Hv. apply Hnem. apply elem_of_app in Hv as [Hv|Hv].
    - destruct (Hfl v Hv) as [Hs|Hs]; apply elem_of_app; [left; apply Hso, Hs|right; exact Hs].
    - apply list_elem_of_singleton in Hv. subst v. apply elem_of_app. left. exact Hxo. }
  assert (Hv1 : d_ops s1 !! v = Some vi).
  { rewrite Hrest; [exact Hvi|]. intros Hs. apply Hnem, elem_of_app. left. apply Hso, Hs. }
  rewrite (inline_args_load_var fn x s1p i0 o0 v vi Hi1 Hld Ho0 Ha0 Hv1 Hvo) in Hargs.
  inversion Hargs; subst s1b. clear Hargs. cbn [d_ops vars funcops] in *.
  rewrite (erase_item_not_in _ _ Hv_out) in *.
  assert (Hlt1 : (x < length (d_ops s1))%nat) by (eapply lookup_lt_Some, Hi1).
  rewrite list_lookup_insert_eq in Hib by exact Hlt1. inversion Hib; subst ib. clear Hib.
  cbn in Hio. inversion Hio; subst io. clear Hio.
  (* the store *)
  assert (Hpx : p <> x).
  { intros ->. unfold is_store in Hst. rewrite list_lookup_insert_eq in Hst by exact Hlt1.
    simpl in Hst. rewrite Hld in Hst. discriminate. }
  assert (Hp1 : p ∈ funcops s1).
  { apply elem_of_app in Hin as [Hin|Hin]; [exact Hin|].
    apply list_elem_of_singleton in Hin. contradiction. }
  apply deref_op_Ok in Hpo as (pi & Hpi & Hpio).
  rewrite list_lookup_insert_ne in Hpi by congruence.
  assert (HpF : F !! p = Some pi) by (rewrite <- (Hkc p (Hek p Hp1)); exact Hpi).
  assert (Hpstore : opcode pi = OpStore).
  { unfold is_store in Hst. rewrite list_lookup_insert_ne, Hpi in Hst by congruence.
    apply Op_eqb_eq, Hst. }
  pose proof (Hsmall x Hxo) as Hsm. unfold small_elision in Hsm.
  rewrite HiF in Hsm. simpl in Hsm. rewrite Hld in Hsm.
  change (Op_eqb OpLoad OpLoad) with true in Hsm. cbn [negb orb] in Hsm.
  unfold operands in Hsm. rewrite HiF in Hsm. simpl in Hsm. rewrite Ha0 in Hsm.
  simpl in Hsm. rewrite HpF, Hpstore, Hpio in Hsm.
  change (Op_eqb OpStore OpStore) with true in Hsm. cbn [negb orb] in Hsm.
  apply andb_true_iff in Hsm as [Hsm1 Hsm2].
  assert (Hfixed_x : forall q, fixed seen q -> q <> x).
  { intros q [Hq|Hq] ->; [contradiction|congruence]. }
  (* the second run *)
  assert (Hunm2 : IsUnmodified (S (length F)) F fn p x = Ok true).
  { rewrite <- Hunm, length_insert, Hlen. symmetry.
    apply (IsUnmodified_alike _ F fn x (fixed seen)).
    - etransitivity; [apply alike_sym, Halb|apply alike_F].
    - intros q Hq. apply equal_tight.
      rewrite list_lookup_insert_ne by (intros E; symmetry in E; revert E; apply Hfixed_x, Hq).
      apply Hkc, Hq.
    - intros q a Hq Ha. apply (Hkcl q a Hq). unfold operands in Ha |- *.
      rewrite list_lookup_insert_ne in Ha
        by (intros E; symmetry in E; revert E; apply Hfixed_x, Hq).
      rewrite <- (Hkc q Hq). exact Ha.
    - apply Hek, Hp1. }
  assert (Hargs2 : inline_args fn x s2p =
            Ok (tt, {| d_ops := F; vars := V2; funcops := erase_item (funcops s1 ++ [x]) p |})).
  { rewrite (inline_args_load_fold fn x s2p im _ p pi po HiF Hld eq_refl).
    - unfold s2p. cbn [d_ops vars funcops]. do 3 f_equal.
      apply list_insert_id. rewrite HiF. f_equal.
      unfold im. generalize (complexity po). intros c. clear -Ha0.
      destruct i0 as [x1 x2 x3 x4 x5 x6 x7 x8 x9 x10 x11], o0 as [y1 y2 y3 y4 y5 y6 y7 y8].
      cbn. cbn in Ha0. subst.
      rewrite (RDCMAX_comm c 0), <- Z.lor_assoc, Z.lor_diag. reflexivity.
    - cbn. rewrite Ha0. reflexivity.
    - exact HpF.
    - exact Hpio.
    - exact Hsm1.
    - exact Hsm2.
    - exact Hunm2. }
  rewrite (bindM_run _ _ _ _ _ Hargs2).
  set (s2b := {| d_ops := F; vars := V2; funcops := erase_item (funcops s1 ++ [x]) p |}).
  assert (Hsingle2 : merge_single_store fn x s2b = Ok (tt, s2b)).
  { apply (merge_single_store_skip fn x s2b im HiF). intros _ _.
    apply count_stores_none. intros q Hq. cbn in Hq. apply elem_of_erase_item in Hq.
    destruct (count_stores_looked _ _ _ _ _ _ _ Hcount ltac:(lia) q Hq) as (qi & Hqi & Hqd).
    destruct (decide (q = x)) as [->|Hqx].
    { exists im. split; [exact HiF|]. cbn. rewrite Hld. discriminate. }
    rewrite list_lookup_insert_ne in Hqi by congruence.
    assert (Hq1 : q ∈ funcops s1).
    { apply elem_of_app in Hq as [Hq|Hq]; [exact Hq|].
      apply list_elem_of_singleton in Hq. contradiction. }
    assert (HqF : F !! q = Some qi) by (rewrite <- (Hkc q (Hek q Hq1)); exact Hqi).
    exists qi. split; [exact HqF|]. intros Hqst. destruct (Hqd Hqst) as (d & Hd').
    rewrite (argument_cell _ F q 0) in Hd'
      by (rewrite list_lookup_insert_ne by congruence; apply Hkc, Hek, Hq1).
    exists d, p. split; [exact Hd'|]. split.
    { eapply argument_run; [exact HiF|reflexivity|]. cbn. rewrite Ha0. reflexivity. }
    intros ->.
    assert (Hq_op : is_operation ops0 q = true).
    { rewrite (is_operation_alike _ _ q alike_F). apply argument_Ok in Hd' as (a & b & E1 & E2 & _).
      unfold is_operation. rewrite E1, E2. reflexivity. }
    assert (Hq_seen : q ∈ seen).
    { destruct (Hfl q Hq1) as [Hs|Hs]; [exact Hs|]. rewrite (Hflows q Hs) in Hq_op. discriminate. }
    assert (Hp_arg : p ∈ operands F q).
    { apply argument_Ok in Hd' as (a & b & E1 & E2 & E3). unfold operands.
      rewrite E1, E2. eapply list_elem_of_lookup_2, E3. }
    destruct HF as [_ HF']. destruct (HF' q) as [Ht|Hel].
    - rewrite <- (operands_tight _ _ _ Ht) in Hp_arg.
      destruct (ops0 !! q) as [q0|] eqn:Hq0.
      + destruct (plain_at_spec _ _ _ _ (Hplain q (Hso q Hq_seen)) Hq0) as (_ & _ & Hns & _).
        rewrite (Hns p Hp_arg) in Hst0. discriminate.
      + unfold operands in Hp_arg. rewrite Hq0 in Hp_arg. inversion Hp_arg.
    - destruct Hel as (j0 & _ & jF & _ & _ & _ & _ & _ & Hldj & _ & HjF & _ & _ & Hsetj & _).
      rewrite HqF in HjF. inversion HjF; subst jF.
      apply (f_equal opcode) in Hsetj. cbn in Hsetj. congruence. }
  rewrite (bindM_run _ _ _ _ _ Hsingle2).
  rewrite (bindM_run _ _ s2b tt s2b)
    by (apply (merge_adjacent_store_skip x s2b im HiF); cbn; rewrite Hld; reflexivity).
  rewrite (inline_call_skip bi k x [] s2b im HiF) by (cbn; rewrite Hld; reflexivity).
  exists s2b. split; [reflexivity|].
  unfold Inv. cbn [d_ops vars funcops].
  split; [reflexivity|]. split; [reflexivity|].
  split; [rewrite !length_insert; exact Hlen|]. split.
  { intros q Hq. destruct (decide (q = x)) as [->|Hqx].
    - rewrite list_lookup_insert_eq by (rewrite length_insert; exact Hlt1).
      symmetry. exact HiF.
    - rewrite !list_lookup_insert_ne by congruence.
      apply elem_of_cons in Hq as [Hq|Hq]; [contradiction|apply Hcells, Hq]. }
  split.
  { intros q Hq. apply not_elem_of_cons in Hq as [Hqx Hq].
    rewrite !list_lookup_insert_ne by congruence. apply Hrest, Hq. }
  split.
  { intros q Hq. apply elem_of_erase_item in Hq. apply elem_of_app in Hq as [Hq|Hq].
    - destruct (Hfl q Hq) as [Hs|Hs]; [left; right; exact Hs|right; exact Hs].
    - apply list_elem_of_singleton in Hq. subst q. left. left. }
  split.
  { intros q a Hq Ha Hop. apply elem_of_cons in Hq as [->|Hq].
    - right. unfold operands in Ha. rewrite HiF in Ha. cbn in Ha. rewrite Ha0 in Ha.
      cbn in Ha. apply list_elem_of_singleton in Ha. subst a.
      destruct (Hfl p Hp1) as [Hs|Hs]; [exact Hs|].
      rewrite <- (is_operation_alike _ _ p alike_F), (Hflows p Hs) in Hop. discriminate.
    - right. eapply Hcl; eassumption. }
  intros q Hq. apply elem_of_cons in Hq as [->|Hq]; [exact Hxo|apply Hso, Hq].
Qed.

(** The body of the loop over the instructions, in the first run and in
    the second.  [F] has at [x] what the first run leaves there. *)
Lemma instruction_sim seen x bi k s1 s2 ign' s1a :
  x ∉ seen -> x ∈ order ->
  (forall arg, arg ∈ operands ops0 x -> is_operation ops0 arg = true -> arg ∈ seen) ->
  Inv seen s1 s2 ->
  inline_instruction fn bi [] k x s1 = Ok (ign', s1a) ->
  F !! x = d_ops s1a !! x ->
  ign' = [] /\
  exists s2a, inline_instruction fn bi [] k x s2 = Ok ([], s2a) /\
    Inv (x :: seen) s1a s2a.
Proof.
  intros Hnew Hxo Hops HI H HFx.
  destruct (is_operation ops0 x) eqn:Hop.
  - destruct HF as [_ HF']. destruct (HF' x) as [Ht|Hel].
    + assert (exists i0, ops0 !! x = Some i0) as [i0 Hi0].
      { unfold is_operation in Hop. destruct (ops0 !! x); [eauto|discriminate]. }
      eapply visit_tight; eassumption.
    + eapply visit_elided; eassumption.
  - (* a label, a variable: emitted, and nothing else *)
    destruct HI as (Hf & HdF & Hlen & Hcells & Hrest & Hfl & Hcl & Hso).
    unfold inline_instruction in H |- *. simpl existsb in H |- *. cbv iota in H |- *.
    apply bindM_Ok in H as (u & s1p & Hpush & H). apply modify_Ok in Hpush. subst s1p.
    rewrite (bindM_run _ _ s2 tt
      {| d_ops := d_ops s2; vars := vars s2; funcops := funcops s2 ++ [x] |}) by reflexivity.
    apply bindM_Ok in H as (i & t & Hi & H). apply reading_Ok in Hi as [Hi ->].
    apply deref_Ok in Hi. cbn in Hi. rewrite (Hrest x Hnew) in Hi.
    assert (Hnone : op i = None).
    { unfold is_operation in Hop. rewrite Hi in Hop. destruct (op i); [discriminate|reflexivity]. }
    rewrite Hnone in H. apply ret_Ok in H as [-> ->]. split; [reflexivity|].
    assert (HxF : F !! x = Some i) by (rewrite (no_operation_cell x Hop); exact Hi).
    eexists. split.
    { rewrite (bindM_run _ _ _ i
        {| d_ops := d_ops s2; vars := vars s2; funcops := funcops s2 ++ [x] |}).
      - rewrite Hnone. reflexivity.
      - apply reading_run, deref_run. cbn. rewrite HdF. exact HxF. }
    unfold Inv. cbn [d_ops vars funcops].
    split; [rewrite Hf; reflexivity|]. split; [exact HdF|]. split; [exact Hlen|].
    split.
    { intros p Hp. apply elem_of_cons in Hp as [->|Hp]; [|apply Hcells, Hp].
      rewrite (Hrest x Hnew), HxF. exact Hi. }
    split.
    { intros p Hp. apply not_elem_of_cons in Hp as [_ Hp]. apply Hrest, Hp. }
    split.
    { intros p Hp. apply elem_of_app in Hp as [Hp|Hp].
      - destruct (Hfl p Hp) as [Hs|Hs]; [left; right; exact Hs|right; exact Hs].
      - apply list_elem_of_singleton in Hp. subst p. left. left. }
    split.
    { intros p a Hp Ha Hopa. apply elem_of_cons in Hp as [->|Hp].
      - unfold operands in Ha. rewrite HxF, Hnone in Ha. inversion Ha.
      - right. eapply Hcl; eassumption. }
    intros p Hp. apply elem_of_cons in Hp as [->|Hp]; [exact Hxo|apply Hso, Hp].
Qed.

(** *** The loops of the two runs *)

Lemma instructions_sim bi rest : forall seen k s1 s2 u s1',
  defined_before_use ops0 seen rest = true ->
  (forall p, p ∈ rest -> p ∈ order) ->
  Inv seen s1 s2 ->
  inline_instructions fn bi [] k rest s1 = Ok (u, s1') ->
  (forall p, p ∈ rest -> F !! p = d_ops s1' !! p) ->
  exists s2', inline_instructions fn bi [] k rest s2 = Ok (tt, s2') /\
    Inv (rev rest ++ seen) s1' s2'.
Proof.
  induction rest as [|x rest IH]; intros seen k s1 s2 u s1' Hdbu Hsub HI H HFr.
  - simpl in H |- *. apply ret_Ok in H as [_ ->]. exists s2. split; [reflexivity|exact HI].
  - simpl in H. apply bindM_Ok in H as (ign' & s1a & Hstep & Hrest).
    apply defined_before_use_cons in Hdbu as (Hnew & Hops & Hdbu).
    assert (HFa : F !! x = d_ops s1a !! x).
    { rewrite (HFr x) by left.
      pose proof (touches_inline_instructions fn bi rest rest ign' (S k)
                    (fun p Hp => Hp) _ _ _ Hrest) as T.
      apply T. intros Hin. apply (defined_before_use_fresh _ _ _ _ Hdbu Hin). left. }
    destruct (instruction_sim _ _ _ _ _ _ _ _ Hnew (Hsub x ltac:(left)) Hops HI Hstep HFa)
      as (-> & s2a & Hstep2 & HIa).
    destruct (IH _ _ _ _ _ _ Hdbu (fun p Hp => Hsub p ltac:(right; exact Hp))
                HIa Hrest) as (s2' & Hrest2 & HI').
    { intros p Hp. apply HFr. right. exact Hp. }
    exists s2'. split.
    + simpl. rewrite (bindM_run _ _ _ _ _ Hstep2). exact Hrest2.
    + simpl rev. rewrite <- app_assoc. exact HI'.
Qed.

Lemma sim_Inv_on_funcops seen f :
  (forall l p, p ∈ f l -> p ∈ l \/ p ∈ flows) ->
  sim (Inv seen) (on_funcops f) (on_funcops f) (same (Inv seen)).
Proof.
  intros Hsub s1 s2 u s1' HR E. apply modify_Ok in E as ->.
  exists tt. eexists. split; [reflexivity|]. split; [destruct u; reflexivity|].
  destruct HR as (Hf & HdF & Hlen & Hcells & Hrest & Hfl & Hcl & Hso).
  unfold Inv. cbn [d_ops vars funcops]. rewrite Hf.
  split; [reflexivity|]. split; [exact HdF|]. split; [exact Hlen|].
  split; [exact Hcells|]. split; [exact Hrest|]. split; [|split; assumption].
  intros p Hp. destruct (Hsub _ _ Hp) as [Hl|Hl]; [|right; exact Hl].
  apply Hfl. rewrite Hf. exact Hl.
Qed.

Lemma sim_Inv_push seen p :
  p ∈ flows -> sim (Inv seen) (on_funcops (fun l => l ++ [p])) (on_funcops (fun l => l ++ [p]))
                 (same (Inv seen)).
Proof.
  intros Hp. apply sim_Inv_on_funcops. intros l q Hq.
  apply elem_of_app in Hq as [Hq|Hq]; [left; exact Hq|].
  apply list_elem_of_singleton in Hq. subst q. right. exact Hp.
Qed.

Lemma sim_Inv_erase seen p :
  sim (Inv seen) (on_funcops (fun l => erase_item l p)) (on_funcops (fun l => erase_item l p))
    (same (Inv seen)).
Proof.
  apply sim_Inv_on_funcops. intros l q Hq. left. eapply elem_of_erase_item, Hq.
Qed.

Lemma sim_Inv_deref seen p :
  fixed seen p ->
  sim (Inv seen) (reading (fun ops => deref ops p)) (reading (fun ops => deref ops p))
    (same (Inv seen)).
Proof.
  intros Hp. apply sim_reading. intros s1 s2 i1 HR E. exists i1.
  split; [|split; [reflexivity|exact HR]].
  unfold deref in E |- *. rewrite (fixed_cell _ _ _ p HR Hp) in E.
  destruct HR as (_ & -> & _). exact E.
Qed.

Lemma sim_inline_block_end seen ids blk :
  (forall m, mergeFlow blk = Some m -> m ∈ flows) ->
  (forall e, exitFlow blk = Some e -> e ∈ flows) ->
  sim (Inv seen) (inline_block_end ids blk) (inline_block_end ids blk) (same (Inv seen)).
Proof.
  intros Hm He. unfold inline_block_end. eapply sim_bind_same.
  { destruct (mergeFlow blk) as [m|]; [apply sim_Inv_push, Hm; reflexivity|apply sim_ret]. }
  intros _. destruct (exitFlow blk) as [e|]; [|apply sim_ret].
  specialize (He e eq_refl).
  eapply sim_bind_same; [apply sim_Inv_deref; right; apply Hflows, He|]. intros ei.
  eapply sim_bind_same; [apply sim_lift_opt|]. intros fl.
  eapply sim_bind_same.
  { destruct (condition fl); [apply sim_Inv_erase|apply sim_ret]. }
  intros _. eapply sim_bind_same; [|intros _; apply sim_Inv_push, He].
  destruct (Op_eqb (opcode ei) OpReturnValue); [|apply sim_ret].
  eapply sim_bind_same; [apply sim_lift_opt|]. intros t.
  eapply sim_bind_same; [apply sim_lift_opt|]. intros arg.
  destruct arg; [apply sim_Inv_erase|apply sim_ret].
Qed.

Lemma block_sim ids seen b blockInst bi0 blk s1 s2 u s1' :
  ops0 !! blockInst = Some bi0 -> block bi0 = Some blk ->
  blockInst ∈ flows ->
  (forall m, mergeFlow blk = Some m -> m ∈ flows) ->
  (forall e, exitFlow blk = Some e -> e ∈ flows) ->
  defined_before_use ops0 seen (instructions blk) = true ->
  (forall p, p ∈ instructions blk -> p ∈ order) ->
  Inv seen s1 s2 ->
  inline_block ids fn b blockInst s1 = Ok (u, s1') ->
  (forall p, p ∈ instructions blk -> F !! p = d_ops s1' !! p) ->
  exists s2', inline_block ids fn b blockInst s2 = Ok (tt, s2') /\
    Inv (rev (instructions blk) ++ seen) s1' s2'.
Proof.
  intros Hbi0 Hblk Hbf Hm He Hdbu Hsub HI H HFb. unfold inline_block in H |- *.
  assert (Hkb : fixed seen blockInst) by (right; apply Hflows, Hbf).
  apply bindM_Ok in H as (bi1 & t & H1 & H).
  destruct (sim_Inv_deref _ _ Hkb _ _ _ _ HI H1) as (bi2 & t2 & H1' & <- & _).
  rewrite (bindM_run _ _ _ _ _ H1').
  apply reading_Ok in H1 as [H1 ->]. apply reading_Ok in H1' as [H1' ->].
  apply deref_Ok in H1.
  rewrite (fixed_cell _ _ _ _ HI Hkb), (no_operation_cell _ (Hflows _ Hbf)), Hbi0 in H1.
  inversion H1; subst bi1. rewrite Hblk in H |- *.
  apply bindM_Ok in H as (blk' & t & H2 & H). apply lift_opt_Ok in H2 as [H2 ->].
  inversion H2; subst blk'.
  rewrite (bindM_run _ _ s2 blk s2) by reflexivity.
  apply bindM_Ok in H as (u1 & s1p & Hpush & H).
  assert (exists s2p, (if (0 <? b)%nat then on_funcops (fun l => l ++ [blockInst]) else ret tt) s2
                      = Ok (tt, s2p) /\ Inv seen s1p s2p) as (s2p & Hpush2 & HIp).
  { destruct (0 <? b)%nat.
    - destruct (sim_Inv_push _ _ Hbf _ _ _ _ HI Hpush) as ([] & s2p & E & _ & HIp).
      eauto.
    - apply ret_Ok in Hpush as [_ ->]. exists s2. split; [reflexivity|exact HI]. }
  rewrite (bindM_run _ _ _ _ _ Hpush2).
  apply bindM_Ok in H as (u2 & s1i & Hinstrs & Hend).
  destruct (instructions_sim _ _ _ _ _ _ _ _ Hdbu Hsub HIp Hinstrs)
    as (s2i & Hinstrs2 & HIi).
  { intros p Hp. rewrite (HFb p Hp).
    pose proof (touches_inline_block_end [] ids blk _ _ _ Hend) as T.
    apply T. apply not_elem_of_nil. }
  rewrite (bindM_run _ _ _ _ _ Hinstrs2).
  destruct (sim_inline_block_end _ ids blk Hm He _ _ _ _ HIi Hend) as ([] & s2' & Hend2 & _ & HI').
  exists s2'. split; [exact Hend2|exact HI'].
Qed.

Lemma elem_of_option_list {A} (o : option A) (p : A) : p ∈ option_list o <-> o = Some p.
Proof.
  destruct o as [a|]; simpl.
  - rewrite list_elem_of_singleton. split; [intros ->; reflexivity|intros [= ->]; reflexivity].
  - split; [intros H; inversion H|discriminate].
Qed.

Lemma flow_instructions_cons b rest bi blk p :
  ops0 !! b = Some bi -> block bi = Some blk ->
  p ∈ flow_instructions ops0 (b :: rest) <->
  p = b \/ mergeFlow blk = Some p \/ exitFlow blk = Some p \/ p ∈ flow_instructions ops0 rest.
Proof.
  intros Hb Hblk. simpl. rewrite Hb, Hblk.
  rewrite elem_of_cons, !elem_of_app, !elem_of_option_list. tauto.
Qed.

Lemma blocks_sim ids rest : forall l seen b s1 s2 u s1',
  linear_order ops0 rest = Some l ->
  (forall p, p ∈ flow_instructions ops0 rest -> p ∈ flows) ->
  defined_before_use ops0 seen l = true ->
  (forall p, p ∈ l -> p ∈ order) ->
  Inv seen s1 s2 ->
  inline_blocks ids fn b rest s1 = Ok (u, s1') ->
  (forall p, p ∈ l -> F !! p = d_ops s1' !! p) ->
  exists s2', inline_blocks ids fn b rest s2 = Ok (tt, s2') /\
    Inv (rev l ++ seen) s1' s2'.
Proof.
  induction rest as [|blockInst rest IH]; intros l seen b s1 s2 u s1' Hl Hfl Hdbu Hsub HI H HFl.
  - simpl in Hl. inversion Hl; subst l. simpl in H |- *.
    apply ret_Ok in H as [_ ->]. exists s2. split; [reflexivity|exact HI].
  - apply linear_order_cons in Hl as (bi0 & blk & l' & Hbi0 & Hblk & Hl' & ->).
    pose proof Hdbu as Hdis.
    apply defined_before_use_app in Hdbu as [Hd1 Hd2].
    pose proof (fun p => proj2 (flow_instructions_cons blockInst rest bi0 blk p Hbi0 Hblk)) as Hfc.
    simpl in H. apply bindM_Ok in H as (u1 & s1m & Hblock & Hrest).
    destruct (block_sim ids seen b blockInst bi0 blk s1 s2 u1 s1m Hbi0 Hblk) as (s2m & Hblock2 & HIm);
      try assumption.
    { apply Hfl, Hfc. left. reflexivity. }
    { intros m Hm. apply Hfl, Hfc. right. left. exact Hm. }
    { intros e He. apply Hfl, Hfc. right. right. left. exact He. }
    { intros p Hp. apply Hsub, elem_of_app. left. exact Hp. }
    { intros p Hp. rewrite (HFl p) by (apply elem_of_app; auto).
      assert (Hlm : linear_order (d_ops s1m) rest = Some l').
      { rewrite <- Hl'. symmetry.
        assert (Hb1 : d_ops s1 !! blockInst = Some bi0).
        { rewrite (fixed_cell _ _ _ blockInst HI)
            by (right; apply Hflows, Hfl, Hfc; left; reflexivity).
          rewrite no_operation_cell by (apply Hflows, Hfl, Hfc; left; reflexivity).
          exact Hbi0. }
        rewrite (linear_order_alike _ _ rest (alike_trans _ _ _ alike_F
                   (alike_sym _ _ (Inv_alike _ _ _ HI)))).
        symmetry. apply (linear_order_touched _ _ _ _
                 (inline_block_touched _ _ _ _ _ _ _ _ _ Hblock Hb1 Hblk)). }
      pose proof (inline_blocks_touched _ _ _ _ _ _ _ _ Hrest Hlm) as T.
      apply T. eapply defined_before_use_disjoint; eassumption. }
    destruct (IH l' (rev (instructions blk) ++ seen) (S b) s1m s2m u s1' Hl')
      as (s2' & Hrest2 & HI'); try assumption.
    { intros p Hp. apply Hfl, Hfc. right. right. right. exact Hp. }
    { intros p Hp. apply Hsub, elem_of_app. right. exact Hp. }
    { intros p Hp. apply HFl. apply elem_of_app. auto. }
    exists s2'. split.
    + simpl. rewrite (bindM_run _ _ _ _ _ Hblock2). exact Hrest2.
    + rewrite rev_app_distr, <- app_assoc. exact HI'.
Qed.

End SecondRun.

Lemma forallb_elem_of {A} (f : A -> bool) (l : list A) :
  forallb f l = true -> forall x, x ∈ l -> f x = true.
Proof.
  intros H x Hx. rewrite forallb_forall in H. apply H, list_elem_of_In, Hx.
Qed.

Lemma inline_function_rerun ids fn s0 d1 order :
  linear_order (d_ops s0) (blocks fn) = Some order ->
  defined_before_use (d_ops s0) [] order = true ->
  plain_function (d_ops s0) (blocks fn) order = true ->
  inline_function ids fn s0 = Ok (tt, d1) ->
  small_elisions (d_ops d1) order = true ->
  exists d2, inline_function ids fn d1 = Ok (tt, d2) /\
    d_ops d2 = d_ops d1 /\ funcops d2 = funcops d1.
Proof.
  intros Hl Hdbu Hplain H Hsmall.
  set (ops0 := d_ops s0) in *.
  set (flows := flow_instructions ops0 (blocks fn)).
  unfold plain_function in Hplain. apply andb_true_iff in Hplain as [Hfl Hpl].
  fold flows in Hfl, Hpl.
  assert (Hflows : forall p, p ∈ flows -> is_operation ops0 p = false).
  { intros p Hp. apply negb_true_iff. apply (forallb_elem_of _ _ Hfl p Hp). }
  pose proof (forallb_elem_of _ _ Hpl) as Hplain.
  pose proof (forallb_elem_of _ _ Hsmall) as Hsm.
  pose proof (inline_function_elides ops0 fn order (order ++ flows) Hl Hplain
                ids s0 tt d1 eq_refl Hdbu H) as HF.
  unfold inline_function in H |- *.
  apply bindM_Ok in H as (u1 & t1 & E1 & H). apply modify_Ok in E1. subst t1.
  apply bindM_Ok in H as (u2 & t2 & E2 & H). apply modify_Ok in E2. subst t2.
  cbn [d_ops vars funcops] in H.
  set (s1 := {| d_ops := d_ops s0; vars := variables fn; funcops := [] |}) in *.
  set (s2 := {| d_ops := d_ops d1; vars := variables fn; funcops := [] |}).
  change (exists d2, inline_blocks ids fn 0 (blocks fn) s2 = Ok (tt, d2) /\
            d_ops d2 = d_ops d1 /\ funcops d2 = funcops d1).
  assert (HI : Inv ops0 (d_ops d1) order flows [] s1 s2).
  { unfold Inv. subst s1 s2. cbn [d_ops vars funcops].
    split; [reflexivity|]. split; [reflexivity|].
    split; [symmetry; apply HF|].
    split; [intros p Hp; inversion Hp|]. split; [reflexivity|].
    split; [intros p Hp; inversion Hp|].
    split; intros p; [intros a Hp|intros Hp]; inversion Hp. }
  destruct (blocks_sim ops0 (d_ops d1) fn order flows Hplain Hflows HF Hsm ids
              (blocks fn) order [] 0%nat s1 s2 tt d1 Hl (fun p Hp => Hp) Hdbu
              (fun p Hp => Hp) HI H (fun p Hp => eq_refl))
    as (d2 & H2 & HI').
  exists d2. split; [exact H2|].
  destruct HI' as (Hf & Hd & _). auto.
Qed.


(** In [v = 1.0; w = v] the first run elides [v]: the load at 10 has the
    store at 9 as its argument, and the emit list is the store to [w] and
    the return.  The second run leaves both as they are; it differs in the
    variables, where it keeps [v]. *)
Lemma relay_elides_its_variable :
  run_inliner (pmod Elisions.relay_state) 5 = Ok Elisions.relay_once /\
  rerun_inliner (pmod Elisions.relay_state) 5 Elisions.relay_once = Ok Elisions.relay_twice /\
  operands (operations (pmod Elisions.relay_state)) 10 = [7]%nat /\
  operands (d_ops Elisions.relay_once) 10 = [9]%nat /\
  funcops Elisions.relay_once = [11; 12]%nat /\
  vars Elisions.relay_once = [8]%nat /\
  vars Elisions.relay_twice = [7; 8]%nat.
Proof. repeat split; reflexivity. Qed.


(** The function of the counterexample is plain; what it lacks is the
    small store. *)
Lemma reload_store_is_not_small :
  plain_function (operations (pmod Reruns.reload_state))
    (blocks (Samples.function_at (operations (pmod Reruns.reload_state)) 5))
    [8; 9; 10; 11; 12]%nat = true /\
  small_elisions (d_ops Reruns.reload_once) [8; 9; 10; 11; 12]%nat = false.
Proof. split; reflexivity. Qed.

(** A call breaks idempotence as well.  In [v = 1.0 + 1.0; f(v)] the
    first run folds the variable into the call, which gets the complexity
    1, and then puts the stored sum in its place; the second run folds the
    sum, of complexity 1, and the call gets the complexity 2. *)
Lemma inliner_call_not_idempotent :
  run_inliner (pmod Elisions.call_state) 5 = Ok Elisions.call_once /\
  rerun_inliner (pmod Elisions.call_state) 5 Elisions.call_once = Ok Elisions.call_twice /\
  operands (operations (pmod Elisions.call_state)) 10 = [7]%nat /\
  operands (d_ops Elisions.call_once) 10 = [8]%nat /\
  complexity_at (d_ops Elisions.call_once) 10 = 1 /\
  complexity_at (d_ops Elisions.call_twice) 10 = 2.
Proof. repeat split; reflexivity. Qed.

(** So does a composite insert that takes in the instruction before it:
    the bit that the merge sets is seen by the second run, which adds one
    to the complexity. *)
Lemma inliner_insert_not_idempotent :
  run_inliner (pmod Elisions.patch_state) 5 = Ok Elisions.patch_once /\
  rerun_inliner (pmod Elisions.patch_state) 5 Elisions.patch_once = Ok Elisions.patch_twice /\
  bits_at (d_ops Elisions.patch_once) 11 = 2 /\
  complexity_at (d_ops Elisions.patch_once) 11 = 0 /\
  complexity_at (d_ops Elisions.patch_twice) 11 = 1.
Proof. repeat split; reflexivity. Qed.

(** And so does a load through an access chain that the loop over the
    arguments refuses (it has complexity 3) while the load takes the store
    through it in: the second run folds the store, and sets the bit that
    the first run has left clear. *)
Lemma inliner_chain_not_idempotent :
  run_inliner (pmod Elisions.chain_state) 5 = Ok Elisions.chain_once /\
  rerun_inliner (pmod Elisions.chain_state) 5 Elisions.chain_once = Ok Elisions.chain_twice /\
  complexity_at (operations (pmod Elisions.chain_state)) 10 = 0 /\
  complexity_at (d_ops Elisions.chain_once) 10 = 3 /\
  operands (d_ops Elisions.chain_once) 12 = [11]%nat /\
  bits_at (d_ops Elisions.chain_once) 12 = 0 /\
  bits_at (d_ops Elisions.chain_twice) 12 = 1.
Proof. repeat split; reflexivity. Qed.


(** * Further properties *)

(** ** More about the helpers and the tables *)

Lemma erase_item_absent (l : list nat) x : x ∉ l -> erase_item l x = l.
Proof.
  induction l as [|y l IH]; intros H; simpl; [reflexivity|].
  apply not_elem_of_cons in H as [Hne Hl].
  destruct (Nat.eqb_spec y x); [congruence|]. rewrite IH; auto.
Qed.

Lemma erase_item_middle (l1 l2 : list nat) x :
  x ∉ l1 -> erase_item (l1 ++ x :: l2) x = l1 ++ l2.
Proof.
  induction l1 as [|y l1 IH]; intros H; simpl.
  - rewrite Nat.eqb_refl. reflexivity.
  - apply not_elem_of_cons in H as [Hne Hl].
    destruct (Nat.eqb_spec y x); [congruence|]. rewrite IH; auto.
Qed.

(** X1.  [erase_item] takes out the first occurrence of the element and
    nothing else, whatever the vector: a vector without the element is
    returned as it is, and otherwise the result is the vector without its
    first occurrence, one element shorter. *)
Theorem erase_item_first_occurrence (l : list nat) x :
  ((x ∉ l) /\ erase_item l x = l) \/
  (exists l1 l2, l = l1 ++ x :: l2 /\ (x ∉ l1) /\ erase_item l x = l1 ++ l2 /\
     S (length (erase_item l x)) = length l).
Proof.
  destruct (decide (x ∈ l)) as [Hin|Hout].
  - right. apply list_elem_of_split_l in Hin as (l1 & l2 & -> & Hl1).
    exists l1, l2. rewrite erase_item_middle by exact Hl1.
    repeat split; auto. rewrite !length_app. simpl. lia.
  - left. split; [exact Hout|apply erase_item_absent, Hout].
Qed.

(** *** The order of bind points *)

Lemma bindpair_lt_irrefl {T} (a : bindpair T) : bindpair_lt a a = false.
Proof.
  unfold bindpair_lt. rewrite Z.eqb_refl. simpl.
  destruct (bind (map a) =? -1); simpl; [reflexivity|apply Z.ltb_irrefl].
Qed.

(** The comparison as a key: the descriptor set, then whether the binding
    is -1, then the binding. *)
Lemma bindpair_lt_spec {T} (a b : bindpair T) :
  bindpair_lt a b = true <->
  bindset (map a) < bindset (map b) \/
  (bindset (map a) = bindset (map b) /\ bind (map a) <> -1 /\
   (bind (map b) = -1 \/ bind (map a) < bind (map b))).
Proof.
  unfold bindpair_lt.
  destruct (Z.eqb_spec (bindset (map a)) (bindset (map b))) as [E|E];
    destruct (Z.eqb_spec (bind (map a)) (-1)) as [Ea|Ea];
    destruct (Z.eqb_spec (bind (map b)) (-1)) as [Eb|Eb]; simpl;
    rewrite ?Z.ltb_lt; split; intros H; first [reflexivity|discriminate|lia].
Qed.

Lemma bindpair_lt_false {T} (a b : bindpair T) :
  bindpair_lt a b = false <->
  bindset (map b) < bindset (map a) \/
  (bindset (map a) = bindset (map b) /\
   (bind (map a) = -1 \/ (bind (map b) <> -1 /\ bind (map b) <= bind (map a)))).
Proof.
  rewrite <- not_true_iff_false, bindpair_lt_spec.
  destruct (Z.eq_dec (bind (map a)) (-1)), (Z.eq_dec (bind (map b)) (-1)); lia.
Qed.

(** X2.  [bindpair::operator<] is a strict weak ordering, which is what
    [std::sort] asks of it: nothing is less than itself, the order is
    transitive, and so is being neither less nor greater. *)
Theorem bindpair_lt_strict_weak_order {T} :
  (forall a : bindpair T, bindpair_lt a a = false) /\
  (forall a b c : bindpair T,
     bindpair_lt a b = true -> bindpair_lt b c = true -> bindpair_lt a c = true) /\
  (forall a b c : bindpair T,
     bindpair_lt a b = false -> bindpair_lt b a = false ->
     bindpair_lt b c = false -> bindpair_lt c b = false ->
     bindpair_lt a c = false /\ bindpair_lt c a = false).
Proof.
  split; [apply bindpair_lt_irrefl|]. split.
  - intros a b c. rewrite !bindpair_lt_spec. lia.
  - intros a b c. rewrite !bindpair_lt_false. lia.
Qed.

Lemma sorted_by_pairwise {A} (lt : A -> A -> bool) (l : list A) :
  (forall x y z, lt y x = false -> lt z y = false -> lt z x = false) ->
  sorted_by lt l ->
  forall i j a b, (i < j)%nat -> l !! i = Some a -> l !! j = Some b -> lt b a = false.
Proof.
  unfold sorted_by. intros Htrans Hs.
  apply Sorted_StronglySorted in Hs; [|intros x y z; apply Htrans].
  induction Hs as [|x l Hs IH Hall]; intros i j a b Hij Ha Hb.
  - rewrite lookup_nil in Ha. discriminate.
  - destruct j as [|j]; [lia|]. simpl in Hb. destruct i as [|i].
    + simpl in Ha. inversion Ha; subst a.
      rewrite Forall_forall in Hall. apply Hall.
      eapply list_elem_of_lookup_2, Hb.
    + simpl in Ha. apply (IH i j); auto. lia.
Qed.

Lemma sorted_by_bindpair_pairwise {T} (l : list (bindpair T)) :
  sorted_by bindpair_lt l ->
  forall i j a b, (i < j)%nat -> l !! i = Some a -> l !! j = Some b ->
    bindpair_lt b a = false.
Proof.
  apply sorted_by_pairwise. intros x y z. rewrite !bindpair_lt_false. lia.
Qed.

(** X3.  The tables that [MakeReflection] puts out come in the order of the
    comparison, whatever [std::sort] does with entries that compare
    equal: the descriptor sets ascend; within one descriptor set the
    entries without a binding (-1) come after those with one, and the
    bindings ascend. *)
Theorem reflection_tables_order {T} (pairs sorted : list (bindpair T)) i j a b :
  is_std_sort bindpair_lt pairs sorted ->
  (i < j)%nat -> sorted !! i = Some a -> sorted !! j = Some b ->
  bindset (map a) <= bindset (map b) /\
  (bindset (map a) = bindset (map b) ->
   (bind (map a) = -1 -> bind (map b) = -1) /\
   (bind (map b) <> -1 -> bind (map a) <= bind (map b))).
Proof.
  intros [_ Hs] Hij Ha Hb.
  pose proof (sorted_by_bindpair_pairwise _ Hs i j a b Hij Ha Hb) as H.
  apply bindpair_lt_false in H. lia.
Qed.

Lemma reflection_tables_order_witness :
  bindset (Inputs.bindpoint 0 (-1)) <= bindset (Inputs.bindpoint 1 0) /\
  (bindset (Inputs.bindpoint 0 (-1)) = bindset (Inputs.bindpoint 1 0) ->
   (bind (Inputs.bindpoint 0 (-1)) = -1 -> bind (Inputs.bindpoint 1 0) = -1) /\
   (bind (Inputs.bindpoint 1 0) <> -1 ->
    bind (Inputs.bindpoint 0 (-1)) <= bind (Inputs.bindpoint 1 0))).
Proof.
  apply (reflection_tables_order Inputs.two_sets (std_sort bindpair_lt Inputs.two_sets) 0 1
           {| map := Inputs.bindpoint 0 (-1); bindres := "unbound"%string |}
           {| map := Inputs.bindpoint 1 0; bindres := "bound"%string |}).
  - apply std_sort_bindpair.
  - lia.
  - reflexivity.
  - reflexivity.
Defined.

Lemma imap_lookup_Some {A B} (f : nat -> A -> B) (l : list A) i y :
  imap f l !! i = Some y -> exists x, l !! i = Some x /\ y = f i x.
Proof.
  rewrite list_lookup_imap. destruct (l !! i) as [x|]; simpl; [|discriminate].
  intros H. inversion H. eauto.
Qed.

(** X4.  The two tables of [MakeReflection] go together.  They are as long
    as the list of collected resources and hold the same resources;
    entry [i] of the reflection has the bind point [i], and entry [i] of
    the mapping is the bind point of that resource, with a binding of -1
    turned into 0.  No binding of the mapping is -1. *)
Theorem reflection_tables_aligned {T} (pairs : list (bindpair T)) :
  let '(mapping, reflection) := MakeReflection_tables pairs in
  length mapping = length pairs /\ length reflection = length pairs /\
  Permutation (bindres <$> pairs) (fst <$> reflection) /\
  (forall i r b, reflection !! i = Some (r, b) ->
     b = Z.of_nat i /\
     exists p, p ∈ pairs /\ bindres p = r /\ mapping !! i = Some (fix_bind (map p))) /\
  (forall m, m ∈ mapping -> bind m <> -1).
Proof.
  unfold MakeReflection_tables.
  pose proof (std_sort_perm bindpair_lt pairs) as Hperm.
  set (sorted := std_sort bindpair_lt pairs) in *.
  split; [|split; [|split; [|split]]].
  - unfold mapping_of. rewrite length_map. symmetry. apply Permutation_length, Hperm.
  - unfold reflection_of. rewrite length_imap. symmetry. apply Permutation_length, Hperm.
  - rewrite Hperm. unfold reflection_of.
    assert (E : fst <$> imap (fun i p => (bindres p, Z.of_nat i)) sorted = bindres <$> sorted).
    { apply list_eq. intros i. rewrite !list_lookup_fmap, list_lookup_imap.
      destruct (sorted !! i); reflexivity. }
    rewrite E. reflexivity.
  - intros i r b H. unfold reflection_of in H.
    apply imap_lookup_Some in H as (p & Hp & E). inversion E; subst r b.
    split; [reflexivity|]. exists p. split; [|split; [reflexivity|]].
    + rewrite Hperm. eapply list_elem_of_lookup_2, Hp.
    + unfold mapping_of. change (List.map ?f ?l) with (f <$> l).
      rewrite list_lookup_fmap, Hp. reflexivity.
  - intros m Hm. unfold mapping_of in Hm.
    apply list_elem_of_In, in_map_iff in Hm as (p & <- & _).
    unfold fix_bind. destruct (Z.eqb_spec (bind (map p)) (-1)); simpl; lia.
Qed.

(** ** What the sweep takes out *)

Lemma statements_app ops l1 l2 :
  statements ops (l1 ++ l2) = statements ops l1 ++ statements ops l2.
Proof. unfold statements. apply List.filter_app. Qed.

Lemma statements_cons ops x l :
  statements ops (x :: l) =
  if negb (branch_or_label ops x) then x :: statements ops l else statements ops l.
Proof. reflexivity. Qed.

Lemma sweep_rec_sublist ops : forall n rest kept out,
  (length rest <= n)%nat ->
  sweep_rec ops kept rest = Ok out ->
  exists tail, out = kept ++ tail /\ sublist tail rest /\ out <> [] /\
    statements ops tail = statements ops rest.
Proof.
  induction n as [|n IH]; intros rest kept out Hn H.
  - destruct rest as [|x rest]; [|simpl in Hn; lia]. simpl in H.
    destruct kept as [|k kept]; [discriminate|]. inversion H; subst out.
    exists []. rewrite app_nil_r. repeat split; auto; discriminate.
  - destruct rest as [|x [|y rest2]].
    + simpl in H. destruct kept as [|k kept]; [discriminate|]. inversion H; subst out.
      exists []. rewrite app_nil_r. repeat split; auto; discriminate.
    + simpl in H. inversion H; subst out. exists [x]. repeat split; auto.
      intros E. apply app_eq_nil in E as [_ E]. discriminate.
    + rewrite sweep_rec_unfold in H. simpl in Hn.
      assert (Hn1 : (length (y :: rest2) <= n)%nat) by (simpl; lia).
      assert (Hn2 : (length rest2 <= n)%nat) by lia.
      apply rbind_Ok in H as (xi & Hxi & H). apply deref_Ok in Hxi.
      assert (Hkeep : forall out, sweep_rec ops (kept ++ [x]) (y :: rest2) = Ok out ->
        exists tail, out = kept ++ tail /\ sublist tail (x :: y :: rest2) /\ out <> [] /\
          statements ops tail = statements ops (x :: y :: rest2)).
      { intros out' H'. destruct (IH _ _ _ Hn1 H') as (tail & -> & Hsub & Hne & Hst).
        exists (x :: tail). split; [rewrite <- app_assoc; reflexivity|].
        split; [apply sublist_skip, Hsub|]. split; [exact Hne|].
        rewrite (statements_cons ops x tail), (statements_cons ops x (y :: rest2)), Hst.
        reflexivity. }
      destruct (Op_eqb (opcode xi) OpBranch) eqn:Hbr; [|apply Hkeep, H].
      apply rbind_Ok in H as (yi & Hyi & H). apply deref_Ok in Hyi.
      apply rbind_Ok in H as (redundant & Hred & H).
      destruct redundant; [|apply Hkeep, H].
      assert (Hlab : Op_eqb (opcode yi) OpLabel = true).
      { destruct (Op_eqb (opcode yi) OpLabel); [reflexivity|]. inversion Hred. }
      assert (Hx : branch_or_label ops x = true).
      { unfold branch_or_label. rewrite Hxi, Hbr. reflexivity. }
      assert (Hy : branch_or_label ops y = true).
      { unfold branch_or_label. rewrite Hyi, Hlab, orb_true_r. reflexivity. }
      apply rbind_Ok in H as (refd & _ & H). destruct refd; simpl in H.
      * destruct (IH _ _ _ Hn1 H) as (tail & -> & Hsub & Hne & Hst).
        exists tail. repeat split; auto.
        -- apply sublist_cons, Hsub.
        -- rewrite (statements_cons ops x (y :: rest2)), Hx, Hst. reflexivity.
      * destruct (IH _ _ _ Hn2 H) as (tail & -> & Hsub & Hne & Hst).
        exists tail. repeat split; auto.
        -- apply sublist_cons, sublist_cons, Hsub.
        -- rewrite (statements_cons ops x (y :: rest2)), (statements_cons ops y rest2),
             Hx, Hy, Hst. reflexivity.
Qed.

(** X5.  The sweep only takes out branches and labels.  What it returns
    is the emit list with some of its elements left out, in the same
    order; it is never empty; and the instructions that are neither
    [OpBranch] nor [OpLabel] are all still there. *)
Theorem sweep_removes_only_branches_and_labels ops (funcops out : list nat) :
  Z.of_nat (length funcops) <= 2 ^ 64 ->
  sweep ops funcops = Ok out ->
  sublist out funcops /\ out <> [] /\ statements ops out = statements ops funcops.
Proof.
  intros Hsize H. rewrite sweep_is_rec in H by exact Hsize.
  destruct (sweep_rec_sublist ops (length funcops) funcops [] out (Nat.le_refl _) H)
    as (tail & -> & Hsub & Hne & Hst).
  auto.
Qed.

Lemma sweep_removes_only_branches_and_labels_witness :
  sublist [6%nat] Samples.branch_funcops /\ [6%nat] <> [] /\
  statements Samples.branch_ops [6%nat] = statements Samples.branch_ops Samples.branch_funcops.
Proof.
  apply (sweep_removes_only_branches_and_labels Samples.branch_ops Samples.branch_funcops).
  - vm_compute. discriminate.
  - reflexivity.
Defined.

Lemma sweep_rec_same ops : forall rest kept out,
  sweep_rec ops kept rest = Ok out ->
  (forall j, ~ redundant_at ops rest j) ->
  out = kept ++ rest.
Proof.
  induction rest as [|x rest IH]; intros kept out H Hno.
  - simpl in H. destruct kept; [discriminate|]. inversion H. rewrite app_nil_r. reflexivity.
  - destruct rest as [|y rest2].
    + simpl in H. inversion H. reflexivity.
    + rewrite sweep_rec_unfold in H.
      assert (Hno' : forall j, ~ redundant_at ops (y :: rest2) j).
      { intros j (x' & y' & xi & yi & fl & H1 & H2 & R). apply (Hno (S j)).
        exists x', y', xi, yi, fl. auto. }
      assert (Hkeep : sweep_rec ops (kept ++ [x]) (y :: rest2) = Ok out ->
                      out = kept ++ x :: y :: rest2).
      { intros H'. rewrite (IH _ _ H' Hno'), <- app_assoc. reflexivity. }
      apply rbind_Ok in H as (xi & Hxi & H). apply deref_Ok in Hxi.
      destruct (Op_eqb (opcode xi) OpBranch) eqn:Hbr; [|apply Hkeep, H].
      apply rbind_Ok in H as (yi & Hyi & H). apply deref_Ok in Hyi.
      apply rbind_Ok in H as (redundant & Hred & H).
      destruct redundant; [|apply Hkeep, H].
      exfalso. apply (Hno 0%nat).
      destruct (Op_eqb (opcode yi) OpLabel) eqn:Hlab; [|inversion Hred].
      apply rbind_Ok in Hred as (fl & Hfl & Hred). apply opt_Ok in Hfl.
      apply rbind_Ok in Hred as (t & Ht & Hred). apply opt_Ok in Ht.
      inversion Hred as [Hid]. apply Z.eqb_eq in Hid. subst t.
      exists x, y, xi, yi, fl. apply Op_eqb_eq in Hbr, Hlab. auto 10.
Qed.

(** X6.  Where no branch stands directly before the label it jumps to,
    the sweep returns the emit list as it is. *)
Theorem sweep_without_redundant_pair ops (funcops out : list nat) :
  Z.of_nat (length funcops) <= 2 ^ 64 ->
  (forall j, ~ redundant_at ops funcops j) ->
  sweep ops funcops = Ok out ->
  out = funcops.
Proof.
  intros Hsize Hno H. rewrite sweep_is_rec in H by exact Hsize.
  apply (sweep_rec_same ops funcops [] out H Hno).
Qed.

Lemma sweep_without_redundant_pair_witness : [8; 9]%nat = [8; 9]%nat.
Proof.
  apply (sweep_without_redundant_pair Samples.store_ops [8; 9]%nat [8; 9]%nat).
  - vm_compute. discriminate.
  - intros j (x & y & xi & yi & fl & Hx & Hy & Hxi & _ & Hbr & _).
    destruct j as [|[|j]]; simpl in Hx, Hy; try discriminate.
    inversion Hx; subst x. vm_compute in Hxi. inversion Hxi; subst xi. discriminate.
  - reflexivity.
Defined.

(** ** What a run of the inliner leaves alone *)

Lemma inline_function_touched ids fn s u s' order :
  linear_order (d_ops s) (blocks fn) = Some order ->
  inline_function ids fn s = Ok (u, s') ->
  touched_in order (d_ops s) (d_ops s').
Proof.
  intros Hl H. unfold inline_function in H.
  apply bindM_Ok in H as (u1 & t1 & E1 & H). apply modify_Ok in E1. subst t1.
  apply bindM_Ok in H as (u2 & t2 & E2 & H). apply modify_Ok in E2. subst t2.
  simpl in H.
  apply (inline_blocks_touched _ _ _ _
           {| d_ops := d_ops s; vars := variables fn; funcops := [] |} _ _ _ H Hl).
Qed.

Lemma run_inliner_Ok m f d :
  run_inliner m f = Ok d ->
  exists fi fn, operations m !! f = Some fi /\ func fi = Some fn /\
    inline_function (ids m) fn {| d_ops := operations m; vars := []; funcops := [] |}
      = Ok (tt, d).
Proof.
  unfold run_inliner. intros H.
  apply rbind_Ok in H as (fi & Hfi & H). apply deref_Ok in Hfi.
  apply rbind_Ok in H as (fn & Hfn & H). apply opt_Ok in Hfn.
  exists fi, fn. split; [exact Hfi|]. split; [exact Hfn|].
  destruct (inline_function _ _ _) as [[[] s]|e]; [|discriminate].
  inversion H. reflexivity.
Qed.

(** X7.  The inliner writes to the payload [op] of the instructions of
    the function it runs over, and to nothing else: every instruction of
    the module keeps its opcode, id, type, flow, block, function, constant
    and variable, and an instruction that is not in a block of the function
    is left as it was. *)
Theorem inliner_writes_operations_of_function m f fi fn order d p :
  operations m !! f = Some fi -> func fi = Some fn ->
  linear_order (operations m) (blocks fn) = Some order ->
  run_inliner m f = Ok d ->
  set_op None <$> d_ops d !! p = set_op None <$> operations m !! p /\
  (p ∉ order -> d_ops d !! p = operations m !! p).
Proof.
  intros Hfi Hfn Hl H. apply run_inliner_Ok in H as (fi' & fn' & Hfi' & Hfn' & H).
  rewrite Hfi in Hfi'. inversion Hfi'; subst fi'.
  rewrite Hfn in Hfn'. inversion Hfn'; subst fn'.
  pose proof (inline_function_touched (ids m) fn
                {| d_ops := operations m; vars := []; funcops := [] |} _ _ _ Hl H p) as [A B].
  split; [exact B|exact A].
Qed.

Lemma inliner_writes_operations_of_function_witness :
  set_op None <$> d_ops Reruns.reload_once !! 12%nat =
    set_op None <$> operations (pmod Reruns.reload_state) !! 12%nat /\
  (12%nat ∉ [8; 9; 10; 11; 12]%nat ->
   d_ops Reruns.reload_once !! 12%nat = operations (pmod Reruns.reload_state) !! 12%nat).
Proof.
  apply (inliner_writes_operations_of_function (pmod Reruns.reload_state) 5
           (Samples.instruction_at (operations (pmod Reruns.reload_state)) 5)
           (Samples.function_at (operations (pmod Reruns.reload_state)) 5)); reflexivity.
Defined.

(** *** The bits of [inlineArgs] *)

(** Every operation of [ops] is an operation of [ops'], with at least the
    bits of [inlineArgs] that it had. *)
Definition bits_kept (ops ops' : list SPVInstruction) : Prop :=
  forall p i o, ops !! p = Some i -> op i = Some o ->
    exists i' o', ops' !! p = Some i' /\ op i' = Some o' /\
      forall n, Z.testbit (inlineArgs o) n = true -> Z.testbit (inlineArgs o') n = true.

#[export] Instance bits_kept_preorder : PreOrder bits_kept.
Proof.
  split.
  - intros ops p i o Hi Ho. exists i, o. auto.
  - intros a b c Hab Hbc p i o Hi Ho.
    destruct (Hab p i o Hi Ho) as (i1 & o1 & Hi1 & Ho1 & H1).
    destruct (Hbc p i1 o1 Hi1 Ho1) as (i2 & o2 & Hi2 & Ho2 & H2).
    exists i2, o2. auto.
Qed.

Lemma bits_kept_update_op p f :
  (forall o n, Z.testbit (inlineArgs o) n = true -> Z.testbit (inlineArgs (f o)) n = true) ->
  keeps bits_kept (update_op p f).
Proof.
  intros Hf s a s' H. apply update_op_Ok in H as (i & o & Hi & Ho & ->). simpl.
  intros q j oj Hj Hoj. destruct (decide (q = p)) as [->|Hq].
  - rewrite Hi in Hj. inversion Hj; subst j. rewrite Ho in Hoj. inversion Hoj; subst oj.
    exists (set_op (Some (f o)) i), (f o).
    rewrite list_lookup_insert_eq by (eapply lookup_lt_Some, Hi). auto.
  - exists j, oj. rewrite list_lookup_insert_ne by congruence. auto.
Qed.

Ltac bits_step :=
  lazymatch goal with
  | |- keeps _ (update_op _ _) =>
      apply bits_kept_update_op; intros ? ? ?; simpl; rewrite ?Z.lor_spec;
      try apply orb_true_iff; auto
  | |- keeps _ (or_inlineArgs _ _) =>
      apply bits_kept_update_op; intros ? ? ?; simpl; rewrite ?Z.lor_spec;
      try apply orb_true_iff; auto
  | |- keeps _ (store_argument _ _ _) => unfold store_argument
  | _ => keeps_step
  end.

Lemma bits_kept_inline_instruction func bi ign i instr :
  keeps bits_kept (inline_instruction func bi ign i instr).
Proof.
  unfold inline_instruction, inline_args, inline_arg, merge_single_store,
    merge_adjacent_store, inline_call, inline_call_argument.
  repeat bits_step.
Qed.

Lemma bits_kept_inline_instructions func bi rest : forall ign i,
  keeps bits_kept (inline_instructions func bi ign i rest).
Proof.
  induction rest as [|instr rest IH]; intros ign i; simpl.
  - apply keeps_ret. tc_solve.
  - apply keeps_bind; [tc_solve|apply bits_kept_inline_instruction|].
    intros ign'. apply IH.
Qed.

Lemma bits_kept_inline_blocks ids func rest : forall b,
  keeps bits_kept (inline_blocks ids func b rest).
Proof.
  induction rest as [|blockInst rest IH]; intros b; simpl.
  - apply keeps_ret. tc_solve.
  - apply keeps_bind; [tc_solve| |intros _; apply IH].
    unfold inline_block, inline_block_end.
    repeat (lazymatch goal with
            | |- keeps _ (inline_instructions _ _ _ _ _) =>
                apply bits_kept_inline_instructions
            | _ => bits_step
            end).
Qed.

(** X8.  The inliner never takes back a fold: an operation of the module
    is an operation afterwards, and every bit of [inlineArgs] that was set
    before the run is set after it. *)
Theorem inliner_keeps_inlineArgs_bits m f d p i o n :
  run_inliner m f = Ok d ->
  operations m !! p = Some i -> op i = Some o ->
  Z.testbit (inlineArgs o) n = true ->
  exists i' o', d_ops d !! p = Some i' /\ op i' = Some o' /\
    Z.testbit (inlineArgs o') n = true.
Proof.
  intros H Hi Ho Hn. apply run_inliner_Ok in H as (fi & fn & _ & _ & H).
  unfold inline_function in H.
  apply bindM_Ok in H as (u1 & t1 & E1 & H). apply modify_Ok in E1. subst t1.
  apply bindM_Ok in H as (u2 & t2 & E2 & H). apply modify_Ok in E2. subst t2.
  destruct (bits_kept_inline_blocks _ _ _ _ _ _ _ H p i o Hi Ho) as (i' & o' & Hi' & Ho' & Hb).
  exists i', o'. auto.
Qed.

Lemma inliner_keeps_inlineArgs_bits_witness :
  exists i' o', d_ops Reruns.reload_twice !! 12%nat = Some i' /\ op i' = Some o' /\
    Z.testbit (inlineArgs o') 0 = true.
Proof.
  apply (inliner_keeps_inlineArgs_bits
           (with_operations (fun _ => d_ops Reruns.reload_once) (pmod Reruns.reload_state))
           5 Reruns.reload_twice 12
           (Samples.instruction_at (d_ops Reruns.reload_once) 12)
           {| op_type := Some 2%nat; access := 0; literals := []; funcCall := 0;
              complexity := 3; mathop := false; inlineArgs := 1; arguments := [11%nat] |}).
  - reflexivity.
  - reflexivity.
  - reflexivity.
  - reflexivity.
Defined.

(** ** What a run of the inliner emits *)

(** [c] from a state where [P] holds: when it returns, [Q] holds of the
    result and the state. *)
Definition triple {A} (P : DState -> Prop) (c : M DState A) (Q : A -> DState -> Prop) : Prop :=
  forall s a s', P s -> c s = Ok (a, s') -> Q a s'.

Lemma triple_bind {A B} P (c : M DState A) Q (k : A -> M DState B) R :
  triple P c Q -> (forall a, triple (Q a) (k a) R) -> triple P (bindM c k) R.
Proof.
  intros Hc Hk s b s' HP H. apply bindM_Ok in H as (a & s1 & H1 & H2).
  eapply Hk; [|exact H2]. eapply Hc; eassumption.
Qed.

Lemma triple_ret {A} (P : DState -> Prop) (a : A) (Q : A -> DState -> Prop) :
  (forall s, P s -> Q a s) -> triple P (ret a) Q.
Proof. intros H s a' s' HP E. apply ret_Ok in E as [-> ->]. auto. Qed.

Lemma triple_conseq {A} (P P' : DState -> Prop) (c : M DState A) (Q Q' : A -> DState -> Prop) :
  (forall s, P' s -> P s) -> (forall a s, Q a s -> Q' a s) ->
  triple P c Q -> triple P' c Q'.
Proof. intros HP HQ H s a s' HP' E. eapply HQ, H; eauto. Qed.

Lemma triple_reading {A} (P : DState -> Prop) (f : list SPVInstruction -> result A) Q :
  (forall s a, P s -> f (d_ops s) = Ok a -> Q a s) -> triple P (reading f) Q.
Proof. intros H s a s' HP E. apply reading_Ok in E as [E ->]. auto. Qed.

Lemma triple_lift_opt {A} (P : DState -> Prop) e (o : option A) Q :
  (forall s a, P s -> o = Some a -> Q a s) -> triple P (lift_opt e o) Q.
Proof. intros H s a s' HP E. apply lift_opt_Ok in E as [E ->]. auto. Qed.

Lemma triple_get (P : DState -> Prop) Q :
  (forall s, P s -> Q s s) -> triple P get Q.
Proof. intros H s a s' HP E. apply get_Ok in E as [-> ->]. auto. Qed.

Lemma triple_update_op (P : DState -> Prop) p f Q :
  (forall s i o, P s -> d_ops s !! p = Some i -> op i = Some o ->
     Q tt {| d_ops := <[p := set_op (Some (f o)) i]> (d_ops s);
             vars := vars s; funcops := funcops s |}) ->
  triple P (update_op p f) Q.
Proof.
  intros H s a s' HP E. apply update_op_Ok in E as (i & o & Hi & Ho & ->).
  destruct a. eauto.
Qed.

Lemma triple_foldM {A B} (I : B -> DState -> Prop) (l : list A)
    (body : B -> A -> M DState B) :
  (forall b x, triple (I b) (body b x) I) ->
  forall b, triple (I b) (foldM l b body) I.
Proof.
  intros Hb. induction l as [|x l IH]; intros b; simpl.
  - apply triple_ret. auto.
  - eapply triple_bind; [apply Hb|]. intros b'. apply IH.
Qed.

(** [P] holds before and after. *)
Definition inv {A} (P : DState -> Prop) (c : M DState A) : Prop :=
  triple P c (fun _ => P).

Lemma inv_bind {A B} P (c : M DState A) (k : A -> M DState B) :
  inv P c -> (forall a, inv P (k a)) -> inv P (bindM c k).
Proof. intros Hc Hk. eapply triple_bind; [exact Hc|exact Hk]. Qed.

Lemma inv_ret {A} P (a : A) : inv P (ret a).
Proof. apply triple_ret. auto. Qed.

Lemma inv_fail {A} P e : inv P (@fail DState A e).
Proof. intros s a s' _ H. discriminate. Qed.

Lemma inv_reading {A} P (f : list SPVInstruction -> result A) : inv P (reading f).
Proof. apply triple_reading. auto. Qed.

Lemma inv_lift_opt {A} P e (o : option A) : inv P (lift_opt e o).
Proof. apply triple_lift_opt. auto. Qed.

Lemma inv_get P : inv P get.
Proof. apply triple_get. auto. Qed.

Lemma inv_foldM {A B} P (l : list A) (b : B) (body : B -> A -> M DState B) :
  (forall b x, inv P (body b x)) -> inv P (foldM l b body).
Proof. intros H. apply (triple_foldM (fun _ => P)). exact H. Qed.

Lemma erase_item_sublist (l : list nat) x : sublist (erase_item l x) l.
Proof.
  induction l as [|y l IH]; simpl; [constructor|].
  destruct (y =? x)%nat; [apply sublist_cons; reflexivity|apply sublist_skip, IH].
Qed.

Section Emits.

(** [allowed] is what may be emitted, [V] the variables of the function. *)
Variables (allowed : nat -> Prop) (V : list nat).

Definition emits (s : DState) : Prop :=
  Forall allowed (funcops s) /\ sublist (vars s) V.

Lemma emits_update_op p f : inv emits (update_op p f).
Proof. apply triple_update_op. intros s i o H _ _. exact H. Qed.

Lemma emits_erase x : inv emits (on_funcops (fun l => erase_item l x)).
Proof.
  intros s a s' [Hf Hv] E. apply modify_Ok in E as ->. split; [|exact Hv]. simpl.
  apply Forall_forall. intros y Hy. rewrite Forall_forall in Hf. apply Hf.
  eapply elem_of_sublist; [exact Hy|apply erase_item_sublist].
Qed.

Lemma emits_push x : allowed x -> inv emits (on_funcops (fun l => l ++ [x])).
Proof.
  intros Hx s a s' [Hf Hv] E. apply modify_Ok in E as ->. split; [|exact Hv]. simpl.
  apply Forall_app. split; [exact Hf|]. constructor; [exact Hx|constructor].
Qed.

Lemma emits_erase_var x : inv emits (on_vars (fun l => erase_item l x)).
Proof.
  intros s a s' [Hf Hv] E. apply modify_Ok in E as ->. split; [exact Hf|]. simpl.
  etransitivity; [apply erase_item_sublist|exact Hv].
Qed.

Ltac emits_step :=
  lazymatch goal with
  | |- inv _ (ret _) => apply inv_ret
  | |- inv _ (fail _) => apply inv_fail
  | |- inv _ get => apply inv_get
  | |- inv _ (lift_opt _ _) => apply inv_lift_opt
  | |- inv _ (reading _) => apply inv_reading
  | |- inv _ (is_unmodified _ _ _) => apply inv_reading
  | |- inv _ (on_funcops (fun l => erase_item l _)) => apply emits_erase
  | |- inv _ (on_funcops (fun l => l ++ [_])) => apply emits_push; auto
  | |- inv _ (on_vars (fun l => erase_item l _)) => apply emits_erase_var
  | |- inv _ (update_op _ _) => apply emits_update_op
  | |- inv _ (or_inlineArgs _ _) => apply emits_update_op
  | |- inv _ (store_argument _ _ _) => unfold store_argument
  | |- inv _ (foldM _ _ _) => apply inv_foldM; intros ? ?
  | |- inv _ (bindM _ _) => apply inv_bind; [|intros ?]
  | |- inv _ (if ?b then _ else _) => destruct b
  | |- inv _ (match ?x with _ => _ end) => destruct x
  | |- inv _ (let _ := _ in _) => cbv zeta
  end.

Lemma emits_inline_args func instr : inv emits (inline_args func instr).
Proof. unfold inline_args, inline_arg. repeat emits_step. Qed.

Lemma emits_merge_single_store func instr : inv emits (merge_single_store func instr).
Proof. unfold merge_single_store. repeat emits_step. Qed.

Lemma emits_merge_adjacent_store instr : inv emits (merge_adjacent_store instr).
Proof. unfold merge_adjacent_store. repeat emits_step. Qed.

Lemma emits_inline_call bi i instr ign : inv emits (inline_call bi i instr ign).
Proof. unfold inline_call, inline_call_argument. repeat emits_step. Qed.

Lemma emits_inline_instruction func bi ign k instr :
  allowed instr -> inv emits (inline_instruction func bi ign k instr).
Proof.
  intros Hin.
  unfold inline_instruction, inline_args, inline_arg, merge_single_store,
    merge_adjacent_store, inline_call, inline_call_argument.
  repeat emits_step.
Qed.

Lemma emits_inline_instructions func bi rest : forall ign k,
  (forall x, x ∈ rest -> allowed x) ->
  inv emits (inline_instructions func bi ign k rest).
Proof.
  induction rest as [|instr rest IH]; intros ign k Hall; simpl.
  - apply inv_ret.
  - apply inv_bind.
    + apply emits_inline_instruction, Hall. left.
    + intros ign'. apply IH. intros x Hx. apply Hall. right. exact Hx.
Qed.

Lemma emits_inline_block_end ids blk :
  (forall m, mergeFlow blk = Some m -> allowed m) ->
  (forall e, exitFlow blk = Some e -> allowed e) ->
  inv emits (inline_block_end ids blk).
Proof.
  intros Hm He. unfold inline_block_end.
  apply inv_bind.
  { destruct (mergeFlow blk) as [m|]; [apply emits_push; auto|apply inv_ret]. }
  intros _. destruct (exitFlow blk) as [e|]; [|apply inv_ret].
  repeat emits_step.
Qed.

Lemma emits_inline_block ids func b blockInst s u s' bi blk :
  d_ops s !! blockInst = Some bi -> block bi = Some blk ->
  allowed blockInst ->
  (forall x, x ∈ instructions blk -> allowed x) ->
  (forall m, mergeFlow blk = Some m -> allowed m) ->
  (forall e, exitFlow blk = Some e -> allowed e) ->
  emits s -> inline_block ids func b blockInst s = Ok (u, s') -> emits s'.
Proof.
  intros Hbi Hblk Hb Hi Hm He HP H. unfold inline_block in H.
  apply bindM_Ok in H as (bi' & t & H1 & H). apply reading_Ok in H1 as [H1 ->].
  apply deref_Ok in H1. rewrite Hbi in H1. inversion H1; subst bi'.
  apply bindM_Ok in H as (blk' & t & H2 & H). apply lift_opt_Ok in H2 as [H2 ->].
  rewrite Hblk in H2. inversion H2; subst blk'.
  assert (Hinv : inv emits
    ((if (0 <? b)%nat then on_funcops (fun l => l ++ [blockInst]) else ret tt) ;;
     inline_instructions func (instructions blk) [] 0 (instructions blk) ;;
     inline_block_end ids blk)).
  { apply inv_bind; [destruct (0 <? b)%nat; [apply emits_push; auto|apply inv_ret]|].
    intros _. apply inv_bind; [apply emits_inline_instructions; auto|].
    intros _. apply emits_inline_block_end; auto. }
  exact (Hinv _ _ _ HP H).
Qed.

End Emits.

Lemma block_flows_merge ops blks b bi blk m :
  b ∈ blks -> ops !! b = Some bi -> block bi = Some blk -> mergeFlow blk = Some m ->
  m ∈ block_flows ops blks.
Proof.
  intros Hb Hbi Hblk Hm. unfold block_flows. apply list_elem_of_In, in_flat_map.
  exists b. split; [apply list_elem_of_In, Hb|]. rewrite Hbi, Hblk, Hm. left. reflexivity.
Qed.

Lemma block_flows_exit ops blks b bi blk e :
  b ∈ blks -> ops !! b = Some bi -> block bi = Some blk -> exitFlow blk = Some e ->
  e ∈ block_flows ops blks.
Proof.
  intros Hb Hbi Hblk He. unfold block_flows. apply list_elem_of_In, in_flat_map.
  exists b. split; [apply list_elem_of_In, Hb|]. rewrite Hbi, Hblk, He.
  apply in_or_app. right. left. reflexivity.
Qed.

Lemma linear_order_elem ops blks order b bi blk x :
  linear_order ops blks = Some order ->
  b ∈ blks -> ops !! b = Some bi -> block bi = Some blk -> x ∈ instructions blk ->
  x ∈ order.
Proof.
  revert order. induction blks as [|b0 blks IH]; intros order Hl Hb Hbi Hblk Hx.
  - apply elem_of_nil in Hb. contradiction.
  - apply linear_order_cons in Hl as (bi0 & blk0 & order' & Hbi0 & Hblk0 & Hl' & ->).
    apply elem_of_app. apply elem_of_cons in Hb as [->|Hb].
    + left. rewrite Hbi in Hbi0. inversion Hbi0; subst bi0.
      rewrite Hblk in Hblk0. inversion Hblk0; subst blk0. exact Hx.
    + right. eapply IH; eauto.
Qed.

(** The loop over the blocks, from an arena that has the blocks of [ops0]. *)
Lemma emits_inline_blocks ops0 ids func allowed V all order0 : forall rest b s u s' order,
  linear_order ops0 all = Some order0 ->
  (forall x, x ∈ all -> allowed x) ->
  (forall x, x ∈ order0 -> allowed x) ->
  (forall x, x ∈ block_flows ops0 all -> allowed x) ->
  (forall x, x ∈ rest -> x ∈ all) ->
  touched_in order0 ops0 (d_ops s) ->
  linear_order ops0 rest = Some order ->
  emits allowed V s ->
  inline_blocks ids func b rest s = Ok (u, s') ->
  emits allowed V s' /\ touched_in order0 ops0 (d_ops s').
Proof.
  induction rest as [|blockInst rest IH];
    intros b s u s' order Hl0 Hall Hord Hfl Hsub Ht Hl HP H.
  - simpl in H. apply ret_Ok in H as [_ ->]. auto.
  - apply linear_order_cons in Hl as (bi & blk & order' & Hbi & Hblk & Hl' & ->).
    simpl in H. apply bindM_Ok in H as (u1 & s1 & H1 & H2).
    assert (Hin : blockInst ∈ all) by (apply Hsub; left).
    pose proof (touched_block _ _ _ blockInst Ht) as Hb. rewrite Hbi in Hb.
    destruct (d_ops s !! blockInst) as [bi'|] eqn:Hbi'; [|discriminate].
    simpl in Hb. apply (inj Some) in Hb. rewrite Hblk in Hb.
    assert (HP1 : emits allowed V s1).
    { eapply (emits_inline_block allowed V); try eassumption.
      - apply Hall, Hin.
      - intros x Hx. apply Hord. eapply linear_order_elem; eauto.
      - intros m Hm. apply Hfl. eapply block_flows_merge; eauto.
      - intros e He. apply Hfl. eapply block_flows_exit; eauto. }
    assert (Ht1 : touched_in order0 ops0 (d_ops s1)).
    { eapply touched_trans; [exact Ht|].
      eapply touched_mono; [|eapply inline_block_touched; eassumption].
      intros x Hx. eapply linear_order_elem; eauto. }
    eapply IH; try eassumption.
    intros x Hx. apply Hsub. right. exact Hx.
Qed.

(** X9.  Everything in the emit list that the inliner builds is of the
    function: a block of it, an instruction of one of its blocks, or the
    merge or exit instruction of one; and the variables left to declare
    are variables of the function, in their order. *)
Theorem inliner_emits_instructions_of_function m f fi fn order d :
  operations m !! f = Some fi -> func fi = Some fn ->
  linear_order (operations m) (blocks fn) = Some order ->
  run_inliner m f = Ok d ->
  (forall x, x ∈ funcops d ->
     x ∈ blocks fn \/ x ∈ order \/ x ∈ block_flows (operations m) (blocks fn)) /\
  sublist (vars d) (variables fn).
Proof.
  intros Hfi Hfn Hl H. apply run_inliner_Ok in H as (fi' & fn' & Hfi' & Hfn' & H).
  rewrite Hfi in Hfi'. inversion Hfi'; subst fi'.
  rewrite Hfn in Hfn'. inversion Hfn'; subst fn'.
  unfold inline_function in H.
  apply bindM_Ok in H as (u1 & t1 & E1 & H). apply modify_Ok in E1. subst t1.
  apply bindM_Ok in H as (u2 & t2 & E2 & H). apply modify_Ok in E2. subst t2.
  simpl in H.
  destruct (emits_inline_blocks (operations m) (ids m) fn
              (fun x => x ∈ blocks fn \/ x ∈ order \/
                        x ∈ block_flows (operations m) (blocks fn))
              (variables fn) (blocks fn) order (blocks fn) 0
              {| d_ops := operations m; vars := variables fn; funcops := [] |}
              tt d order) as [[Hf Hv] _]; auto.
  - apply touched_refl.
  - split; [constructor|reflexivity].
  - split; [|exact Hv]. intros x Hx. rewrite Forall_forall in Hf. apply Hf, Hx.
Qed.

Lemma inliner_emits_instructions_of_function_witness :
  (forall x, x ∈ funcops Reruns.reload_once ->
     x ∈ blocks (Samples.function_at (operations (pmod Reruns.reload_state)) 5) \/
     x ∈ [8; 9; 10; 11; 12]%nat \/
     x ∈ block_flows (operations (pmod Reruns.reload_state))
           (blocks (Samples.function_at (operations (pmod Reruns.reload_state)) 5))) /\
  sublist (vars Reruns.reload_once)
    (variables (Samples.function_at (operations (pmod Reruns.reload_state)) 5)).
Proof.
  apply (inliner_emits_instructions_of_function (pmod Reruns.reload_state) 5
           (Samples.instruction_at (operations (pmod Reruns.reload_state)) 5)
           (Samples.function_at (operations (pmod Reruns.reload_state)) 5)); reflexivity.
Defined.

(** ** The sweep on what the inliner emits *)

Lemma touched_flow l ops ops' p i :
  touched_in l ops ops' -> ops !! p = Some i ->
  exists i', ops' !! p = Some i' /\ opcode i' = opcode i /\ flow i' = flow i.
Proof.
  intros H Hi. destruct (H p) as [_ B]. rewrite Hi in B.
  destruct (ops' !! p) as [i'|]; [|discriminate]. simpl in B. apply (inj Some) in B.
  exists i'. split; [reflexivity|]. split.
  - apply (f_equal opcode) in B. exact B.
  - apply (f_equal flow) in B. exact B.
Qed.

Lemma triple_skip {A B} P (c : M DState A) (k : A -> M DState B) R :
  (forall a, triple (fun _ => True) (k a) R) -> triple P (bindM c k) R.
Proof.
  intros Hk. eapply triple_bind; [|exact Hk]. intros s a s' _ _. exact I.
Qed.

(** The exit instruction of a block is the last thing its end emits. *)
Lemma inline_block_end_last ids blk e :
  exitFlow blk = Some e ->
  triple (fun _ => True) (inline_block_end ids blk) (fun _ s => last (funcops s) = Some e).
Proof.
  intros He. unfold inline_block_end. rewrite He.
  do 5 (apply triple_skip; intros ?).
  intros s u s' _ E. apply modify_Ok in E as ->. simpl. apply last_snoc.
Qed.

Lemma inline_block_last ids func b blockInst s u s' bi blk e :
  d_ops s !! blockInst = Some bi -> block bi = Some blk -> exitFlow blk = Some e ->
  inline_block ids func b blockInst s = Ok (u, s') ->
  last (funcops s') = Some e.
Proof.
  intros Hbi Hblk He H. unfold inline_block in H.
  apply bindM_Ok in H as (bi' & t & H1 & H). apply reading_Ok in H1 as [H1 ->].
  apply deref_Ok in H1. rewrite Hbi in H1. inversion H1; subst bi'.
  apply bindM_Ok in H as (blk' & t & H2 & H). apply lift_opt_Ok in H2 as [H2 ->].
  rewrite Hblk in H2. inversion H2; subst blk'.
  apply bindM_Ok in H as (u1 & t1 & _ & H).
  apply bindM_Ok in H as (u2 & t2 & _ & H).
  exact (inline_block_end_last ids blk e He _ _ _ I H).
Qed.

Lemma inline_blocks_last ops0 ids func order0 : forall rest b s u s' order last_b bi blk e,
  (forall x, x ∈ order -> x ∈ order0) ->
  touched_in order0 ops0 (d_ops s) ->
  linear_order ops0 rest = Some order ->
  last rest = Some last_b ->
  ops0 !! last_b = Some bi -> block bi = Some blk -> exitFlow blk = Some e ->
  inline_blocks ids func b rest s = Ok (u, s') ->
  last (funcops s') = Some e.
Proof.
  induction rest as [|blockInst rest IH];
    intros b s u s' order last_b bi blk e Hsub Ht Hl Hlast Hbi Hblk He H.
  - discriminate.
  - apply linear_order_cons in Hl as (bi1 & blk1 & order' & Hbi1 & Hblk1 & Hl' & ->).
    simpl in H. apply bindM_Ok in H as (u1 & s1 & H1 & H2).
    pose proof (touched_block _ _ _ blockInst Ht) as Hb. rewrite Hbi1 in Hb.
    destruct (d_ops s !! blockInst) as [bi'|] eqn:Hbi'; [|discriminate].
    simpl in Hb. apply (inj Some) in Hb. rewrite Hblk1 in Hb.
    destruct rest as [|b2 rest].
    + simpl in Hlast. inversion Hlast; subst last_b.
      rewrite Hbi in Hbi1. inversion Hbi1; subst bi1.
      rewrite Hblk in Hblk1. inversion Hblk1; subst blk1.
      simpl in H2. apply ret_Ok in H2 as [_ ->].
      eapply inline_block_last; eassumption.
    + apply (IH (S b) s1 u s' order' last_b bi blk e); auto.
      * intros x Hx. apply Hsub, elem_of_app. right. exact Hx.
      * eapply touched_trans; [exact Ht|].
        eapply touched_mono; [|eapply inline_block_touched; eassumption].
        intros x Hx. apply Hsub, elem_of_app. left. exact Hx.
Qed.

(** X10.  The sweep accepts what the inliner emits.  When the instructions
    of the function exist, its branches have a target and its last block
    ends in an instruction that is no label, the emit list of the inliner
    ends in that instruction, and the sweep over it reads in bounds and
    returns. *)
Theorem sweep_accepts_inliner_output m f fi fn order d b :
  operations m !! f = Some fi -> func fi = Some fn ->
  linear_order (operations m) (blocks fn) = Some order ->
  branches_shaped (operations m)
    (blocks fn ++ order ++ block_flows (operations m) (blocks fn)) ->
  last (blocks fn) = Some b -> terminated (operations m) b ->
  run_inliner m f = Ok d ->
  Z.of_nat (length (funcops d)) <= 2 ^ 64 ->
  (exists bi blk, operations m !! b = Some bi /\ block bi = Some blk /\
     last (funcops d) = exitFlow blk) /\
  exists out, sweep (d_ops d) (funcops d) = Ok out.
Proof.
  intros Hfi Hfn Hl Hsh Hlast (bi & blk & e & ei & Hbi & Hblk & He & Hei & Hop) Hrun Hsize.
  pose proof Hrun as Hrun'.
  apply run_inliner_Ok in Hrun' as (fi' & fn' & Hfi' & Hfn' & H).
  rewrite Hfi in Hfi'. inversion Hfi'; subst fi'.
  rewrite Hfn in Hfn'. inversion Hfn'; subst fn'.
  pose proof (inline_function_touched (ids m) fn
                {| d_ops := operations m; vars := []; funcops := [] |} _ _ _ Hl H) as Ht.
  simpl in Ht.
  unfold inline_function in H.
  apply bindM_Ok in H as (u1 & t1 & E1 & H). apply modify_Ok in E1. subst t1.
  apply bindM_Ok in H as (u2 & t2 & E2 & H). apply modify_Ok in E2. subst t2.
  simpl in H.
  assert (Hend : last (funcops d) = Some e).
  { apply (inline_blocks_last (operations m) (ids m) fn order (blocks fn) 0%nat
             {| d_ops := operations m; vars := variables fn; funcops := [] |}
             tt d order b bi blk e); auto.
    apply touched_refl. }
  split; [exists bi, blk; rewrite He; auto|].
  rewrite sweep_is_rec by exact Hsize.
  apply (sweep_rec_total (d_ops d) (length (funcops d)) (funcops d) []); auto.
  - simpl. intros E. rewrite E in Hend. discriminate.
  - simpl. intros x i Hx Hi. rewrite Hend in Hx. inversion Hx; subst x.
    destruct (touched_flow _ _ _ _ _ Ht Hei) as (i' & Hi' & Ho & _).
    rewrite Hi in Hi'. inversion Hi'; subst i'. rewrite Ho. exact Hop.
  - simpl. intros x Hx.
    assert (Hor : x ∈ blocks fn \/ x ∈ order \/
                  x ∈ block_flows (operations m) (blocks fn)).
    { destruct (emits_inline_blocks (operations m) (ids m) fn
                  (fun x => x ∈ blocks fn \/ x ∈ order \/
                            x ∈ block_flows (operations m) (blocks fn))
                  (variables fn) (blocks fn) order (blocks fn) 0
                  {| d_ops := operations m; vars := variables fn; funcops := [] |}
                  tt d order) as [[Hf _] _]; auto.
      - apply touched_refl.
      - split; [constructor|reflexivity].
      - rewrite Forall_forall in Hf. apply Hf, Hx. }
    destruct (Hsh x) as (i & Hi & Hb).
    { rewrite !elem_of_app. destruct Hor as [?|[?|?]]; auto. }
    destruct (touched_flow _ _ _ _ _ Ht Hi) as (i' & Hi' & Ho & Hf).
    exists i'. split; [exact Hi'|]. rewrite Ho, Hf. exact Hb.
Qed.

Lemma sweep_accepts_inliner_output_witness :
  (exists bi blk, operations (pmod Reruns.reload_state) !! 6%nat = Some bi /\
     block bi = Some blk /\ last (funcops Reruns.reload_once) = exitFlow blk) /\
  exists out, sweep (d_ops Reruns.reload_once) (funcops Reruns.reload_once) = Ok out.
Proof.
  apply (sweep_accepts_inliner_output (pmod Reruns.reload_state) 5
           (Samples.instruction_at (operations (pmod Reruns.reload_state)) 5)
           (Samples.function_at (operations (pmod Reruns.reload_state)) 5)
           [8; 9; 10; 11; 12]%nat Reruns.reload_once 6).
  - reflexivity.
  - reflexivity.
  - reflexivity.
  - intros x Hx. vm_compute in Hx.
    repeat (apply elem_of_cons in Hx as [->|Hx]);
      [| | | | | | |apply elem_of_nil in Hx; contradiction];
      eexists; (split; [reflexivity|]); intros E; discriminate E.
  - reflexivity.
  - do 4 eexists. repeat (split; [reflexivity|]). discriminate.
  - reflexivity.
  - vm_compute. discriminate.
Defined.

(** ** [IsUnmodified] when the use comes first *)

(** X11.  For a load of a variable, when [to] comes before [from] in the
    linear order of the blocks the scan is over before it has started to
    look: [IsUnmodified] returns true, whatever is stored to the variable
    anywhere in the function. *)
Theorem IsUnmodified_use_before_load ops func from to fi fo v vi l1 l3 :
  ops !! from = Some fi -> op fi = Some fo -> opcode fi = OpLoad ->
  arguments fo !! 0%nat = Some v -> ops !! v = Some vi -> is_some (var vi) = true ->
  linear_order ops (blocks func) = Some (l1 ++ to :: l3) ->
  from ∉ l1 -> to ∉ l1 -> from <> to ->
  unmodified ops func from to true.
Proof.
  intros Hfi Hfo Hop Hv Hvi Hvar Hl Hf Ht Hne.
  exists 1%nat. simpl. unfold deref. rewrite Hfi. simpl. rewrite Hfo.
  unfold is_var_load, argument, deref_op, deref. rewrite Hfi. simpl.
  rewrite Hop. simpl. rewrite Hfo. simpl. rewrite Hv. simpl. rewrite Hvi.
  simpl. rewrite Hvar. simpl.
  rewrite (scan_blocks_linear _ _ _ _ _ _ _ Hl).
  rewrite scan_instructions_app, scan_instructions_before by assumption.
  simpl. destruct (Nat.eqb_spec to from); [congruence|].
  rewrite Nat.eqb_refl. reflexivity.
Qed.

Lemma IsUnmodified_use_before_load_witness :
  unmodified (operations (pmod Reruns.reload_state))
    (Samples.function_at (operations (pmod Reruns.reload_state)) 5) 12 11 true.
Proof.
  eapply (IsUnmodified_use_before_load (operations (pmod Reruns.reload_state))
            (Samples.function_at (operations (pmod Reruns.reload_state)) 5)
            12 11 _ _ 7 _ [8; 9; 10]%nat [12]%nat).
  - reflexivity.
  - reflexivity.
  - reflexivity.
  - reflexivity.
  - reflexivity.
  - reflexivity.
  - reflexivity.
  - intros H. repeat (apply elem_of_cons in H as [H|H]; [discriminate|]).
    apply elem_of_nil in H. exact H.
  - intros H. repeat (apply elem_of_cons in H as [H|H]; [discriminate|]).
    apply elem_of_nil in H. exact H.
  - discriminate.
Defined.

(** ** The swizzle of one vector *)

Local Open Scope string_scope.

Lemma append_assoc_s (a b c : string) : (a ++ b) ++ c = a ++ (b ++ c).
Proof. induction a as [|x a IH]; simpl; [reflexivity|]. rewrite IH. reflexivity. Qed.

Lemma append_nil_r_s (a : string) : a ++ "" = a.
Proof. induction a as [|x a IH]; simpl; [reflexivity|]. rewrite IH. reflexivity. Qed.

Lemma max_shuffle_lt vec1size lits :
  Forall (fun lit => lit < 4)%Z lits -> (max_shuffle vec1size lits < 4)%Z.
Proof.
  unfold max_shuffle. intros H.
  assert (G : forall acc, (acc < 4)%Z ->
    (fold_left (fun maxShuffle x => RDCMAX maxShuffle x) lits acc < 4)%Z).
  { induction H as [|x l Hx Hl IH]; intros acc Hacc; simpl; [exact Hacc|].
    apply IH. unfold RDCMAX. destruct (Z.gtb_spec acc x); lia. }
  apply G. lia.
Qed.

(** Once the first vector has been named, its components follow one
    letter each. *)
Lemma swizzle_loop_same_vector GetArg vec1size lits : forall i ret,
  Forall (fun lit => 0 <= lit < 4 /\ lit <= vec1size)%Z lits ->
  swizzle_loop GetArg vec1size lits i 0 ret = Ok (ret ++ swizzle lits).
Proof.
  induction lits as [|lit lits IH]; intros i ret H.
  - simpl. rewrite append_nil_r_s. reflexivity.
  - inversion H as [|? ? [[H0 H4] Hv] Hrest]; subst.
    cbn [swizzle_loop].
    destruct (Z.eqb_spec lit 4294967295); [lia|].
    destruct (Z.gtb_spec lit vec1size); [lia|].
    assert (E : (lit = 0 \/ lit = 1 \/ lit = 2 \/ lit = 3)%Z) by lia.
    destruct E as [-> | [-> | [-> | ->]]]; simpl;
      rewrite IH by exact Hrest; rewrite append_assoc_s; reflexivity.
Qed.

(** The shuffle on the arena, when its operands are there: the rendering
    from the name of its type, the size of its first vector and its
    selectors. *)
Lemma Disassemble_OpVectorShuffle_operands ops GetName idName GetArg inlineOp p o t t1 :
  deref_op ops p = Ok o -> shuffle_operands ops o t t1 ->
  Disassemble_OpVectorShuffle ops GetName idName GetArg inlineOp p =
  Disassemble_VectorShuffle inlineOp (GetName t) idName GetArg (vectorSize t1) (literals o).
Proof.
  intros Ho (Ht & a0 & a1 & o0 & i1 & t2 & Ha0 & Ha1 & Ho0 & Ht1 & Hi1 & H2).
  unfold Disassemble_OpVectorShuffle. rewrite Ho. cbn [rbind].
  rewrite Ht. cbn [rbind]. rewrite Ha0, Ha1. cbn [opt rbind]. rewrite Ho0. cbn [rbind].
  unfold deref at 1. rewrite Hi1. cbn [opt rbind].
  destruct (constant i1) as [c|].
  - cbn [rbind]. rewrite Ht1. cbn [rbind]. rewrite H2.
    destruct inlineOp, (ty_kind t1); reflexivity.
  - destruct H2 as (o1 & Ho1 & H2). rewrite Ho1. cbn [opt rbind].
    rewrite Ht1. cbn [rbind]. rewrite H2.
    destruct inlineOp, (ty_kind t1); reflexivity.
Qed.

(** X12.  A shuffle with a selector of 4 or more is rendered with nothing
    between the brackets, whatever the other selectors are: the largest
    selector is taken before the size of the first vector is subtracted.
    The selector of an undefined component (all ones) is one of them, so
    the underscore kept for it is never printed.  The shuffle is the
    operation at [p], its first operand is an operation, and the operands
    and the result have their types. *)
Theorem shuffle_large_selector_renders_nothing ops GetName idName GetArg inlineOp
    p o t t1 lit :
  deref_op ops p = Ok o -> shuffle_operands ops o t t1 ->
  lit ∈ literals o -> (4 <= lit)%Z ->
  Disassemble_OpVectorShuffle ops GetName idName GetArg inlineOp p =
  Ok ((if inlineOp then "" else GetName t ++ " " ++ idName ++ " = ")
       ++ GetName t ++ "()").
Proof.
  intros Ho Hops Hin Hge.
  rewrite (Disassemble_OpVectorShuffle_operands _ _ _ _ _ _ _ _ _ Ho Hops).
  rewrite (shuffle_selector_ge_4 inlineOp (GetName t) idName GetArg (vectorSize t1)
             (literals o) lit Hin Hge).
  rewrite !append_assoc_s. reflexivity.
Qed.

Lemma shuffle_large_selector_renders_nothing_witness :
  Disassemble_OpVectorShuffle Shuffles.shuffle_ops Shuffles.shuffle_GetName "v"
    Inputs.shuffle_GetArg false 9 = Ok "float4 v = float4()".
Proof.
  apply (shuffle_large_selector_renders_nothing Shuffles.shuffle_ops
           Shuffles.shuffle_GetName "v" Inputs.shuffle_GetArg false 9
           {| op_type := Some 3%nat; access := 0; literals := [0; 1; 4; 5]%Z;
              funcCall := 0; complexity := 0; mathop := false; inlineArgs := 0;
              arguments := [7; 8]%nat |}
           {| ty_kind := eVector; baseType := Some 2%nat; ty_children := [];
              ty_storage := 0; bitCount := 32; vectorSize := 4; matrixSize := 1;
              arraySize := 1 |}
           {| ty_kind := eVector; baseType := Some 2%nat; ty_children := [];
              ty_storage := 0; bitCount := 32; vectorSize := 4; matrixSize := 1;
              arraySize := 1 |}
           4%Z).
  - reflexivity.
  - split; [reflexivity|]. do 5 eexists.
    split; [reflexivity|]. split; [reflexivity|]. split; [reflexivity|].
    split; [reflexivity|]. split; [reflexivity|].
    eexists. split; reflexivity.
  - right. right. left.
  - lia.
Defined.

(** A swizzle of the first vector alone, once the operands are read. *)
Lemma Disassemble_VectorShuffle_swizzle inlineOp typeName idName GetArg vec1size lits :
  lits <> [] ->
  Forall (fun lit => 0 <= lit < 4 /\ lit <= vec1size)%Z lits ->
  Disassemble_VectorShuffle inlineOp typeName idName GetArg vec1size lits =
  Ok ((if inlineOp then "" else typeName ++ " " ++ idName ++ " = ")
       ++ typeName ++ "(" ++ GetArg 0%nat ++ "." ++ swizzle lits ++ ")").
Proof.
  intros Hne H. unfold Disassemble_VectorShuffle.
  assert (Hmax : (max_shuffle vec1size lits < 4)%Z).
  { apply max_shuffle_lt. eapply Forall_impl; [exact H|]. simpl. intros x Hx. lia. }
  destruct (Z.ltb_spec (max_shuffle vec1size lits) 4) as [_|Hge]; [|lia].
  destruct lits as [|lit lits]; [congruence|].
  inversion H as [|? ? [[Hl0 Hl4] Hv] Hrest]; subst.
  cbn [swizzle_loop].
  destruct (Z.eqb_spec lit 4294967295); [lia|].
  destruct (Z.gtb_spec lit vec1size); [lia|].
  assert (E : (lit = 0 \/ lit = 1 \/ lit = 2 \/ lit = 3)%Z) by lia.
  destruct E as [-> | [-> | [-> | ->]]]; simpl;
    rewrite swizzle_loop_same_vector by exact Hrest; simpl;
    rewrite ?append_assoc_s; simpl; rewrite ?append_assoc_s; reflexivity.
Qed.

(** X13.  A swizzle of the first vector alone: when every selector is
    below 4 and not above the size of the first vector, the shuffle is
    rendered as the type, and in brackets the first vector, a dot and one
    letter of [xyzw] for each selector.  The shuffle is the operation at
    [p], its first operand is an operation, and the operands and the
    result have their types. *)
Theorem shuffle_single_vector_swizzle ops GetName idName GetArg inlineOp p o t t1 :
  deref_op ops p = Ok o -> shuffle_operands ops o t t1 ->
  literals o <> [] ->
  Forall (fun lit => 0 <= lit < 4 /\ lit <= vectorSize t1)%Z (literals o) ->
  Disassemble_OpVectorShuffle ops GetName idName GetArg inlineOp p =
  Ok ((if inlineOp then "" else GetName t ++ " " ++ idName ++ " = ")
       ++ GetName t ++ "(" ++ GetArg 0%nat ++ "." ++ swizzle (literals o) ++ ")").
Proof.
  intros Ho Hops Hne H.
  rewrite (Disassemble_OpVectorShuffle_operands _ _ _ _ _ _ _ _ _ Ho Hops).
  apply Disassemble_VectorShuffle_swizzle; assumption.
Qed.

Lemma shuffle_single_vector_swizzle_witness :
  Disassemble_OpVectorShuffle Shuffles.shuffle_ops Shuffles.shuffle_GetName "v"
    Inputs.shuffle_GetArg true 10 = Ok "float4(a.zyx)".
Proof.
  apply (shuffle_single_vector_swizzle Shuffles.shuffle_ops
           Shuffles.shuffle_GetName "v" Inputs.shuffle_GetArg true 10
           {| op_type := Some 3%nat; access := 0; literals := [2; 1; 0]%Z;
              funcCall := 0; complexity := 0; mathop := false; inlineArgs := 0;
              arguments := [7; 8]%nat |}
           {| ty_kind := eVector; baseType := Some 2%nat; ty_children := [];
              ty_storage := 0; bitCount := 32; vectorSize := 4; matrixSize := 1;
              arraySize := 1 |}
           {| ty_kind := eVector; baseType := Some 2%nat; ty_children := [];
              ty_storage := 0; bitCount := 32; vectorSize := 4; matrixSize := 1;
              arraySize := 1 |}).
  - reflexivity.
  - split; [reflexivity|]. do 5 eexists.
    split; [reflexivity|]. split; [reflexivity|]. split; [reflexivity|].
    split; [reflexivity|]. split; [reflexivity|].
    eexists. split; reflexivity.
  - discriminate.
  - cbn [literals vectorSize]. repeat constructor; lia.
Defined.

(** The shuffle of C6 on the arena: the selectors (0, 1, 4, 5) of two
    sums of four components. *)
Lemma shuffle_0145_on_arena :
  Disassemble_OpVectorShuffle Shuffles.shuffle_ops Shuffles.shuffle_GetName "x"
    Inputs.shuffle_GetArg true 9 = Ok "float4()".
Proof. reflexivity. Qed.

(** A shuffle whose first operand is a constant: the case reads the type
    of the operand through its [op], which a constant does not have. *)
Lemma shuffle_of_constant_faults :
  Disassemble_OpVectorShuffle Shuffles.shuffle_ops Shuffles.shuffle_GetName "x"
    Inputs.shuffle_GetArg true 11 = Fault NullDeref.
Proof. reflexivity. Qed.

Local Close Scope string_scope.

(** ** An instruction with a word count of zero *)

Lemma bindM_never {S A B} (c : M S A) (k : A -> M S B) s :
  (forall a s', exists e, k a s' = Fault e) -> exists e, bindM c k s = Fault e.
Proof.
  intros Hk. unfold bindM. destruct (c s) as [[a s']|e]; [apply Hk|eauto].
Qed.

(** X14.  The first pass of the parser does not return once its loop
    comes to an instruction whose word count is zero: [it] does not
    advance, and the loop goes round on the same word, pushing an
    instruction each time. *)
Theorem zero_word_count_never_returns opOfWord SCF words it it' w :
  reaches words it it' -> words !! it' = Some w -> word_count w = 0 ->
  forall fuel cf cb s, exists e,
    structural_pass opOfWord SCF words fuel it cf cb s = Fault e.
Proof.
  intros Hr Hw H0. induction Hr as [it|it w0 it' Hw0 Hr IH].
  - assert (Hrd : forall B (k : Z -> M PState B) s, bindM (rd words it) k s = k w s).
    { intros B k s. unfold bindM, rd, lift_opt. rewrite Hw. reflexivity. }
    assert (Hlt : (it <? spirvLength words)%nat = true).
    { apply Nat.ltb_lt. eapply lookup_lt_Some. exact Hw. }
    induction fuel as [|fuel IHf]; intros cf cb s; cbn [structural_pass].
    + eexists. reflexivity.
    + rewrite Hlt, Hrd. cbv beta zeta. rewrite H0.
      apply bindM_never. intros o s1.
      apply bindM_never. intros u s2.
      apply bindM_never. intros r s3.
      change (Z.to_nat 0) with 0%nat. rewrite Nat.add_0_r. apply IHf.
  - specialize (IH Hw).
    assert (Hrd : forall B (k : Z -> M PState B) s, bindM (rd words it) k s = k w0 s).
    { intros B k s. unfold bindM, rd, lift_opt. rewrite Hw0. reflexivity. }
    assert (Hlt : (it <? spirvLength words)%nat = true).
    { apply Nat.ltb_lt. eapply lookup_lt_Some. exact Hw0. }
    intros [|fuel] cf cb s; cbn [structural_pass].
    + eexists. reflexivity.
    + rewrite Hlt, Hrd. cbv beta zeta.
      apply bindM_never. intros o s1.
      apply bindM_never. intros u s2.
      apply bindM_never. intros r s3.
      apply IH.
Qed.

(** A buffer that ends in a word of zero after its one instruction. *)
Lemma zero_word_count_never_returns_witness :
  exists e, structural_pass Samples.sample_opOfWord Samples.sample_StorageClassFunction
              [MagicNumber; 99; 0; 10; 0; Samples.hd 2 19; 1; 0]
              50 5 None None fresh = Fault e.
Proof.
  apply (zero_word_count_never_returns Samples.sample_opOfWord
           Samples.sample_StorageClassFunction
           [MagicNumber; 99; 0; 10; 0; Samples.hd 2 19; 1; 0] 5 7 0).
  - eapply reaches_next; [reflexivity|]. apply reaches_here.
  - reflexivity.
  - reflexivity.
Defined.

(** ** Signature parameters *)

Section SignatureFacts.

Variable attr_value : SystemAttribute -> Z.

Lemma sig_param_sort_false (a b : SigParameter) :
  sig_param_sort attr_value a b = false <->
  (attr_value (systemValue a) = attr_value (systemValue b) /\ regIndex b <= regIndex a) \/
  (attr_value (systemValue a) <> attr_value (systemValue b) /\
   (plain attr_value a \/ (~ plain attr_value b /\ attr_value (systemValue b) < attr_value (systemValue a)))).
Proof.
  unfold sig_param_sort, attr_eqb, plain.
  destruct (Z.eqb_spec (attr_value (systemValue a)) (attr_value (systemValue b)));
    destruct (Z.eqb_spec (attr_value (systemValue a)) (attr_value eAttr_None));
    destruct (Z.eqb_spec (attr_value (systemValue b)) (attr_value eAttr_None));
    rewrite ?Z.ltb_ge; split; intros H; first [reflexivity|discriminate|lia].
Qed.

Lemma signature_sorted_pairwise (inputs sorted : list SigParameter) i j a b :
  is_std_sort (sig_param_sort attr_value) inputs sorted ->
  (i < j)%nat -> sorted !! i = Some a -> sorted !! j = Some b ->
  sig_param_sort attr_value b a = false.
Proof.
  intros [_ Hs]. apply (sorted_by_pairwise _ sorted); [|exact Hs].
  intros x y z. rewrite !sig_param_sort_false. unfold plain. lia.
Qed.

Lemma sig_param_sort_asym (a b : SigParameter) :
  sig_param_sort attr_value a b = true -> sig_param_sort attr_value b a = false.
Proof.
  intros H. apply sig_param_sort_false.
  destruct (sig_param_sort attr_value b a) eqn:E; [|apply sig_param_sort_false, E].
  exfalso. apply not_false_iff_true in H, E.
  rewrite sig_param_sort_false in H, E. unfold plain in *. lia.
Qed.

(** The sort of the model keeps the promise of [std::sort] for
    [sig_param_sort]. *)
Lemma std_sort_signature (l : list SigParameter) :
  is_std_sort (sig_param_sort attr_value) l (std_sort (sig_param_sort attr_value) l).
Proof.
  split; [apply std_sort_perm|].
  induction l as [|x l IH]; simpl; [constructor|].
  apply sort_insert_sorted; [apply sig_param_sort_asym|exact IH].
Qed.

End SignatureFacts.

(** X15.  The input and output signatures that [MakeReflection] puts out
    come in the order of [sig_param_sort], whatever [std::sort] does with
    parameters that compare equal: the parameters with a system value
    come first, by the number of the system value; those without come
    after them; parameters of one system value, or of none, come by
    register. *)
Theorem signature_order attr_value (inputs sorted : list SigParameter) i j a b :
  is_std_sort (sig_param_sort attr_value) inputs sorted ->
  (i < j)%nat -> sorted !! i = Some a -> sorted !! j = Some b ->
  (plain attr_value a -> plain attr_value b) /\
  (~ plain attr_value b -> attr_value (systemValue a) <= attr_value (systemValue b)) /\
  (attr_value (systemValue a) = attr_value (systemValue b) -> regIndex a <= regIndex b).
Proof.
  intros Hs Hij Ha Hb.
  pose proof (signature_sorted_pairwise attr_value inputs sorted i j a b Hs Hij Ha Hb) as H.
  apply sig_param_sort_false in H. unfold plain in *. lia.
Qed.

Lemma signature_order_witness :
  (plain Signatures.sample_attr_value
     (Signatures.sample_parameter "v.pos" 2 0 eAttr_Position) ->
   plain Signatures.sample_attr_value
     (Signatures.sample_parameter "v.colour" 0 2 eAttr_None)) /\
  (~ plain Signatures.sample_attr_value
       (Signatures.sample_parameter "v.colour" 0 2 eAttr_None) ->
   Signatures.sample_attr_value eAttr_Position <=
   Signatures.sample_attr_value eAttr_None) /\
  (Signatures.sample_attr_value eAttr_Position =
   Signatures.sample_attr_value eAttr_None -> 0 <= 2).
Proof.
  apply (signature_order Signatures.sample_attr_value Signatures.sample_inputs
           (std_sort (sig_param_sort Signatures.sample_attr_value)
              Signatures.sample_inputs) 0 1
           (Signatures.sample_parameter "v.pos" 2 0 eAttr_Position)
           (Signatures.sample_parameter "v.colour" 0 2 eAttr_None)).
  - apply std_sort_signature.
  - lia.
  - reflexivity.
  - reflexivity.
Defined.

(** ** What [AddSignatureParameter] does to its two arrays *)

Lemma for_each_Ok {A St} (R : St -> St -> Prop) `{!PreOrder R}
    (body : nat -> A -> St -> result St) (l : list A) : forall c s s',
  (forall c x s s', x ∈ l -> body c x s = Ok s' -> R s s') ->
  for_each l c body s = Ok s' -> R s s'.
Proof.
  induction l as [|x l IH]; intros c s s' Hb H; simpl in H.
  - inversion H; subst. reflexivity.
  - apply rbind_Ok in H as (s1 & H1 & H2). transitivity s1.
    + eapply Hb; [left|exact H1].
    + eapply IH; [|exact H2]. intros c' y t t' Hy. apply Hb. right. exact Hy.
Qed.

Section SignatureArrays.

Variables DecorationLocation DecorationBuiltIn DecorationRowMajor DecorationColMajor : Z.
Variable BuiltIn_of_val : Z -> BuiltIn.
Variable attr_value : SystemAttribute -> Z.
Variable to_mask : Z -> Z.
Variable new_SigParameter : SigParameter.
Variable Fmt_u : Z -> string.
Variable member_name : nat -> nat -> string.
Variable member_decorations : nat -> nat -> list SPVDecoration.
Variable id : Z.

(** From [st] to [st']: parameters of the variable [id] have been
    appended, and an input attribute is as it was or is the index of an
    appended parameter without a system value in that register. *)
Definition sig_step (st st' : SigState) : Prop :=
  (exists added, st'.1 = st.1 ++ added /\
     Forall (fun s => semanticIdxName s = Fmt_u id) added) /\
  match st.2, st'.2 with
  | None, None => True
  | Some e, Some e' =>
      length e' = length e /\
      forall r, e' !! r = e !! r \/
        exists k s, e' !! r = Some (to_int32 (Z.of_nat k)) /\
          st'.1 !! k = Some s /\ regIndex s = Z.of_nat r /\
          plain attr_value s /\ (length st.1 <= k)%nat
  | _, _ => False
  end.

#[local] Instance sig_step_preorder : PreOrder sig_step.
Proof.
  split.
  - intros [sa [e|]]; (split; [exists []; rewrite app_nil_r; auto|]); simpl; auto.
  - intros [sa ia] [sa' ia'] [sa'' ia''] [(ad1 & E1 & F1) H1] [(ad2 & E2 & F2) H2].
    simpl in *. subst sa' sa''. split.
    + exists (ad1 ++ ad2). rewrite app_assoc. split; [reflexivity|].
      apply Forall_app. auto.
    + simpl. destruct ia as [e|], ia' as [e'|], ia'' as [e''|]; try contradiction; auto.
      destruct H1 as [L1 H1], H2 as [L2 H2]. split; [congruence|].
      intros r. destruct (H2 r) as [E|(k & s & E & Hk & Hr & Hp & Hl)].
      * rewrite E. destruct (H1 r) as [E'|(k & s & E' & Hk & Hr & Hp & Hl)]; [auto|].
        right. exists k, s. repeat split; auto.
        rewrite lookup_app_l; [exact Hk|]. eapply lookup_lt_Some, Hk.
      * right. exists k, s. repeat split; auto.
        rewrite length_app in Hl. lia.
Qed.

Lemma push_sig_step sig s st st' :
  semanticIdxName s = Fmt_u id -> systemValue s = systemValue sig ->
  push_sig attr_value sig s st = Ok st' -> sig_step st st'.
Proof.
  intros Hn Hv H. destruct st as [sa ia]. unfold push_sig in H.
  apply rbind_Ok in H as (attrs & Ha & H). inversion H; subst st'. clear H.
  split; simpl.
  { exists [s]. split; [reflexivity|]. repeat constructor. exact Hn. }
  destruct ia as [e|]; [|inversion Ha; subst; exact I].
  destruct (attr_eqb attr_value (systemValue sig) eAttr_None) eqn:En;
    [|inversion Ha; subst; split; auto].
  destruct (0 <=? regIndex s) eqn:E0; [|discriminate]. simpl in Ha.
  destruct (Z.to_nat (regIndex s) <? length e)%nat eqn:El; [|discriminate].
  inversion Ha; subst attrs. clear Ha.
  apply Z.leb_le in E0. apply Nat.ltb_lt in El.
  split; [apply length_insert|].
  intros r. destruct (decide (r = Z.to_nat (regIndex s))) as [->|Hne].
  - right. exists (length sa), s. rewrite list_lookup_insert_eq by exact El.
    repeat split; auto.
    + rewrite lookup_app_r by lia. rewrite Nat.sub_diag. reflexivity.
    + lia.
    + unfold plain. rewrite Hv. unfold attr_eqb in En. apply Z.eqb_eq in En. exact En.
  - left. apply list_lookup_insert_ne. auto.
Qed.

Lemma read_decorations_name decorations sig :
  semanticIdxName
    (read_decorations DecorationLocation DecorationBuiltIn DecorationRowMajor
       DecorationColMajor BuiltIn_of_val decorations sig).1 = semanticIdxName sig.
Proof.
  unfold read_decorations.
  change (semanticIdxName sig) with (semanticIdxName (sig, true).1).
  generalize (sig, true). clear sig.
  induction decorations as [|d l IH]; intros [sig b]; simpl; [reflexivity|].
  destruct (decoration d =? DecorationLocation); [rewrite IH; reflexivity|].
  destruct (decoration d =? DecorationBuiltIn); [rewrite IH; reflexivity|].
  destruct (decoration d =? DecorationRowMajor); [rewrite IH; reflexivity|].
  destruct (decoration d =? DecorationColMajor); rewrite IH; reflexivity.
Qed.

Lemma AddSignatureParameter_step fuel ops :
  forall childIdx name type_ decorations st st',
  AddSignatureParameter DecorationLocation DecorationBuiltIn DecorationRowMajor
    DecorationColMajor BuiltIn_of_val attr_value to_mask new_SigParameter Fmt_u
    member_name member_decorations fuel ops id childIdx name type_ decorations st
    = Ok st' ->
  sig_step st st'.
Proof.
  induction fuel as [|fuel IH]; intros childIdx name type_ decorations st st' H;
    [discriminate|].
  cbn [AddSignatureParameter] in H.
  pose proof (read_decorations_name decorations
    {| varName := name; semanticIdxName := Fmt_u id;
       semanticIndex := childIdx; needSemanticIndex := false;
       regIndex := 0; systemValue := systemValue new_SigParameter;
       compType := compType new_SigParameter;
       regChannelMask := regChannelMask new_SigParameter;
       channelUsedMask := channelUsedMask new_SigParameter;
       compCount := compCount new_SigParameter;
       stream := stream new_SigParameter |}) as Hname.
  destruct (read_decorations _ _ _ _ _ decorations _) as [sig rowmajor].
  simpl in Hname.
  apply rbind_Ok in H as (t0 & _ & H).
  apply rbind_Ok in H as (t & _ & H).
  assert (Hleaf :
    (k <~ match baseType t with
          | Some b => bt <~ deref_type ops (Some b) ;; Ok (ty_kind bt)
          | None => Ok (ty_kind t)
          end ;;
     let sig := match k with
                | eBool | eUInt => set_compType eCompType_UInt sig
                | eSInt => set_compType eCompType_SInt sig
                | eFloat => set_compType eCompType_Float sig
                | _ => sig
                end in
     let sig := set_components (vectorSize t)
                  (to_mask (Z.shiftl 1 (vectorSize t) - 1)) sig in
     if matrixSize t =? 1 then push_sig attr_value sig sig st
     else
       for_each (seq 0 (Z.to_nat (matrixSize t))) 0
         (fun _ m st =>
            let s := set_varName
                       (name ++ ":" ++ (if rowmajor then "row" else "col")
                          ++ Fmt_u (Z.of_nat m))%string sig in
            let s := set_regIndex (to_uint32 (regIndex s + Z.of_nat m)) s in
            push_sig attr_value sig s st)
         st) = Ok st' -> sig_step st st').
  { clear H. intros H. apply rbind_Ok in H as (k & _ & H). cbv zeta in H.
    set (sig1 := match k with
                 | eBool | eUInt => set_compType eCompType_UInt sig
                 | eSInt => set_compType eCompType_SInt sig
                 | eFloat => set_compType eCompType_Float sig
                 | _ => sig
                 end) in H.
    assert (Hn1 : semanticIdxName sig1 = Fmt_u id).
    { subst sig1. destruct k; exact Hname. }
    destruct (matrixSize t =? 1).
    - eapply push_sig_step; [| |exact H]; [exact Hn1|reflexivity].
    - eapply (for_each_Ok sig_step); [|exact H].
      intros c m s s' _ Hp. eapply push_sig_step; [| |exact Hp];
        [exact Hn1|reflexivity]. }
  destruct (ty_kind t); try (apply Hleaf; exact H).
  apply rbind_Ok in H as (p & _ & H).
  eapply (for_each_Ok sig_step); [|exact H].
  intros c child s s' _ Hc. eapply IH. exact Hc.
Qed.

End SignatureArrays.

(** X16.  [AddSignatureParameter] on the input signature only appends to
    [sigarray], and what it appends carries the id of the variable.  An
    entry of [inputAttrs] is afterwards as it was before, or it is the
    index of an appended parameter that sits in that register and has no
    system value. *)
Theorem AddSignatureParameter_input_attributes
    DecorationLocation DecorationBuiltIn DecorationRowMajor DecorationColMajor
    BuiltIn_of_val attr_value to_mask new_SigParameter Fmt_u member_name
    member_decorations fuel ops id childIdx name type_ decorations
    sigarray attrs sigarray' inputAttrs' :
  AddSignatureParameter DecorationLocation DecorationBuiltIn DecorationRowMajor
    DecorationColMajor BuiltIn_of_val attr_value to_mask new_SigParameter Fmt_u
    member_name member_decorations fuel ops id childIdx name type_ decorations
    (sigarray, Some attrs) = Ok (sigarray', inputAttrs') ->
  exists added attrs',
    sigarray' = sigarray ++ added /\ inputAttrs' = Some attrs' /\
    length attrs' = length attrs /\
    Forall (fun s => semanticIdxName s = Fmt_u id) added /\
    forall r, attrs' !! r = attrs !! r \/
      exists k s, attrs' !! r = Some (to_int32 (Z.of_nat k)) /\
        sigarray' !! k = Some s /\ regIndex s = Z.of_nat r /\
        plain attr_value s /\ (length sigarray <= k)%nat.
Proof.
  intros H. apply AddSignatureParameter_step in H as [(added & E & F) H].
  simpl in *. destruct inputAttrs' as [attrs'|]; [|contradiction].
  destruct H as [L H]. exists added, attrs'. auto.
Qed.

Lemma AddSignatureParameter_input_attributes_witness :
  exists added attrs',
    Signatures.sample_inputs = [] ++ added /\
    Some Signatures.sample_attributes = Some attrs' /\
    length attrs' = length Signatures.no_attributes /\
    Forall (fun s => semanticIdxName s = Signatures.sample_Fmt_u 9) added /\
    forall r, attrs' !! r = Signatures.no_attributes !! r \/
      exists k s, attrs' !! r = Some (to_int32 (Z.of_nat k)) /\
        Signatures.sample_inputs !! k = Some s /\ regIndex s = Z.of_nat r /\
        plain Signatures.sample_attr_value s /\ (length (@nil SigParameter) <= k)%nat.
Proof.
  apply (AddSignatureParameter_input_attributes
           Signatures.sample_DecorationLocation Signatures.sample_DecorationBuiltIn
           Signatures.sample_DecorationRowMajor Signatures.sample_DecorationColMajor
           Signatures.sample_BuiltIn_of_val Signatures.sample_attr_value
           Signatures.sample_to_mask Signatures.sample_SigParameter
           Signatures.sample_Fmt_u Signatures.sample_member_name
           Signatures.sample_member_decorations
           3 Signatures.sample_types 9 4294967295 "v"%string (Some 4%nat) []
           [] Signatures.no_attributes Signatures.sample_inputs
           (Some Signatures.sample_attributes)).
  reflexivity.
Defined.

(** The code at the sample.  [MakeReflection] sorts the signature after
    [AddSignatureParameter] has filled [InputAttributes], and leaves the
    attributes as they are: register 2 keeps the index 0, at which the
    colour stood before the sort, and at which every sort puts the
    position. *)
Lemma input_attributes_index_before_sort sorted :
  is_std_sort (sig_param_sort Signatures.sample_attr_value) Signatures.sample_inputs sorted ->
  Signatures.sample_attributes !! 2%nat = Some 0 /\
  Signatures.sample_inputs !! 0%nat =
    Some (Signatures.sample_parameter "v.colour" 0 2 eAttr_None) /\
  sorted !! 0%nat = Some (Signatures.sample_parameter "v.pos" 2 0 eAttr_Position).
Proof.
  intros Hs. split; [reflexivity|]. split; [reflexivity|].
  pose proof Hs as [Hperm _].
  assert (Hpos : Signatures.sample_parameter "v.pos" 2 0 eAttr_Position ∈ sorted).
  { rewrite <- Hperm. unfold Signatures.sample_inputs. repeat (right; try left). }
  apply list_elem_of_lookup_1 in Hpos as [j Hj].
  destruct j as [|j]; [exact Hj|].
  destruct (sorted !! 0%nat) as [a|] eqn:Ha.
  2:{ apply lookup_ge_None_1 in Ha. apply lookup_lt_Some in Hj. lia. }
  pose proof (signature_sorted_pairwise _ _ _ 0 (S j) _ _ Hs ltac:(lia) Ha Hj) as Hlt.
  assert (Hin : a ∈ Signatures.sample_inputs).
  { rewrite Hperm. eapply list_elem_of_lookup_2, Ha. }
  unfold Signatures.sample_inputs in Hin.
  repeat (apply elem_of_cons in Hin as [->|Hin];
          [first [discriminate Hlt|reflexivity]|]).
  apply elem_of_nil in Hin. contradiction.
Qed.

(** ** The parser files every instruction under its own id

    [named m]: an entry [k] of [ids] that is set points at an instruction
    whose [id] is [k].  [unnamed o m]: no entry of [ids] points at [o]. *)

Definition named (m : SPVModule) : Prop :=
  forall k p, ids m !! k = Some (Some p) ->
    exists i, operations m !! p = Some i /\ id i = Z.of_nat k.

Definition unnamed (o : ptr) (m : SPVModule) : Prop :=
  forall k, ids m !! k <> Some (Some o).

(** [idsafe o pre post c]: [c] keeps [named]; it writes the [id] of no
    instruction that [ids] points at; [pre] and [post] say whether [o] may
    be pointed at by [ids] before and after. *)
Definition idsafe {A} (o : ptr) (pre post : bool) (c : M PState A) : Prop :=
  forall s a s',
    named (pmod s) ->
    (pre = false -> (o < length (operations (pmod s)))%nat /\ unnamed o (pmod s)) ->
    c s = Ok (a, s') ->
    named (pmod s') /\
    (length (operations (pmod s)) <= length (operations (pmod s')))%nat /\
    (post = false -> (o < length (operations (pmod s')))%nat /\ unnamed o (pmod s')).

Lemma idsafe_bind {A B} o p q r (c : M PState A) (k : A -> M PState B) :
  idsafe o p q c -> (forall a, idsafe o q r (k a)) -> idsafe o p r (bindM c k).
Proof.
  intros Hc Hk s b s' Hn Hp H. apply bindM_Ok in H as (a & s1 & H1 & H2).
  destruct (Hc _ _ _ Hn Hp H1) as (Hn1 & Hl1 & Hq).
  destruct (Hk a _ _ _ Hn1 Hq H2) as (Hn2 & Hl2 & Hr).
  split; [exact Hn2|]. split; [lia|exact Hr].
Qed.

Lemma idsafe_post {A} o p (c : M PState A) : idsafe o p false c -> idsafe o p true c.
Proof.
  intros Hc s a s' Hn Hp H. destruct (Hc _ _ _ Hn Hp H) as (Hn1 & Hl1 & _).
  split; [exact Hn1|]. split; [exact Hl1|discriminate].
Qed.

(** A computation that leaves [ids] and [operations] as they are. *)
Lemma idsafe_still {A} o b (c : M PState A) :
  (forall s a s', c s = Ok (a, s') ->
     ids (pmod s') = ids (pmod s) /\ operations (pmod s') = operations (pmod s)) ->
  idsafe o b b c.
Proof.
  intros Hc s a s' Hn Hp H. destruct (Hc _ _ _ H) as [Ei Eo].
  unfold named, unnamed in *. rewrite Ei, Eo. auto.
Qed.

Lemma idsafe_ret {A} o b (a : A) : idsafe o b b (ret a).
Proof. apply idsafe_still. intros s a' s' H. inversion H; subst. auto. Qed.

Lemma idsafe_fail {A} o b q e : idsafe o b q (@fail PState A e).
Proof. intros s a s' _ _ H. discriminate. Qed.

Lemma idsafe_get o b : idsafe o b b get.
Proof. apply idsafe_still. intros s a' s' H. inversion H; subst. auto. Qed.

Lemma idsafe_lift_opt {A} o b e (x : option A) : idsafe o b b (lift_opt e x).
Proof. apply idsafe_still. intros s a s' H. apply lift_opt_Ok in H as [_ ->]. auto. Qed.

Lemma idsafe_logmsg o b l : idsafe o b b (logmsg l).
Proof. apply idsafe_still. intros s a s' H. inversion H; subst. auto. Qed.

Lemma idsafe_on_mod o b (f : SPVModule -> SPVModule) :
  (forall m, ids (f m) = ids m /\ operations (f m) = operations m) ->
  idsafe o b b (on_mod f).
Proof. intros Hf. apply idsafe_still. intros s a s' H. inversion H; subst. apply Hf. Qed.

Lemma idsafe_p_deref o b p : idsafe o b b (p_deref p).
Proof.
  apply idsafe_still. intros s a s' H. unfold p_deref in H.
  apply bindM_Ok in H as (s0 & s1 & H1 & H). inversion H1; subst.
  apply lift_opt_Ok in H as [_ ->]. auto.
Qed.

Lemma p_update_Ok p f s a s' :
  p_update p f s = Ok (a, s') ->
  exists i, operations (pmod s) !! p = Some i /\
    s' = {| pmod := with_operations (fun ops => <[p := f i]> ops) (pmod s);
            plog := plog s |}.
Proof.
  unfold p_update, p_deref. intros H.
  apply bindM_Ok in H as (i & s1 & H1 & H).
  apply bindM_Ok in H1 as (s0 & s2 & H0 & H1). inversion H0; subst.
  apply lift_opt_Ok in H1 as [H1 ->]. inversion H; subst. eauto.
Qed.

(** A write to an instruction that leaves its [id]. *)
Lemma idsafe_p_update o b p f :
  (forall i, id (f i) = id i) -> idsafe o b b (p_update p f).
Proof.
  intros Hf s a s' Hn Hp H. apply p_update_Ok in H as (i & Hi & ->).
  unfold named, unnamed in *. simpl. rewrite length_insert.
  split; [|split; [lia|exact Hp]].
  intros k q Hk. destruct (Hn k q Hk) as (j & Hj & Hid).
  destruct (decide (q = p)) as [->|Hne].
  - exists (f i). rewrite list_lookup_insert_eq by (eapply lookup_lt_Some; exact Hi).
    split; [reflexivity|]. rewrite Hf. congruence.
  - exists j. rewrite list_lookup_insert_ne by congruence. auto.
Qed.

Lemma ids_store_Ok w p s a s' :
  ids_store w p s = Ok (a, s') ->
  0 <= w /\ (Z.to_nat w < length (ids (pmod s)))%nat /\
  s' = {| pmod := with_ids (fun l => <[Z.to_nat w := Some p]> l) (pmod s);
          plog := plog s |}.
Proof.
  unfold ids_store. intros H.
  apply bindM_Ok in H as (s0 & s1 & H0 & H). inversion H0; subst.
  apply bindM_Ok in H as (x & s2 & H1 & H). apply lift_opt_Ok in H1 as [H1 ->].
  inversion H; subst. unfold at_word in H1.
  destruct (Z.leb_spec 0 w); [|discriminate].
  repeat split; [assumption|]. eapply lookup_lt_Some; exact H1.
Qed.

(** [op.id = w; ids[w] = &op] for an instruction that [ids] does not point
    at yet. *)
Lemma named_define p w s s1 s2 u1 u2 :
  named (pmod s) -> unnamed p (pmod s) ->
  p_update p (set_id w) s = Ok (u1, s1) -> ids_store w p s1 = Ok (u2, s2) ->
  named (pmod s2) /\ length (operations (pmod s2)) = length (operations (pmod s)) /\
  (forall o, o <> p -> unnamed o (pmod s) -> unnamed o (pmod s2)).
Proof.
  intros Hn Hu H1 H2. apply p_update_Ok in H1 as (i & Hi & ->).
  apply ids_store_Ok in H2 as (Hw & Hlt & ->).
  unfold named, unnamed in *. simpl in *. repeat split.
  - intros k q Hk. destruct (decide (k = Z.to_nat w)) as [->|Hne].
    + rewrite list_lookup_insert_eq in Hk by exact Hlt. inversion Hk; subst q.
      exists (set_id w i).
      rewrite list_lookup_insert_eq by (eapply lookup_lt_Some; exact Hi).
      split; [reflexivity|]. simpl. lia.
    + rewrite list_lookup_insert_ne in Hk by congruence.
      destruct (Hn k q Hk) as (j & Hj & Hid). exists j.
      rewrite list_lookup_insert_ne; [auto|]. intros ->. exact (Hu k Hk).
  - apply length_insert.
  - intros o Hne Ho k Hk. destruct (decide (k = Z.to_nat w)) as [->|Hne'].
    + rewrite list_lookup_insert_eq in Hk by exact Hlt. congruence.
    + rewrite list_lookup_insert_ne in Hk by congruence. exact (Ho k Hk).
Qed.

Lemma idsafe_define_id o w : idsafe o false true (define_id o w).
Proof.
  intros s a s' Hn Hp H. unfold define_id in H.
  apply bindM_Ok in H as (u1 & s1 & H1 & H2).
  destruct (named_define o w s s1 s' u1 a Hn (proj2 (Hp eq_refl)) H1 H2) as (Hn' & Hl & _).
  split; [exact Hn'|]. split; [lia|discriminate].
Qed.

Lemma named_alloc s p s' :
  named (pmod s) -> alloc s = Ok (p, s') ->
  named (pmod s') /\ unnamed p (pmod s') /\
  length (operations (pmod s')) = S (length (operations (pmod s))) /\
  p = length (operations (pmod s)) /\
  (forall o, unnamed o (pmod s) -> unnamed o (pmod s')).
Proof.
  intros Hn H. apply alloc_Ok in H as [-> ->].
  unfold named, unnamed in *. simpl. repeat split.
  - intros k q Hk. destruct (Hn k q Hk) as (j & Hj & Hid). exists j.
    rewrite lookup_app_l by (eapply lookup_lt_Some; exact Hj). auto.
  - intros k Hk. destruct (Hn k _ Hk) as (j & Hj & _).
    apply lookup_lt_Some in Hj. lia.
  - rewrite length_app. simpl. lia.
  - auto.
Qed.

Lemma idsafe_GetByID o b k : idsafe o b b (GetByID k).
Proof.
  intros s a s' Hn Hp H. unfold GetByID in H.
  apply bindM_Ok in H as (s0 & s1 & H0 & H). inversion H0; subst. clear H0.
  apply bindM_Ok in H as (slot & s2 & H1 & H). apply lift_opt_Ok in H1 as [H1 ->].
  destruct slot as [p|].
  - inversion H; subst. split; [exact Hn|]. split; [lia|exact Hp].
  - apply bindM_Ok in H as (u0 & s2 & H2 & H). inversion H2; subst. clear H2.
    apply bindM_Ok in H as (p & s3 & H3 & H).
    destruct (named_alloc {| pmod := pmod s1; plog := plog s1 ++ [WarnMissingID k] |}
                _ _ Hn H3) as (Hn3 & Hu3 & Hl3 & Hp3 & Hk3).
    simpl in Hl3, Hp3.
    apply bindM_Ok in H as (u4 & s4 & H4 & H).
    pose proof (idsafe_p_update p true p (set_opcode OpUnknown) (fun _ => eq_refl)
                  _ _ _ Hn3 ltac:(discriminate) H4) as (Hn4 & Hl4 & _).
    assert (Hu4 : forall q, unnamed q (pmod s3) -> unnamed q (pmod s4)).
    { apply p_update_Ok in H4 as (i & _ & ->). auto. }
    apply bindM_Ok in H as (u5 & s5 & H5 & H).
    apply bindM_Ok in H as (u6 & s6 & H6 & H).
    destruct (named_define p k s4 s5 s6 u5 u6 Hn4 (Hu4 _ Hu3) H5 H6) as (Hn6 & Hl6 & Hk6).
    assert (Hlen : (length (operations (pmod s1)) <= length (operations (pmod s6)))%nat)
      by lia.
    assert (Hpost : b = false ->
              (o < length (operations (pmod s6)))%nat /\ unnamed o (pmod s6)).
    { intros Hb. destruct (Hp Hb) as [Ho Hu]. split; [lia|].
      apply Hk6; [lia|]. apply Hu4, Hk3, Hu. }
    inversion H; subst. clear H.
    split; [exact Hn6|]. split; [exact Hlen|exact Hpost].
Qed.

Lemma idsafe_forM {A} o b (l : list A) (body : A -> M PState unit) :
  (forall x, idsafe o b b (body x)) -> idsafe o b b (forM_ l body).
Proof.
  intros Hb. induction l as [|x l IH]; simpl.
  - apply idsafe_ret.
  - eapply idsafe_bind; [apply Hb|intros _; exact IH].
Qed.

Lemma idsafe_foldM {A B} o b (l : list A) (x0 : B) (body : B -> A -> M PState B) :
  (forall y x, idsafe o b b (body y x)) -> idsafe o b b (foldM l x0 body).
Proof.
  intros Hb. revert x0. induction l as [|x l IH]; intros x0; simpl.
  - apply idsafe_ret.
  - eapply idsafe_bind; [apply Hb|intros y; apply IH].
Qed.

(** The judgement on a computation, by its syntax. *)
Ltac idsafe_leaf lem := first [apply lem | apply idsafe_post; apply lem].

Ltac idsafe_step :=
  lazymatch goal with
  | |- idsafe _ _ _ (define_id _ _) => apply idsafe_define_id
  | |- idsafe _ _ _ (ret _) => idsafe_leaf idsafe_ret
  | |- idsafe _ _ _ (fail _) => apply idsafe_fail
  | |- idsafe _ _ _ get => idsafe_leaf idsafe_get
  | |- idsafe _ _ _ (lift_opt _ _) => idsafe_leaf idsafe_lift_opt
  | |- idsafe _ _ _ (logmsg _) => idsafe_leaf idsafe_logmsg
  | |- idsafe _ _ _ (p_deref _) => idsafe_leaf idsafe_p_deref
  | |- idsafe _ _ _ (p_update _ _) =>
      first [apply idsafe_p_update | apply idsafe_post; apply idsafe_p_update];
      intros ?; reflexivity
  | |- idsafe _ _ _ (GetByID _) => idsafe_leaf idsafe_GetByID
  | |- idsafe _ _ _ (on_mod _) =>
      first [apply idsafe_on_mod | apply idsafe_post; apply idsafe_on_mod];
      intros ?; split; reflexivity
  | |- idsafe _ _ _ (forM_ _ _) =>
      first [apply idsafe_forM | apply idsafe_post; apply idsafe_forM]; intros ?
  | |- idsafe _ _ _ (foldM _ _ _) =>
      first [apply idsafe_foldM | apply idsafe_post; apply idsafe_foldM]; intros ? ?
  | |- idsafe _ _ _ (bindM _ _) => eapply idsafe_bind; [|intros ?]
  | |- idsafe _ _ _ (if ?b then _ else _) => destruct b
  | |- idsafe _ _ _ (match ?x with _ => _ end) => destruct x
  | |- idsafe _ _ _ (let _ := _ in _) => cbv zeta
  end.

Lemma idsafe_type_ptr o b p : idsafe o b b (type_ptr p).
Proof. unfold type_ptr. repeat idsafe_step. Qed.
Lemma idsafe_constant_ptr o b p : idsafe o b b (constant_ptr p).
Proof. unfold constant_ptr. repeat idsafe_step. Qed.
Lemma idsafe_on_func o b cf f : idsafe o b b (on_func cf f).
Proof. unfold on_func. repeat idsafe_step. Qed.
Lemma idsafe_on_block o b cb f : idsafe o b b (on_block cb f).
Proof. unfold on_block. repeat idsafe_step. Qed.
Lemma idsafe_on_type o b p f : idsafe o b b (on_type p f).
Proof. unfold on_type. repeat idsafe_step. Qed.
Lemma idsafe_on_op o b p f : idsafe o b b (on_op p f).
Proof. unfold on_op. repeat idsafe_step. Qed.
Lemma idsafe_on_flow o b p f : idsafe o b b (on_flow p f).
Proof. unfold on_flow. repeat idsafe_step. Qed.
Lemma idsafe_on_constant o b p f : idsafe o b b (on_constant p f).
Proof. unfold on_constant. repeat idsafe_step. Qed.
Lemma idsafe_on_var o b p f : idsafe o b b (on_var p f).
Proof. unfold on_var. repeat idsafe_step. Qed.
Lemma idsafe_rd o b words i : idsafe o b b (rd words i).
Proof. unfold rd. repeat idsafe_step. Qed.
Lemma idsafe_new_operation o b p w m : idsafe o b b (new_operation p w m).
Proof.
  unfold new_operation.
  eapply idsafe_bind; [apply idsafe_GetByID|intros ?].
  eapply idsafe_bind; [apply idsafe_type_ptr|intros ?].
  apply idsafe_p_update. reflexivity.
Qed.
Lemma idsafe_push_arg_word o b p w : idsafe o b b (push_arg_word p w).
Proof.
  unfold push_arg_word.
  eapply idsafe_bind; [apply idsafe_GetByID|intros ?]. apply idsafe_on_op.
Qed.
Lemma idsafe_new_type o b p k : idsafe o b b (new_type p k).
Proof. unfold new_type. apply idsafe_p_update. reflexivity. Qed.
Lemma idsafe_new_constant o b p w : idsafe o b b (new_constant p w).
Proof.
  unfold new_constant.
  eapply idsafe_bind; [apply idsafe_GetByID|intros ?].
  eapply idsafe_bind; [apply idsafe_type_ptr|intros ?].
  apply idsafe_p_update. reflexivity.
Qed.
Lemma idsafe_new_flow o b p : idsafe o b b (new_flow p).
Proof. unfold new_flow. apply idsafe_p_update. reflexivity. Qed.

Ltac idsafe_parser_step :=
  lazymatch goal with
  | |- idsafe _ _ _ (type_ptr _) => idsafe_leaf idsafe_type_ptr
  | |- idsafe _ _ _ (constant_ptr _) => idsafe_leaf idsafe_constant_ptr
  | |- idsafe _ _ _ (on_func _ _) => idsafe_leaf idsafe_on_func
  | |- idsafe _ _ _ (on_block _ _) => idsafe_leaf idsafe_on_block
  | |- idsafe _ _ _ (on_type _ _) => idsafe_leaf idsafe_on_type
  | |- idsafe _ _ _ (on_op _ _) => idsafe_leaf idsafe_on_op
  | |- idsafe _ _ _ (on_flow _ _) => idsafe_leaf idsafe_on_flow
  | |- idsafe _ _ _ (on_constant _ _) => idsafe_leaf idsafe_on_constant
  | |- idsafe _ _ _ (on_var _ _) => idsafe_leaf idsafe_on_var
  | |- idsafe _ _ _ (rd _ _) => idsafe_leaf idsafe_rd
  | |- idsafe _ _ _ (new_operation _ _ _) => idsafe_leaf idsafe_new_operation
  | |- idsafe _ _ _ (push_arg_word _ _) => idsafe_leaf idsafe_push_arg_word
  | |- idsafe _ _ _ (new_type _ _) => idsafe_leaf idsafe_new_type
  | |- idsafe _ _ _ (new_constant _ _) => idsafe_leaf idsafe_new_constant
  | |- idsafe _ _ _ (new_flow _) => idsafe_leaf idsafe_new_flow
  | _ => idsafe_step
  end.

Lemma idsafe_structural_case SCF words it WordCount o opc cf cb :
  idsafe o false true (structural_case SCF words it WordCount o opc cf cb).
Proof.
  unfold structural_case. destruct opc; repeat idsafe_parser_step.
Qed.

Lemma named_structural_pass opOfWord SCF words fuel : forall it cf cb s a s',
  named (pmod s) ->
  structural_pass opOfWord SCF words fuel it cf cb s = Ok (a, s') ->
  named (pmod s').
Proof.
  induction fuel as [|fuel IH]; intros it cf cb s a s' Hn H; cbn [structural_pass] in H.
  - discriminate.
  - destruct (it <? spirvLength words)%nat; [|inversion H; subst; exact Hn].
    apply bindM_Ok in H as (w & s1 & H1 & H).
    apply lift_opt_Ok in H1 as [_ ->]. cbv zeta in H.
    apply bindM_Ok in H as (o & s2 & H2 & H).
    destruct (named_alloc _ _ _ Hn H2) as (Hn2 & Hu2 & Hl2 & Ho2 & _).
    apply bindM_Ok in H as (u3 & s3 & H3 & H).
    assert (Hlt : (o < length (operations (pmod s2)))%nat) by lia.
    pose proof (idsafe_p_update o false o (set_opcode (word_opcode opOfWord w))
                  (fun _ => eq_refl) _ _ _ Hn2 (fun _ => conj Hlt Hu2) H3)
      as (Hn3 & Hl3 & Hu3).
    apply bindM_Ok in H as (r & s4 & H4 & H).
    pose proof (idsafe_structural_case SCF words it (word_count w) o
                  (word_opcode opOfWord w) cf cb _ _ _ Hn3 Hu3 H4)
      as (Hn4 & _ & _).
    eapply IH; [exact Hn4|exact H].
Qed.

Lemma named_annotation_pass opOfWord words fuel : forall it s a s',
  named (pmod s) ->
  annotation_pass opOfWord words fuel it s = Ok (a, s') ->
  named (pmod s').
Proof.
  induction fuel as [|fuel IH]; intros it s a s' Hn H; cbn [annotation_pass] in H.
  - discriminate.
  - destruct (it <? spirvLength words)%nat; [|inversion H; subst; exact Hn].
    apply bindM_Ok in H as (w & s1 & H1 & H).
    apply lift_opt_Ok in H1 as [_ ->].
    apply bindM_Ok in H as (u & s2 & H2 & H).
    assert (C : idsafe 0%nat true true
                  (annotation_case words it (word_count w) (word_opcode opOfWord w))).
    { unfold annotation_case. destruct (word_opcode opOfWord w);
        repeat idsafe_parser_step. }
    destruct (C _ _ _ Hn ltac:(discriminate) H2) as (Hn2 & Hl2 & _).
    eapply IH; [exact Hn2|exact H].
Qed.

(** X17.  After a parse that returns, [ids] files every instruction under
    its own id: an entry [k] that is set points at an instruction of
    [operations] whose [id] is [k]. *)
Theorem ParseSPIRV_ids_name_instructions Version opOfWord SCF words s k p :
  ParseSPIRV Version opOfWord SCF words fresh = Ok (tt, s) ->
  ids (pmod s) !! k = Some (Some p) ->
  exists i, operations (pmod s) !! p = Some i /\ id i = Z.of_nat k.
Proof.
  intros H. revert k p. change (named (pmod s)).
  assert (Hfresh : named (pmod fresh)).
  { intros k p Hk. simpl in Hk. rewrite lookup_nil in Hk. discriminate. }
  unfold ParseSPIRV in H.
  apply bindM_Ok in H as (w0 & s0 & R0 & H). apply lift_opt_Ok in R0 as [_ ->].
  destruct (negb (w0 =? MagicNumber)).
  { inversion H; subst. exact Hfresh. }
  apply bindM_Ok in H as (w1 & s1 & R1 & H). apply lift_opt_Ok in R1 as [_ ->].
  apply bindM_Ok in H as ([] & s1 & E1 & H). inversion E1; subst s1. clear E1.
  destruct (negb (w1 =? Version)).
  { inversion H; subst. exact Hfresh. }
  apply bindM_Ok in H as ([] & s2 & E2 & H). inversion E2; subst s2. clear E2.
  apply bindM_Ok in H as (w2 & s2 & R2 & H). apply lift_opt_Ok in R2 as [_ ->].
  apply bindM_Ok in H as ([] & s3 & E3 & H). inversion E3; subst s3. clear E3.
  apply bindM_Ok in H as (w3 & s3 & R3 & H). apply lift_opt_Ok in R3 as [_ ->].
  apply bindM_Ok in H as ([] & s4 & E4 & H). inversion E4; subst s4. clear E4.
  apply bindM_Ok in H as ([] & s5 & P1 & H).
  apply bindM_Ok in H as ([] & s6 & P2 & H).
  inversion H; subst. clear H.
  assert (Hn5 : named (pmod s5)).
  { eapply named_structural_pass; [|exact P1].
    intros k p Hk. simpl in Hk. rewrite resize_nil in Hk.
    apply lookup_replicate in Hk as [Hk _]. discriminate. }
  pose proof (named_annotation_pass _ _ _ _ _ _ _ Hn5 P2) as Hn6.
  exact Hn6.
Qed.

Lemma ParseSPIRV_ids_name_instructions_witness :
  exists i, operations (pmod Samples.store_state) !! 4%nat = Some i /\
    id i = Z.of_nat 5.
Proof.
  apply (ParseSPIRV_ids_name_instructions Samples.sample_Version
           Samples.sample_opOfWord Samples.sample_StorageClassFunction
           Samples.store_words Samples.store_state 5 4).
  - vm_compute. reflexivity.
  - reflexivity.
Defined.

(** ** The complexity of an expression after the inliner *)

Lemma within_bound_check ops l :
  forallb (within_boundb ops) l = true -> forall p, p ∈ l -> within_bound ops p.
Proof.
  intros H p Hp i o Hi Ho. rewrite forallb_forall in H.
  specialize (H p ltac:(apply list_elem_of_In; exact Hp)).
  unfold within_boundb in H. rewrite Hi, Ho in H. apply Z.leb_le. exact H.
Qed.

Lemma within_bound_insert_ne ops p q x :
  p <> q -> within_bound ops p -> within_bound (<[q := x]> ops) p.
Proof.
  intros Hne Hp i o Hi Ho. rewrite list_lookup_insert_ne in Hi by congruence. eauto.
Qed.

Lemma within_bound_insert ops p i o' :
  within_bound ops p -> complexity o' <= NO_INLINE_COMPLEXITY ->
  within_bound (<[p := set_op (Some o') i]> ops) p.
Proof.
  intros Hp Ho j oq Hj Hoq.
  destruct (decide (p < length ops)%nat) as [Hlt|Hge].
  - rewrite list_lookup_insert_eq in Hj by exact Hlt. inversion Hj; subst j.
    simpl in Hoq. inversion Hoq; subst oq. exact Ho.
  - rewrite list_insert_ge in Hj by lia. eauto.
Qed.

Lemma RDCMAX_le a b c : a <= c -> b <= c -> RDCMAX a b <= c.
Proof. unfold RDCMAX. destruct (a >? b); auto. Qed.

Section Cells.

(** The cells that are known to be within the bound. *)
Variable K : nat -> Prop.

Definition cells (s : DState) : Prop := forall p, K p -> within_bound (d_ops s) p.

(** A write that leaves the complexity. *)
Lemma cells_update_same p f :
  (forall o, complexity (f o) = complexity o) -> inv cells (update_op p f).
Proof.
  intros Hf s u s' Hc H. apply update_op_Ok in H as (i & o & Hi & Ho & ->).
  intros q Hq. simpl. destruct (decide (q = p)) as [->|Hne].
  - apply within_bound_insert; [auto|]. rewrite Hf. exact (Hc p Hq i o Hi Ho).
  - apply within_bound_insert_ne; auto.
Qed.

Lemma cells_on_funcops f : inv cells (on_funcops f).
Proof. intros s u s' Hb H. apply modify_Ok in H as ->. exact Hb. Qed.

Lemma cells_on_vars f : inv cells (on_vars f).
Proof. intros s u s' Hb H. apply modify_Ok in H as ->. exact Hb. Qed.

Ltac cells_step :=
  lazymatch goal with
  | |- inv _ (ret _) => apply inv_ret
  | |- inv _ (fail _) => apply inv_fail
  | |- inv _ get => apply inv_get
  | |- inv _ (lift_opt _ _) => apply inv_lift_opt
  | |- inv _ (reading _) => apply inv_reading
  | |- inv _ (is_unmodified _ _ _) => apply inv_reading
  | |- inv _ (on_funcops _) => apply cells_on_funcops
  | |- inv _ (on_vars _) => apply cells_on_vars
  | |- inv _ (or_inlineArgs _ _) => apply cells_update_same; intros ?; reflexivity
  | |- inv _ (store_argument _ _ _) => unfold store_argument
  | |- inv _ (update_op _ (fun o => set_arguments _ o)) =>
      apply cells_update_same; intros ?; reflexivity
  | |- inv _ (foldM _ _ _) => apply inv_foldM; intros ? ?
  | |- inv _ (bindM _ _) => apply inv_bind; [|intros ?]
  | |- inv _ (if ?b then _ else _) => destruct b
  | |- inv _ (match ?x with _ => _ end) => destruct x
  | |- inv _ (let _ := _ in _) => cbv zeta
  end.

(** One argument: what is folded in is less complex than the bound. *)
Lemma cells_inline_arg func instr mc a :
  triple (fun s => cells s /\ mc < NO_INLINE_COMPLEXITY)
    (inline_arg func instr mc a)
    (fun mc' s => cells s /\ mc' < NO_INLINE_COMPLEXITY).
Proof.
  intros s mc' s' [Hb Hmc] H. unfold inline_arg in H.
  apply bindM_Ok in H as (i & t & H1 & H). apply reading_Ok in H1 as [_ ->].
  apply bindM_Ok in H as (arg & t & H1 & H). apply reading_Ok in H1 as [_ ->].
  apply bindM_Ok in H as (ai & t & H1 & H). apply reading_Ok in H1 as [_ ->].
  cbv zeta in H.
  assert (Hfold : forall c, c < NO_INLINE_COMPLEXITY ->
    (on_funcops (fun l => erase_item l arg) ;;
     b <- lift_opt OutOfRange (bit a) ;;
     or_inlineArgs instr b ;; ret c) s = Ok (mc', s') ->
    cells s' /\ mc' < NO_INLINE_COMPLEXITY).
  { intros c Hc E.
    apply bindM_Ok in E as (u1 & t1 & E1 & E).
    pose proof (cells_on_funcops _ _ _ _ Hb E1) as Hb1.
    apply bindM_Ok in E as (bz & t0 & E0 & E). apply lift_opt_Ok in E0 as [_ ->].
    apply bindM_Ok in E as (u2 & t2 & E2 & E).
    assert (Hb2 : cells t2).
    { eapply (cells_update_same instr); [|exact Hb1|exact E2]. reflexivity. }
    apply ret_Ok in E as [-> ->]. auto. }
  destruct (op ai) as [ao|]; [|apply (Hfold mc Hmc H)].
  match type of H with
  | (if ?c then _ else _) _ = _ => destruct c eqn:Hc
  end.
  { apply ret_Ok in H as [-> ->]. auto. }
  apply bindM_Ok in H as (unmodified & t & H1 & H).
  assert (t = s) as ->.
  { destruct (negb (Op_eqb (opcode i) OpStore) || (0 <? a)%nat).
    - unfold is_unmodified in H1. apply reading_Ok in H1 as [_ ->]. reflexivity.
    - apply ret_Ok in H1 as [_ ->]. reflexivity. }
  destruct (negb unmodified).
  { apply ret_Ok in H as [-> ->]. auto. }
  apply (Hfold _) in H; [exact H|].
  apply orb_false_iff in Hc as [Hc _].
  unfold RDCMAX, RDCMIN, NO_INLINE_COMPLEXITY in *.
  destruct (Op_eqb (opcode i) OpCompositeConstruct); simpl in Hc;
    destruct (Z.geb_spec (complexity ao) 2), (Z.geb_spec (complexity ao) 3);
    try discriminate; destruct (Z.gtb_spec (complexity ao) mc); lia.
Qed.

(** The loop over the arguments and the increment after it: whatever the
    complexity of [instr] was, it is within the bound now. *)
Lemma cells_inline_args func instr :
  triple cells (inline_args func instr)
    (fun _ s => cells s /\ within_bound (d_ops s) instr).
Proof.
  intros s u s' Hb H. unfold inline_args in H.
  apply bindM_Ok in H as (io & t & H1 & H). apply reading_Ok in H1 as [_ ->].
  apply bindM_Ok in H as (mc & s1 & H1 & H).
  assert (Hfold : cells s1 /\ mc < NO_INLINE_COMPLEXITY).
  { eapply (triple_foldM (fun b s => cells s /\ b < NO_INLINE_COMPLEXITY));
      [| |exact H1].
    - intros b x. apply cells_inline_arg.
    - split; [exact Hb|reflexivity]. }
  destruct Hfold as [Hb1 Hmc].
  apply bindM_Ok in H as (u2 & s2 & H2 & H).
  apply update_op_Ok in H2 as (i1 & o1 & Hi1 & Ho1 & ->).
  apply bindM_Ok in H as (i & t & H3 & H). apply reading_Ok in H3 as [_ ->].
  apply bindM_Ok in H as (io' & t & H4 & H). apply reading_Ok in H4 as [_ ->].
  assert (Hin : forall c, c <= NO_INLINE_COMPLEXITY -> forall ops i0,
            within_bound (<[instr := set_op (Some (set_complexity c o1)) i0]> ops) instr).
  { intros c Hc ops i0 j oq Hj Hoq.
    destruct (decide (instr < length ops)%nat) as [Hlt|Hge].
    - rewrite list_lookup_insert_eq in Hj by exact Hlt. inversion Hj; subst j.
      simpl in Hoq. inversion Hoq; subst oq. exact Hc.
    - apply lookup_lt_Some in Hj. rewrite length_insert in Hj. lia. }
  assert (Hout : forall x ops, (forall p, K p -> within_bound ops p) ->
            forall p, K p -> p <> instr -> within_bound (<[instr := x]> ops) p).
  { intros x ops Hops p Hp Hne. apply within_bound_insert_ne; auto. }
  assert (Hmc' : mc <= NO_INLINE_COMPLEXITY /\ mc + 1 <= NO_INLINE_COMPLEXITY)
    by (unfold NO_INLINE_COMPLEXITY in *; lia).
  destruct Hmc' as [Hle Hle1].
  match type of H with
  | (if ?c then _ else _) _ = _ => destruct c
  end.
  - apply update_op_Ok in H as (i2 & o2 & Hi2 & Ho2 & ->). simpl in *.
    rewrite list_lookup_insert_eq in Hi2 by (eapply lookup_lt_Some; exact Hi1).
    inversion Hi2; subst i2. simpl in Ho2. inversion Ho2; subst o2. simpl.
    unfold cells. simpl. rewrite list_insert_insert_eq.
    split; [|apply (Hin (mc + 1) Hle1)].
    intros p Hp. destruct (decide (p = instr)) as [->|Hne];
      [apply (Hin (mc + 1) Hle1)|apply Hout; auto].
  - apply ret_Ok in H as [_ ->]. unfold cells. simpl.
    split; [|apply (Hin mc Hle)].
    intros p Hp. destruct (decide (p = instr)) as [->|Hne];
      [apply (Hin mc Hle)|apply Hout; auto].
Qed.

Lemma cells_inline_call bi i instr ign : inv cells (inline_call bi i instr ign).
Proof. unfold inline_call, inline_call_argument. repeat cells_step. Qed.

Lemma cells_inline_block_end ids blk : inv cells (inline_block_end ids blk).
Proof. unfold inline_block_end. repeat cells_step. Qed.

End Cells.

(** The store that the count of stores returns is in the list counted. *)
Lemma count_stores_elem ops instr : forall l prev n p m,
  count_stores ops instr l prev n = Ok (Some p, m) -> p ∈ l \/ prev = Some p.
Proof.
  induction l as [|x l IH]; intros prev n p m H; simpl in H.
  - inversion H; subst. right. reflexivity.
  - apply rbind_Ok in H as (pi & _ & H). apply rbind_Ok in H as (hit & _ & H).
    destruct hit.
    + destruct (n + 1 >? 1).
      * inversion H; subst. left. left.
      * apply IH in H as [H|H]; [left; right; exact H|].
        inversion H; subst. left. left.
    + apply IH in H as [H|H]; [left; right; exact H|right; exact H].
Qed.

Section Visit.

(** [K] holds of what may be in the emit list; [V] are the variables of
    the function. *)
Variables (K : nat -> Prop) (V : list nat).

(** The emit list holds instructions of [K] only, and these are within
    the bound. *)
Definition settled (s : DState) : Prop := emits K V s /\ cells K s.

Lemma settled_merge_single_store func instr :
  K instr -> inv settled (merge_single_store func instr).
Proof.
  intros Hinstr s u s' [He Hc] H. split.
  { exact (emits_merge_single_store K V func instr _ _ _ He H). }
  unfold merge_single_store in H.
  apply bindM_Ok in H as (i & t & H1 & H). apply reading_Ok in H1 as [_ ->].
  apply bindM_Ok in H as (s0 & t & H1 & H). apply get_Ok in H1 as [-> ->].
  destruct (Op_eqb (opcode i) OpLoad && (1 <? length (funcops s))%nat);
    [|apply ret_Ok in H as [_ ->]; exact Hc].
  apply bindM_Ok in H as (r & t & H1 & H). apply reading_Ok in H1 as [Hcount ->].
  destruct r as [[prevstore|] n]; [|apply ret_Ok in H as [_ ->]; exact Hc].
  destruct n as [|[| |]|]; try (apply ret_Ok in H as [_ ->]; exact Hc).
  apply bindM_Ok in H as (unmodified & t & H1 & H).
  unfold is_unmodified in H1. apply reading_Ok in H1 as [_ ->].
  destruct unmodified; [|apply ret_Ok in H as [_ ->]; exact Hc].
  apply bindM_Ok in H as (otherload & t & H1 & H). apply reading_Ok in H1 as [_ ->].
  destruct otherload; [apply ret_Ok in H as [_ ->]; exact Hc|].
  apply bindM_Ok in H as (io & t & H1 & H). apply reading_Ok in H1 as [H1 ->].
  apply bindM_Ok in H as (po & t & H2 & H). apply reading_Ok in H2 as [H2 ->].
  apply bindM_Ok in H as (u3 & s3 & H3 & H).
  assert (Hprev : K prevstore).
  { apply count_stores_elem in Hcount as [Hin|Hin]; [|discriminate].
    destruct He as [Hf _]. rewrite Forall_forall in Hf. apply Hf, Hin. }
  assert (Hb3 : cells K s3).
  { apply update_op_Ok in H3 as (i3 & o3 & Hi3 & Ho3 & ->).
    apply deref_op_Ok in H1 as (i1 & Hi1 & Ho1).
    apply deref_op_Ok in H2 as (i2 & Hi2 & Ho2).
    intros p Hp. simpl. destruct (decide (p = instr)) as [->|Hne].
    - apply within_bound_insert; [auto|]. simpl.
      apply RDCMAX_le; [exact (Hc instr Hinstr _ _ Hi1 Ho1)|
                        exact (Hc prevstore Hprev _ _ Hi2 Ho2)].
    - apply within_bound_insert_ne; auto. }
  assert (Hinv : inv (cells K)
    (src <- reading (fun ops => argument ops instr 0) ;;
     on_vars (fun l => erase_item l src) ;;
     on_funcops (fun l => erase_item l prevstore) ;;
     store_argument instr 0 prevstore)).
  { apply inv_bind; [apply inv_reading|intros src].
    apply inv_bind; [apply cells_on_vars|intros _].
    apply inv_bind; [apply cells_on_funcops|intros _].
    unfold store_argument. apply inv_bind; [apply inv_reading|intros _].
    apply cells_update_same. reflexivity. }
  exact (Hinv _ _ _ Hb3 H).
Qed.

Lemma settled_merge_adjacent_store instr :
  K instr -> inv settled (merge_adjacent_store instr).
Proof.
  intros Hinstr s u s' [He Hc] H. split.
  { exact (emits_merge_adjacent_store K V instr _ _ _ He H). }
  unfold merge_adjacent_store in H.
  apply bindM_Ok in H as (i & t & H1 & H). apply reading_Ok in H1 as [_ ->].
  apply bindM_Ok in H as (s0 & t & H1 & H). apply get_Ok in H1 as [-> ->].
  match type of H with
  | (if ?c then _ else _) _ = _ => destruct c
  end; [|apply ret_Ok in H as [_ ->]; exact Hc].
  apply bindM_Ok in H as (value & t & H1 & H). apply reading_Ok in H1 as [_ ->].
  apply bindM_Ok in H as (prev & t & H1 & H). apply lift_opt_Ok in H1 as [Hprev ->].
  destruct (Nat.eqb_spec value prev) as [->|Hne];
    [|apply ret_Ok in H as [_ ->]; exact Hc].
  assert (HK : K prev).
  { destruct He as [Hf _]. rewrite Forall_forall in Hf.
    eapply Hf, list_elem_of_lookup_2, Hprev. }
  apply bindM_Ok in H as (u1 & s1 & H1 & H). apply modify_Ok in H1. subst s1.
  apply bindM_Ok in H as (vi & t & H1 & H). apply reading_Ok in H1 as [H1 ->].
  apply deref_Ok in H1. simpl in H1.
  apply bindM_Ok in H as (u2 & s2 & H2 & H).
  assert (Hb2 : cells K s2).
  { destruct (op vi) as [vo|] eqn:Hvo.
    - apply bindM_Ok in H2 as (io & t & H3 & H2). apply reading_Ok in H3 as [H3 ->].
      apply update_op_Ok in H2 as (i3 & o3 & Hi3 & Ho3 & ->).
      apply deref_op_Ok in H3 as (i1 & Hi1 & Ho1). simpl in *.
      intros p Hp. simpl. destruct (decide (p = instr)) as [->|Hne].
      + apply within_bound_insert; [auto|]. simpl.
        apply RDCMAX_le; [exact (Hc instr Hinstr _ _ Hi1 Ho1)|
                          exact (Hc prev HK _ _ H1 Hvo)].
      + apply within_bound_insert_ne; auto.
    - apply ret_Ok in H2 as [_ ->]. exact Hc. }
  eapply (cells_update_same K instr); [|exact Hb2|exact H]. reflexivity.
Qed.

End Visit.

Lemma emits_weaken (K K' : nat -> Prop) V s :
  (forall x, K x -> K' x) -> emits K V s -> emits K' V s.
Proof.
  intros HK [Hf Hv]. split; [|exact Hv]. eapply Forall_impl; [exact Hf|exact HK].
Qed.

Lemma settled_iff (K K' : nat -> Prop) V s :
  (forall x, K x <-> K' x) -> settled K V s -> settled K' V s.
Proof.
  intros HK [He Hc]. split.
  - eapply emits_weaken; [|exact He]. intros x. apply HK.
  - intros p Hp. apply Hc, HK, Hp.
Qed.

(** What is known to be within the bound: the instructions of [O] and
    those that the inliner has visited. *)
Definition known (O : nat -> Prop) (seen : list nat) (x : nat) : Prop :=
  O x \/ x ∈ seen.

Section Visits.

Variables (O : nat -> Prop) (V : list nat).

(** A visit settles the instruction visited. *)
Lemma settled_inline_instruction func bi ign k instr seen :
  triple (settled (known O seen) V) (inline_instruction func bi ign k instr)
    (fun _ => settled (known O (seen ++ [instr])) V).
Proof.
  intros s a s' [He Hc] H. unfold inline_instruction in H.
  assert (Hsub : forall x, known O seen x -> known O (seen ++ [instr]) x).
  { intros x [Hx|Hx]; [left; exact Hx|right]. apply elem_of_app. left. exact Hx. }
  assert (Hinstr : known O (seen ++ [instr]) instr).
  { right. apply elem_of_app. right. left. }
  apply bindM_Ok in H as (u1 & s1 & H1 & H).
  assert (He1 : emits (known O (seen ++ [instr])) V s1).
  { apply (emits_weaken _ _ _ _ Hsub) in He. destruct (existsb _ _).
    - apply ret_Ok in H1 as [_ ->]. exact He.
    - exact (emits_push _ V instr Hinstr _ _ _ He H1). }
  assert (Hc1 : cells (known O seen) s1).
  { destruct (existsb _ _).
    - apply ret_Ok in H1 as [_ ->]. exact Hc.
    - exact (cells_on_funcops _ _ _ _ _ Hc H1). }
  clear H1 He Hc.
  apply bindM_Ok in H as (ii & t & H1 & H). apply reading_Ok in H1 as [Hii ->].
  apply deref_Ok in Hii.
  assert (Hgrow : forall t, cells (known O seen) t -> within_bound (d_ops t) instr ->
            cells (known O (seen ++ [instr])) t).
  { intros t Ht Hi p [Hp|Hp]; [apply Ht; left; exact Hp|].
    apply elem_of_app in Hp as [Hp|Hp]; [apply Ht; right; exact Hp|].
    apply elem_of_cons in Hp as [->|Hp]; [exact Hi|].
    apply elem_of_nil in Hp. contradiction. }
  destruct (op ii) as [io|] eqn:Hop.
  - apply bindM_Ok in H as (u2 & s2 & H2 & H).
    pose proof (emits_inline_args _ V func instr _ _ _ He1 H2) as He2.
    destruct (cells_inline_args _ func instr _ _ _ Hc1 H2) as [Hc2 Hi2].
    assert (Hs2 : settled (known O (seen ++ [instr])) V s2).
    { split; [exact He2|apply Hgrow; assumption]. }
    apply bindM_Ok in H as (u3 & s3 & H3 & H).
    pose proof (settled_merge_single_store _ V func instr Hinstr _ _ _ Hs2 H3) as Hs3.
    apply bindM_Ok in H as (u4 & s4 & H4 & H).
    pose proof (settled_merge_adjacent_store _ V instr Hinstr _ _ _ Hs3 H4) as [He4 Hc4].
    split.
    + exact (emits_inline_call _ V bi k instr ign _ _ _ He4 H).
    + exact (cells_inline_call _ bi k instr ign _ _ _ Hc4 H).
  - apply ret_Ok in H as [_ ->]. split; [exact He1|].
    apply Hgrow; [exact Hc1|]. intros i o Hi Ho. rewrite Hii in Hi.
    inversion Hi; subst i. congruence.
Qed.

Lemma settled_inline_instructions func bi rest : forall ign k seen,
  triple (settled (known O seen) V) (inline_instructions func bi ign k rest)
    (fun _ => settled (known O (seen ++ rest)) V).
Proof.
  induction rest as [|instr rest IH]; intros ign k seen; simpl.
  - rewrite app_nil_r. apply triple_ret. auto.
  - eapply triple_bind; [apply settled_inline_instruction|]. intros ign'.
    eapply triple_conseq; [| |apply (IH ign' (S k) (seen ++ [instr]))].
    + auto.
    + intros a s Hs. simpl in Hs. rewrite <- app_assoc in Hs. exact Hs.
Qed.

Lemma settled_inline_block ids func b blockInst s u s' bi blk seen :
  d_ops s !! blockInst = Some bi -> block bi = Some blk ->
  O blockInst ->
  (forall m, mergeFlow blk = Some m -> O m) ->
  (forall e, exitFlow blk = Some e -> O e) ->
  settled (known O seen) V s ->
  inline_block ids func b blockInst s = Ok (u, s') ->
  settled (known O (seen ++ instructions blk)) V s'.
Proof.
  intros Hbi Hblk Hb Hm He Hs H. unfold inline_block in H.
  apply bindM_Ok in H as (bi' & t & H1 & H). apply reading_Ok in H1 as [H1 ->].
  apply deref_Ok in H1. rewrite Hbi in H1. inversion H1; subst bi'.
  apply bindM_Ok in H as (blk' & t & H2 & H). apply lift_opt_Ok in H2 as [H2 ->].
  rewrite Hblk in H2. inversion H2; subst blk'.
  apply bindM_Ok in H as (u1 & s1 & E1 & H).
  assert (Hs1 : settled (known O seen) V s1).
  { destruct Hs as [Hes Hcs]. destruct (0 <? b)%nat.
    - split.
      + refine (emits_push _ V blockInst _ _ _ _ Hes E1). left. exact Hb.
      + exact (cells_on_funcops _ _ _ _ _ Hcs E1).
    - apply ret_Ok in E1 as [_ ->]. split; assumption. }
  apply bindM_Ok in H as (u2 & s2 & E2 & H).
  destruct (settled_inline_instructions _ _ _ _ _ _ _ _ _ Hs1 E2) as [He2 Hc2].
  split.
  - refine (emits_inline_block_end _ V ids blk _ _ _ _ _ He2 H).
    + intros m Hmf. left. apply Hm, Hmf.
    + intros e Hef. left. apply He, Hef.
  - exact (cells_inline_block_end _ ids blk _ _ _ Hc2 H).
Qed.

End Visits.

Lemma settled_inline_blocks ops0 ids func (O : nat -> Prop) V all order0 :
  forall rest b s u s' order seen,
  linear_order ops0 all = Some order0 ->
  (forall x, x ∈ all -> O x) ->
  (forall x, x ∈ block_flows ops0 all -> O x) ->
  (forall x, x ∈ rest -> x ∈ all) ->
  touched_in order0 ops0 (d_ops s) ->
  linear_order ops0 rest = Some order ->
  settled (known O seen) V s ->
  inline_blocks ids func b rest s = Ok (u, s') ->
  settled (known O (seen ++ order)) V s'.
Proof.
  induction rest as [|blockInst rest IH];
    intros b s u s' order seen Hl0 Hall Hfl Hsub Ht Hl HP H.
  - simpl in H. apply ret_Ok in H as [_ ->]. simpl in Hl. inversion Hl; subst order.
    rewrite app_nil_r. exact HP.
  - apply linear_order_cons in Hl as (bi & blk & order' & Hbi & Hblk & Hl' & ->).
    simpl in H. apply bindM_Ok in H as (u1 & s1 & H1 & H2).
    assert (Hin : blockInst ∈ all) by (apply Hsub; left).
    pose proof (touched_block _ _ _ blockInst Ht) as Hb. rewrite Hbi in Hb.
    destruct (d_ops s !! blockInst) as [bi'|] eqn:Hbi'; [|discriminate].
    simpl in Hb. apply (inj Some) in Hb. rewrite Hblk in Hb.
    assert (HP1 : settled (known O (seen ++ instructions blk)) V s1).
    { eapply (settled_inline_block O V); try eassumption.
      - apply Hall, Hin.
      - intros m Hm. apply Hfl. eapply block_flows_merge; eauto.
      - intros e He. apply Hfl. eapply block_flows_exit; eauto. }
    assert (Ht1 : touched_in order0 ops0 (d_ops s1)).
    { eapply touched_trans; [exact Ht|].
      eapply touched_mono; [|eapply inline_block_touched; eassumption].
      intros x Hx. eapply linear_order_elem; eauto. }
    rewrite app_assoc.
    apply (IH (S b) s1 u s' order' (seen ++ instructions blk)); auto.
    intros x Hx. apply Hsub. right. exact Hx.
Qed.

(** X18.  After the inliner has gone over a function, no operation in
    the blocks of the function is more complex than
    [NO_INLINE_COMPLEXITY], whatever its complexity was before: the loop
    over the arguments assigns the complexity anew.  The complexity of
    100 that the parser gives an [OpCompositeInsert], so that it is never
    combined, does not outlast the visit of that instruction.  (What the
    emit list takes from outside the blocks, the labels and the merge
    and exit instructions, is assumed within the bound; an instruction
    without an operation is.) *)
Theorem inliner_bounds_complexity m f fi fn order d p :
  operations m !! f = Some fi -> func fi = Some fn ->
  linear_order (operations m) (blocks fn) = Some order ->
  (forall x, x ∈ blocks fn ++ block_flows (operations m) (blocks fn) ->
     within_bound (operations m) x) ->
  run_inliner m f = Ok d ->
  p ∈ order -> within_bound (d_ops d) p.
Proof.
  intros Hfi Hfn Hl Hout H Hp.
  apply run_inliner_Ok in H as (fi' & fn' & Hfi' & Hfn' & H).
  rewrite Hfi in Hfi'. inversion Hfi'; subst fi'.
  rewrite Hfn in Hfn'. inversion Hfn'; subst fn'.
  unfold inline_function in H.
  apply bindM_Ok in H as (u1 & t1 & E1 & H). apply modify_Ok in E1. subst t1.
  apply bindM_Ok in H as (u2 & t2 & E2 & H). apply modify_Ok in E2. subst t2.
  simpl in H.
  destruct (settled_inline_blocks (operations m) (ids m) fn
              (fun x => x ∈ blocks fn ++ block_flows (operations m) (blocks fn))
              (variables fn) (blocks fn) order (blocks fn) 0
              {| d_ops := operations m; vars := variables fn; funcops := [] |}
              tt d order []) as [_ Hc]; auto.
  - intros x Hx. apply elem_of_app. left. exact Hx.
  - intros x Hx. apply elem_of_app. right. exact Hx.
  - apply touched_refl.
  - split; [split; [constructor|reflexivity]|].
    intros x [Hx|Hx]; [apply Hout, Hx|]. apply elem_of_nil in Hx. contradiction.
  - apply Hc. right. exact Hp.
Qed.

Lemma inliner_bounds_complexity_witness :
  within_bound (d_ops Inserts.insert_once) 7.
Proof.
  apply (inliner_bounds_complexity (pmod Inserts.insert_state) 4
           (Samples.instruction_at (operations (pmod Inserts.insert_state)) 4)
           (Samples.function_at (operations (pmod Inserts.insert_state)) 4)
           [6; 7; 8]%nat Inserts.insert_once 7).
  - reflexivity.
  - reflexivity.
  - reflexivity.
  - intros x Hx. vm_compute in Hx.
    apply (within_bound_check _ [5; 9]%nat); [reflexivity|exact Hx].
  - reflexivity.
  - right. left.
Defined.

(** The code at a composite insert.  The parser leaves it with the
    complexity 100; the run of the inliner leaves it with 2, takes it out
    of the emit list and folds it into the sum that uses it. *)
Lemma composite_insert_is_combined :
  (complexity <$> (operations (pmod Inserts.insert_state) !! 7%nat ≫= op)) = Some 100 /\
  (complexity <$> (d_ops Inserts.insert_once !! 7%nat ≫= op)) = Some 2 /\
  funcops Inserts.insert_once = [8; 9]%nat /\
  (inlineArgs <$> (d_ops Inserts.insert_once !! 8%nat ≫= op)) = Some 3.
Proof. repeat split. Qed.

(** ** The passes of the parser come to an end

    [finite c]: [c] does not run out of fuel.  The cases of the two
    [switch]es hold no loop but those over the words of the instruction. *)

Definition finite {A} (c : M PState A) : Prop :=
  forall s, c s <> Fault OutOfFuel.

Lemma finite_ret {A} (a : A) : finite (ret a).
Proof. intros s. discriminate. Qed.

Lemma finite_fail {A} e : e <> OutOfFuel -> finite (@fail PState A e).
Proof. intros He s H. inversion H. congruence. Qed.

Lemma finite_bind {A B} (c : M PState A) (k : A -> M PState B) :
  finite c -> (forall a, finite (k a)) -> finite (bindM c k).
Proof.
  intros Hc Hk s. unfold bindM. destruct (c s) as [[a s']|e] eqn:E.
  - apply Hk.
  - intros H. inversion H; subst e. exact (Hc s E).
Qed.

Lemma finite_get : finite (@get PState).
Proof. intros s. discriminate. Qed.

Lemma finite_modify f : finite (@modify PState f).
Proof. intros s. discriminate. Qed.

Lemma finite_lift_opt {A} e (x : option A) : e <> OutOfFuel -> finite (lift_opt e x).
Proof. intros He. destruct x; [apply finite_ret|apply finite_fail, He]. Qed.

Lemma finite_forM {A} (l : list A) (body : A -> M PState unit) :
  (forall x, finite (body x)) -> finite (forM_ l body).
Proof.
  intros Hb. induction l as [|x l IH]; simpl.
  - apply finite_ret.
  - apply finite_bind; auto.
Qed.

Lemma finite_foldM {A B} (l : list A) (b : B) (body : B -> A -> M PState B) :
  (forall y x, finite (body y x)) -> finite (foldM l b body).
Proof.
  intros Hb. revert b. induction l as [|x l IH]; intros b; simpl.
  - apply finite_ret.
  - apply finite_bind; auto.
Qed.

Ltac finite_step :=
  lazymatch goal with
  | |- finite (ret _) => apply finite_ret
  | |- finite (fail _) => apply finite_fail; discriminate
  | |- finite get => apply finite_get
  | |- finite (modify _) => apply finite_modify
  | |- finite (on_mod _) => apply finite_modify
  | |- finite (logmsg _) => apply finite_modify
  | |- finite (lift_opt _ _) => apply finite_lift_opt; discriminate
  | |- finite (forM_ _ _) => apply finite_forM; intros ?
  | |- finite (foldM _ _ _) => apply finite_foldM; intros ? ?
  | |- finite (bindM _ _) => apply finite_bind; [|intros ?]
  | |- finite (if ?b then _ else _) => destruct b
  | |- finite (match ?x with _ => _ end) => destruct x
  | |- finite (let _ := _ in _) => cbv zeta
  end.

Lemma finite_alloc : finite alloc.
Proof. unfold alloc. repeat finite_step. Qed.
Lemma finite_p_deref p : finite (p_deref p).
Proof. unfold p_deref. repeat finite_step. Qed.
Lemma finite_p_update p f : finite (p_update p f).
Proof. unfold p_update. apply finite_bind; [apply finite_p_deref|]. intros ?. finite_step. Qed.
Lemma finite_ids_store w p : finite (ids_store w p).
Proof. unfold ids_store. repeat finite_step. Qed.
Lemma finite_GetByID k : finite (GetByID k).
Proof.
  unfold GetByID. apply finite_bind; [apply finite_get|intros s0].
  apply finite_bind; [apply finite_lift_opt; discriminate|intros [p|]].
  - apply finite_ret.
  - apply finite_bind; [apply finite_modify|intros _].
    apply finite_bind; [apply finite_alloc|intros p].
    apply finite_bind; [apply finite_p_update|intros _].
    apply finite_bind; [apply finite_p_update|intros _].
    apply finite_bind; [apply finite_ids_store|intros _].
    apply finite_ret.
Qed.
Lemma finite_type_ptr p : finite (type_ptr p).
Proof. unfold type_ptr. apply finite_bind; [apply finite_p_deref|intros ?; finite_step]. Qed.
Lemma finite_constant_ptr p : finite (constant_ptr p).
Proof.
  unfold constant_ptr. apply finite_bind; [apply finite_p_deref|intros ?; finite_step].
Qed.
Lemma finite_define_id o w : finite (define_id o w).
Proof.
  unfold define_id. apply finite_bind; [apply finite_p_update|intros _].
  apply finite_ids_store.
Qed.

Ltac finite_update :=
  repeat first [apply finite_p_deref | apply finite_p_update | finite_step].

Lemma finite_on_func cf f : finite (on_func cf f).
Proof. unfold on_func. finite_update. Qed.
Lemma finite_on_block cb f : finite (on_block cb f).
Proof. unfold on_block. finite_update. Qed.
Lemma finite_on_type p f : finite (on_type p f).
Proof. unfold on_type. finite_update. Qed.
Lemma finite_on_op p f : finite (on_op p f).
Proof. unfold on_op. finite_update. Qed.
Lemma finite_on_flow p f : finite (on_flow p f).
Proof. unfold on_flow. finite_update. Qed.
Lemma finite_on_constant p f : finite (on_constant p f).
Proof. unfold on_constant. finite_update. Qed.
Lemma finite_on_var p f : finite (on_var p f).
Proof. unfold on_var. finite_update. Qed.
Lemma finite_rd words i : finite (rd words i).
Proof. unfold rd. repeat finite_step. Qed.
Lemma finite_new_operation p w m : finite (new_operation p w m).
Proof.
  unfold new_operation. apply finite_bind; [apply finite_GetByID|intros ?].
  apply finite_bind; [apply finite_type_ptr|intros ?]. apply finite_p_update.
Qed.
Lemma finite_push_arg_word p w : finite (push_arg_word p w).
Proof.
  unfold push_arg_word. apply finite_bind; [apply finite_GetByID|intros ?].
  apply finite_on_op.
Qed.
Lemma finite_new_type p k : finite (new_type p k).
Proof. apply finite_p_update. Qed.
Lemma finite_new_constant p w : finite (new_constant p w).
Proof.
  unfold new_constant. apply finite_bind; [apply finite_GetByID|intros ?].
  apply finite_bind; [apply finite_type_ptr|intros ?]. apply finite_p_update.
Qed.
Lemma finite_new_flow p : finite (new_flow p).
Proof. apply finite_p_update. Qed.

Ltac finite_parser_step :=
  lazymatch goal with
  | |- finite alloc => apply finite_alloc
  | |- finite (p_deref _) => apply finite_p_deref
  | |- finite (p_update _ _) => apply finite_p_update
  | |- finite (ids_store _ _) => apply finite_ids_store
  | |- finite (GetByID _) => apply finite_GetByID
  | |- finite (type_ptr _) => apply finite_type_ptr
  | |- finite (constant_ptr _) => apply finite_constant_ptr
  | |- finite (define_id _ _) => apply finite_define_id
  | |- finite (on_func _ _) => apply finite_on_func
  | |- finite (on_block _ _) => apply finite_on_block
  | |- finite (on_type _ _) => apply finite_on_type
  | |- finite (on_op _ _) => apply finite_on_op
  | |- finite (on_flow _ _) => apply finite_on_flow
  | |- finite (on_constant _ _) => apply finite_on_constant
  | |- finite (on_var _ _) => apply finite_on_var
  | |- finite (rd _ _) => apply finite_rd
  | |- finite (new_operation _ _ _) => apply finite_new_operation
  | |- finite (push_arg_word _ _) => apply finite_push_arg_word
  | |- finite (new_type _ _) => apply finite_new_type
  | |- finite (new_constant _ _) => apply finite_new_constant
  | |- finite (new_flow _) => apply finite_new_flow
  | _ => finite_step
  end.

Lemma finite_structural_case SCF words it WordCount o opc cf cb :
  finite (structural_case SCF words it WordCount o opc cf cb).
Proof. unfold structural_case. destruct opc; repeat finite_parser_step. Qed.

Lemma finite_annotation_case words it WordCount opc :
  finite (annotation_case words it WordCount opc).
Proof. unfold annotation_case. destruct opc; repeat finite_parser_step. Qed.

Lemma word_count_nonneg w : 0 <= word_count w.
Proof. unfold word_count. apply Z.land_nonneg. right. lia. Qed.

Lemma structural_pass_out_of_fuel opOfWord SCF words fuel : forall it cf cb s,
  (spirvLength words - it < fuel)%nat ->
  structural_pass opOfWord SCF words fuel it cf cb s = Fault OutOfFuel ->
  reaches_zero_count words it.
Proof.
  induction fuel as [|fuel IH]; intros it cf cb s Hfuel H; [lia|].
  cbn [structural_pass] in H.
  destruct (Nat.ltb_spec it (spirvLength words)) as [Hlt|Hge]; [|discriminate].
  destruct (lookup_lt_is_Some_2 words it Hlt) as [w Hw].
  unfold bindM at 1 in H. unfold rd, lift_opt in H. rewrite Hw in H.
  cbv beta iota zeta in H. unfold ret at 1 in H. cbv beta iota in H.
  unfold bindM at 1 in H.
  destruct (alloc s) as [[o s1]|e] eqn:E1;
    [|inversion H; subst e; exfalso; exact (finite_alloc _ E1)].
  unfold bindM at 1 in H.
  destruct (p_update o (set_opcode (word_opcode opOfWord w)) s1) as [[u s2]|e] eqn:E2;
    [|inversion H; subst e; exfalso; exact (finite_p_update _ _ _ E2)].
  unfold bindM at 1 in H.
  destruct (structural_case SCF words it (word_count w) o (word_opcode opOfWord w) cf cb s2)
    as [[r s3]|e] eqn:E3;
    [|inversion H; subst e; exfalso; exact (finite_structural_case _ _ _ _ _ _ _ _ _ E3)].
  destruct (Z.eq_dec (word_count w) 0) as [Hz|Hnz].
  - exists it, w. split; [constructor|auto].
  - pose proof (word_count_nonneg w) as Hnn.
    apply IH in H; [|lia].
    destruct H as (it' & w' & Hr & Hw' & Hz). exists it', w'.
    split; [eapply reaches_next; eassumption|auto].
Qed.

Lemma annotation_pass_out_of_fuel opOfWord words fuel : forall it s,
  (spirvLength words - it < fuel)%nat ->
  annotation_pass opOfWord words fuel it s = Fault OutOfFuel ->
  reaches_zero_count words it.
Proof.
  induction fuel as [|fuel IH]; intros it s Hfuel H; [lia|].
  cbn [annotation_pass] in H.
  destruct (Nat.ltb_spec it (spirvLength words)) as [Hlt|Hge]; [|discriminate].
  destruct (lookup_lt_is_Some_2 words it Hlt) as [w Hw].
  unfold bindM at 1 in H. unfold rd, lift_opt in H. rewrite Hw in H.
  cbv beta iota zeta in H. unfold ret at 1 in H. cbv beta iota in H.
  unfold bindM at 1 in H.
  destruct (annotation_case words it (word_count w) (word_opcode opOfWord w) s)
    as [[u s1]|e] eqn:E1;
    [|inversion H; subst e; exfalso; exact (finite_annotation_case _ _ _ _ _ E1)].
  destruct (Z.eq_dec (word_count w) 0) as [Hz|Hnz].
  - exists it, w. split; [constructor|auto].
  - pose proof (word_count_nonneg w) as Hnn.
    apply IH in H; [|lia].
    destruct H as (it' & w' & Hr & Hw' & Hz). exists it', w'.
    split; [eapply reaches_next; eassumption|auto].
Qed.

(** X19.  The loops of the parser come to an end unless they meet a word
    count of zero: each pass takes at most as many rounds as the buffer
    has words, and where the parser does not return for lack of them one
    of its two loops, which both start at word 5, has come to an
    instruction whose word count is zero. *)
Theorem ParseSPIRV_ends_but_for_zero_count Version opOfWord SCF words :
  ParseSPIRV Version opOfWord SCF words fresh = Fault OutOfFuel ->
  reaches_zero_count words 5.
Proof.
  intros H. unfold ParseSPIRV in H.
  repeat match type of H with
  | bindM ?c ?k ?s = Fault OutOfFuel =>
      lazymatch c with
      | structural_pass _ _ _ _ _ _ _ => fail
      | annotation_pass _ _ _ _ => fail
      | _ =>
          let E := fresh "E" in
          unfold bindM at 1 in H;
          destruct (c s) as [[? ?]|?] eqn:E;
          [|exfalso; inversion H; subst;
            revert E; first [apply finite_rd | apply finite_modify]]
      end
  | (if ?b then _ else _) ?s = _ => destruct b
  end; try discriminate.
  unfold bindM at 1 in H.
  match type of H with
  | match structural_pass ?o ?c ?w ?f ?i ?a ?b ?s with _ => _ end = _ =>
      destruct (structural_pass o c w f i a b s) as [[upass spass]|e] eqn:Epass
  end.
  - unfold bindM at 1 in H.
    match type of H with
    | match annotation_pass ?o ?w ?f ?i ?s with _ => _ end = _ =>
        destruct (annotation_pass o w f i s) as [[uann sann]|e] eqn:Eann
    end; [discriminate|].
    inversion H; subst e. eapply annotation_pass_out_of_fuel; [|exact Eann]. lia.
  - inversion H; subst e. eapply structural_pass_out_of_fuel; [|exact Epass]. lia.
Qed.

Lemma ParseSPIRV_ends_but_for_zero_count_witness :
  reaches_zero_count [MagicNumber; 99; 0; 10; 0; Samples.hd 2 19; 1; 0] 5.
Proof.
  apply (ParseSPIRV_ends_but_for_zero_count Samples.sample_Version
           Samples.sample_opOfWord Samples.sample_StorageClassFunction).
  reflexivity.
Defined.
